(** * search-sheets: the hybrid ranking engine and its document pipeline

    A shallow embedding of the JavaScript sources
      - backend/utils/formula-parser.js   (module [FormulaParser])
      - backend/utils/heuristics.js       (module [Heuristics])
      - backend/services/excel-parser.js  (module [ExcelParser])
      - backend/services/embedding-service.js (module [EmbeddingService])
      - backend/services/label-service.js (module [LabelService])
      - backend/services/search-service.js (module [SearchService])
      - backend/routes/search.js          (module [SearchRoute])
      - scripts/evaluate.js               (module [Evaluate])
    followed by the properties of the ranking pipeline, of the spreadsheet
    parser and of the grading of result lists.

    Conventions.
      - A JavaScript exception is a value [Throw msg] of the error type [Exc].
      - Strings are sequences of ASCII characters; [toLowerCase] folds A-Z.
      - Numbers of the ranking pipeline (scores, weights, complexity) are exact
        rationals extended with NaN ([number]); every division of the modelled
        code has a non-zero divisor, or divides a count that is 0 by 0, which
        is NaN, so no infinity arises there.
      - Cosine similarity runs on IEEE binary64, the numbers of JavaScript:
        [EmbeddingService] is written over the operations it uses
        ([Arithmetic]) and read at [binary64]; the real numbers appear only
        as the measure of its rounding errors. *)

From Stdlib Require Import Bool Arith ZArith QArith Qminmax Lqa Lia.
From Stdlib Require Import List String Ascii DecimalString.
From Stdlib Require DecimalPos DecimalZ.
From Stdlib Require Import Sorting.Sorted Sorting.Permutation.
From Stdlib Require Import Reals Lra.
From Stdlib Require Import Floats.
Import ListNotations.

Set Implicit Arguments.

(* ================================================================== *)
(** * JavaScript values *)
(* ================================================================== *)

Module Js.

(** ** Exceptions *)

Inductive Exc (A : Type) : Type :=
| Ok (a : A)
| Throw (msg : string).

Arguments Ok {A} a.
Arguments Throw {A} msg.

Definition bindE {A B} (m : Exc A) (k : A -> Exc B) : Exc B :=
  match m with
  | Ok a => k a
  | Throw e => Throw e
  end.

(** [arr.map(f)] where [f] may throw: the first exception aborts the map. *)
Fixpoint mapE {A B} (f : A -> Exc B) (l : list A) : Exc (list B) :=
  match l with
  | [] => Ok []
  | x :: l' =>
      bindE (f x) (fun y => bindE (mapE f l') (fun ys => Ok (y :: ys)))
  end.

(** ** Numbers: exact rationals and NaN *)

Inductive number : Type :=
| Num (q : Q)
| NaN.

Definition nadd (x y : number) : number :=
  match x, y with
  | Num a, Num b => Num (a + b)
  | _, _ => NaN
  end.

Definition nsub (x y : number) : number :=
  match x, y with
  | Num a, Num b => Num (a - b)
  | _, _ => NaN
  end.

Definition nmul (x y : number) : number :=
  match x, y with
  | Num a, Num b => Num (a * b)
  | _, _ => NaN
  end.

(** [x / y]. The quotient by zero (an infinity, or NaN for 0/0) is outside
    the model and reads NaN; no call site divides by zero. *)
Definition ndiv (x y : number) : number :=
  match x, y with
  | Num a, Num b => if Qeq_bool b 0 then NaN else Num (a / b)
  | _, _ => NaN
  end.

(** [Math.min(x, y)]: NaN if either argument is NaN. *)
Definition Math_min (x y : number) : number :=
  match x, y with
  | Num a, Num b => Num (Qmin a b)
  | _, _ => NaN
  end.

(** [x > y]; every comparison with NaN is false. *)
Definition ngt (x y : number) : bool :=
  match x, y with
  | Num a, Num b => negb (Qle_bool a b)
  | _, _ => false
  end.

(** A missing numeric property read in arithmetic: [undefined] converts
    to NaN. *)
Definition toNumber (o : option Q) : number :=
  match o with
  | Some q => Num q
  | None => NaN
  end.

Definition ofNat (n : nat) : number := Num (inject_Z (Z.of_nat n)).

(** [x || dflt] on a parsed numeric setting: 0, NaN and unset are falsy. *)
Definition numberOr (o : option Q) (dflt : Q) : Q :=
  match o with
  | Some q => if Qeq_bool q 0 then dflt else q
  | None => dflt
  end.

(** ** Strings *)

Definition dquote : string := String (ascii_of_nat 34) EmptyString.

(** Template-literal rendering of an integer. *)
Definition string_of_Z (z : Z) : string := NilZero.string_of_int (Z.to_int z).

Definition lowerAscii (c : ascii) : ascii :=
  let n := nat_of_ascii c in
  if andb (65 <=? n) (n <=? 90) then ascii_of_nat (n + 32) else c.

Fixpoint toLowerCase (s : string) : string :=
  match s with
  | EmptyString => EmptyString
  | String c s' => String (lowerAscii c) (toLowerCase s')
  end.

(** [s.includes(p)] *)
Fixpoint includes (s p : string) : bool :=
  if prefix p s then true
  else match s with
       | EmptyString => false
       | String _ s' => includes s' p
       end.

(** [parts.join(sep)] *)
Fixpoint join (sep : string) (parts : list string) : string :=
  match parts with
  | [] => EmptyString
  | [p] => p
  | p :: rest => p ++ sep ++ join sep rest
  end.

(** The class [\s] on ASCII: tab, line feed, vertical tab, form feed,
    carriage return, space. *)
Definition isSpace (c : ascii) : bool :=
  let n := nat_of_ascii c in
  orb (andb (9 <=? n) (n <=? 13)) (n =? 32).

(** [s.split(/\s+/)]: [cur] is the piece being read (reversed), [inSep]
    tells that the previous character was white space.  A leading or
    trailing run of white space yields an empty first or last piece, and
    the empty string splits into one empty piece. *)
Fixpoint splitWs (s : string) (cur : string) (inSep : bool) : list string :=
  match s with
  | EmptyString => [cur]
  | String c s' =>
      if isSpace c then
        if inSep then splitWs s' cur true
        else cur :: splitWs s' EmptyString true
      else splitWs s' (cur ++ String c EmptyString) false
  end.

Definition split_whitespace (s : string) : list string :=
  splitWs s EmptyString false.

(** Truthiness of an optional string: [undefined], [null] and the empty
    string are falsy. *)
Definition truthy (o : option string) : option string :=
  match o with
  | Some EmptyString => None
  | Some s => Some s
  | None => None
  end.

(** [a || b] on optional strings. *)
Definition orElse (a b : option string) : option string :=
  match truthy a with
  | Some s => Some s
  | None => b
  end.

(** [[...new Set(l)]]: first occurrences, in order. *)
Fixpoint dedupe (l : list string) (seen : list string) : list string :=
  match l with
  | [] => []
  | x :: l' =>
      if existsb (String.eqb x) seen then dedupe l' seen
      else x :: dedupe l' (x :: seen)
  end.

Definition unique (l : list string) : list string := dedupe l [].

(** [l.includes(x)] on an array of strings. *)
Definition arrayIncludes (l : list string) (x : string) : bool :=
  existsb (String.eqb x) l.

(** [arr.sort(compareFn)].  The sort is stable; [compareFn a b > 0] places
    [b] before [a], any other value (negative, zero, or NaN which the
    sort reads as zero) keeps the order of the two.  Every stable sort
    agrees with stable insertion when the comparator is consistent; when
    it is not (a NaN key) the language leaves the order to the engine,
    and insertion is the order the model takes. *)
Section Sort.
Variable A : Type.
Variable compareFn : A -> A -> number.

Fixpoint insert (x : A) (l : list A) : list A :=
  match l with
  | [] => [x]
  | y :: l' =>
      if ngt (compareFn x y) (Num 0) then y :: insert x l'
      else x :: l
  end.

Definition sort (l : list A) : list A := fold_right insert [] l.
End Sort.

(** The same sort for a comparator read through its test
    [compareFn a b > 0]. *)
Section SortBy.
Variable A : Type.
Variable positive : A -> A -> bool.

Fixpoint insertBy (x : A) (l : list A) : list A :=
  match l with
  | [] => [x]
  | y :: l' =>
      if positive x y then y :: insertBy x l'
      else x :: l
  end.

Definition sortBy (l : list A) : list A := fold_right insertBy [] l.
End SortBy.

(** [arr.slice(0, k)] for a count [k]. *)
Definition slice0 {A} (k : nat) (l : list A) : list A := firstn k l.

(** [s.trim()] on ASCII: the white space at both ends is removed. *)
Fixpoint trimStart (s : string) : string :=
  match s with
  | EmptyString => EmptyString
  | String c s' => if isSpace c then trimStart s' else s
  end.

Fixpoint trimEnd (s : string) : string :=
  match s with
  | EmptyString => EmptyString
  | String c s' =>
      match trimEnd s' with
      | EmptyString =>
          if isSpace c then EmptyString else String c EmptyString
      | String c' t => String c (String c' t)
      end
  end.

Definition trim (s : string) : string := trimEnd (trimStart s).

(** Truthiness of a string. *)
Definition nonEmpty (s : string) : bool :=
  match s with
  | EmptyString => false
  | String _ _ => true
  end.

(** [arr[i]] for an integer index; [None] is the [undefined] read
    outside the array. *)
Definition item {A} (l : list A) (i : Z) : option A :=
  if (i <? 0)%Z then None else nth_error l (Z.to_nat i).

(** The values [lo], [lo + 1], ..., [hi - 1] of the counter of a loop
    [for (let i = lo; i < hi; i++)]. *)
Definition upto (lo hi : Z) : list Z :=
  map (fun k => (lo + Z.of_nat k)%Z) (seq 0 (Z.to_nat (hi - lo))).

(** An array with its indices: [arr.entries()]. *)
Definition entries {A} (l : list A) : list (Z * A) :=
  combine (upto 0 (Z.of_nat (List.length l))) l.

(** [Math.min(...l)] and [Math.max(...l)] for a non-empty list of
    integers (for the empty list JavaScript gives an infinity, which the
    callers exclude; the model reads 0 there). *)
Definition Math_minOf (l : list Z) : Z :=
  match l with
  | [] => 0%Z
  | x :: l' => fold_left Z.min l' x
  end.

Definition Math_maxOf (l : list Z) : Z :=
  match l with
  | [] => 0%Z
  | x :: l' => fold_left Z.max l' x
  end.

(** [String.fromCharCode(n)] for a code below 256. *)
Definition fromCharCode (n : Z) : ascii := ascii_of_nat (Z.to_nat n).

(** [s.charCodeAt(i)] of a character. *)
Definition charCode (c : ascii) : Z := Z.of_nat (nat_of_ascii c).

(** [s.replace(/re/g, by)] for a class [re] of single characters. *)
Fixpoint replaceAll (inClass : ascii -> bool) (by_ : ascii) (s : string)
  : string :=
  match s with
  | EmptyString => EmptyString
  | String c s' =>
      String (if inClass c then by_ else c) (replaceAll inClass by_ s')
  end.

End Js.

Import Js.

Open Scope string_scope.
Open Scope list_scope.

(* ================================================================== *)
(** * backend/utils/formula-parser.js *)
(* ================================================================== *)

Module FormulaParser.

(** The [type] tag of a node of the expression tree. *)
Inductive NodeType : Type :=
| FUNCTION
| OPERATOR
| CELL_REFERENCE
| CELL_RANGE
| OTHER_NODE.

(** A node: [type], [name], [value], [sheet], [absolute] and [args]
    (a node without [args] has the empty list). *)
#[local] Unset Elimination Schemes.
Inductive Node : Type :=
| mkNode (type : NodeType) (name value : string) (sheet : option string)
         (absolute : bool) (args : list Node).
#[local] Set Elimination Schemes.

Definition node_type (n : Node) : NodeType :=
  match n with mkNode t _ _ _ _ _ => t end.
Definition node_name (n : Node) : string :=
  match n with mkNode _ x _ _ _ _ => x end.
Definition node_value (n : Node) : string :=
  match n with mkNode _ _ v _ _ _ => v end.
Definition node_sheet (n : Node) : option string :=
  match n with mkNode _ _ _ s _ _ => s end.
Definition node_absolute (n : Node) : bool :=
  match n with mkNode _ _ _ _ a _ => a end.
Definition node_args (n : Node) : list Node :=
  match n with mkNode _ _ _ _ _ l => l end.

Inductive RefKind : Type := RefCell | RefRange.

Record Reference : Type := mkReference {
  ref_kind : RefKind;
  ref_value : string;
  ref_sheet : option string;
  ref_absolute : bool
}.

(** What [parseFormula] returns.  The failure shape carries [error],
    [original] and three empty arrays, and neither [complexity] nor [type];
    hand-made objects may lack [functions] too. *)
Record ParsedFormula : Type := mkParsedFormula {
  pf_error : option string;
  pf_original : string;
  pf_ast : option Node;
  pf_functions : option (list string);
  pf_references : list Reference;
  pf_operators : list string;
  pf_complexity : option Q;
  pf_type : option string
}.

(** The pre-order traversal shared by the four extractors: [visit] is
    applied to the node, then the children are traversed left to right. *)
Section Traverse.
Variable S : Type.
Variable visit : Node -> S -> S.

Fixpoint traverse (n : Node) (acc : S) : S :=
  match n with
  | mkNode _ _ _ _ _ args =>
      (fix each (l : list Node) (acc : S) : S :=
         match l with
         | [] => acc
         | c :: l' => each l' (traverse c acc)
         end) args (visit n acc)
  end.

Definition traverseAll (l : list Node) (acc : S) : S :=
  fold_left (fun a c => traverse c a) l acc.
End Traverse.

Definition extractFunctions (ast : Node) : list string :=
  unique (traverse
    (fun n acc =>
       match node_type n with
       | FUNCTION => acc ++ [node_name n]
       | _ => acc
       end) ast []).

Definition extractReferences (ast : Node) : list Reference :=
  traverse
    (fun n acc =>
       match node_type n with
       | CELL_REFERENCE =>
           acc ++ [mkReference RefCell (node_value n)
                     (truthy (node_sheet n)) (node_absolute n)]
       | CELL_RANGE =>
           acc ++ [mkReference RefRange (node_value n)
                     (truthy (node_sheet n)) (node_absolute n)]
       | _ => acc
       end) ast [].

Definition extractOperators (ast : Node) : list string :=
  unique (traverse
    (fun n acc =>
       match node_type n with
       | OPERATOR => acc ++ [node_value n]
       | _ => acc
       end) ast []).

(** +2 per function, +1 per operator, +0.5 per reference. *)
Definition complexityStep (n : Node) (complexity : Q) : Q :=
  match node_type n with
  | FUNCTION => (complexity + 2)%Q
  | OPERATOR => (complexity + 1)%Q
  | CELL_REFERENCE | CELL_RANGE => (complexity + (1 # 2))%Q
  | OTHER_NODE => complexity
  end.

Definition calculateComplexity (ast : Node) : Q :=
  traverse complexityStep ast 0%Q.

Definition determineFormulaType (ast : Node) : string :=
  let functions := extractFunctions ast in
  let operators := extractOperators ast in
  let has := arrayIncludes in
  if has functions "SUM" then "aggregation"
  else if has functions "AVERAGE" then "aggregation"
  else if has functions "COUNT" then "aggregation"
  else if orb (has functions "MAX") (has functions "MIN") then "aggregation"
  else if has functions "IF" then "conditional"
  else if orb (has functions "VLOOKUP") (has functions "HLOOKUP") then "lookup"
  else if orb (has functions "INDEX") (has functions "MATCH") then "lookup"
  else if has functions "XLOOKUP" then "lookup"
  else if andb (has operators "/") (Nat.eqb (List.length functions) 0) then "percentage"
  else if andb (has operators "*") (Nat.eqb (List.length functions) 0) then "calculation"
  else if orb (has operators "+") (has operators "-") then "calculation"
  else if orb (has functions "RATE") (has functions "CAGR") then "financial"
  else if orb (has functions "PMT")
              (orb (has functions "FV") (has functions "PV")) then "financial"
  else "other".

(** The record returned on a parse failure. *)
Definition failure (error original : string) : ParsedFormula :=
  mkParsedFormula (Some error) original None (Some []) [] [] None None.

(** The record returned on success. *)
Definition success (original : string) (parsed : Node) : ParsedFormula :=
  mkParsedFormula None original (Some parsed)
    (Some (extractFunctions parsed))
    (extractReferences parsed)
    (extractOperators parsed)
    (Some (calculateComplexity parsed))
    (Some (determineFormulaType parsed)).

(** The external parser ([hot-formula-parser]): it throws, or returns an
    object that carries a non-empty [error], or returns the tree. *)
Inductive ParserOutput : Type :=
| ParsedTree (root : Node)
| ParsedError (error : string).

Section ParseFormula.
Variable parser_parse : string -> Exc ParserOutput.

(** [parseFormula(formula)]; [None] is [null]. *)
Definition parseFormula (formula : option string) : option ParsedFormula :=
  match truthy formula with
  | None => None
  | Some f =>
      if negb (prefix "=" f) then None
      else match parser_parse f with
           | Ok (ParsedTree parsed) => Some (success f parsed)
           | Ok (ParsedError e) => Some (failure e f)
           | Throw msg => Some (failure msg f)
           end
  end.
End ParseFormula.

End FormulaParser.

(* ================================================================== *)
(** * The data model: cells and ranges *)
(* ================================================================== *)

Module Model.
Import FormulaParser.

(** One entry of [headers.context]. *)
Record ContextEntry : Type := mkContextEntry {
  ctx_value : string;
  ctx_row : Z;
  ctx_column : Z;
  ctx_distance : Z
}.

(** [cell.headers]; fixtures and synthetic cells leave fields out. *)
Record Headers : Type := mkHeaders {
  hdr_row : option string;
  hdr_column : option string;
  hdr_context : option (list ContextEntry)
}.

(** A cell as built by the spreadsheet parser (the three format fields,
    always [null], are left out). *)
Record Cell : Type := mkCell {
  cell_id : string;
  cell_spreadsheetId : string;
  cell_sheetName : string;
  cell_row : Z;
  cell_column : Z;
  cell_cellRef : string;
  cell_rawValue : option string;
  cell_formattedValue : option string;
  cell_formula : option string;
  cell_parsedFormula : option ParsedFormula;
  cell_type : string;
  cell_headers : option Headers
}.

(** A range document; [range_cells] is the [cells] property whose presence
    tells a range from a cell. *)
Record Range : Type := mkRange {
  range_id : string;
  range_spreadsheetId : string;
  range_sheetName : string;
  range_header : option string;
  range_cells : list Cell;
  range_startRow : Z;
  range_endRow : Z;
  range_startColumn : Z;
  range_endColumn : Z;
  range_sampleValues : option (list string);
  range_hasFormulas : bool;
  range_formulaPattern : option string
}.

(** [cell.headers?.column], [cell.headers?.row], [cell.headers?.context] *)
Definition headers_column (c : Cell) : option string :=
  match cell_headers c with
  | Some h => hdr_column h
  | None => None
  end.

Definition headers_row (c : Cell) : option string :=
  match cell_headers c with
  | Some h => hdr_row h
  | None => None
  end.

Definition headers_context (c : Cell) : option (list ContextEntry) :=
  match cell_headers c with
  | Some h => hdr_context h
  | None => None
  end.

(** An optional string inside a template literal; a missing one is the
    [null] the spreadsheet parser stores. *)
Definition template (o : option string) : string :=
  match o with
  | Some s => s
  | None => "null"
  end.

End Model.

(* ================================================================== *)
(** * backend/utils/heuristics.js *)
(* ================================================================== *)

Module Heuristics.
Import FormulaParser Model.

(** The rows of a sheet, as [XLSX.utils.sheet_to_json] returns them with
    [header: 1], [raw: false] and [defval: '']: arrays of strings, the
    empty string for an empty cell. *)
Definition Grid : Type := list (list string).

(** What [detectHeaders] returns. *)
Record HeaderInfo : Type := mkHeaderInfo {
  rowHeaders : list string;
  columnHeaders : list string;
  headerRows : list Z
}.

(** The [options] of [detectHeaders]; a missing property takes its
    default. *)
Record DetectOptions : Type := mkDetectOptions {
  opt_headerRows : option nat;
  opt_minTextCells : option nat
}.

(** [cell && typeof cell === 'string' && cell.trim()] on a string. *)
Definition isText (cell : string) : bool :=
  andb (nonEmpty cell) (nonEmpty (trim cell)).

Definition detectHeaders (values : Grid) (options : DetectOptions)
  : HeaderInfo :=
  let headerRows := match opt_headerRows options with
                    | Some n => n
                    | None => 1%nat
                    end in
  let minTextCells := match opt_minTextCells options with
                      | Some n => n
                      | None => 3%nat
                      end in
  if Nat.eqb (List.length values) 0 then mkHeaderInfo [] [] []
  else
    let limit := Nat.min headerRows (List.length values) in
    let rowHeaders :=
      flat_map (fun row =>
                  match row with
                  | cell :: _ => if isText cell then [trim cell] else []
                  | [] => []
                  end)
               (firstn limit values) in
    let firstRow := match values with
                    | row :: _ => row
                    | [] => []
                    end in
    let columnHeaders :=
      flat_map (fun cell => if isText cell then [trim cell] else [])
               firstRow in
    let detectedHeaderRows :=
      flat_map (fun entry =>
                  let textCells := List.length (filter isText (snd entry)) in
                  if Nat.leb minTextCells textCells then [fst entry] else [])
               (entries (firstn limit values)) in
    mkHeaderInfo rowHeaders columnHeaders detectedHeaderRows.

Definition matchesPattern (text : string) (patterns : list string) : bool :=
  existsb (fun pattern => includes text (toLowerCase pattern)) patterns.

(** [if (cond) concepts.push(c)] *)
Definition pushIf (cond : bool) (c : string) (concepts : list string)
  : list string :=
  if cond then concepts ++ [c] else concepts.

(** [(cell.formattedValue || cell.rawValue || '').toLowerCase()] *)
Definition cellText (cell : Cell) : string :=
  toLowerCase
    (match orElse (cell_formattedValue cell) (truthy (cell_rawValue cell)) with
     | Some s => s
     | None => EmptyString
     end).

(** [[column, row, ...context values].filter(Boolean).join(' ')
    .toLowerCase()] *)
Definition headerText (cell : Cell) : string :=
  let context := match headers_context cell with
                 | Some l => l
                 | None => []
                 end in
  let items := headers_column cell :: headers_row cell
               :: map (fun c => Some (ctx_value c)) context in
  let kept := flat_map (fun o => match truthy o with
                                 | Some s => [s]
                                 | None => []
                                 end) items in
  toLowerCase (join " " kept).

Definition allText (cell : Cell) : string :=
  cellText cell ++ " " ++ headerText cell.

(** [cell.formula && matchesPattern(cell.formula.toLowerCase(), ps)] *)
Definition formulaMatches (cell : Cell) (patterns : list string) : bool :=
  match truthy (cell_formula cell) with
  | Some f => matchesPattern (toLowerCase f) patterns
  | None => false
  end.

Definition detectBusinessConcepts (cell : Cell) : list string :=
  let allText := allText cell in
  let concepts := [] in
  let concepts := pushIf
    (matchesPattern allText ["revenue"; "sales"; "income"; "earnings"])
    "revenue" concepts in
  let concepts := pushIf
    (matchesPattern allText
       ["cost"; "expense"; "cogs"; "cost of goods"; "operating expense"])
    "cost" concepts in
  let concepts := pushIf
    (matchesPattern allText
       ["profit"; "margin"; "gross profit"; "net profit"; "ebitda"])
    "profitability" concepts in
  let concepts := pushIf
    (matchesPattern allText ["%"; "percent"; "percentage"; "rate"; "ratio"])
    "percentage" concepts in
  let concepts := pushIf
    (matchesPattern allText
       ["growth"; "increase"; "decrease"; "change"; "cagr"; "yoy"])
    "growth" concepts in
  let concepts := pushIf
    (matchesPattern allText
       ["budget"; "actual"; "variance"; "forecast"; "projection"])
    "budget" concepts in
  let concepts := pushIf
    (matchesPattern allText
       ["q1"; "q2"; "q3"; "q4"; "quarter"; "monthly"; "yearly"; "annual"])
    "time_series" concepts in
  let concepts := pushIf
    (matchesPattern allText ["roi"; "roa"; "roe"; "debt"; "equity"; "ratio"])
    "financial_ratio" concepts in
  let concepts := pushIf
    (formulaMatches cell ["vlookup"; "hlookup"; "xlookup"; "index"; "match"])
    "lookup" concepts in
  let concepts := pushIf
    (formulaMatches cell ["sum"; "average"; "count"; "max"; "min"])
    "aggregation" concepts in
  let concepts := pushIf
    (formulaMatches cell ["if"; "ifs"; "switch"; "choose"])
    "conditional" concepts in
  unique concepts.

Definition calculateConceptMatch (cellConcepts queryConcepts : list string)
  : number :=
  if orb (Nat.eqb (List.length cellConcepts) 0)
         (Nat.eqb (List.length queryConcepts) 0)
  then Num 0
  else
    let intersection :=
      filter (fun concept => arrayIncludes queryConcepts concept)
             cellConcepts in
    ndiv (ofNat (List.length intersection))
         (ofNat (Nat.max (List.length cellConcepts)
                         (List.length queryConcepts))).

Definition complexFunctions : list string :=
  ["VLOOKUP"; "INDEX"; "MATCH"; "XLOOKUP"; "IFS"; "SWITCH"].

Definition maxComplexity : Q := 20.

Definition detectFormulaComplexity (parsedFormula : option ParsedFormula)
  : number :=
  match parsedFormula with
  | None => Num 0
  | Some pf =>
      match pf_functions pf with
      | None => Num 0
      | Some functions =>
          let complexity := toNumber (pf_complexity pf) in
          let normalizedComplexity :=
            Math_min (ndiv complexity (Num maxComplexity)) (Num 1) in
          let hasComplexFunctions :=
            existsb (fun fn => arrayIncludes complexFunctions fn) functions in
          if hasComplexFunctions
          then Math_min (nadd normalizedComplexity (Num (3 # 10))) (Num 1)
          else normalizedComplexity
      end
  end.

Definition calculateSheetImportance (sheetName : string) : number :=
  let name := toLowerCase sheetName in
  if matchesPattern name
       ["p&l"; "profit"; "income"; "revenue"; "financial"; "budget";
        "forecast"]
  then Num 1
  else if matchesPattern name
       ["dashboard"; "summary"; "overview"; "analysis"; "metrics"]
  then Num (7 # 10)
  else if matchesPattern name ["raw"; "data"; "input"; "temp"; "backup"]
  then Num (3 # 10)
  else Num (1 # 2).

(** [if (o) parts.push(label + o)] *)
Definition pushPart (label : string) (o : option string)
  (parts : list string) : list string :=
  match truthy o with
  | Some s => parts ++ [(label ++ s)%string]
  | None => parts
  end.

(** The exported text builder for cells. *)
Definition generateEmbeddingText (cell : Cell) : string :=
  let parts := [("Sheet: " ++ cell_sheetName cell)%string] in
  let parts := pushPart "Column: " (headers_column cell) parts in
  let parts := pushPart "Row: " (headers_row cell) parts in
  let parts :=
    match truthy (cell_formula cell) with
    | Some f =>
        let parts := parts ++ [("Formula: " ++ f)%string] in
        pushPart "Type: "
          (match cell_parsedFormula cell with
           | Some pf => pf_type pf
           | None => None
           end) parts
    | None => pushPart "Value: " (cell_formattedValue cell) parts
    end in
  let parts :=
    match headers_context cell with
    | Some (e :: ctx) =>
        parts ++ [("Context: " ++
                   join ", " (map ctx_value (slice0 3 (e :: ctx))))%string]
    | _ => parts
    end in
  join " - " parts.

(** The exported text builder for ranges. *)
Definition generateRangeEmbeddingText (range : Range) : string :=
  let parts := [("Sheet: " ++ range_sheetName range)%string] in
  let parts := pushPart "Header: " (range_header range) parts in
  let parts := parts ++ [("Range: " ++ string_of_Z (range_startRow range)
                          ++ "-" ++ string_of_Z (range_endRow range))%string] in
  let parts :=
    match range_sampleValues range with
    | Some (v :: vs) =>
        parts ++ [("Values: " ++ join ", " (slice0 3 (v :: vs)))%string]
    | _ => parts
    end in
  let parts :=
    match truthy (range_formulaPattern range) with
    | Some p => if String.eqb p "values" then parts
                else parts ++ [("Pattern: " ++ p)%string]
    | None => parts
    end in
  join " - " parts.

End Heuristics.

(* ================================================================== *)
(** * backend/services/excel-parser.js *)
(* ================================================================== *)

Module ExcelParser.
Import FormulaParser Model Heuristics.

(** ** References and identifiers *)

(** The loop of [getColumnLetter]: [while (col >= 0)], at most [fuel]
    times. *)
Fixpoint columnLoop (fuel : nat) (col : Z) (result : string) : string :=
  match fuel with
  | O => result
  | S fuel' =>
      if (0 <=? col)%Z
      then columnLoop fuel' (col / 26 - 1)%Z
             (String (fromCharCode (65 + col mod 26)) result)
      else result
  end.

(** The counter decreases at every turn, so [col + 1] turns are enough. *)
Definition getColumnLetter (col : Z) : string :=
  columnLoop (S (Z.to_nat col)) col EmptyString.

Definition getCellReference (row col : Z) : string :=
  let colLetter := getColumnLetter col in
  (colLetter ++ string_of_Z (row + 1))%string.

(** The class [[^a-z0-9]]. *)
Definition notLowerAlnum (c : ascii) : bool :=
  let n := nat_of_ascii c in
  negb (orb (andb (97 <=? n)%nat (n <=? 122)%nat)
            (andb (48 <=? n)%nat (n <=? 57)%nat)).

(** [name.toLowerCase().replace(/[^a-z0-9]/g, '_')] for a name of ASCII
    characters, on which lower-casing folds A-Z and keeps the length. *)
Definition generateId (name : string) : string :=
  replaceAll notLowerAlnum "_"%char (toLowerCase name).

(** ** Cell types *)

Definition isDigit (c : ascii) : bool :=
  let n := nat_of_ascii c in
  andb (48 <=? n)%nat (n <=? 57)%nat.

(** [/^\d{4}-\d{2}-\d{2}/.test(s)] *)
Definition looksLikeDate (s : string) : bool :=
  match s with
  | String y1 (String y2 (String y3 (String y4 (String d1
      (String m1 (String m2 (String d2 (String a1 (String a2 _))))))))) =>
      andb (forallb isDigit [y1; y2; y3; y4; m1; m2; a1; a2])
           (andb (Ascii.eqb d1 "-"%char) (Ascii.eqb d2 "-"%char))
  | _ => false
  end.

Section Sheet.
(** The formula parser, see [FormulaParser.parseFormula]. *)
Variable parser_parse : string -> Exc ParserOutput.
(** The global function [isNaN] on a string: the string does not read
    as a number. *)
Variable isNaN : string -> bool.
(** The worksheet: the formula [f] of the cell stored under a cell
    reference, if there is such a cell and it has one. *)
Variable worksheet : string -> option string.

Definition getCellFormula (cellRef : string) : option string :=
  truthy (worksheet cellRef).

(** [cell.formattedValue?.includes('%')], then the raw value. *)
Definition determineCellType (cell : Cell) : string :=
  match truthy (cell_formula cell) with
  | Some _ => "formula"
  | None =>
      if match cell_formattedValue cell with
         | Some v => includes v "%"
         | None => false
         end
      then "percentage"
      else
        match cell_rawValue cell with
        | Some raw =>
            if andb (negb (isNaN raw)) (nonEmpty raw) then "number"
            else if looksLikeDate raw then "date"
            else "text"
        | None => "text"
        end
  end.

(** ** Headers of a cell *)

Definition contextRange : Z := 2.

(** [values[r]?.length || 0] *)
Definition rowLength (values : Grid) (r : Z) : Z :=
  match item values r with
  | Some row => Z.of_nat (List.length row)
  | None => 0
  end.

(** [values[r]?.[c]] *)
Definition valueAt (values : Grid) (r c : Z) : option string :=
  match item values r with
  | Some row => item row c
  | None => None
  end.

Definition getCellHeaders (cell : Cell) (headerInfo : HeaderInfo)
  (values : Grid) : Headers :=
  let column :=
    if (cell_column cell
        <=? Z.of_nat (List.length (columnHeaders headerInfo)))%Z
    then item (columnHeaders headerInfo) (cell_column cell - 1)
    else None in
  let row :=
    if (cell_row cell <=? Z.of_nat (List.length (rowHeaders headerInfo)))%Z
    then item (rowHeaders headerInfo) (cell_row cell - 1)
    else None in
  let context :=
    flat_map
      (fun r =>
         flat_map
           (fun c =>
              if negb (andb (r =? cell_row cell - 1)%Z
                            (c =? cell_column cell - 1)%Z)
              then
                match valueAt values r c with
                | Some contextValue =>
                    if isText contextValue
                    then [mkContextEntry contextValue (r + 1) (c + 1)
                            (Z.abs (r - (cell_row cell - 1))
                             + Z.abs (c - (cell_column cell - 1)))]
                    else []
                | None => []
                end
              else [])
           (upto (Z.max 0 (cell_column cell - contextRange - 1))
                 (Z.min (rowLength values r)
                        (cell_column cell + contextRange))))
      (upto (Z.max 0 (cell_row cell - contextRange - 1))
            (Z.min (Z.of_nat (List.length values))
                   (cell_row cell + contextRange))) in
  mkHeaders row column (Some context).

(** ** Ranges *)

(** The maximal run of capital letters at the start of [s]. *)
Fixpoint capitals (s : string) : string :=
  match s with
  | String c s' =>
      if andb (65 <=? nat_of_ascii c)%nat (nat_of_ascii c <=? 90)%nat
      then String c (capitals s')
      else EmptyString
  | EmptyString => EmptyString
  end.

(** [f.match(/=([A-Z]+)/)?.[1]]: the capital letters after the first
    "=" that is followed by one. *)
Fixpoint functionName (f : string) : option string :=
  match f with
  | EmptyString => None
  | String c f' =>
      if Ascii.eqb c "="%char
      then match capitals f' with
           | EmptyString => functionName f'
           | name => Some name
           end
      else functionName f'
  end.

(** [arr.filter(v => v === a).length] *)
Definition occurrences (arr : list string) (a : string) : nat :=
  List.length (filter (fun v => String.eqb v a) arr).

Definition detectFormulaPattern (cells : list Cell) : string :=
  let formulas :=
    flat_map (fun c => match truthy (cell_formula c) with
                       | Some f => [f]
                       | None => []
                       end) cells in
  if Nat.eqb (List.length formulas) 0 then "values"
  else
    let functions :=
      if forallb (fun f => prefix "=" f) formulas
      then flat_map (fun f => match functionName f with
                              | Some name => [name]
                              | None => []
                              end) formulas
      else [] in
    match functions with
    | first :: rest =>
        fold_left
          (fun a b =>
             if Nat.leb (occurrences functions b) (occurrences functions a)
             then a else b)
          rest first
    | [] => "mixed"
    end.

(** [cellGroups]: a [Map] from group key to the cells of the group, in
    the order of insertion of the keys. *)
Definition Groups : Type := list (string * list Cell).

(** [if (!cellGroups.has(key)) cellGroups.set(key, []);
     cellGroups.get(key).push(cell)] *)
Fixpoint groupPush (key : string) (cell : Cell) (groups : Groups)
  : Groups :=
  match groups with
  | [] => [(key, [cell])]
  | (k, cells) :: groups' =>
      if String.eqb k key then (k, cells ++ [cell]) :: groups'
      else (k, cells) :: groupPush key cell groups'
  end.

(** [cell.headers.column]: reading [column] of a missing [headers]
    throws. *)
Definition headerOf (cell : Cell) : Exc (option string) :=
  match cell_headers cell with
  | Some h => Ok (hdr_column h)
  | None => Throw "Cannot read properties of undefined (reading 'column')"
  end.

Definition groupKey (cell : Cell) : Exc string :=
  bindE (headerOf cell) (fun header =>
    Ok (cell_sheetName cell ++ "_" ++
        match truthy header with
        | Some h => h
        | None => "unknown"
        end)%string).

(** The first loop; [processedCells] is empty all along, it is filled by
    the second loop only. *)
Fixpoint groupCells (processedCells : list string) (cells : list Cell)
  (groups : Groups) : Exc Groups :=
  match cells with
  | [] => Ok groups
  | cell :: cells' =>
      if arrayIncludes processedCells (cell_id cell)
      then groupCells processedCells cells' groups
      else
        bindE (groupKey cell) (fun key =>
          groupCells processedCells cells' (groupPush key cell groups))
  end.

(** The range document of one group of two cells at least. *)
Definition rangeOf (key : string) (first : Cell) (others : list Cell)
  : Exc Range :=
  let groupCells := first :: others in
  bindE (headerOf first) (fun header =>
    Ok (mkRange ("range_" ++ key)
          (cell_spreadsheetId first)
          (cell_sheetName first)
          header
          groupCells
          (Math_minOf (map cell_row groupCells))
          (Math_maxOf (map cell_row groupCells))
          (Math_minOf (map cell_column groupCells))
          (Math_maxOf (map cell_column groupCells))
          (Some (map (fun c => match cell_formattedValue c with
                               | Some v => v
                               | None => EmptyString
                               end)
                     (slice0 5 groupCells)))
          (existsb (fun c => match truthy (cell_formula c) with
                             | Some _ => true
                             | None => false
                             end) groupCells)
          (Some (detectFormulaPattern groupCells)))).

(** The second loop: groups of fewer than two cells are skipped. *)
Fixpoint rangesOf (groups : Groups) : Exc (list Range) :=
  match groups with
  | [] => Ok []
  | (key, first :: second :: others) :: groups' =>
      bindE (rangeOf key first (second :: others)) (fun range =>
        bindE (rangesOf groups') (fun ranges => Ok (range :: ranges)))
  | _ :: groups' => rangesOf groups'
  end.

Definition createRangeDocuments (cells : list Cell) (headerInfo : HeaderInfo)
  : Exc (list Range) :=
  bindE (groupCells [] cells []) rangesOf.

(** ** Sheets *)

(** What [parseSheet] returns (without the time stamp); [columnCount] is
    [None] for the [-Infinity] of a sheet without rows. *)
Record SheetData : Type := mkSheetData {
  sheet_spreadsheetId : string;
  sheet_sheetName : string;
  sheet_title : string;
  sheet_rowCount : Z;
  sheet_columnCount : option Z;
  sheet_headerInfo : HeaderInfo;
  sheet_cells : list Cell;
  sheet_ranges : list Range
}.

(** The body of the inner loop of [parseSheet] for a cell that is not
    empty. *)
Definition parseCell (sheetName : string) (headerInfo : HeaderInfo)
  (jsonData : Grid) (rowIndex colIndex : Z) (cellValue : string) : Cell :=
  let cellRef := getCellReference rowIndex colIndex in
  let cellFormula := getCellFormula cellRef in
  let id := (generateId sheetName ++ "_" ++ string_of_Z (rowIndex + 1)
             ++ "_" ++ string_of_Z (colIndex + 1))%string in
  let parsedFormula :=
    match truthy cellFormula with
    | Some f => parseFormula parser_parse (Some f)
    | None => None
    end in
  let cell :=
    mkCell id (generateId sheetName) sheetName (rowIndex + 1)
      (colIndex + 1) cellRef (Some cellValue) (Some cellValue)
      cellFormula parsedFormula EmptyString None in
  let cell :=
    mkCell id (generateId sheetName) sheetName (rowIndex + 1)
      (colIndex + 1) cellRef (Some cellValue) (Some cellValue)
      cellFormula parsedFormula (determineCellType cell) None in
  mkCell id (generateId sheetName) sheetName (rowIndex + 1)
    (colIndex + 1) cellRef (Some cellValue) (Some cellValue)
    cellFormula parsedFormula (cell_type cell)
    (Some (getCellHeaders cell headerInfo jsonData)).

(** The two loops of [parseSheet]: the cells in row-major order, an
    empty value skipped. *)
Definition parseCells (sheetName : string) (headerInfo : HeaderInfo)
  (jsonData : Grid) : list Cell :=
  flat_map
    (fun rowEntry =>
       flat_map
         (fun colEntry =>
            if nonEmpty (snd colEntry)
            then [parseCell sheetName headerInfo jsonData (fst rowEntry)
                    (fst colEntry) (snd colEntry)]
            else [])
         (entries (snd rowEntry)))
    (entries jsonData).

(** [parseSheet] from the rows of the sheet on.  The header detection is
    called with [options.headerRows], a number or [undefined], in the
    place of its options object, so that it always runs with its
    defaults. *)
Definition parseSheet (sheetName : string) (jsonData : Grid)
  : Exc SheetData :=
  let headerInfo := detectHeaders jsonData (mkDetectOptions None None) in
  let cells := parseCells sheetName headerInfo jsonData in
  bindE (createRangeDocuments cells headerInfo) (fun rangeDocuments =>
    Ok (mkSheetData (generateId sheetName) sheetName sheetName
          (Z.of_nat (List.length jsonData))
          (match jsonData with
           | [] => None
           | _ => Some (Math_maxOf
                          (map (fun row => Z.of_nat (List.length row))
                               jsonData))
           end)
          headerInfo cells rangeDocuments)).
End Sheet.

End ExcelParser.

(* ================================================================== *)
(** * backend/services/embedding-service.js *)
(* ================================================================== *)

Module EmbeddingService.

(** The arithmetic [calculateCosineSimilarity] uses: [0], [+], [*], [/],
    [Math.sqrt] and the test [x === 0]. *)
Record Arithmetic : Type := mkArithmetic {
  num : Type;
  zero : num;
  add : num -> num -> num;
  mul : num -> num -> num;
  div : num -> num -> num;
  sqrt : num -> num;
  isZero : num -> bool
}.

(** IEEE 754 binary64, the arithmetic of JavaScript numbers. *)
Definition binary64 : Arithmetic :=
  mkArithmetic 0%float PrimFloat.add PrimFloat.mul PrimFloat.div
    PrimFloat.sqrt (fun x => PrimFloat.eqb x 0%float).

Section Cosine.
Variable A : Arithmetic.

(** The loop: [dotProduct], [normA] and [normB] after the components
    of both vectors have been read in step. *)
Fixpoint accumulate (vectorA vectorB : list (num A))
  (dotProduct normA normB : num A) : num A * num A * num A :=
  match vectorA, vectorB with
  | a :: vectorA', b :: vectorB' =>
      accumulate vectorA' vectorB'
        (add A dotProduct (mul A a b))
        (add A normA (mul A a a))
        (add A normB (mul A b b))
  | _, _ => (dotProduct, normA, normB)
  end.

Definition calculateCosineSimilarity (vectorA vectorB : list (num A))
  : Exc (num A) :=
  if negb (Nat.eqb (List.length vectorA) (List.length vectorB))
  then Throw "Vectors must have the same length"
  else
    let '(dotProduct, normA, normB) :=
      accumulate vectorA vectorB (zero A) (zero A) (zero A) in
    let normA := sqrt A normA in
    let normB := sqrt A normB in
    if orb (isZero A normA) (isZero A normB)
    then Ok (zero A)
    else Ok (div A dotProduct (mul A normA normB)).
End Cosine.

(** ** Nearest vectors *)

(** One entry of the [similarities] array. *)
Record Scored : Type := mkScored {
  sc_index : nat;
  sc_similarity : float
}.

(** [(a, b) => b.similarity - a.similarity] is positive. *)
Definition bySimilarity (a b : Scored) : bool :=
  PrimFloat.ltb 0%float (PrimFloat.sub (sc_similarity b) (sc_similarity a)).

(** [topK = 10] *)
Definition findSimilarVectors (queryVector : list float)
  (vectors : list (list float)) (topK : option nat) : Exc (list Scored) :=
  bindE
    (mapE (fun entry : nat * list float =>
             bindE (calculateCosineSimilarity binary64 queryVector
                      (snd entry))
               (fun similarity => Ok (mkScored (fst entry) similarity)))
          (combine (seq 0 (List.length vectors)) vectors))
    (fun similarities =>
       Ok (slice0 (match topK with
                   | Some k => k
                   | None => 10%nat
                   end)
             (sortBy bySimilarity similarities))).

(** ** Cache keys *)

(** [ToInt32]: an integer wrapped into the range of 32 bits. *)
Definition toInt32 (z : Z) : Z :=
  ((z + 2147483648) mod 4294967296 - 2147483648)%Z.

(** One turn of the loop of [hashText]:
    [hash = ((hash << 5) - hash) + char; hash = hash & hash]. *)
Definition hashStep (hash : Z) (char : ascii) : Z :=
  toInt32 (toInt32 (hash * 32) - hash + charCode char).

Fixpoint hashLoop (text : string) (hash : Z) : Z :=
  match text with
  | EmptyString => hash
  | String char text' => hashLoop text' (hashStep hash char)
  end.

(** A digit of base 36: 0-9, then a-z. *)
Definition digit36 (d : Z) : ascii :=
  if (d <? 10)%Z then fromCharCode (48 + d) else fromCharCode (87 + d).

Fixpoint digits36 (fuel : nat) (n : Z) (result : string) : string :=
  match fuel with
  | O => result
  | S fuel' =>
      if (n <? 36)%Z then String (digit36 n) result
      else digits36 fuel' (n / 36)%Z (String (digit36 (n mod 36)) result)
  end.

(** [n.toString(36)] for an integer [0 <= n]; the numeral has fewer
    digits than [n] has bits. *)
Definition toString36 (n : Z) : string :=
  digits36 (S (Z.to_nat (Z.log2 n))) n EmptyString.

Definition hashText (text : string) : string :=
  toString36 (Z.abs (hashLoop text 0%Z)).

(** ** The embedding cache *)

(** [this.initialized] and [this.embeddingCache], a [Map] from cache key
    to embedding. *)
Record CacheState : Type := mkCacheState {
  ready : bool;
  embeddingCache : list (string * list float)
}.

Definition cacheGet (key : string) (cache : list (string * list float))
  : option (list float) :=
  option_map snd (find (fun entry => String.eqb (fst entry) key) cache).

Fixpoint cacheSet (key : string) (embedding : list float)
  (cache : list (string * list float)) : list (string * list float) :=
  match cache with
  | [] => [(key, embedding)]
  | (k, e) :: cache' =>
      if String.eqb k key then (k, embedding) :: cache'
      else (k, e) :: cacheSet key embedding cache'
  end.

Section Provider.
(** [process.env.OPENAI_API_KEY] *)
Variable apiKey : option string.
(** [openai.embeddings.create] for one input text, read up to
    [response.data[0].embedding]. *)
Variable create : string -> Exc (list float).

Definition initialize (st : CacheState) : CacheState * Exc unit :=
  if ready st then (st, Ok tt)
  else
    match truthy apiKey with
    | None =>
        (st, Throw "OpenAI API key not found. Please set OPENAI_API_KEY environment variable.")
    | Some _ => (mkCacheState true (embeddingCache st), Ok tt)
    end.

Definition cacheKey (type text : string) : string :=
  ("embedding_" ++ type ++ "_" ++ hashText text)%string.

(** [generateEmbedding(text, type)]; an array found in the cache is
    truthy, also when it is empty. *)
Definition generateEmbedding (text type : string) (st : CacheState)
  : CacheState * Exc (list float) :=
  match initialize st with
  | (st, Throw e) => (st, Throw e)
  | (st, Ok _) =>
      match cacheGet (cacheKey type text) (embeddingCache st) with
      | Some cached => (st, Ok cached)
      | None =>
          match create text with
          | Ok embedding =>
              (mkCacheState (ready st)
                 (cacheSet (cacheKey type text) embedding
                    (embeddingCache st)),
               Ok embedding)
          | Throw e => (st, Throw e)
          end
      end
  end.
End Provider.

End EmbeddingService.

(* ================================================================== *)
(** * backend/services/label-service.js *)
(* ================================================================== *)

Module LabelService.
Import Model Heuristics.

(** [confidence] is the number 0.8 or 0.5 on the heuristic paths and
    whatever the language model answered otherwise. *)
Inductive Confidence : Type :=
| ConfNumber (q : Q)
| ConfArray (l : list Q)
| ConfUndefined.

Record LabelResult : Type := mkLabelResult {
  labels : option (list string);
  confidence : Confidence;
  method : string;
  explanation : option string
}.

Definition generateBasicLabels (cell : Cell) : list string :=
  let allText := allText cell in
  let labels := [] in
  let labels := pushIf
    (orb (includes allText "revenue") (includes allText "sales"))
    "revenue" labels in
  let labels := pushIf
    (orb (includes allText "cost") (includes allText "expense"))
    "cost" labels in
  let labels := pushIf
    (orb (includes allText "profit") (includes allText "margin"))
    "profitability" labels in
  let labels := pushIf
    (orb (includes allText "%") (includes allText "percent"))
    "percentage" labels in
  let labels := pushIf
    (match truthy (cell_formula cell) with Some _ => true | None => false end)
    "formula" labels in
  let labels := pushIf
    (orb (includes allText "budget") (includes allText "actual"))
    "budget" labels in
  match labels with
  | [] => ["data"]
  | _ => labels
  end.

Definition generateExplanation (cell : Cell) (labels : list string)
  : string :=
  let explanations := [] in
  let explanations := pushIf (arrayIncludes labels "revenue")
    "contains revenue-related terms" explanations in
  let explanations := pushIf (arrayIncludes labels "cost")
    "contains cost-related terms" explanations in
  let explanations := pushIf (arrayIncludes labels "profitability")
    "contains profitability indicators" explanations in
  let explanations := pushIf (arrayIncludes labels "percentage")
    "contains percentage calculations" explanations in
  let explanations := pushIf (arrayIncludes labels "formula")
    "contains formula" explanations in
  let explanations := pushIf (arrayIncludes labels "budget")
    "contains budget-related terms" explanations in
  match truthy (Some (join ", " explanations)) with
  | Some s => s
  | None => "general data"
  end.

Section Labels.
(** [this.initialized]: a language model is configured. *)
Variable initialized : bool.
(** [generateLLMLabels]: the call to the language model. *)
Variable generateLLMLabels : Cell -> Exc LabelResult.

(** Heuristic labels when there are any; else the language model when
    it is configured; else, or when that call fails, basic labels. *)
Definition generateLabels (cell : Cell) : LabelResult :=
  let heuristicLabels := detectBusinessConcepts cell in
  if Nat.ltb 0 (List.length heuristicLabels) then
    mkLabelResult (Some heuristicLabels) (ConfNumber (8 # 10)) "heuristic"
      (Some (generateExplanation cell heuristicLabels))
  else
    let basic :=
      let basicLabels := generateBasicLabels cell in
      mkLabelResult (Some basicLabels) (ConfNumber (1 # 2)) "basic"
        (Some (generateExplanation cell basicLabels)) in
    if initialized then
      match generateLLMLabels cell with
      | Ok llmLabels =>
          mkLabelResult (labels llmLabels) (confidence llmLabels) "llm"
            (explanation llmLabels)
      | Throw _ => basic
      end
    else basic.

(** The synthetic cell a range is labelled through (the fields the
    labeller does not read are blank). *)
Definition syntheticCell (range : Range) : Cell :=
  mkCell (range_id range) EmptyString (range_sheetName range) 0 0
    EmptyString None
    (Some (match range_sampleValues range with
           | Some vs => join ", " vs
           | None => EmptyString
           end))
    (if range_hasFormulas range then Some "formula_range" else None)
    None EmptyString
    (Some (mkHeaders None (range_header range) None)).

Definition generateRangeLabels (range : Range) : LabelResult :=
  generateLabels (syntheticCell range).
End Labels.

(** The properties [generateSearchExplanation] reads from its argument. *)
Record Explained : Type := mkExplained {
  ex_concept : option string;
  ex_formula : option string;
  ex_location_sheet : option string
}.

Definition generateSearchExplanation (result : Explained) (query : string)
  : string :=
  let explanations := [] in
  let explanations :=
    match truthy (ex_concept result) with
    | Some c => explanations ++ [("concept matches: " ++ c)%string]
    | None => explanations
    end in
  let explanations :=
    match truthy (ex_formula result) with
    | Some f =>
        if includes f "SUM" then explanations ++ ["contains SUM formula"]
        else if includes f "/"
        then explanations ++ ["contains division calculation"]
        else if includes f "VLOOKUP"
        then explanations ++ ["contains lookup formula"]
        else explanations
    | None => explanations
    end in
  let explanations :=
    match truthy (ex_location_sheet result) with
    | Some sheet =>
        let sheetName := toLowerCase sheet in
        if orb (includes sheetName "profit") (includes sheetName "p&l")
        then explanations ++ ["from profit & loss sheet"]
        else if includes sheetName "revenue"
        then explanations ++ ["from revenue sheet"]
        else explanations
    | None => explanations
    end in
  match truthy (Some (join ", " explanations)) with
  | Some s => s
  | None => "semantic similarity match"
  end.

End LabelService.

(* ================================================================== *)
(** * backend/services/search-service.js *)
(* ================================================================== *)

Module SearchService.
Import FormulaParser Model Heuristics LabelService.

(** An embedding: the array of numbers the provider returns. *)
Definition Embedding : Type := list float.

(** The [type] argument of [generateEmbedding]. *)
Inductive EmbeddingKind : Type := KindCell | KindRange | KindQuery.

(** ** Collaborators

    [embeddingService] and [labelService], the two objects the module
    imports; every call may throw.  The similarity enters the score
    arithmetic as a [number]. *)
Record Services : Type := mkServices {
  generateEmbedding : string -> EmbeddingKind -> Exc Embedding;
  calculateCosineSimilarity : Embedding -> Embedding -> Exc number;
  generateLabels : Cell -> Exc LabelResult;
  generateRangeLabels : Range -> Exc LabelResult;
  generateSearchExplanation : Explained -> string -> Exc string
}.

(** [process.env], already parsed ([parseInt], [parseFloat]); [None] is an
    unset or unparsable variable. *)
Record Env : Type := mkEnv {
  DEFAULT_TOP_K : option nat;
  SEMANTIC_WEIGHT : option Q;
  CONCEPT_MATCH_WEIGHT : option Q;
  FORMULA_COMPLEXITY_WEIGHT : option Q;
  SHEET_IMPORTANCE_WEIGHT : option Q
}.

(** The [options] argument of the two searches; [topK] is a count. *)
Record Options : Type := mkOptions {
  topK : option nat;
  mode : option string;
  includeRanges : option bool
}.

(** ** Indexed documents *)

Inductive Document : Type :=
| CellDoc (c : Cell)
| RangeDoc (r : Range).

(** [{...doc, embedding, labels, labelConfidence, labelMethod,
    labelExplanation}] *)
Record IndexedDocument : Type := mkIndexedDocument {
  doc : Document;
  embedding : Embedding;
  doc_labels : option (list string);
  labelConfidence : Confidence;
  labelMethod : string;
  labelExplanation : option string
}.

Definition doc_id (d : IndexedDocument) : string :=
  match doc d with
  | CellDoc c => cell_id c
  | RangeDoc r => range_id r
  end.

Definition doc_sheetName (d : IndexedDocument) : string :=
  match doc d with
  | CellDoc c => cell_sheetName c
  | RangeDoc r => range_sheetName r
  end.

(** [doc.cells] is truthy. *)
Definition doc_cells (d : IndexedDocument) : bool :=
  match doc d with
  | CellDoc _ => false
  | RangeDoc _ => true
  end.

Definition doc_headers_column (d : IndexedDocument) : option string :=
  match doc d with
  | CellDoc c => headers_column c
  | RangeDoc _ => None
  end.

Definition doc_headers_row (d : IndexedDocument) : option string :=
  match doc d with
  | CellDoc c => headers_row c
  | RangeDoc _ => None
  end.

Definition doc_formattedValue (d : IndexedDocument) : option string :=
  match doc d with
  | CellDoc c => cell_formattedValue c
  | RangeDoc _ => None
  end.

Definition doc_formula (d : IndexedDocument) : option string :=
  match doc d with
  | CellDoc c => cell_formula c
  | RangeDoc _ => None
  end.

Definition doc_parsedFormula (d : IndexedDocument) : option ParsedFormula :=
  match doc d with
  | CellDoc c => cell_parsedFormula c
  | RangeDoc _ => None
  end.

(** ** The service state

    [this.index] is a [Map] keyed by document id; it iterates in insertion
    order, so it is the list of its values, and the key of a value is its
    [id]. *)
Definition Index : Type := list IndexedDocument.

Record ServiceState : Type := mkState {
  index : Index;
  initialized : bool
}.

(** [index.set(d.id, d)]: an existing key keeps its position. *)
Fixpoint index_set (d : IndexedDocument) (idx : Index) : Index :=
  match idx with
  | [] => [d]
  | e :: idx' =>
      if String.eqb (doc_id e) (doc_id d) then d :: idx'
      else e :: index_set d idx'
  end.

(** ** The monad of the service methods: state, and exceptions that leave
    the state as it was when they were thrown. *)
Definition M (A : Type) : Type := ServiceState -> ServiceState * Exc A.

Definition ret {A} (a : A) : M A := fun st => (st, Ok a).

Definition bind {A B} (m : M A) (k : A -> M B) : M B :=
  fun st =>
    match m st with
    | (st', Ok a) => k a st'
    | (st', Throw e) => (st', Throw e)
    end.

Definition lift {A} (e : Exc A) : M A := fun st => (st, e).

Definition getIndex : M Index := fun st => (st, Ok (index st)).

Definition setIndex (idx : Index) : M unit :=
  fun st => (mkState idx (initialized st), Ok tt).

Notation "x <- m ;; k" := (bind m (fun x => k))
  (at level 61, m at next level, right associativity).
Notation "m ;; k" := (bind m (fun _ => k))
  (at level 61, right associativity).

(** [for (const x of xs) { await body(x) }] *)
Fixpoint forEach {A} (body : A -> M unit) (xs : list A) : M unit :=
  match xs with
  | [] => ret tt
  | x :: xs' => body x ;; forEach body xs'
  end.

Definition initialize : M unit :=
  fun st =>
    if initialized st then (st, Ok tt)
    else (mkState (index st) true, Ok tt).

(** ** Embedding texts of the service *)

Definition generateEmbeddingText (doc : Cell) : string :=
  let parts := [("Sheet: " ++ cell_sheetName doc)%string] in
  let parts := pushPart "Column: " (headers_column doc) parts in
  let parts :=
    match truthy (cell_formula doc) with
    | Some f => parts ++ [("Formula: " ++ f)%string]
    | None => pushPart "Value: " (cell_formattedValue doc) parts
    end in
  join " - " parts.

Definition generateRangeEmbeddingText (range : Range) : string :=
  let parts := [("Sheet: " ++ range_sheetName range)%string] in
  let parts := parts ++ [("Header: " ++ template (range_header range))%string] in
  let parts := parts ++ [("Range: " ++ string_of_Z (range_startRow range)
                          ++ "-" ++ string_of_Z (range_endRow range))%string] in
  let parts :=
    match range_sampleValues range with
    | Some (v :: vs) =>
        parts ++ [("Values: " ++ join ", " (slice0 3 (v :: vs)))%string]
    | _ => parts
    end in
  join " - " parts.

Section Service.
Variable env : Env.
Variable svc : Services.

(** ** Ingestion *)

Definition enrich (d : Document) (e : Embedding) (l : LabelResult)
  : IndexedDocument :=
  mkIndexedDocument d e (labels l) (confidence l) (method l)
    (explanation l).

Definition addToIndex (documents : list Cell) : M unit :=
  initialize ;;
  forEach (fun doc =>
    let embeddingText := generateEmbeddingText doc in
    embedding <- lift (generateEmbedding svc embeddingText KindCell) ;;
    labels <- lift (generateLabels svc doc) ;;
    idx <- getIndex ;;
    setIndex (index_set (enrich (CellDoc doc) embedding labels) idx))
    documents.

Definition addRangesToIndex (ranges : list Range) : M unit :=
  initialize ;;
  forEach (fun range =>
    let embeddingText := generateRangeEmbeddingText range in
    embedding <- lift (generateEmbedding svc embeddingText KindRange) ;;
    labels <- lift (generateRangeLabels svc range) ;;
    idx <- getIndex ;;
    setIndex (index_set (enrich (RangeDoc range) embedding labels) idx))
    ranges.

(** ** Ranking signals *)

(** The term-to-concept dictionary, in the order of its entries. *)
Definition conceptMap : list (string * list string) :=
  [("profit", ["profitability"]); ("margin", ["profitability"]);
   ("revenue", ["revenue"]); ("sales", ["revenue"]);
   ("cost", ["cost"]); ("expense", ["cost"]);
   ("percentage", ["percentage"]); ("ratio", ["percentage"]);
   ("growth", ["growth"]);
   ("budget", ["budget"]); ("actual", ["budget"]);
   ("forecast", ["budget"]);
   ("lookup", ["lookup"]); ("vlookup", ["lookup"]);
   ("formula", ["formula"]); ("calculation", ["formula"])].

Definition detectQueryConcepts (query : string) : list string :=
  let lowerQuery := toLowerCase query in
  let concepts :=
    fold_left
      (fun concepts entry =>
         if includes lowerQuery (fst entry) then concepts ++ snd entry
         else concepts)
      conceptMap [] in
  unique concepts.

Definition calculateFinalScore
  (similarity conceptMatch formulaComplexity sheetImportance : number)
  : number :=
  let semantic := Num (numberOr (SEMANTIC_WEIGHT env) (7 # 10)) in
  let concept := Num (numberOr (CONCEPT_MATCH_WEIGHT env) (15 # 100)) in
  let formula := Num (numberOr (FORMULA_COMPLEXITY_WEIGHT env) (1 # 10)) in
  let sheet := Num (numberOr (SHEET_IMPORTANCE_WEIGHT env) (5 # 100)) in
  nadd (nadd (nadd (nmul semantic similarity)
                   (nmul concept conceptMatch))
             (nmul formula formulaComplexity))
       (nmul sheet sheetImportance).

(** [topK = parseInt(process.env.DEFAULT_TOP_K) || 10] *)
Definition topKOf (options : Options) : nat :=
  match topK options with
  | Some k => k
  | None =>
      match DEFAULT_TOP_K env with
      | Some (S k) => S k
      | _ => 10
      end
  end.

(** [includeRanges = true] *)
Definition includeRangesOf (options : Options) : bool :=
  match includeRanges options with
  | Some b => b
  | None => true
  end.

(** [doc.labels || []] *)
Definition labelsOf (d : IndexedDocument) : list string :=
  match doc_labels d with
  | Some l => l
  | None => []
  end.

(** ** Result formatting *)

Record SearchResult : Type := mkSearchResult {
  res_id : string;
  res_concept : string;
  res_location_sheet : string;
  res_location_range : string;
  res_formula : option string;
  res_value : option string;
  res_explanation : string;
  res_relevance : number;
  res_reasons : list string;
  res_labels : list string;
  res_type : string
}.

Definition getPrimaryConcept (d : IndexedDocument) : string :=
  match doc_labels d with
  | Some (l :: _) => l
  | _ =>
      match truthy (doc_headers_column d) with
      | Some h => h
      | None =>
          match truthy (doc_formula d) with
          | Some _ => "Formula"
          | None => "Data"
          end
      end
  end.

Definition locationRange (d : IndexedDocument) : string :=
  match doc d with
  | RangeDoc r =>
      string_of_Z (range_startRow r) ++ "-" ++ string_of_Z (range_endRow r)
  | CellDoc c =>
      string_of_Z (cell_row c) ++ ":" ++ string_of_Z (cell_column c)
  end.

Definition typeOf (d : IndexedDocument) : string :=
  if doc_cells d then "range" else "cell".

Definition generateReasons (d : IndexedDocument) (query : string)
  (similarity conceptMatch : number) : list string :=
  let reasons := [] in
  let reasons :=
    if ngt similarity (Num (8 # 10))
    then reasons ++ ["high semantic similarity"]
    else if ngt similarity (Num (6 # 10))
    then reasons ++ ["good semantic similarity"]
    else reasons in
  let reasons :=
    pushIf (ngt conceptMatch (Num (1 # 2))) "concept match" reasons in
  let reasons :=
    match truthy (doc_formula d) with
    | Some f =>
        if includes f "SUM" then reasons ++ ["contains SUM formula"]
        else if includes f "/"
        then reasons ++ ["contains division calculation"]
        else reasons
    | None => reasons
    end in
  let reasons :=
    match truthy (doc_headers_column d) with
    | Some h =>
        let header := toLowerCase h in
        let queryLower := toLowerCase query in
        pushIf (orb (includes header queryLower)
                    (includes queryLower header))
          "header matches query" reasons
    | None => reasons
    end in
  reasons.

(** One entry of the [similarities] array. *)
Record Similarity : Type := mkSimilarity {
  sim_doc : IndexedDocument;
  similarity : number;
  conceptMatch : number;
  formulaComplexity : number;
  sheetImportance : number;
  finalScore : number
}.

Definition formatSearchResult (result : Similarity) (query : string)
  : Exc SearchResult :=
  let d := sim_doc result in
  bindE (generateSearchExplanation svc
           (mkExplained None (doc_formula d) None) query)
    (fun explanation =>
       Ok (mkSearchResult (doc_id d) (getPrimaryConcept d)
             (doc_sheetName d) (locationRange d)
             (truthy (doc_formula d)) (truthy (doc_formattedValue d))
             explanation (finalScore result)
             (generateReasons d query (similarity result)
                (conceptMatch result))
             (labelsOf d) (typeOf d))).

(** ** Semantic search *)

(** The body of the scoring loop for one document. *)
Definition scoreDocument (queryEmbedding : Embedding)
  (queryConcepts : list string) (d : IndexedDocument) : Exc Similarity :=
  bindE (calculateCosineSimilarity svc queryEmbedding (embedding d))
    (fun similarity =>
       let conceptMatch :=
         calculateConceptMatch (labelsOf d) queryConcepts in
       let formulaComplexity :=
         match doc_parsedFormula d with
         | Some pf => detectFormulaComplexity (Some pf)
         | None => Num 0
         end in
       let sheetImportance := calculateSheetImportance (doc_sheetName d) in
       let finalScore :=
         calculateFinalScore similarity conceptMatch formulaComplexity
           sheetImportance in
       Ok (mkSimilarity d similarity conceptMatch formulaComplexity
             sheetImportance finalScore)).

(** [if (!includeRanges && doc.cells) continue] *)
Definition skipped (includeRanges : bool) (d : IndexedDocument) : bool :=
  andb (negb includeRanges) (doc_cells d).

Fixpoint scoreAll (includeRanges : bool) (queryEmbedding : Embedding)
  (queryConcepts : list string) (idx : Index) : Exc (list Similarity) :=
  match idx with
  | [] => Ok []
  | d :: idx' =>
      if skipped includeRanges d
      then scoreAll includeRanges queryEmbedding queryConcepts idx'
      else
        bindE (scoreDocument queryEmbedding queryConcepts d) (fun s =>
        bindE (scoreAll includeRanges queryEmbedding queryConcepts idx')
          (fun rest => Ok (s :: rest)))
  end.

(** [(a, b) => b.finalScore - a.finalScore] *)
Definition byFinalScore (a b : Similarity) : number :=
  nsub (finalScore b) (finalScore a).

Definition search (query : string) (options : Options)
  : M (list SearchResult) :=
  initialize ;;
  idx <- getIndex ;;
  if Nat.eqb (List.length idx) 0 then ret []
  else
    (queryEmbedding <- lift (generateEmbedding svc query KindQuery) ;;
     let queryConcepts := detectQueryConcepts query in
     similarities <-
       lift (scoreAll (includeRangesOf options) queryEmbedding
               queryConcepts idx) ;;
     let sorted := sort byFinalScore similarities in
     let topResults := slice0 (topKOf options) sorted in
     lift (mapE (fun result => formatSearchResult result query)
             topResults)).

(** ** Keyword search *)

(** [queryTerms.forEach(term => { if (text.includes(term))
    { score += weight; matches.push(what "term") } })] *)
Definition matchTerms (text : string) (weight : Q) (what : string)
  (queryTerms : list string) (acc : Q * list string) : Q * list string :=
  fold_left
    (fun acc term =>
       if includes text term
       then ((fst acc + weight)%Q,
             snd acc ++ [(what ++ dquote ++ term ++ dquote)%string])
       else acc)
    queryTerms acc.

(** The same for an optional field, skipped when falsy. *)
Definition matchField (field : option string) (weight : Q) (what : string)
  (queryTerms : list string) (acc : Q * list string) : Q * list string :=
  match truthy field with
  | Some text => matchTerms (toLowerCase text) weight what queryTerms acc
  | None => acc
  end.

(** [score] and [matches] of one document. *)
Definition keywordMatches (queryTerms : list string) (d : IndexedDocument)
  : Q * list string :=
  let acc := (0%Q, []) in
  let acc := matchField (doc_headers_column d) 2 "header contains "
               queryTerms acc in
  let acc := matchField (doc_headers_row d) (3 # 2) "row header contains "
               queryTerms acc in
  let acc := matchField (doc_formattedValue d) 1 "value contains "
               queryTerms acc in
  let acc := matchField (doc_formula d) (3 # 2) "formula contains "
               queryTerms acc in
  match doc_labels d with
  | Some labels =>
      fold_left
        (fun acc label =>
           matchTerms (toLowerCase label) (3 # 2) "label matches "
             queryTerms acc)
        labels acc
  | None => acc
  end.

Definition keywordScore (queryTerms : list string) (d : IndexedDocument)
  : Q :=
  fst (keywordMatches queryTerms d).

(** One entry of the [results] array of the keyword search. *)
Record KeywordMatch : Type := mkKeywordMatch {
  km_doc : IndexedDocument;
  km_score : Q;
  km_matches : list string
}.

Fixpoint keywordScan (includeRanges : bool) (queryTerms : list string)
  (idx : Index) : list KeywordMatch :=
  match idx with
  | [] => []
  | d :: idx' =>
      if skipped includeRanges d
      then keywordScan includeRanges queryTerms idx'
      else
        let '(score, matches) := keywordMatches queryTerms d in
        if ngt (Num score) (Num 0)
        then mkKeywordMatch d score matches
             :: keywordScan includeRanges queryTerms idx'
        else keywordScan includeRanges queryTerms idx'
  end.

(** [(a, b) => b.score - a.score] *)
Definition byScore (a b : KeywordMatch) : number :=
  nsub (Num (km_score b)) (Num (km_score a)).

Definition formatKeywordResult (result : KeywordMatch) (query : string)
  : SearchResult :=
  let d := km_doc result in
  mkSearchResult (doc_id d) (getPrimaryConcept d)
    (doc_sheetName d) (locationRange d)
    (truthy (doc_formula d)) (truthy (doc_formattedValue d))
    ("Keyword matches: " ++ join ", " (km_matches result))
    (ndiv (Num (km_score result)) (Num 10))
    (km_matches result) (labelsOf d) (typeOf d).

Definition keywordSearch (query : string) (options : Options)
  : M (list SearchResult) :=
  initialize ;;
  idx <- getIndex ;;
  if Nat.eqb (List.length idx) 0 then ret []
  else
    let queryTerms := split_whitespace (toLowerCase query) in
    let results :=
      keywordScan (includeRangesOf options) queryTerms idx in
    let sorted := sort byScore results in
    let topResults := slice0 (topKOf options) sorted in
    ret (map (fun result => formatKeywordResult result query) topResults).

(** ** Statistics and clearing *)

Record Stats : Type := mkStats {
  totalDocuments : nat;
  stat_cells : nat;
  stat_ranges : nat;
  stat_initialized : bool
}.

Definition getStats : M Stats :=
  fun st =>
    (st, Ok (mkStats (List.length (index st))
               (List.length (filter (fun d => negb (doc_cells d))
                               (index st)))
               (List.length (filter doc_cells (index st)))
               (initialized st))).

Definition clearIndex : M unit := setIndex [].
End Service.

End SearchService.

(* ================================================================== *)
(** * backend/routes/search.js *)
(* ================================================================== *)

Module SearchRoute.
Import Model SearchService.

(** The object [calculateOverlap] returns.  The two sizes are counts;
    the two differences are kept as the integers the subtraction gives. *)
Record Overlap : Type := mkOverlap {
  intersection : nat;
  union : nat;
  jaccard : number;
  semanticOnly : Z;
  keywordOnly : Z
}.

(** A [Set] is read as the list of its members in insertion order.  The
    union is empty only together with the intersection, and 0/0 is NaN. *)
Definition calculateOverlap (results1 results2 : list SearchResult)
  : Overlap :=
  let ids1 := unique (map res_id results1) in
  let ids2 := unique (map res_id results2) in
  let intersection :=
    unique (filter (fun id => arrayIncludes ids2 id) ids1) in
  let union := unique (ids1 ++ ids2) in
  mkOverlap
    (List.length intersection)
    (List.length union)
    (ndiv (ofNat (List.length intersection))
          (ofNat (List.length union)))
    (Z.of_nat (List.length ids1) - Z.of_nat (List.length intersection))
    (Z.of_nat (List.length ids2) - Z.of_nat (List.length intersection)).

End SearchRoute.

(* ================================================================== *)
(** * scripts/evaluate.js *)
(* ================================================================== *)

Module Evaluate.
Import Model SearchService SearchRoute.

(** [[...(result.labels || []), result.concept?.toLowerCase() || '',
    ...(result.reasons || [])].map(c => c.toLowerCase())] *)
Definition precisionConcepts (result : SearchResult) : list string :=
  map toLowerCase
    (res_labels result ++ [toLowerCase (res_concept result)]
       ++ res_reasons result).

(** [[...(result.labels || []), result.concept?.toLowerCase() || '']
    .map(c => c.toLowerCase())] *)
Definition recallConcepts (result : SearchResult) : list string :=
  map toLowerCase (res_labels result ++ [toLowerCase (res_concept result)]).

(** [resultConcepts.some(result => result.includes(expected.toLowerCase()))] *)
Definition matches (resultConcepts : list string) (expected : string)
  : bool :=
  existsb (fun result => includes result (toLowerCase expected))
    resultConcepts.

(** [k] is a count.  The divisor is 0 only when [topK] is empty, and then
    [relevantCount] is 0 as well: 0/0 is NaN. *)
Definition calculatePrecisionAtK (results : list SearchResult)
  (expectedConcepts : list string) (k : nat) : number :=
  let topK := slice0 k results in
  let relevantCount :=
    List.length
      (filter (fun result =>
                 existsb (matches (precisionConcepts result))
                   expectedConcepts)
              topK) in
  ndiv (ofNat relevantCount)
       (ofNat (Nat.min k (List.length results))).

(** The members of [foundConcepts], in the order they were added. *)
Definition foundConcepts (results : list SearchResult)
  (expectedConcepts : list string) (k : nat) : list string :=
  unique
    (flat_map (fun result =>
                 filter (matches (recallConcepts result)) expectedConcepts)
              (slice0 k results)).

Definition calculateRecallAtK (results : list SearchResult)
  (expectedConcepts : list string) (k : nat) : number :=
  ndiv (ofNat (List.length (foundConcepts results expectedConcepts k)))
       (ofNat (List.length expectedConcepts)).

End Evaluate.

Unset Implicit Arguments.

(* ================================================================== *)
(** * Vocabulary of the properties *)
(* ================================================================== *)

Module Vocabulary.
Import Model SearchService.

(** A binary64 zero, of either sign. *)
Definition floatZero (x : float) : Prop := x = 0%float \/ x = (-0)%float.

(** The squared norm of a vector as the loop of
    [calculateCosineSimilarity] accumulates it: [norm += x * x] from 0,
    every product and every sum rounded to binary64. *)
Definition squaredNorm (a : list float) : float :=
  fold_left (fun norm x => (norm + x * x)%float) a 0%float.

(** The real number [2^e]. *)
Definition bpow (e : Z) : R := powerRZ 2 e.

(** The real number that a mantissa and an exponent stand for. *)
Definition realValue (m e : Z) : R := (IZR m * bpow e)%R.

(** A real number [x], in units of the last place, is where the
    truncated mantissa and the round and sticky bits of [mrs] say. *)
Definition located (mrs : SpecFloat.shr_record) (x : R) : Prop :=
  let m := IZR (SpecFloat.shr_m mrs) in
  match SpecFloat.shr_r mrs, SpecFloat.shr_s mrs with
  | false, false => x = m
  | false, true => (m < x < m + / 2)%R
  | true, false => x = (m + / 2)%R
  | true, true => (m + / 2 < x < m + 1)%R
  end.

(** A vector all of whose components are zero. *)
Definition zeroVector (v : list float) : Prop := Forall floatZero v.

(** The eight groups of text patterns of the concept detector, each with
    the concept it stands for. *)
Definition textConceptGroups : list (list string * string) :=
  [(["revenue"; "sales"; "income"; "earnings"], "revenue");
   (["cost"; "expense"; "cogs"; "cost of goods"; "operating expense"],
    "cost");
   (["profit"; "margin"; "gross profit"; "net profit"; "ebitda"],
    "profitability");
   (["%"; "percent"; "percentage"; "rate"; "ratio"], "percentage");
   (["growth"; "increase"; "decrease"; "change"; "cagr"; "yoy"], "growth");
   (["budget"; "actual"; "variance"; "forecast"; "projection"], "budget");
   (["q1"; "q2"; "q3"; "q4"; "quarter"; "monthly"; "yearly"; "annual"],
    "time_series");
   (["roi"; "roa"; "roe"; "debt"; "equity"; "ratio"], "financial_ratio")].

(** The values of the context entries of a cell, in order. *)
Definition contextValues (cell : Cell) : option (list string) :=
  option_map (map ctx_value) (headers_context cell).

(** A cell without its row header, its context entries and its parsed
    formula (hence without formula type). *)
Definition withoutRowTypeContext (cell : Cell) : Cell :=
  mkCell (cell_id cell) (cell_spreadsheetId cell) (cell_sheetName cell)
    (cell_row cell) (cell_column cell) (cell_cellRef cell)
    (cell_rawValue cell) (cell_formattedValue cell) (cell_formula cell)
    None (cell_type cell)
    (match cell_headers cell with
     | Some h => Some (mkHeaders None (hdr_column h) None)
     | None => None
     end).

(** The step of the ingestion loop for one cell. *)
Definition ingestCell (svc : Services) (doc : Cell) : M unit :=
  embedding <- lift (generateEmbedding svc
                       (SearchService.generateEmbeddingText doc) KindCell) ;;
  labels <- lift (generateLabels svc doc) ;;
  idx <- getIndex ;;
  setIndex (index_set (enrich (CellDoc doc) embedding labels) idx).

(** The step of the ingestion loop for one range. *)
Definition ingestRange (svc : Services) (range : Range) : M unit :=
  embedding <- lift (generateEmbedding svc
                       (SearchService.generateRangeEmbeddingText range)
                       KindRange) ;;
  labels <- lift (generateRangeLabels svc range) ;;
  idx <- getIndex ;;
  setIndex (index_set (enrich (RangeDoc range) embedding labels) idx).

(** The two provider calls of the ingestion of one cell succeed. *)
Definition cellSucceeds (svc : Services) (cell : Cell) : Prop :=
  exists emb l,
    generateEmbedding svc (SearchService.generateEmbeddingText cell) KindCell
      = Ok emb /\
    generateLabels svc cell = Ok l.

(** One of the two provider calls of the ingestion of one cell fails
    with [e]. *)
Definition cellFails (svc : Services) (cell : Cell) (e : string) : Prop :=
  generateEmbedding svc (SearchService.generateEmbeddingText cell) KindCell
    = Throw e \/
  (exists emb,
     generateEmbedding svc (SearchService.generateEmbeddingText cell) KindCell
       = Ok emb /\
     generateLabels svc cell = Throw e).

(** The same for a range. *)
Definition rangeFails (svc : Services) (range : Range) (e : string) : Prop :=
  generateEmbedding svc (SearchService.generateRangeEmbeddingText range)
    KindRange = Throw e \/
  (exists emb,
     generateEmbedding svc (SearchService.generateRangeEmbeddingText range)
       KindRange = Ok emb /\
     generateRangeLabels svc range = Throw e).

(** [a] occurs before [b] in [l]. *)
Definition precedes {A : Type} (l : list A) (a b : A) : Prop :=
  exists l1 l2 l3, l = l1 ++ a :: l2 ++ b :: l3.

(** The order a stable descending sort of [l] by [score] produces: a
    greater score first, and equal scores in the order of [l]. *)
Definition rankedBefore {A : Type} (score : A -> Q) (l : list A) (a b : A)
  : Prop :=
  (score b < score a)%Q \/ ((score a == score b)%Q /\ precedes l a b).

(** The document with id [id1] was inserted in the index before the
    document with id [id2]. *)
Definition docPrecedes (idx : Index) (id1 id2 : string) : Prop :=
  exists d1 d2, precedes idx d1 d2 /\ doc_id d1 = id1 /\ doc_id d2 = id2.

(** The order of a ranked result list over the index [idx]: relevances
    are numbers, descending, and equal relevances keep the insertion
    order of their documents. *)
Definition resultBefore (idx : Index) (r1 r2 : SearchResult) : Prop :=
  exists q1 q2,
    res_relevance r1 = Num q1 /\ res_relevance r2 = Num q2 /\
    ((q2 < q1)%Q \/ ((q1 == q2)%Q /\ docPrecedes idx (res_id r1) (res_id r2))).

(** The parsed formula of the document, if any, yields a numeric
    complexity score: it carries [complexity] whenever it carries
    [functions]. *)
Definition formulaScored (d : IndexedDocument) : Prop :=
  forall pf, doc_parsedFormula d = Some pf ->
    FormulaParser.pf_functions pf = None \/
    FormulaParser.pf_complexity pf <> None.

(** The formula-complexity signal of a document in the semantic search. *)
Definition complexityOf (d : IndexedDocument) : number :=
  match doc_parsedFormula d with
  | Some pf => Heuristics.detectFormulaComplexity (Some pf)
  | None => Num 0
  end.

(** The number of query terms that occur in a text. *)
Definition termHits (text : string) (queryTerms : list string) : Q :=
  inject_Z (Z.of_nat
    (List.length (filter (fun term => includes text term) queryTerms))).

(** The same for an optional field, in lower case; a missing or empty
    field has no hit. *)
Definition fieldHits (field : option string) (queryTerms : list string) : Q :=
  match truthy field with
  | Some text => termHits (toLowerCase text) queryTerms
  | None => 0%Q
  end.

(** The hits of the labels, label by label. *)
Fixpoint labelHits (labels : list string) (queryTerms : list string) : Q :=
  match labels with
  | [] => 0%Q
  | label :: labels' =>
      (termHits (toLowerCase label) queryTerms
       + labelHits labels' queryTerms)%Q
  end.

(** The keyword score as the sum of the weighted per-term field
    matches: 2 per column-header hit, 1.5 per row-header hit, 1 per value
    hit, 1.5 per formula hit and 1.5 per label hit. *)
Definition weightedMatchSum (queryTerms : list string) (d : IndexedDocument)
  : Q :=
  (2 * fieldHits (doc_headers_column d) queryTerms
   + (3 # 2) * fieldHits (doc_headers_row d) queryTerms
   + 1 * fieldHits (doc_formattedValue d) queryTerms
   + (3 # 2) * fieldHits (doc_formula d) queryTerms
   + (3 # 2) * labelHits (labelsOf d) queryTerms)%Q.

(** The numeric value of a score, 0 for NaN. *)
Definition valueOf (x : number) : Q :=
  match x with
  | Num q => q
  | NaN => 0%Q
  end.

(** [index.get(id)]: the document stored under a key. *)
Definition lookup (idx : Index) (id : string) : option IndexedDocument :=
  find (fun d => String.eqb (doc_id d) id) idx.

(** The keys of the index, in insertion order. *)
Definition keys (idx : Index) : list string := map doc_id idx.


(** A result describes the indexed document [d]. *)
Definition describes (r : SearchResult) (d : IndexedDocument) : Prop :=
  res_id r = doc_id d /\
  res_location_sheet r = doc_sheetName d /\
  res_labels r = labelsOf d /\
  res_type r = (if doc_cells d then "range" else "cell").

(** The concepts of the detector, in the order of its tests. *)
Definition conceptNames : list string :=
  ["revenue"; "cost"; "profitability"; "percentage"; "growth"; "budget";
   "time_series"; "financial_ratio"; "lookup"; "aggregation";
   "conditional"].

(** The concepts the query dictionary leads to, in the order of its
    entries. *)
Definition queryConceptNames : list string :=
  ["profitability"; "revenue"; "cost"; "percentage"; "growth"; "budget";
   "lookup"; "formula"].

(** [l] filtered by membership in [kept]: the elements of [l] that occur
    in [kept], in the order and with the multiplicity of [l]. *)
Definition restrictedTo (kept l : list string) : list string :=
  filter (fun x => arrayIncludes kept x) l.

(** The nodes of an expression tree in pre-order: the node, then the
    nodes of its arguments from left to right. *)
Fixpoint nodes (n : FormulaParser.Node) : list FormulaParser.Node :=
  match n with
  | FormulaParser.mkNode _ _ _ _ _ args =>
      n :: (fix each (l : list FormulaParser.Node) :=
              match l with
              | [] => []
              | c :: l' => nodes c ++ each l'
              end) args
  end.

Definition isFunction (n : FormulaParser.Node) : bool :=
  match FormulaParser.node_type n with
  | FormulaParser.FUNCTION => true
  | _ => false
  end.

Definition isOperator (n : FormulaParser.Node) : bool :=
  match FormulaParser.node_type n with
  | FormulaParser.OPERATOR => true
  | _ => false
  end.

Definition isReference (n : FormulaParser.Node) : bool :=
  match FormulaParser.node_type n with
  | FormulaParser.CELL_REFERENCE | FormulaParser.CELL_RANGE => true
  | _ => false
  end.

(** The number of nodes of a tree that satisfy a test. *)
Definition count (test : FormulaParser.Node -> bool)
  (ast : FormulaParser.Node) : Q :=
  inject_Z (Z.of_nat (List.length (filter test (nodes ast)))).

(** The size of a list, as a rational. *)
Definition size {A : Type} (l : list A) : Q :=
  inject_Z (Z.of_nat (List.length l)).

(** The formula type of a cell, if its parsed formula carries one. *)
Definition formulaType (cell : Cell) : option string :=
  match cell_parsedFormula cell with
  | Some pf => FormulaParser.pf_type pf
  | None => None
  end.

(** The labels and the explanation of the basic path for the two kinds
    of cells that reach it. *)
Definition basicResult (hasFormula : bool) : LabelService.LabelResult :=
  if hasFormula
  then LabelService.mkLabelResult (Some ["formula"])
         (LabelService.ConfNumber (1 # 2)) "basic" (Some "contains formula")
  else LabelService.mkLabelResult (Some ["data"])
         (LabelService.ConfNumber (1 # 2)) "basic" (Some "general data").

(** The cell has a non-empty formula. *)
Definition hasFormula (cell : Cell) : bool :=
  match truthy (cell_formula cell) with
  | Some _ => true
  | None => false
  end.

(** The number a column name stands for: the letters are the digits
    1 to 26 of a numeral in base 26. *)
Fixpoint columnValue (acc : Z) (letters : string) : Z :=
  match letters with
  | EmptyString => acc
  | String c letters' =>
      columnValue (acc * 26 + (charCode c - 64))%Z letters'
  end.

(** The index, from 0, of the column with the given name. *)
Definition columnIndex (letters : string) : Z :=
  (columnValue 0 letters - 1)%Z.

(** A capital letter of A-Z. *)
Definition isCapital (c : ascii) : bool :=
  andb (65 <=? nat_of_ascii c)%nat (nat_of_ascii c <=? 90)%nat.

(** An ASCII character: a code below 128. *)
Definition isAscii (c : ascii) : bool := (nat_of_ascii c <? 128)%nat.

(** A character of an identifier: a-z, 0-9 or the underscore. *)
Definition isIdChar (c : ascii) : bool :=
  let n := nat_of_ascii c in
  orb (orb (andb (97 <=? n)%nat (n <=? 122)%nat)
           (andb (48 <=? n)%nat (n <=? 57)%nat))
      (n =? 95)%nat.

(** Every character of a string passes a test. *)
Fixpoint allChars (test : ascii -> bool) (s : string) : bool :=
  match s with
  | EmptyString => true
  | String c s' => andb (test c) (allChars test s')
  end.

(** The cell belongs to the group with the given key. *)
Definition hasKey (key : string) (cell : Cell) : bool :=
  match ExcelParser.groupKey cell with
  | Ok k => String.eqb k key
  | Throw _ => false
  end.

(** The groups built from the cells [done]: one group for every key
    that occurs, holding the cells with that key in their order. *)
Definition grouped (done : list Cell) (groups : ExcelParser.Groups)
  : Prop :=
  NoDup (map fst groups) /\
  forall k cs,
    In (k, cs) groups <-> cs = filter (hasKey k) done /\ cs <> [].

(** The position [(r, c)], counted from 0, lies in the context window
    of a cell: at most two rows and two columns away, and not the
    position of the cell itself. *)
Definition inWindow (cell : Cell) (r c : Z) : Prop :=
  (Z.abs (r - (cell_row cell - 1)) <= 2)%Z /\
  (Z.abs (c - (cell_column cell - 1)) <= 2)%Z /\
  (r <> cell_row cell - 1 \/ c <> cell_column cell - 1)%Z.

(** The names of the aggregation functions. *)
Definition aggregationFunctions : list string :=
  ["SUM"; "AVERAGE"; "COUNT"; "MAX"; "MIN"].

(** A relevance that is a positive number. *)
Definition positiveRelevance (r : SearchResult) : Prop :=
  exists q, res_relevance r = Num q /\ (0 < q)%Q.

(** The entry the search for the nearest vectors makes of a vector and
    its index. *)
Definition scored (queryVector : list float) (entry : nat * list float)
  : Exc EmbeddingService.Scored :=
  bindE (EmbeddingService.calculateCosineSimilarity
           EmbeddingService.binary64 queryVector (snd entry))
    (fun similarity =>
       Ok (EmbeddingService.mkScored (fst entry) similarity)).

End Vocabulary.

Section NodeInduction.
Import FormulaParser.
Variable P : Node -> Prop.
Hypothesis step :
  forall t name value sheet absolute args,
    Forall P args -> P (mkNode t name value sheet absolute args).

(** Induction on expression trees, with the children as a list. *)
Fixpoint Node_forall_ind (n : Node) : P n :=
  match n with
  | mkNode t name value sheet absolute args =>
      step t name value sheet absolute args
        ((fix children (l : list Node) : Forall P l :=
            match l with
            | [] => Forall_nil P
            | c :: l' => Forall_cons c (Node_forall_ind c) (children l')
            end) args)
  end.
End NodeInduction.

(* ================================================================== *)
(** * Sample data *)
(* ================================================================== *)

Module Samples.
Import FormulaParser Model LabelService SearchService.

(** A value cell of sheet "Notes", row header "North", column header
    "Total", with the given context entries. *)
Definition noteCell (context : list ContextEntry) : Cell :=
  mkCell "notes_2_2" "notes" "Notes" 2 2 "B2" (Some "42") (Some "42")
    None None "number"
    (Some (mkHeaders (Some "North") (Some "Total") (Some context))).

Definition threeEntries : list ContextEntry :=
  [mkContextEntry "Total" 1 2 1; mkContextEntry "North" 2 1 1;
   mkContextEntry "17" 3 2 1].

Definition fourEntries : list ContextEntry :=
  threeEntries ++ [mkContextEntry "Revenue" 3 3 2].

(** A value cell with both headers and four context entries. *)
Definition revenueCell : Cell :=
  mkCell "sales_2_2" "sales" "Sales" 2 2 "B2" (Some "1200") (Some "1200")
    None None "number"
    (Some (mkHeaders (Some "North") (Some "Revenue") (Some fourEntries))).

Definition canonicalText : string :=
  "Sheet: Sales - Column: Revenue - Row: North - Value: 1200 - Context: Total, North, 17".

Definition reducedText : string :=
  "Sheet: Sales - Column: Revenue - Value: 1200".

(** The label service of the repository without a language model. *)
Definition heuristicLabels (cell : Cell) : Exc LabelResult :=
  Ok (LabelService.generateLabels false (fun _ => Throw "no model") cell).

Definition heuristicRangeLabels (range : Range) : Exc LabelResult :=
  Ok (LabelService.generateRangeLabels false (fun _ => Throw "no model")
        range).

Definition explain (result : Explained) (query : string) : Exc string :=
  Ok (LabelService.generateSearchExplanation result query).

(** An embedding provider that answers the canonical text only. *)
Definition canonicalOnly : Services :=
  mkServices
    (fun text _ =>
       if String.eqb text canonicalText then Ok [1%float]
       else Throw "unexpected text")
    (fun _ _ => Ok (Num 1))
    heuristicLabels heuristicRangeLabels explain.

(** An embedding provider that fails on one text. *)
Definition failingOn (text : string) : Services :=
  mkServices
    (fun t _ =>
       if String.eqb t text then Throw "provider unavailable"
       else Ok [1%float])
    (fun _ _ => Ok (Num 1))
    heuristicLabels heuristicRangeLabels explain.

Definition plainCell (id value : string) : Cell :=
  mkCell id "s" "Notes" 1 1 "A1" (Some value) (Some value) None None "text"
    (Some (mkHeaders None None (Some []))).

Definition emptyState : ServiceState := mkState [] false.

(** A parser that rejects every formula. *)
Definition rejectingParser (formula : string) : Exc ParserOutput :=
  Ok (ParsedError "#ERROR!").

(** A value cell of the given sheet. *)
Definition valueCell (id sheet value : string) : Cell :=
  mkCell id "book" sheet 1 1 "A1" (Some value) (Some value) None None "text"
    (Some (mkHeaders None None (Some []))).

(** A formula cell as the spreadsheet parser builds it: [parsedFormula]
    is what [parseFormula] returns for the formula. *)
Definition formulaCell (id sheet value formula : string) : Cell :=
  mkCell id "book" sheet 2 1 "A2" (Some value) (Some value) (Some formula)
    (parseFormula rejectingParser (Some formula)) "formula"
    (Some (mkHeaders None None (Some []))).

Definition lowCell : Cell := valueCell "notes_1_1" "Notes" "alpha".
Definition brokenCell : Cell := formulaCell "notes_2_1" "Notes" "7" "=SUM(".
Definition highCell : Cell := valueCell "budget_1_1" "Budget" "beta".

(** Collaborators in the manner of the unit tests: a constant embedding
    and a constant similarity; the labels are those of the repository's
    label service without a language model. *)
Definition constantServices : Services :=
  mkServices
    (fun _ _ => Ok [1%float; 0%float; 0%float])
    (fun _ _ => Ok (Num (1 # 2)))
    heuristicLabels heuristicRangeLabels explain.

Definition defaultEnv : Env := mkEnv None None None None None.

Definition top10 : Options := mkOptions (Some 10%nat) None None.

(** The state after the three cells have been ingested. *)
Definition threeCellState : ServiceState :=
  fst (addToIndex constantServices [lowCell; brokenCell; highCell]
         emptyState).

(** The state after the two well-formed cells have been ingested. *)
Definition twoCellState : ServiceState :=
  fst (addToIndex constantServices [lowCell; highCell] emptyState).

(** The relevance column of a result list. *)
Definition ranking (results : Exc (list SearchResult))
  : Exc (list (string * number)) :=
  bindE results
    (fun l => Ok (map (fun r => (res_id r, res_relevance r)) l)).

(** The third document of [threeCellState]. *)
Definition highDoc : IndexedDocument :=
  enrich (CellDoc highCell) [1%float; 0%float; 0%float]
    (LabelService.generateLabels false (fun _ => Throw "no model") highCell).

Definition ranking_of_two_cells : Exc (list (string * number)) :=
  ranking (snd (search defaultEnv constantServices "total" top10
                  twoCellState)).

(** A range over two cells of sheet "Notes". *)
Definition notesRange : Range :=
  mkRange "range_Notes_unknown" "book" "Notes" None [lowCell; brokenCell]
    1 2 1 1 (Some ["alpha"; "7"]) true (Some "SUM").

(** The state after two cells, then one range, have been ingested. *)
Definition mixedState : ServiceState :=
  fst (addRangesToIndex constantServices [notesRange] twoCellState).

Definition cellsOnly : Options := mkOptions (Some 10%nat) None (Some false).

(** The tree of [=SUM(A1:A3)/B1]. *)
Definition ratioOfSum : Node :=
  mkNode OPERATOR EmptyString "/" None false
    [mkNode FUNCTION "SUM" EmptyString None false
       [mkNode CELL_RANGE EmptyString "A1:A3" None false []];
     mkNode CELL_REFERENCE EmptyString "B1" None false []].

(** The tree of [=A1/B1+C1]. *)
Definition ratioPlus : Node :=
  mkNode OPERATOR EmptyString "+" None false
    [mkNode OPERATOR EmptyString "/" None false
       [mkNode CELL_REFERENCE EmptyString "A1" None false [];
        mkNode CELL_REFERENCE EmptyString "B1" None false []];
     mkNode CELL_REFERENCE EmptyString "C1" None false []].

(** A parser that throws on every formula. *)
Definition throwingParser (formula : string) : Exc ParserOutput :=
  Throw "Unexpected token".

(** A sheet of two rows whose first row has a blank second entry. *)
Definition gappedGrid : Heuristics.Grid :=
  [["Region"; EmptyString; "Revenue"]; ["north"; "7"; "12"]].

(** The sheet as the spreadsheet parser reads it, none of its cells
    holding a formula. *)
Definition gappedSheet : Exc ExcelParser.SheetData :=
  ExcelParser.parseSheet rejectingParser (fun _ => true) (fun _ => None)
    "Sales" gappedGrid.

(** The cell B2 of that sheet, below the blank entry. *)
Definition shiftedCell : Cell :=
  ExcelParser.parseCell rejectingParser (fun _ => true) (fun _ => None)
    "Sales"
    (Heuristics.detectHeaders gappedGrid
       (Heuristics.mkDetectOptions None None))
    gappedGrid 1 1 "7".

(** Two results as the searches format them. *)
Definition revenueResult : SearchResult :=
  mkSearchResult "sales_2_2" "revenue" "Sales" "B2" None (Some "1200")
    "Matches the query" (Num (1 # 2)) ["Concept match"] ["revenue"] "cell".

Definition costResult : SearchResult :=
  mkSearchResult "sales_3_2" "cost" "Sales" "B3" None (Some "800")
    "Matches the query" (Num (2 # 5)) ["Concept match"] ["cost"] "cell".

(** The results of a search, none when it throws. *)
Definition resultsOf (outcome : ServiceState * Exc (list SearchResult))
  : list SearchResult :=
  match snd outcome with
  | Ok results => results
  | Throw _ => []
  end.

End Samples.

(* ================================================================== *)
(** * Properties of the embedding service *)
(* ================================================================== *)

Section CosineFacts.
Import EmbeddingService.
Variable A : Arithmetic.

(** The value returned for vectors of equal length, with the three
    accumulators named. *)
Lemma cosine_equal_length (a b : list (num A)) :
  List.length a = List.length b ->
  calculateCosineSimilarity A a b =
    let t := accumulate A a b (zero A) (zero A) (zero A) in
    let normA := sqrt A (snd (fst t)) in
    let normB := sqrt A (snd t) in
    if orb (isZero A normA) (isZero A normB) then Ok (zero A)
    else Ok (div A (fst (fst t)) (mul A normA normB)).
Proof.
  intros Hlen. unfold calculateCosineSimilarity.
  rewrite Hlen, Nat.eqb_refl. simpl.
  destruct (accumulate A a b (zero A) (zero A) (zero A)) as [[d na] nb].
  reflexivity.
Qed.

Hypothesis mul_comm : forall x y : num A, mul A x y = mul A y x.

Lemma accumulate_swap (a b : list (num A)) :
  forall d na nb,
    accumulate A b a d nb na =
      (fst (fst (accumulate A a b d na nb)),
       snd (accumulate A a b d na nb),
       snd (fst (accumulate A a b d na nb))).
Proof.
  revert b. induction a as [|x a IH]; intros [|y b] d na nb;
    try reflexivity.
  simpl. rewrite (mul_comm y x). apply IH.
Qed.

Lemma cosine_symmetric_in (a b : list (num A)) :
  calculateCosineSimilarity A a b = calculateCosineSimilarity A b a.
Proof.
  unfold calculateCosineSimilarity.
  rewrite (Nat.eqb_sym (List.length b) (List.length a)).
  destruct (Nat.eqb (List.length a) (List.length b)); simpl; [|reflexivity].
  rewrite (accumulate_swap a b).
  destruct (accumulate A a b (zero A) (zero A) (zero A)) as [[d na] nb].
  simpl. rewrite (orb_comm (isZero A (sqrt A nb))).
  rewrite (mul_comm (sqrt A nb)). reflexivity.
Qed.
End CosineFacts.

Section Binary64Facts.
Import EmbeddingService Vocabulary.

Lemma SFmul_comm prec emax x y :
  SpecFloat.SFmul prec emax x y = SpecFloat.SFmul prec emax y x.
Proof.
  destruct x as [sx|sx| |sx mx ex], y as [sy|sy| |sy my ey]; simpl;
    try reflexivity; try (now rewrite xorb_comm).
  now rewrite xorb_comm, Pos.mul_comm, Z.add_comm.
Qed.

Lemma float_mul_comm (x y : float) : (x * y = y * x)%float.
Proof. apply Prim2SF_inj. rewrite !mul_spec. apply SFmul_comm. Qed.

Lemma floatZero_square (x : float) :
  floatZero x -> (0 + x * x = 0)%float.
Proof. intros [-> | ->]; reflexivity. Qed.

(** A zero first vector leaves [normA] at zero, whatever the second. *)
Lemma accumulate_zero_left (a b : list float) :
  zeroVector a ->
  forall d nb, snd (fst (accumulate binary64 a b d 0%float nb)) = 0%float.
Proof.
  intros Ha. revert b. induction Ha as [|x a Hx Ha IH];
    intros [|y b] d nb; try reflexivity.
  simpl. rewrite (floatZero_square x Hx). apply IH.
Qed.

Lemma accumulate_zero_right (a b : list float) :
  zeroVector b ->
  forall d na, snd (accumulate binary64 a b d na 0%float) = 0%float.
Proof.
  intros Hb. revert a. induction Hb as [|y b Hy Hb IH];
    intros [|x a] d na; try reflexivity.
  simpl. rewrite (floatZero_square y Hy). apply IH.
Qed.
(** A vector read against itself: the three accumulators stay equal,
    each the running squared norm. *)
Lemma accumulate_self (a : list float) :
  forall s : float,
    accumulate binary64 a a s s s =
      let norm := fold_left (fun norm x => (norm + x * x)%float) a s in
      (norm, norm, norm).
Proof.
  induction a as [|x a IH]; intros s; [reflexivity|].
  cbn [accumulate fold_left]. apply IH.
Qed.

(** The similarity of a vector with itself, from its squared norm. *)
Lemma cosine_self (a : list float) :
  calculateCosineSimilarity binary64 a a =
    let norm := PrimFloat.sqrt (squaredNorm a) in
    if PrimFloat.eqb norm 0 then Ok 0%float
    else Ok (squaredNorm a / (norm * norm))%float.
Proof.
  rewrite (cosine_equal_length binary64 a a eq_refl).
  change (zero binary64) with 0%float. rewrite accumulate_self.
  cbn [fst snd]. fold (squaredNorm a).
  change (sqrt binary64) with PrimFloat.sqrt.
  change (isZero binary64) with (fun x => PrimFloat.eqb x 0).
  cbv beta. rewrite orb_diag. reflexivity.
Qed.
End Binary64Facts.

(** C10. For vectors of equal length, when all the components of one of
    them are zero (of either sign), or more generally when one of the
    two computed norms is zero, [calculateCosineSimilarity] returns 0
    without dividing; the quotient is the result exactly when both norms
    are non-zero. *)
Theorem cosine_zero_norm_returns_zero :
  forall a b : list float,
    List.length a = List.length b ->
    let t := EmbeddingService.accumulate EmbeddingService.binary64 a b
               0%float 0%float 0%float in
    let normA := PrimFloat.sqrt (snd (fst t)) in
    let normB := PrimFloat.sqrt (snd t) in
    (Vocabulary.zeroVector a \/ Vocabulary.zeroVector b ->
     EmbeddingService.calculateCosineSimilarity
       EmbeddingService.binary64 a b = Ok 0%float) /\
    (PrimFloat.eqb normA 0 = true \/ PrimFloat.eqb normB 0 = true ->
     EmbeddingService.calculateCosineSimilarity
       EmbeddingService.binary64 a b = Ok 0%float) /\
    (PrimFloat.eqb normA 0 = false -> PrimFloat.eqb normB 0 = false ->
     EmbeddingService.calculateCosineSimilarity
       EmbeddingService.binary64 a b
       = Ok (fst (fst t) / (normA * normB))%float).
Proof.
  intros a b Hlen t normA normB.
  assert (E : EmbeddingService.calculateCosineSimilarity
                EmbeddingService.binary64 a b =
              if orb (PrimFloat.eqb normA 0) (PrimFloat.eqb normB 0)
              then Ok 0%float
              else Ok (fst (fst t) / (normA * normB))%float)
    by exact (cosine_equal_length EmbeddingService.binary64 a b Hlen).
  assert (Hguard : PrimFloat.eqb normA 0 = true \/ PrimFloat.eqb normB 0 = true ->
                   EmbeddingService.calculateCosineSimilarity
                     EmbeddingService.binary64 a b = Ok 0%float).
  { intros H. rewrite E.
    destruct H as [H | H]; rewrite H; [reflexivity | now rewrite orb_true_r]. }
  split; [|split].
  - intros [Ha | Hb]; apply Hguard.
    + left. unfold normA, t.
      now rewrite (accumulate_zero_left a b Ha).
    + right. unfold normB, t.
      now rewrite (accumulate_zero_right a b Hb).
  - exact Hguard.
  - intros Ea Eb. rewrite E, Ea, Eb. reflexivity.
Qed.

Lemma cosine_zero_norm_returns_zero_witness :
  EmbeddingService.calculateCosineSimilarity EmbeddingService.binary64
    [0%float; (-0)%float] [3%float; 4%float] = Ok 0%float.
Proof.
  refine (proj1 (cosine_zero_norm_returns_zero [0%float; (-0)%float]
                   [3%float; 4%float] eq_refl) _).
  left. constructor; [left; reflexivity|].
  constructor; [right; reflexivity|]. constructor.
Defined.

(** C8, as stated, fails in the arithmetic of the code: for the non-zero
    vector [1, 1] the squared norm is 2, [Math.sqrt(2) * Math.sqrt(2)]
    rounds to 2.0000000000000004 and the quotient is 0.9999999999999998,
    two units in the last place below 1. *)
Lemma cosine_self_binary64_not_one :
  EmbeddingService.calculateCosineSimilarity EmbeddingService.binary64
    [1%float; 1%float] [1%float; 1%float] = Ok 0x1.ffffffffffffep-1%float /\
  EmbeddingService.calculateCosineSimilarity EmbeddingService.binary64
    [1%float; 1%float] [1%float; 1%float] <> Ok 1%float.
Proof.
  split; [reflexivity|].
  intros H.
  apply (f_equal (fun e => match e with
                           | Ok r => PrimFloat.eqb r 1
                           | Throw _ => false
                           end)) in H.
  vm_compute in H. discriminate H.
Qed.

(** Two more non-zero vectors: squares that underflow give 0, squares
    that overflow give NaN. *)
Example cosine_self_binary64_extremes :
  EmbeddingService.calculateCosineSimilarity EmbeddingService.binary64
    [0x1p-600%float] [0x1p-600%float] = Ok 0%float /\
  EmbeddingService.calculateCosineSimilarity EmbeddingService.binary64
    [0x1p600%float] [0x1p600%float] = Ok nan.
Proof. split; reflexivity. Qed.
(* ================================================================== *)
(** * Rounding in binary64 *)
(* ================================================================== *)

(** The operations of binary64 are specified by [SpecFloat]: each one
    computes an integer mantissa with its round and sticky bits and rounds
    it to nearest, ties to even.  This part measures them in the real
    numbers: a product, a quotient or a square root of normal numbers,
    when the result is in the range of the normal numbers, is within half
    a unit in the last place of the exact value. *)

Section PowerFacts.
Import Vocabulary.
Open Scope R_scope.

Lemma bpow_pos (e : Z) : 0 < bpow e.
Proof. apply powerRZ_lt. lra. Qed.

Lemma bpow_add (a b : Z) : bpow (a + b) = bpow a * bpow b.
Proof. apply powerRZ_add. lra. Qed.

Lemma bpow_IZR (e : Z) : (0 <= e)%Z -> bpow e = IZR (2 ^ e).
Proof.
  intros H. destruct e as [|p|p]; [reflexivity| |lia].
  unfold bpow. symmetry. apply (Zpower_pos_powerRZ 2 p).
Qed.

Lemma bpow_le (a b : Z) : (a <= b)%Z -> bpow a <= bpow b.
Proof.
  intros H. replace b with (a + (b - a))%Z by lia.
  rewrite bpow_add, (bpow_IZR (b - a)) by lia.
  assert (1 <= IZR (2 ^ (b - a))).
  { apply IZR_le. pose proof (Z.pow_pos_nonneg 2 (b - a)). lia. }
  pose proof (bpow_pos a). nra.
Qed.

Lemma bpow_lt (a b : Z) : (a < b)%Z -> bpow a < bpow b.
Proof.
  intros H. replace b with (a + (b - a))%Z by lia.
  rewrite bpow_add, (bpow_IZR (b - a)) by lia.
  assert (2 <= IZR (2 ^ (b - a))).
  { apply IZR_le. replace (b - a)%Z with (Z.succ (b - a - 1)) by lia.
    rewrite Z.pow_succ_r by lia.
    pose proof (Z.pow_pos_nonneg 2 (b - a - 1)). lia. }
  pose proof (bpow_pos a). nra.
Qed.

Lemma bpow_lt_inv (a b : Z) : bpow a < bpow b -> (a < b)%Z.
Proof.
  intros H. destruct (Z_lt_le_dec a b) as [L|L]; [exact L|].
  apply bpow_le in L. lra.
Qed.

Lemma bpow_opp (a : Z) : bpow (- a) * bpow a = 1.
Proof. rewrite <- bpow_add. now replace (- a + a)%Z with 0%Z by lia. Qed.

End PowerFacts.

Section DigitFacts.
Import Vocabulary.
Open Scope Z_scope.

Lemma digits2_pos_bounds (m : positive) :
  2 ^ (Z.pos (SpecFloat.digits2_pos m) - 1) <= Z.pos m
  < 2 ^ Z.pos (SpecFloat.digits2_pos m).
Proof.
  induction m as [m IH|m IH|]; cbn [SpecFloat.digits2_pos].
  - rewrite Pos2Z.inj_succ. change (Z.pos m~1) with (2 * Z.pos m + 1).
    replace (Z.succ (Z.pos (SpecFloat.digits2_pos m)) - 1)
      with (Z.succ (Z.pos (SpecFloat.digits2_pos m) - 1)) by lia.
    rewrite !Z.pow_succ_r by lia. lia.
  - rewrite Pos2Z.inj_succ. change (Z.pos m~0) with (2 * Z.pos m).
    replace (Z.succ (Z.pos (SpecFloat.digits2_pos m)) - 1)
      with (Z.succ (Z.pos (SpecFloat.digits2_pos m) - 1)) by lia.
    rewrite !Z.pow_succ_r by lia. lia.
  - cbn. lia.
Qed.

Lemma digits_of_range (m : positive) (d : Z) :
  2 ^ (d - 1) <= Z.pos m < 2 ^ d -> 0 < d ->
  Z.pos (SpecFloat.digits2_pos m) = d.
Proof.
  intros H Hd. pose proof (digits2_pos_bounds m) as B.
  set (d' := Z.pos (SpecFloat.digits2_pos m)) in *.
  assert (d' - 1 < d).
  { apply (Z.pow_lt_mono_r_iff 2); lia. }
  assert (d - 1 < d').
  { apply (Z.pow_lt_mono_r_iff 2); lia. }
  lia.
Qed.

Lemma range_of_digits (m : positive) (d : Z) :
  Z.pos (SpecFloat.digits2_pos m) = d ->
  2 ^ (d - 1) <= Z.pos m < 2 ^ d.
Proof. intros <-. apply digits2_pos_bounds. Qed.

End DigitFacts.

Section ShiftFacts.
Import Vocabulary.
Import SpecFloat.
Open Scope R_scope.

Lemma located_bounds (mrs : shr_record) (x : R) :
  located mrs x -> IZR (shr_m mrs) <= x < IZR (shr_m mrs) + 1.
Proof.
  unfold located. destruct (shr_r mrs), (shr_s mrs); cbv zeta; lra.
Qed.

Lemma IZR_xO (p : positive) : IZR (Z.pos p~0) = 2 * IZR (Z.pos p).
Proof. change (Z.pos p~0) with (2 * Z.pos p)%Z. now rewrite mult_IZR. Qed.

Lemma IZR_xI (p : positive) : IZR (Z.pos p~1) = 2 * IZR (Z.pos p) + 1.
Proof.
  change (Z.pos p~1) with (2 * Z.pos p + 1)%Z.
  now rewrite plus_IZR, mult_IZR.
Qed.

Lemma shr_1_located (mrs : shr_record) (x : R) :
  (0 <= shr_m mrs)%Z -> located mrs x ->
  located (shr_1 mrs) (x / 2) /\ (0 <= shr_m (shr_1 mrs))%Z.
Proof.
  destruct mrs as [m r s]. cbn [shr_m]. intros Hm.
  unfold located. cbn [shr_m shr_r shr_s]. cbv zeta.
  destruct m as [|[p|p|]|p]; [| | | |lia];
    destruct r, s; cbn [shr_1 orb shr_m shr_r shr_s];
    rewrite ?(IZR_xO p), ?(IZR_xI p); intros H; (split; [lra | lia]).
Qed.

Lemma bpow_m1 : bpow (-1) = / 2.
Proof. unfold bpow. simpl. now rewrite Rmult_1_r. Qed.

Lemma iter_pos_located (n : positive) :
  forall (mrs : shr_record) (x : R),
    (0 <= shr_m mrs)%Z -> located mrs x ->
    located (iter_pos shr_1 n mrs) (x * bpow (- Z.pos n)) /\
    (0 <= shr_m (iter_pos shr_1 n mrs))%Z.
Proof.
  induction n as [n IH|n IH|]; intros mrs x Hm H; cbn [iter_pos].
  - destruct (shr_1_located mrs x Hm H) as [H1 M1].
    destruct (IH _ _ M1 H1) as [H2 M2].
    destruct (IH _ _ M2 H2) as [H3 M3].
    split; [|exact M3].
    replace (x * bpow (- Z.pos n~1))
      with (x / 2 * bpow (- Z.pos n) * bpow (- Z.pos n)); [exact H3|].
    change (Z.pos n~1) with (2 * Z.pos n + 1)%Z.
    replace (- (2 * Z.pos n + 1))%Z
      with (-1 + (- Z.pos n + - Z.pos n))%Z by lia.
    rewrite !bpow_add, bpow_m1. lra.
  - destruct (IH _ _ Hm H) as [H2 M2].
    destruct (IH _ _ M2 H2) as [H3 M3].
    split; [|exact M3].
    replace (x * bpow (- Z.pos n~0))
      with (x * bpow (- Z.pos n) * bpow (- Z.pos n)); [exact H3|].
    change (Z.pos n~0) with (2 * Z.pos n)%Z.
    replace (- (2 * Z.pos n))%Z with (- Z.pos n + - Z.pos n)%Z by lia.
    rewrite !bpow_add. lra.
  - destruct (shr_1_located mrs x Hm H) as [H1 M1].
    split; [|exact M1].
    change (bpow (- Z.pos 1)) with (bpow (-1)). rewrite bpow_m1. exact H1.
Qed.

Lemma shr_located (mrs : shr_record) (e n : Z) (x : R) :
  (0 <= n)%Z -> (0 <= shr_m mrs)%Z -> located mrs x ->
  located (fst (shr mrs e n)) (x * bpow (- n)) /\
  (0 <= shr_m (fst (shr mrs e n)))%Z /\
  snd (shr mrs e n) = (e + n)%Z.
Proof.
  intros Hn Hm H. destruct n as [|p|p]; [| |lia].
  - cbn [shr fst snd]. split; [|split; [exact Hm|lia]].
    change (bpow (- 0)) with 1. now rewrite Rmult_1_r.
  - cbn [shr fst snd].
    destruct (iter_pos_located p mrs x Hm H) as [H1 M1].
    split; [exact H1|]. split; [exact M1 | reflexivity].
Qed.

Lemma rne_located (mrs : shr_record) (x : R) :
  located mrs x ->
  let k := round_nearest_even (shr_m mrs) (loc_of_shr_record mrs) in
  (shr_m mrs <= k <= shr_m mrs + 1)%Z /\
  Rabs (IZR k - x) <= / 2 /\
  (x = IZR (shr_m mrs) -> k = shr_m mrs).
Proof.
  destruct mrs as [m r s]. unfold located.
  cbn [shr_m shr_r shr_s]. cbv zeta.
  destruct r, s; cbn [loc_of_shr_record round_nearest_even]; intros H.
  - split; [lia|]. rewrite plus_IZR. split; [|intros E; lra].
    apply Rabs_le. lra.
  - destruct (Z.even m); (split; [lia|]); rewrite ?plus_IZR;
      (split; [apply Rabs_le; lra | intros E; lra]).
  - split; [lia|]. split; [apply Rabs_le; lra | intros E; lra].
  - split; [lia|]. split; [|reflexivity].
    apply Rabs_le. lra.
Qed.

End ShiftFacts.

Section RoundFacts.
Import Vocabulary.
Import SpecFloat.
Open Scope R_scope.

Lemma shr_m_of_loc (m : Z) (l : location) :
  shr_m (shr_record_of_loc m l) = m.
Proof. destruct l as [|[]]; reflexivity. Qed.

Lemma loc_of_loc (m : Z) (l : location) :
  loc_of_shr_record (shr_record_of_loc m l) = l.
Proof. destruct l as [|[]]; reflexivity. Qed.

Lemma bpow_53_971 : realValue (2 ^ 53 - 1) 971 < bpow 1024.
Proof.
  unfold realValue. replace 1024%Z with (53 + 971)%Z by lia.
  rewrite bpow_add, (bpow_IZR 53) by lia.
  pose proof (bpow_pos 971).
  assert (IZR (2 ^ 53 - 1) < IZR (2 ^ 53)) by (apply IZR_lt; lia).
  nra.
Qed.

(** Rounding to nearest of a located positive number with at least 53
    digits, in the range of the normal numbers. *)
Lemma round_aux_normal (mx ex : Z) (lx : location) (x : R) (d : Z) :
  located (shr_record_of_loc mx lx) x ->
  (0 < mx)%Z -> Zdigits2 mx = d -> (53 <= d)%Z ->
  bpow (-1022) <= x * bpow ex <= realValue (2 ^ 53 - 1) 971 ->
  exists (k : positive) (e : Z),
    binary_round_aux prec emax false mx ex lx = S754_finite false k e /\
    (2 ^ 52 <= Z.pos k < 2 ^ 53)%Z /\
    (-1074 <= e <= 971)%Z /\
    (e = d + ex - 53 \/ (Z.pos k = 2 ^ 52 /\ e = d + ex - 52))%Z /\
    Rabs (realValue (Z.pos k) e - x * bpow ex) <= / 2 * bpow (d + ex - 53).
Proof.
  intros Hloc Hpos Hd Hd53 [Hlo Hhi].
  destruct mx as [|pm|pm]; try lia. cbn [Zdigits2] in Hd.
  pose proof (range_of_digits pm d Hd) as Hr.
  pose proof (located_bounds _ _ Hloc) as Hb. rewrite shr_m_of_loc in Hb.
  set (n := (d - 53)%Z). set (e1 := (ex + n)%Z).
  assert (Hx1 : bpow (d - 1) <= x).
  { rewrite bpow_IZR by lia.
    assert (IZR (2 ^ (d - 1)) <= IZR (Z.pos pm)) by (apply IZR_le; lia).
    lra. }
  assert (Hx2 : x < bpow d).
  { rewrite bpow_IZR by lia.
    assert (IZR (Z.pos pm) + 1 <= IZR (2 ^ d)).
    { rewrite <- (plus_IZR _ 1). apply IZR_le. lia. }
    lra. }
  pose proof (bpow_pos ex) as Pex.
  assert (He1 : (-1074 <= e1 <= 971)%Z).
  { assert (A : (-1022 < d + ex)%Z).
    { apply bpow_lt_inv. rewrite (bpow_add d ex). nra. }
    assert (B : (d - 1 + ex < 1024)%Z).
    { apply bpow_lt_inv. rewrite (bpow_add (d - 1) ex).
      pose proof bpow_53_971. nra. }
    unfold e1, n. lia. }
  unfold binary_round_aux, shr_fexp.
  assert (F1 : (fexp prec emax (Zdigits2 (Z.pos pm) + ex) - ex = n)%Z).
  { cbn [Zdigits2]. rewrite Hd. unfold fexp, SpecFloat.emin.
    change prec with 53%Z. change emax with 1024%Z. unfold e1, n in He1.
    unfold n. lia. }
  rewrite F1.
  assert (Hn : (0 <= n)%Z) by (unfold n; lia).
  assert (Hm0 : (0 <= shr_m (shr_record_of_loc (Z.pos pm) lx))%Z)
    by (rewrite shr_m_of_loc; lia).
  destruct (shr_located _ ex n x Hn Hm0 Hloc) as [L1 [M1 E1]].
  destruct (shr (shr_record_of_loc (Z.pos pm) lx) ex n) as [mrs' e'].
  cbn [fst snd] in L1, M1, E1. subst e'. fold e1.
  set (y := x * bpow (- n)) in *.
  assert (Hy : x * bpow ex = y * bpow e1).
  { unfold y, e1. rewrite (bpow_add ex n).
    replace (x * bpow (- n) * (bpow ex * bpow n))
      with (x * bpow ex * (bpow (- n) * bpow n)) by ring.
    rewrite bpow_opp. ring. }
  assert (Hy1 : bpow 52 <= y).
  { unfold y. replace 52%Z with (d - 1 + - n)%Z by (unfold n; lia).
    rewrite bpow_add. pose proof (bpow_pos (- n)). nra. }
  assert (Hy2 : y < bpow 53).
  { unfold y. replace 53%Z with (d + - n)%Z by (unfold n; lia).
    rewrite bpow_add. pose proof (bpow_pos (- n)). nra. }
  rewrite (bpow_IZR 52) in Hy1 by lia. rewrite (bpow_IZR 53) in Hy2 by lia.
  pose proof (located_bounds _ _ L1) as Hb1.
  destruct (rne_located _ _ L1) as [K1 [K2 K3]].
  set (k0 := round_nearest_even (shr_m mrs') (loc_of_shr_record mrs')) in *.
  assert (Hm1 : (2 ^ 52 <= shr_m mrs' < 2 ^ 53)%Z).
  { split.
    - assert (IZR (2 ^ 52 - 1) < IZR (shr_m mrs')).
      { rewrite minus_IZR. lra. }
      apply lt_IZR in H. lia.
    - apply lt_IZR. lra. }
  pose proof (bpow_pos e1) as Pe1.
  destruct (Z_lt_le_dec k0 (2 ^ 53)) as [Hk | Hk].
  - (* no carry *)
    destruct k0 as [|k|k] eqn:Ek; try lia.
    assert (Dk : Z.pos (digits2_pos k) = 53%Z)
      by (apply digits_of_range; lia).
    assert (F2 : (fexp prec emax (Zdigits2 (Z.pos k) + e1) - e1 = 0)%Z).
    { cbn [Zdigits2]. rewrite Dk. unfold fexp, SpecFloat.emin.
      change prec with 53%Z. change emax with 1024%Z. lia. }
    rewrite F2. cbn [shr_record_of_loc shr shr_m].
    assert (Le : Z.leb e1 (emax - prec) = true).
    { change prec with 53%Z. change emax with 1024%Z.
      apply Z.leb_le. lia. }
    rewrite Le. exists k, e1.
    split; [reflexivity|]. split; [lia|]. split; [lia|].
    split; [left; unfold e1, n; lia|].
    replace (d + ex - 53)%Z with e1 by (unfold e1, n; lia).
    rewrite Hy. unfold realValue.
    replace (IZR (Z.pos k) * bpow e1 - y * bpow e1)
      with ((IZR (Z.pos k) - y) * bpow e1) by ring.
    rewrite Rabs_mult, (Rabs_pos_eq (bpow e1)) by lra.
    apply Rmult_le_compat_r; [lra | exact K2].
  - (* carry to the next binade *)
    assert (Ek : k0 = (2 ^ 53)%Z) by lia.
    assert (Em : shr_m mrs' = (2 ^ 53 - 1)%Z) by lia.
    assert (He2 : (e1 <= 970)%Z).
    { destruct (Z_lt_le_dec e1 971) as [L|L]; [lia|].
      assert (E971 : e1 = 971%Z) by lia.
      exfalso.
      assert (Hyle : y <= IZR (2 ^ 53 - 1)).
      { rewrite Hy, E971 in Hhi. unfold realValue in Hhi.
        pose proof (bpow_pos 971). nra. }
      assert (Hye : y = IZR (shr_m mrs')) by (rewrite Em in Hb1 |- *; lra).
      specialize (K3 Hye). lia. }
    rewrite Ek.
    assert (F2 : (fexp prec emax (Zdigits2 (2 ^ 53) + e1) - e1 = 1)%Z).
    { change (Zdigits2 (2 ^ 53)) with 54%Z. unfold fexp, SpecFloat.emin.
      change prec with 53%Z. change emax with 1024%Z. lia. }
    rewrite F2.
    change (shr (shr_record_of_loc (2 ^ 53) loc_Exact) e1 1)
      with ({| shr_m := 2 ^ 52; shr_r := false; shr_s := false |},
            (e1 + 1)%Z).
    cbn [shr_m].
    assert (Le : Z.leb (e1 + 1) (emax - prec) = true).
    { change prec with 53%Z. change emax with 1024%Z.
      apply Z.leb_le. lia. }
    change (2 ^ 52)%Z with (Z.pos (2 ^ 52)). rewrite Le.
    exists (2 ^ 52)%positive, (e1 + 1)%Z.
    split; [reflexivity|]. split; [lia|]. split; [lia|].
    split; [right; split; [reflexivity | unfold e1, n; lia]|].
    replace (d + ex - 53)%Z with e1 by (unfold e1, n; lia).
    rewrite Hy. unfold realValue. rewrite bpow_add.
    replace (bpow 1) with 2 by (unfold bpow; simpl; ring).
    replace (IZR (Z.pos (2 ^ 52)) * (bpow e1 * 2) - y * bpow e1)
      with ((IZR k0 - y) * bpow e1).
    + rewrite Rabs_mult, (Rabs_pos_eq (bpow e1)) by lra.
      apply Rmult_le_compat_r; [lra | exact K2].
    + rewrite Ek. change (Z.pos (2 ^ 52)) with (2 ^ 52)%Z.
      change (2 ^ 53)%Z with (2 * 2 ^ 52)%Z. rewrite mult_IZR. ring.
Qed.

End RoundFacts.

Section OperationFacts.
Import Vocabulary.
Import SpecFloat.
Open Scope R_scope.

Lemma realValue_bounds (m : positive) (e : Z) :
  (2 ^ 52 <= Z.pos m < 2 ^ 53)%Z ->
  bpow (52 + e) <= realValue (Z.pos m) e < bpow (53 + e).
Proof.
  intros [H1 H2]. unfold realValue.
  rewrite !bpow_add, (bpow_IZR 52), (bpow_IZR 53) by lia.
  pose proof (bpow_pos e). apply IZR_le in H1. apply IZR_lt in H2.
  split; nra.
Qed.

Lemma top_value : bpow 971 <= realValue (2 ^ 53 - 1) 971.
Proof.
  unfold realValue. pose proof (bpow_pos 971).
  assert (1 <= IZR (2 ^ 53 - 1)) by (apply IZR_le; lia). nra.
Qed.

(** The product of two normal numbers, when it is in the range of the
    normal numbers. *)
Lemma mul_normal (m1 m2 : positive) (e1 e2 : Z) :
  (2 ^ 52 <= Z.pos m1 < 2 ^ 53)%Z -> (2 ^ 52 <= Z.pos m2 < 2 ^ 53)%Z ->
  bpow (-1022) <= realValue (Z.pos m1) e1 * realValue (Z.pos m2) e2
    <= realValue (2 ^ 53 - 1) 971 ->
  exists (k : positive) (e : Z),
    SFmul prec emax (S754_finite false m1 e1) (S754_finite false m2 e2)
    = S754_finite false k e /\
    (2 ^ 52 <= Z.pos k < 2 ^ 53)%Z /\ (-1074 <= e <= 971)%Z /\
    Rabs (realValue (Z.pos k) e
          - realValue (Z.pos m1) e1 * realValue (Z.pos m2) e2)
    <= / 2 * bpow e.
Proof.
  intros H1 H2 Hv. cbn [SFmul xorb].
  set (d := Z.pos (digits2_pos (m1 * m2))).
  assert (Hd : (53 <= d)%Z).
  { pose proof (digits2_pos_bounds (m1 * m2)) as B. fold d in B.
    assert (2 ^ 104 <= Z.pos (m1 * m2))%Z.
    { rewrite Pos2Z.inj_mul. change (2 ^ 104)%Z with (2 ^ 52 * 2 ^ 52)%Z.
      apply Z.mul_le_mono_nonneg; lia. }
    assert (104 < d)%Z by (apply (Z.pow_lt_mono_r_iff 2); lia).
    lia. }
  assert (Ex : IZR (Z.pos (m1 * m2)) * bpow (e1 + e2)
               = realValue (Z.pos m1) e1 * realValue (Z.pos m2) e2).
  { unfold realValue. rewrite Pos2Z.inj_mul, mult_IZR, bpow_add. ring. }
  destruct (round_aux_normal (Z.pos (m1 * m2)) (e1 + e2) loc_Exact
              (IZR (Z.pos (m1 * m2))) d) as [k [e [E [Hk [He [Hc Herr]]]]]].
  - reflexivity.
  - lia.
  - reflexivity.
  - exact Hd.
  - rewrite Ex. exact Hv.
  - exists k, e. split; [exact E|]. split; [exact Hk|]. split; [exact He|].
    rewrite Ex in Herr.
    apply (Rle_trans _ _ _ Herr).
    apply Rmult_le_compat_l; [lra|].
    apply bpow_le. lia.
Qed.

Lemma new_location_located (nb q r a : Z) :
  (0 < nb)%Z -> (0 <= r < nb)%Z -> a = (nb * q + r)%Z ->
  located (shr_record_of_loc q (new_location nb r)) (IZR a / IZR nb).
Proof.
  intros Hnb Hr ->.
  assert (Pnb : 0 < IZR nb) by (apply IZR_lt; lia).
  set (t := IZR r / IZR nb).
  assert (Ex : IZR (nb * q + r) / IZR nb = IZR q + t).
  { unfold t. rewrite plus_IZR, mult_IZR. field. lra. }
  rewrite Ex.
  assert (Ht : t * IZR nb = IZR r) by (unfold t; field; lra).
  assert (T0 : (r = 0)%Z -> t = 0).
  { intros ->. unfold t. field. lra. }
  assert (Tlt : (2 * r < nb)%Z -> 2 * t < 1).
  { intros H. apply IZR_lt in H. rewrite mult_IZR in H. nra. }
  assert (Teq : (2 * r = nb)%Z -> 2 * t = 1).
  { intros H. apply (f_equal IZR) in H. rewrite mult_IZR in H. nra. }
  assert (Tgt : (nb < 2 * r)%Z -> 1 < 2 * t).
  { intros H. apply IZR_lt in H. rewrite mult_IZR in H. nra. }
  assert (Tpos : (r <> 0)%Z -> 0 < t).
  { intros H. assert (0 < IZR r) by (apply IZR_lt; lia). nra. }
  assert (T1 : t < 1).
  { assert (IZR r < IZR nb) by (apply IZR_lt; lia). nra. }
  unfold new_location, new_location_even, new_location_odd.
  destruct (Z.even nb) eqn:Ev; destruct (Z.eqb_spec r 0) as [E0|N0].
  - unfold located. cbn. specialize (T0 E0). lra.
  - destruct (Z.compare_spec (2 * r) nb) as [E|L|G]; unfold located; cbn.
    + specialize (Teq E). lra.
    + specialize (Tlt L). specialize (Tpos N0). lra.
    + specialize (Tgt G). lra.
  - unfold located. cbn. specialize (T0 E0). lra.
  - assert (Hodd : (2 * r <> nb)%Z).
    { intros E. rewrite <- E, Z.even_mul in Ev. discriminate Ev. }
    destruct (Z.compare_spec (2 * r + 1) nb) as [E|L|G]; unfold located; cbn.
    + assert (L : (2 * r < nb)%Z) by lia.
      specialize (Tlt L). specialize (Tpos N0). lra.
    + assert (L' : (2 * r < nb)%Z) by lia.
      specialize (Tlt L'). specialize (Tpos N0). lra.
    + assert (G' : (nb < 2 * r)%Z) by lia.
      specialize (Tgt G'). lra.
Qed.

(** The quotient of two normal numbers of nearby exponents. *)
Lemma div_normal (m1 m2 : positive) (e1 e2 : Z) :
  (2 ^ 52 <= Z.pos m1 < 2 ^ 53)%Z -> (2 ^ 52 <= Z.pos m2 < 2 ^ 53)%Z ->
  (-900 <= e1 - e2 <= 900)%Z ->
  exists (k : positive) (e : Z),
    SFdiv prec emax (S754_finite false m1 e1) (S754_finite false m2 e2)
    = S754_finite false k e /\
    (2 ^ 52 <= Z.pos k < 2 ^ 53)%Z /\
    Rabs (realValue (Z.pos k) e
          - realValue (Z.pos m1) e1 / realValue (Z.pos m2) e2)
    <= / 2 * bpow e.
Proof.
  intros H1 H2 He. cbn [SFdiv xorb]. unfold SFdiv_core_binary.
  cbn [Zdigits2].
  rewrite (digits_of_range m1 53), (digits_of_range m2 53) by lia.
  set (e' := (e1 - e2 - 53)%Z).
  assert (E' : Z.min (fexp prec emax (53 + e1 - (53 + e2))) (e1 - e2) = e').
  { unfold fexp, SpecFloat.emin. change prec with 53%Z.
    change emax with 1024%Z. unfold e'. lia. }
  rewrite E'. replace (e1 - e2 - e')%Z with 53%Z by (unfold e'; lia).
  rewrite Z.shiftl_mul_pow2 by lia.
  set (a := (Z.pos m1 * 2 ^ 53)%Z).
  pose proof (Z_div_mod a (Z.pos m2) ltac:(lia)) as Hdm.
  destruct (Z.div_eucl a (Z.pos m2)) as [q r]. destruct Hdm as [Ea Hr].
  assert (Hq : (2 ^ 52 <= q < 2 ^ 54)%Z).
  { unfold a in Ea. split.
    - destruct (Z_lt_le_dec q (2 ^ 52)) as [L|L]; [|exact L]. exfalso.
      assert (Z.pos m2 * q <= Z.pos m2 * (2 ^ 52 - 1))%Z
        by (apply Z.mul_le_mono_nonneg_l; lia).
      assert (Z.pos m2 * (2 ^ 52 - 1) + Z.pos m2 <= 2 ^ 53 * 2 ^ 52)%Z.
      { replace (Z.pos m2 * (2 ^ 52 - 1) + Z.pos m2)%Z
          with (Z.pos m2 * 2 ^ 52)%Z by ring.
        apply Z.mul_le_mono_nonneg_r; lia. }
      assert (2 ^ 52 * 2 ^ 53 <= Z.pos m1 * 2 ^ 53)%Z
        by (apply Z.mul_le_mono_nonneg_r; lia).
      lia.
    - destruct (Z_lt_le_dec q (2 ^ 54)) as [L|L]; [exact L|]. exfalso.
      assert (Z.pos m2 * 2 ^ 54 <= Z.pos m2 * q)%Z
        by (apply Z.mul_le_mono_nonneg_l; lia).
      assert (2 ^ 52 * 2 ^ 54 <= Z.pos m2 * 2 ^ 54)%Z
        by (apply Z.mul_le_mono_nonneg_r; lia).
      assert (Z.pos m1 * 2 ^ 53 < 2 ^ 53 * 2 ^ 53)%Z
        by (apply Z.mul_lt_mono_pos_r; lia).
      lia. }
  destruct q as [|pq|pq]; try lia.
  set (d := Z.pos (digits2_pos pq)).
  assert (Hd : (53 <= d <= 54)%Z).
  { pose proof (digits2_pos_bounds pq) as B. fold d in B.
    assert (52 < d)%Z by (apply (Z.pow_lt_mono_r_iff 2); lia).
    assert (d - 1 < 54)%Z by (apply (Z.pow_lt_mono_r_iff 2); lia).
    lia. }
  pose proof (realValue_bounds m1 e1 H1) as V1.
  pose proof (realValue_bounds m2 e2 H2) as V2.
  pose proof (bpow_pos (52 + e2)) as P2.
  assert (Ex : IZR a / IZR (Z.pos m2) * bpow e'
               = realValue (Z.pos m1) e1 / realValue (Z.pos m2) e2).
  { unfold a, realValue, e'. rewrite mult_IZR, <- (bpow_IZR 53) by lia.
    replace e1 with (e2 + (e1 - e2 - 53) + 53)%Z at 2 by lia.
    rewrite !bpow_add.
    pose proof (bpow_pos e2). pose proof (bpow_pos 53).
    assert (0 < IZR (Z.pos m2)) by (apply IZR_lt; lia).
    field. split; lra. }
  assert (Vq : bpow (-1 + (e1 - e2))
               < realValue (Z.pos m1) e1 / realValue (Z.pos m2) e2
               < bpow (1 + (e1 - e2))).
  { assert (Pv : 0 < realValue (Z.pos m2) e2) by lra.
    split.
    - apply (Rmult_lt_reg_r (realValue (Z.pos m2) e2)); [exact Pv|].
      replace (realValue (Z.pos m1) e1 / realValue (Z.pos m2) e2
               * realValue (Z.pos m2) e2)
        with (realValue (Z.pos m1) e1) by (field; lra).
      apply (Rlt_le_trans _ (bpow (-1 + (e1 - e2)) * bpow (53 + e2))).
      + apply Rmult_lt_compat_l; [apply bpow_pos | lra].
      + rewrite <- bpow_add.
        replace (-1 + (e1 - e2) + (53 + e2))%Z with (52 + e1)%Z by lia.
        lra.
    - apply (Rmult_lt_reg_r (realValue (Z.pos m2) e2)); [exact Pv|].
      replace (realValue (Z.pos m1) e1 / realValue (Z.pos m2) e2
               * realValue (Z.pos m2) e2)
        with (realValue (Z.pos m1) e1) by (field; lra).
      apply (Rlt_le_trans _ (bpow (53 + e1))); [lra|].
      replace (53 + e1)%Z with (1 + (e1 - e2) + (52 + e2))%Z by lia.
      rewrite bpow_add.
      apply Rmult_le_compat_l; [apply Rlt_le, bpow_pos | lra]. }
  destruct (round_aux_normal (Z.pos pq) e' (new_location (Z.pos m2) r)
              (IZR a / IZR (Z.pos m2)) d) as [k [e [E [Hk [He' [Hc Herr]]]]]].
  - apply new_location_located; [lia | lia | exact Ea].
  - lia.
  - reflexivity.
  - lia.
  - rewrite Ex. split.
    + apply Rlt_le. apply (Rle_lt_trans _ (bpow (-1 + (e1 - e2)))).
      * apply bpow_le. lia.
      * apply Vq.
    + apply Rlt_le. apply (Rlt_le_trans _ (bpow (1 + (e1 - e2)))).
      * apply Vq.
      * apply (Rle_trans _ (bpow 971)); [apply bpow_le; lia|].
        apply top_value.
  - exists k, e. split; [exact E|]. split; [exact Hk|].
    rewrite Ex in Herr. apply (Rle_trans _ _ _ Herr).
    apply Rmult_le_compat_l; [lra|]. apply bpow_le. lia.
Qed.

End OperationFacts.

Section RootFacts.
Import Vocabulary.
Import SpecFloat.
Open Scope R_scope.

Lemma Rabs_bound (x y : R) : Rabs x <= y -> - y <= x <= y.
Proof.
  intros H. unfold Rabs in H. destruct (Rcase_abs x); lra.
Qed.

Lemma sqrt_located (a q r : Z) :
  (0 <= q)%Z -> a = (q * q + r)%Z -> (0 <= r <= 2 * q)%Z ->
  located
    (shr_record_of_loc q
       (if Z.eqb r 0 then loc_Exact
        else loc_Inexact (if Z.leb r q then Lt else Gt)))
    (R_sqrt.sqrt (IZR a)).
Proof.
  intros Hq -> Hr.
  assert (Pq : 0 <= IZR q) by (apply IZR_le; lia).
  assert (Pa : 0 <= IZR (q * q + r)) by (apply IZR_le; nia).
  set (x := R_sqrt.sqrt (IZR (q * q + r))).
  assert (Px : 0 <= x) by apply sqrt_pos.
  assert (Ex : x * x = IZR q * IZR q + IZR r).
  { unfold x. rewrite sqrt_sqrt by exact Pa.
    now rewrite plus_IZR, mult_IZR. }
  assert (R0 : 0 <= IZR r) by (apply IZR_le; lia).
  assert (R2 : IZR r <= 2 * IZR q).
  { rewrite <- mult_IZR. apply IZR_le. lia. }
  destruct (Z.eqb_spec r 0) as [E0|N0].
  - unfold located. cbn. subst r. nra.
  - assert (R1 : 1 <= IZR r) by (apply IZR_le; lia).
    destruct (Z.leb_spec r q) as [L|G]; unfold located; cbn.
    + apply IZR_le in L. split; nra.
    + assert (G' : IZR q + 1 <= IZR r).
      { rewrite <- (plus_IZR q 1). apply IZR_le. lia. }
      split; nra.
Qed.

(** The square root of a normal number. *)
Lemma sqrt_normal (ms : positive) (es : Z) :
  (2 ^ 52 <= Z.pos ms < 2 ^ 53)%Z -> (-1074 <= es <= 971)%Z ->
  exists (k : positive) (e : Z) (X : R),
    SFsqrt prec emax (S754_finite false ms es) = S754_finite false k e /\
    (2 ^ 52 <= Z.pos k < 2 ^ 53)%Z /\ (-563 <= e <= 459)%Z /\
    0 <= X /\ X * X = realValue (Z.pos ms) es /\
    Rabs (realValue (Z.pos k) e - X) <= / 2 * bpow e.
Proof.
  intros Hm He. cbn [SFsqrt]. unfold SFsqrt_core_binary.
  cbn [Zdigits2]. rewrite (digits_of_range ms 53) by lia.
  set (e' := (Z.div2 es - 26)%Z).
  assert (D1 : (es = 2 * Z.div2 es + es mod 2 /\ 0 <= es mod 2 < 2)%Z).
  { rewrite Z.div2_div. split; [apply Z.div_mod; lia|].
    apply Z.mod_pos_bound. lia. }
  assert (D2 : Z.div2 (53 + es + 1) = (Z.div2 es + 27)%Z).
  { rewrite !Z.div2_div.
    replace (53 + es + 1)%Z with (es + 27 * 2)%Z by lia.
    apply Z.div_add. lia. }
  assert (E' : Z.min (fexp prec emax (Z.div2 (53 + es + 1))) (Z.div2 es)
               = e').
  { rewrite D2. unfold fexp, SpecFloat.emin. change prec with 53%Z.
    change emax with 1024%Z. unfold e'. lia. }
  rewrite E'.
  assert (Hs : exists s, (es - 2 * e' = Z.pos s)%Z /\
                         (52 <= Z.pos s <= 53)%Z).
  { unfold e'.
    destruct (es - 2 * (Z.div2 es - 26))%Z as [|s|s] eqn:E;
      try lia. exists s. split; [reflexivity | lia]. }
  destruct Hs as [s [Es Hs]]. rewrite Es.
  rewrite Z.shiftl_mul_pow2 by lia.
  set (a := (Z.pos ms * 2 ^ Z.pos s)%Z).
  assert (Ha : (2 ^ 104 <= a <= (2 ^ 53 - 1) * 2 ^ 53)%Z).
  { unfold a. split.
    - change (2 ^ 104)%Z with (2 ^ 52 * 2 ^ 52)%Z.
      apply Z.mul_le_mono_nonneg; try lia.
      apply Z.pow_le_mono_r; lia.
    - apply Z.mul_le_mono_nonneg; try lia.
      apply Z.pow_le_mono_r; lia. }
  pose proof (Z.sqrtrem_spec a ltac:(lia)) as Hsq.
  destruct (Z.sqrtrem a) as [q r]. destruct Hsq as [Ea Hr].
  assert (Hq : (2 ^ 52 <= q < 2 ^ 53)%Z).
  { split.
    - destruct (Z_lt_le_dec q (2 ^ 52)) as [L|L]; [|exact L]. exfalso.
      assert ((q + 1) * (q + 1) <= 2 ^ 52 * 2 ^ 52)%Z
        by (apply Z.mul_le_mono_nonneg; lia).
      lia.
    - destruct (Z_lt_le_dec q (2 ^ 53)) as [L|L]; [exact L|]. exfalso.
      assert (2 ^ 53 * 2 ^ 53 <= q * q)%Z
        by (apply Z.mul_le_mono_nonneg; lia).
      lia. }
  destruct q as [|pq|pq]; try lia.
  set (x := R_sqrt.sqrt (IZR a)).
  pose proof (sqrt_located a (Z.pos pq) r ltac:(lia) Ea Hr) as Hloc.
  fold x in Hloc.
  pose proof (located_bounds _ _ Hloc) as Hb. rewrite shr_m_of_loc in Hb.
  assert (Pa : 0 <= IZR a) by (apply IZR_le; lia).
  assert (Px : 0 <= x) by apply sqrt_pos.
  assert (Exx : x * x = IZR a) by (apply sqrt_sqrt; exact Pa).
  assert (Hlo : IZR (2 ^ 52) <= x).
  { assert (IZR (2 ^ 52) <= IZR (Z.pos pq)) by (apply IZR_le; lia). lra. }
  assert (Hhi : x < IZR (2 ^ 53) - / 2).
  { assert (IZR a <= IZR ((2 ^ 53 - 1) * 2 ^ 53)) by (apply IZR_le; lia).
    rewrite mult_IZR, minus_IZR in H.
    set (c := IZR (2 ^ 53)) in *.
    assert (1 <= c) by (apply IZR_le; lia).
    destruct (Rlt_le_dec x (c - / 2)) as [L|L]; [exact L|]. exfalso.
    assert (0 <= (x - (c - / 2)) * (x + (c - / 2)))
      by (apply Rmult_le_pos; lra).
    nra. }
  pose proof (bpow_pos e') as Pe.
  assert (He' : (-563 <= e' <= 459)%Z) by (unfold e'; lia).
  destruct (round_aux_normal (Z.pos pq) e'
              (if Z.eqb r 0 then loc_Exact
               else loc_Inexact (if Z.leb r (Z.pos pq) then Lt else Gt))
              x 53) as [k [e [E [Hk [Hke [Hc Herr]]]]]].
  - exact Hloc.
  - lia.
  - cbn [Zdigits2]. apply digits_of_range; lia.
  - lia.
  - split.
    + apply (Rle_trans _ (bpow (52 + e'))); [apply bpow_le; lia|].
      rewrite bpow_add, (bpow_IZR 52) by lia. nra.
    + apply (Rle_trans _ (bpow (53 + e'))).
      * rewrite bpow_add, (bpow_IZR 53) by lia. nra.
      * apply (Rle_trans _ (bpow 971)); [apply bpow_le; lia|].
        apply top_value.
  - replace (53 + e' - 53)%Z with e' in * by lia.
    assert (Hec : e = e').
    { destruct Hc as [Hc | [Hk2 Hc]]; [exact Hc|]. exfalso.
      replace (53 + e' - 52)%Z with (e' + 1)%Z in Hc by lia.
      subst e. unfold realValue in Herr. rewrite Hk2, bpow_add in Herr.
      replace (bpow 1) with 2 in Herr by (unfold bpow; simpl; ring).
      apply Rabs_bound in Herr.
      change (2 ^ 53)%Z with (2 * 2 ^ 52)%Z in Hhi.
      rewrite mult_IZR in Hhi. nra. }
    subst e. exists k, e', (x * bpow e').
    split; [exact E|]. split; [exact Hk|]. split; [exact He'|].
    split; [apply Rmult_le_pos; lra|]. split; [|exact Herr].
    replace (x * bpow e' * (x * bpow e'))
      with (x * x * (bpow e' * bpow e')) by ring.
    rewrite Exx, <- bpow_add. unfold a, realValue.
    rewrite mult_IZR, <- (bpow_IZR (Z.pos s)) by lia.
    rewrite Rmult_assoc, <- bpow_add. f_equal. f_equal. lia.
Qed.

End RootFacts.

Section ChainFacts.
Import Vocabulary.
Import SpecFloat.
Open Scope R_scope.

Lemma bpow_m53 : bpow (-53) * 9007199254740992 = 1.
Proof.
  rewrite <- (bpow_opp 53), (bpow_IZR 53) by lia. reflexivity.
Qed.

(** Half a unit in the last place of a normal number is at most
    [2^-53] times the number. *)
Lemma half_ulp (k : positive) (e : Z) :
  (2 ^ 52 <= Z.pos k)%Z ->
  / 2 * bpow e <= bpow (-53) * realValue (Z.pos k) e.
Proof.
  intros Hk. unfold realValue. pose proof (bpow_pos e) as Pe.
  pose proof bpow_m53 as U. pose proof (bpow_pos (-53)) as Pu.
  apply IZR_le in Hk. change (2 ^ 52)%Z with 4503599627370496%Z in Hk.
  set (u := bpow (-53)) in *. set (K := IZR (Z.pos k)) in *.
  assert (/ 2 <= u * K) by nra.
  replace (u * (K * bpow e)) with (u * K * bpow e) by ring.
  nra.
Qed.

(** The squared norm over the rounded square of its rounded root. *)
Lemma self_chain (S X N P u : R) :
  0 < u <= / 8 -> 0 <= X -> X * X = S -> 0 < N ->
  Rabs (N - X) <= u * N -> 0 < P -> Rabs (P - N * N) <= u * P ->
  (1 - 3 * u) * P <= S <= (1 + 4 * u) * P.
Proof.
  intros Hu PX <- PN HN PP HP.
  apply Rabs_bound in HN. apply Rabs_bound in HP.
  assert (L1 : N * (1 - u) <= X) by lra.
  assert (U1 : X <= N * (1 + u)) by lra.
  assert (L2 : P * (1 - u) <= N * N) by lra.
  assert (U2 : N * N <= P * (1 + u)) by lra.
  assert (P1 : 0 <= N * (1 - u)) by (apply Rmult_le_pos; lra).
  assert (L3 : N * (1 - u) * (N * (1 - u)) <= X * X)
    by (apply Rmult_le_compat; lra).
  assert (U3 : X * X <= N * (1 + u) * (N * (1 + u)))
    by (apply Rmult_le_compat; lra).
  assert (Q1 : 0 <= (1 - u) * (1 - u)) by (apply Rmult_le_pos; lra).
  assert (Q2 : 0 <= (1 + u) * (1 + u)) by (apply Rmult_le_pos; lra).
  assert (L4 : P * (1 - u) * ((1 - u) * (1 - u))
               <= N * N * ((1 - u) * (1 - u)))
    by (apply Rmult_le_compat_r; lra).
  assert (U4 : N * N * ((1 + u) * (1 + u))
               <= P * (1 + u) * ((1 + u) * (1 + u)))
    by (apply Rmult_le_compat_r; lra).
  assert (L5 : 1 - 3 * u <= (1 - u) * ((1 - u) * (1 - u))) by nra.
  assert (U5 : (1 + u) * ((1 + u) * (1 + u)) <= 1 + 4 * u) by nra.
  split.
  - apply (Rle_trans _ (P * ((1 - u) * ((1 - u) * (1 - u))))); [nra|].
    lra.
  - apply (Rle_trans _ (P * ((1 + u) * ((1 + u) * (1 + u))))); [lra|].
    nra.
Qed.

(** A normal number within half a unit in the last place of a real
    number near 1. *)
Lemma near_one (k : positive) (e : Z) (Q : R) :
  (2 ^ 52 <= Z.pos k < 2 ^ 53)%Z ->
  Rabs (realValue (Z.pos k) e - Q) <= / 2 * bpow e ->
  1 - 3 * bpow (-53) <= Q <= 1 + 4 * bpow (-53) ->
  (e = -53 /\ 2 ^ 53 - 3 <= Z.pos k)%Z \/
  (e = -52 /\ Z.pos k <= 2 ^ 52 + 2)%Z.
Proof.
  intros Hk Herr HQ.
  pose proof (realValue_bounds k e Hk) as [B1 B2].
  pose proof (half_ulp k e (proj1 Hk)) as Hh.
  pose proof bpow_m53 as U. pose proof (bpow_pos (-53)) as Pu.
  pose proof (bpow_pos e) as Pe.
  apply Rabs_bound in Herr.
  set (u := bpow (-53)) in *.
  assert (Hu : u <= / 8) by nra.
  destruct (Z_lt_le_dec e (-53)) as [L|L].
  { exfalso.
    assert (bpow (53 + e) <= bpow (-1)) by (apply bpow_le; lia).
    assert (bpow e <= bpow (-1)) by (apply bpow_le; lia).
    rewrite bpow_m1 in *. lra. }
  destruct (Z_lt_le_dec (-52) e) as [G|G].
  { exfalso.
    assert (bpow 1 <= bpow (52 + e)) by (apply bpow_le; lia).
    replace (bpow 1) with 2 in * by (unfold bpow; simpl; ring).
    set (C := realValue (Z.pos k) e) in *. nra. }
  assert (Ee : e = (-53)%Z \/ e = (-52)%Z) by lia.
  destruct Ee as [-> | ->]; [left | right]; (split; [reflexivity|]).
  - unfold realValue in *. fold u in Herr, Hh, B1, B2.
    assert (T : IZR (2 ^ 53 - 4) < IZR (Z.pos k)).
    { change (2 ^ 53 - 4)%Z with 9007199254740988%Z.
      set (K := IZR (Z.pos k)) in *. nra. }
    apply lt_IZR in T. lia.
  - unfold realValue in *.
    assert (E2 : bpow (-52) = 2 * u).
    { unfold u. replace (-52)%Z with (1 + -53)%Z by lia.
      rewrite bpow_add. unfold bpow at 1. simpl. ring. }
    rewrite E2 in *.
    assert (T : IZR (Z.pos k) < IZR (2 ^ 52 + 3)).
    { change (2 ^ 52 + 3)%Z with 4503599627370499%Z.
      set (K := IZR (Z.pos k)) in *. nra. }
    apply lt_IZR in T. lia.
Qed.

Lemma SFleb_finite (m1 m2 : positive) (e1 e2 : Z) :
  (e1 < e2 \/ (e1 = e2 /\ Z.pos m1 <= Z.pos m2))%Z ->
  SFleb (S754_finite false m1 e1) (S754_finite false m2 e2) = true.
Proof.
  intros H. unfold SFleb, SFcompare.
  destruct (Z.compare_spec e1 e2) as [E|E|E]; [|reflexivity|exfalso; lia].
  replace (Pos.compare_cont Eq m1 m2) with (Pos.compare m1 m2)
    by reflexivity.
  destruct (Pos.compare_spec m1 m2) as [C|C|C]; try reflexivity.
  exfalso. apply Pos2Z.pos_lt_pos in C. lia.
Qed.

Lemma near_one_compare (k : positive) (e : Z) :
  (e = -53 /\ 2 ^ 53 - 3 <= Z.pos k)%Z \/
  (e = -52 /\ Z.pos k <= 2 ^ 52 + 2)%Z ->
  SFleb (S754_finite false 9007199254740989 (-53)) (S754_finite false k e)
  = true /\
  SFleb (S754_finite false k e) (S754_finite false 4503599627370498 (-52))
  = true.
Proof.
  intros H. split; apply SFleb_finite.
  - destruct H as [[-> H] | [-> H]]; [right | left; lia].
    split; [reflexivity|].
    change (Z.pos 9007199254740989) with (2 ^ 53 - 3)%Z. exact H.
  - destruct H as [[-> H] | [-> H]]; [left; lia | right].
    split; [reflexivity|].
    change (Z.pos 4503599627370498) with (2 ^ 52 + 2)%Z. exact H.
Qed.

End ChainFacts.

Section SelfFacts.
Import Vocabulary.
Import SpecFloat.
Open Scope R_scope.

(** A positive normal number of binary64, as mantissa and exponent. *)
Lemma classify_normal (s : float) :
  PrimFloat.classify s = PNormal ->
  exists (ms : positive) (es : Z),
    Prim2SF s = S754_finite false ms es /\
    (2 ^ 52 <= Z.pos ms < 2 ^ 53)%Z /\ (-1074 <= es <= 971)%Z.
Proof.
  intros H. rewrite classify_spec in H.
  unfold SF64classify, SFclassify in H.
  pose proof (Prim2SF_valid s) as V.
  destruct (Prim2SF s) as [[|]|[|]| |[|] m e]; try discriminate H.
  - destruct (Z.eqb (Z.pos (digits2_pos m)) prec); discriminate H.
  - destruct (Z.eqb_spec (Z.pos (digits2_pos m)) prec) as [D|D];
      [|discriminate H].
    exists m, e. split; [reflexivity|].
    cbn [SpecFloat.valid_binary] in V. unfold bounded, canonical_mantissa in V.
    apply andb_prop in V. destruct V as [V1 V2].
    apply Z.eqb_eq in V1. apply Z.leb_le in V2. rewrite D in V1.
    unfold fexp, SpecFloat.emin in V1.
    change prec with 53%Z in *. change emax with 1024%Z in *.
    split; [exact (range_of_digits m 53 D) | lia].
Qed.

(** The square of the root of a normal number is in the range of the
    normal numbers. *)
Lemma root_square_range (k : positive) (e : Z) :
  (2 ^ 52 <= Z.pos k < 2 ^ 53)%Z -> (-563 <= e <= 459)%Z ->
  bpow (-1022) <= realValue (Z.pos k) e * realValue (Z.pos k) e
    <= realValue (2 ^ 53 - 1) 971.
Proof.
  intros Hk He. pose proof (realValue_bounds k e Hk) as [B1 B2].
  pose proof (bpow_pos (52 + e)) as P1. pose proof (bpow_pos e) as Pe.
  split.
  - apply (Rle_trans _ (bpow (52 + e) * bpow (52 + e))).
    + rewrite <- bpow_add. apply bpow_le. lia.
    + apply Rmult_le_compat; lra.
  - unfold realValue.
    assert (K : IZR (Z.pos k) * IZR (Z.pos k)
                <= IZR (2 ^ 53 - 1) * IZR (2 ^ 53)).
    { rewrite <- !mult_IZR. apply IZR_le. nia. }
    replace (IZR (Z.pos k) * bpow e * (IZR (Z.pos k) * bpow e))
      with (IZR (Z.pos k) * IZR (Z.pos k) * bpow (e + e))
      by (rewrite bpow_add; ring).
    pose proof (bpow_pos (e + e)) as Pee.
    apply (Rle_trans _ (IZR (2 ^ 53 - 1) * IZR (2 ^ 53) * bpow (e + e))).
    + apply Rmult_le_compat_r; lra.
    + rewrite <- (bpow_IZR 53) by lia. rewrite Rmult_assoc, <- bpow_add.
      apply Rmult_le_compat_l; [apply IZR_le; lia|].
      apply bpow_le. lia.
Qed.

(** A normal number over the square of its root, all three operations
    rounded to nearest. *)
Lemma self_quotient (s : float) :
  PrimFloat.classify s = PNormal ->
  PrimFloat.eqb (PrimFloat.sqrt s) 0 = false /\
  PrimFloat.leb 0x1.ffffffffffffdp-1
    (s / (PrimFloat.sqrt s * PrimFloat.sqrt s))%float = true /\
  PrimFloat.leb (s / (PrimFloat.sqrt s * PrimFloat.sqrt s))%float
    0x1.0000000000002p+0 = true.
Proof.
  intros H. destruct (classify_normal s H) as [ms [es [Es [Hm He]]]].
  destruct (sqrt_normal ms es Hm He)
    as [k [e [X [En [Hk [Hke [PX [EX HN]]]]]]]].
  assert (En' : Prim2SF (PrimFloat.sqrt s) = S754_finite false k e).
  { rewrite sqrt_spec, Es. exact En. }
  destruct (mul_normal k k e e Hk Hk (root_square_range k e Hk Hke))
    as [kp [ep [Ep [Hkp [Hep HP]]]]].
  assert (Ep' : Prim2SF (PrimFloat.sqrt s * PrimFloat.sqrt s)
                = S754_finite false kp ep).
  { rewrite mul_spec, En'. exact Ep. }
  set (S := realValue (Z.pos ms) es) in *.
  set (N := realValue (Z.pos k) e) in *.
  set (P := realValue (Z.pos kp) ep) in *.
  pose proof (realValue_bounds ms es Hm) as BS. fold S in BS.
  pose proof (realValue_bounds k e Hk) as BN. fold N in BN.
  pose proof (realValue_bounds kp ep Hkp) as BP. fold P in BP.
  pose proof (bpow_pos (52 + es)) as PS.
  pose proof (bpow_pos (52 + e)) as PN.
  pose proof (bpow_pos (52 + ep)) as PP.
  pose proof bpow_m53 as U. pose proof (bpow_pos (-53)) as Pu.
  assert (Hu : 0 < bpow (-53) <= / 8) by (split; nra).
  assert (HN' : Rabs (N - X) <= bpow (-53) * N).
  { apply (Rle_trans _ _ _ HN). apply half_ulp. lia. }
  assert (HP' : Rabs (P - N * N) <= bpow (-53) * P).
  { apply (Rle_trans _ _ _ HP). apply half_ulp. lia. }
  pose proof (self_chain S X N P (bpow (-53)) Hu PX EX ltac:(lra)
                HN' ltac:(lra) HP') as [C1 C2].
  set (u := bpow (-53)) in *.
  assert (Hd : (-900 <= es - ep <= 900)%Z).
  { assert (D1 : (52 + es < 54 + ep)%Z).
    { apply bpow_lt_inv. replace (54 + ep)%Z with (1 + (53 + ep))%Z by lia.
      rewrite (bpow_add 1).
      replace (bpow 1) with 2 by (unfold bpow; simpl; ring). nra. }
    assert (D2 : (52 + ep < 54 + es)%Z).
    { apply bpow_lt_inv. replace (54 + es)%Z with (1 + (53 + es))%Z by lia.
      rewrite (bpow_add 1).
      replace (bpow 1) with 2 by (unfold bpow; simpl; ring). nra. }
    lia. }
  destruct (div_normal ms kp es ep Hm Hkp Hd) as [kc [ec [Ec [Hkc HC]]]].
  fold S P in HC.
  assert (Ec' : Prim2SF (s / (PrimFloat.sqrt s * PrimFloat.sqrt s))%float
                = S754_finite false kc ec).
  { rewrite div_spec, Es, Ep'. exact Ec. }
  assert (HQ : 1 - 3 * u <= S / P <= 1 + 4 * u).
  { assert (EQ : S / P * P = S) by (field; lra).
    split.
    - apply (Rmult_le_reg_r P); [lra|]. rewrite EQ. exact C1.
    - apply (Rmult_le_reg_r P); [lra|]. rewrite EQ. exact C2. }
  pose proof (near_one_compare kc ec (near_one kc ec (S / P) Hkc HC HQ))
    as [L1 L2].
  split; [|split].
  - rewrite eqb_spec, En'. reflexivity.
  - rewrite leb_spec, Ec'. exact L1.
  - rewrite leb_spec, Ec'. exact L2.
Qed.

End SelfFacts.

(** C8 (amended), in binary64, the arithmetic the code runs.  Cosine
    similarity is symmetric: [calculateCosineSimilarity a b] and
    [calculateCosineSimilarity b a] are the same number, or both throw
    when the lengths differ.  The similarity of a vector with itself is
    not 1 in general, but near it: when the squared norm that the loop
    accumulates is a positive normal number (it has neither overflowed
    nor underflowed, so the vector is non-zero), the result [c] satisfies
    [1 - 3 * 2^-53 <= c <= 1 + 4 * 2^-53].  When the accumulated squared
    norm is 0 the result is 0, and when it is infinite the result is
    NaN. *)
Theorem cosine_symmetric_and_self_similar :
  (forall a b : list float,
     EmbeddingService.calculateCosineSimilarity EmbeddingService.binary64 a b
     = EmbeddingService.calculateCosineSimilarity
         EmbeddingService.binary64 b a) /\
  (forall a : list float,
     PrimFloat.classify (Vocabulary.squaredNorm a) = PNormal ->
     exists c : float,
       EmbeddingService.calculateCosineSimilarity
         EmbeddingService.binary64 a a = Ok c /\
       PrimFloat.leb 0x1.ffffffffffffdp-1 c = true /\
       PrimFloat.leb c 0x1.0000000000002p+0 = true) /\
  (forall a : list float,
     Vocabulary.squaredNorm a = 0%float ->
     EmbeddingService.calculateCosineSimilarity
       EmbeddingService.binary64 a a = Ok 0%float) /\
  (forall a : list float,
     Vocabulary.squaredNorm a = infinity ->
     EmbeddingService.calculateCosineSimilarity
       EmbeddingService.binary64 a a = Ok nan).
Proof.
  split; [|split; [|split]].
  - intros a b.
    apply (cosine_symmetric_in EmbeddingService.binary64 float_mul_comm).
  - intros a Hn. destruct (self_quotient _ Hn) as [Hz [Hlo Hhi]].
    exists (Vocabulary.squaredNorm a
            / (PrimFloat.sqrt (Vocabulary.squaredNorm a)
               * PrimFloat.sqrt (Vocabulary.squaredNorm a)))%float.
    split; [|split; assumption].
    rewrite cosine_self. cbv zeta. rewrite Hz. reflexivity.
  - intros a E. rewrite cosine_self, E. reflexivity.
  - intros a E. rewrite cosine_self, E. reflexivity.
Qed.

Lemma cosine_symmetric_and_self_similar_witness :
  exists c : float,
    EmbeddingService.calculateCosineSimilarity EmbeddingService.binary64
      [1%float; 2%float; 3%float] [1%float; 2%float; 3%float]
    = Ok c /\
    PrimFloat.leb 0x1.ffffffffffffdp-1 c = true /\
    PrimFloat.leb c 0x1.0000000000002p+0 = true.
Proof.
  refine (proj1 (proj2 cosine_symmetric_and_self_similar)
            [1%float; 2%float; 3%float] _).
  reflexivity.
Defined.

(* ================================================================== *)
(** * Facts about strings *)
(* ================================================================== *)

Section StringFacts.

Lemma append_assoc (a b c : string) : ((a ++ b) ++ c = a ++ (b ++ c))%string.
Proof. induction a as [|x a IH]; simpl; [reflexivity | now rewrite IH]. Qed.

Lemma append_empty_r (a : string) : (a ++ EmptyString = a)%string.
Proof. induction a as [|x a IH]; simpl; [reflexivity | now rewrite IH]. Qed.

Lemma prefix_iff (p s : string) :
  prefix p s = true <-> exists t, s = (p ++ t)%string.
Proof.
  revert s. induction p as [|c p IH]; intros s.
  - split; [intros _; now exists s | intros _; now destruct s].
  - destruct s as [|d s]; simpl.
    + split; [discriminate | intros [t Ht]; discriminate].
    + destruct (ascii_dec c d) as [->|N].
      * rewrite IH. split; intros [t Ht]; exists t.
        -- now subst.
        -- now injection Ht.
      * split; [discriminate|].
        intros [t Ht]. injection Ht as E _. congruence.
Qed.

(** [s.includes(p)] holds exactly when [p] occurs inside [s]. *)
Lemma includes_iff (s p : string) :
  includes s p = true <-> exists a b, s = (a ++ p ++ b)%string.
Proof.
  induction s as [|c s IH].
  - cbn [includes]. destruct (prefix p EmptyString) eqn:E.
    + split; [intros _ | reflexivity].
      apply prefix_iff in E. destruct E as [t Ht].
      now exists EmptyString, t.
    + split; [discriminate|]. intros [a [b H]].
      destruct a; [|discriminate]. simpl in H.
      assert (prefix p EmptyString = true) by (apply prefix_iff; now exists b).
      congruence.
  - cbn [includes]. destruct (prefix p (String c s)) eqn:E.
    + split; [intros _ | reflexivity].
      apply prefix_iff in E. destruct E as [t Ht].
      now exists EmptyString, t.
    + rewrite IH. split.
      * intros [a [b H]]. exists (String c a), b. simpl. now rewrite H.
      * intros [a [b H]]. destruct a as [|d a].
        -- simpl in H.
           assert (prefix p (String c s) = true)
             by (apply prefix_iff; now exists b).
           congruence.
        -- simpl in H. injection H as _ H. now exists a, b.
Qed.

Lemma includes_self (s : string) : includes s s = true.
Proof.
  apply includes_iff. exists EmptyString, EmptyString.
  simpl. now rewrite append_empty_r.
Qed.

Lemma includes_surrounded (a s b p : string) :
  includes s p = true -> includes (a ++ s ++ b) p = true.
Proof.
  rewrite !includes_iff. intros [x [y ->]].
  exists (a ++ x)%string, (y ++ b)%string.
  now rewrite !append_assoc.
Qed.

Lemma includes_trans (s t p : string) :
  includes s t = true -> includes t p = true -> includes s p = true.
Proof.
  intros Hst Htp. apply includes_iff in Hst. destruct Hst as [a [b ->]].
  now apply includes_surrounded.
Qed.

Lemma toLowerCase_append (a b : string) :
  toLowerCase (a ++ b) = (toLowerCase a ++ toLowerCase b)%string.
Proof. induction a as [|x a IH]; simpl; [reflexivity | now rewrite IH]. Qed.

Lemma includes_toLowerCase (s t : string) :
  includes s t = true ->
  includes (toLowerCase s) (toLowerCase t) = true.
Proof.
  rewrite !includes_iff. intros [a [b ->]].
  exists (toLowerCase a), (toLowerCase b).
  now rewrite !toLowerCase_append.
Qed.

(** Every part occurs inside the joined string. *)
Lemma join_includes (sep : string) (parts : list string) (x : string) :
  In x parts -> includes (join sep parts) x = true.
Proof.
  induction parts as [|p parts IH]; [intros []|].
  intros [-> | Hin].
  - destruct parts as [|q parts]; simpl.
    + apply includes_self.
    + apply (includes_surrounded EmptyString x
               (sep ++ join sep (q :: parts))). apply includes_self.
  - destruct parts as [|q parts]; [destruct Hin|].
    change (join sep (p :: q :: parts))
      with (p ++ sep ++ join sep (q :: parts))%string.
    rewrite <- append_assoc.
    rewrite <- (append_empty_r (join sep (q :: parts))).
    apply includes_surrounded. now apply IH.
Qed.

Lemma In_unique (l : list string) (x : string) :
  In x (unique l) <-> In x l.
Proof.
  unfold unique.
  assert (G : forall seen,
             (In x (dedupe l seen) -> In x l) /\
             (In x l -> ~ In x seen -> In x (dedupe l seen))).
  { induction l as [|y l IH]; intros seen; simpl; [tauto|].
    destruct (existsb (String.eqb y) seen) eqn:E.
    - split.
      + intros H. right. now apply (IH seen).
      + intros [-> | H] Hn.
        * exfalso. apply Hn. apply existsb_exists in E.
          destruct E as [z [Hz Ez]]. apply String.eqb_eq in Ez. now subst.
        * now apply IH.
    - split.
      + intros [-> | H]; [now left | right; now apply (IH (y :: seen))].
      + intros [-> | H] Hn; [now left|].
        destruct (string_dec y x) as [->|N]; [now left|].
        right. apply IH; [exact H|]. intros [E' | E']; [congruence | tauto]. }
  split; [apply G | intros H; apply G; [exact H | intros []]].
Qed.

Lemma In_pushIf (cond : bool) (c : string) (l : list string) (x : string) :
  In x (Heuristics.pushIf cond c l) <-> In x l \/ (cond = true /\ x = c).
Proof.
  unfold Heuristics.pushIf. destruct cond.
  - rewrite in_app_iff. simpl. intuition congruence.
  - intuition congruence.
Qed.

End StringFacts.

(* ================================================================== *)
(** * Properties of the formula analysis and of the heuristics *)
(* ================================================================== *)


Section ComplexityFacts.
Import FormulaParser Heuristics.
Open Scope Q_scope.

Lemma traverse_node (S : Type) (visit : Node -> S -> S) (n : Node) acc :
  traverse visit n acc = traverseAll visit (node_args n) (visit n acc).
Proof.
  destruct n as [t name value sheet absolute args]. simpl.
  generalize (visit (mkNode t name value sheet absolute args) acc).
  induction args as [|c args IH]; intros s; simpl; [reflexivity|].
  apply IH.
Qed.

Lemma complexityStep_increases (n : Node) (c : Q) :
  c <= complexityStep n c.
Proof.
  unfold complexityStep. destruct (node_type n); Lqa.lra.
Qed.

Lemma traverse_complexity_increases (n : Node) :
  forall c, c <= traverse complexityStep n c.
Proof.
  induction n as [t name value sheet absolute args IH]
    using Node_forall_ind.
  intros c. rewrite traverse_node. simpl node_args.
  pose proof (complexityStep_increases
                (mkNode t name value sheet absolute args) c) as H0.
  revert H0.
  generalize (complexityStep (mkNode t name value sheet absolute args) c).
  induction IH as [|x l Hx _ IHl]; intros s Hs; simpl; [exact Hs|].
  apply IHl. apply Qle_trans with s; [exact Hs | apply Hx].
Qed.

(** The complexity of a parsed expression is a sum of non-negative
    increments. *)
Lemma calculateComplexity_nonneg (ast : Node) :
  0 <= calculateComplexity ast.
Proof. apply traverse_complexity_increases. Qed.

Lemma Qeq_bool_20 : Qeq_bool maxComplexity 0 = false.
Proof. reflexivity. Qed.

(** Whenever the parsed formula carries a non-negative [complexity],
    the normalised score is a number of the interval [0, 1], with or
    without the boost of 0.3. *)
Lemma detectFormulaComplexity_bounds (pf : ParsedFormula) (c : Q) :
  pf_complexity pf = Some c -> 0 <= c ->
  exists r, detectFormulaComplexity (Some pf) = Num r /\ 0 <= r <= 1.
Proof.
  intros Hc Hpos. unfold detectFormulaComplexity.
  destruct (pf_functions pf) as [functions|];
    [|exists 0; split; [reflexivity | Lqa.lra]].
  rewrite Hc. simpl toNumber. unfold ndiv. rewrite Qeq_bool_20.
  assert (Hn : 0 <= Qmin (c / maxComplexity) 1 <= 1).
  { split.
    - apply Q.min_glb; [|Lqa.lra].
      unfold maxComplexity. apply Qle_shift_div_l; Lqa.lra.
    - apply Q.le_min_r. }
  destruct (existsb _ functions).
  - simpl. eexists. split; [reflexivity|]. split.
    + apply Q.min_glb; Lqa.lra.
    + apply Q.le_min_r.
  - simpl. eexists. split; [reflexivity | exact Hn].
Qed.

(** In particular for every formula the parser accepted. *)
Lemma detectFormulaComplexity_of_success (original : string) (ast : Node) :
  exists r,
    detectFormulaComplexity (Some (success original ast)) = Num r /\
    0 <= r <= 1.
Proof.
  apply detectFormulaComplexity_bounds
    with (c := calculateComplexity ast); [reflexivity|].
  apply calculateComplexity_nonneg.
Qed.
End ComplexityFacts.

(** C9 (evaluation at the failing input). For the record [parseFormula]
    returns when parsing fails, which has [functions] but no
    [complexity], [detectFormulaComplexity] returns NaN, a value outside
    [0, 1]: so for the formula "=SUM(" of the sample cell.  It returns 0
    only when there is no record at all or when the record has no
    [functions]. *)
Theorem detectFormulaComplexity_of_failure :
  (forall error original : string,
     Heuristics.detectFormulaComplexity
       (Some (FormulaParser.failure error original)) = NaN) /\
  FormulaParser.parseFormula Samples.rejectingParser (Some "=SUM(")
    = Some (FormulaParser.failure "#ERROR!" "=SUM(") /\
  Heuristics.detectFormulaComplexity
    (Model.cell_parsedFormula Samples.brokenCell) = NaN /\
  Heuristics.detectFormulaComplexity None = Num 0.
Proof. repeat split; reflexivity. Qed.

Section ConceptMatchFacts.
Import Heuristics.

Lemma arrayIncludes_In (l : list string) (x : string) :
  arrayIncludes l x = true <-> In x l.
Proof.
  unfold arrayIncludes. rewrite existsb_exists. split.
  - intros [y [Hy E]]. apply String.eqb_eq in E. now subst.
  - intros H. exists x. split; [exact H | apply String.eqb_refl].
Qed.

Lemma ofNat_positive (n : nat) :
  (0 < n)%nat -> Qeq_bool (inject_Z (Z.of_nat n)) 0 = false.
Proof.
  intros Hn. destruct (Qeq_bool _ 0) eqn:E; [|reflexivity].
  apply Qeq_bool_eq in E. unfold Qeq in E. simpl in E. lia.
Qed.

Lemma count_occ_filter (f : string -> bool) (l : list string) x :
  count_occ string_dec (filter f l) x =
    if f x then count_occ string_dec l x else 0%nat.
Proof.
  induction l as [|y l IH]; simpl; [now destruct (f x)|].
  destruct (f y) eqn:Fy; simpl; destruct (string_dec y x) as [->|N];
    rewrite ?IH; try rewrite Fy; try reflexivity;
    now destruct (f x).
Qed.
End ConceptMatchFacts.

(** C4. The concept-match score is 0 when either list is empty; otherwise
    it is the size of the intersection divided by the larger of the two
    sizes, the intersection holding every label that occurs among the
    query concepts (as often as it occurs among the labels, once for
    duplicate-free labels).  Labels ["profitability"] against query
    concepts ["profitability"] score 1. *)
Theorem calculateConceptMatch_is_intersection_over_max :
  forall labels queryConcepts : list string,
    (labels = [] \/ queryConcepts = [] ->
     Heuristics.calculateConceptMatch labels queryConcepts = Num 0) /\
    (labels <> [] -> queryConcepts <> [] ->
     exists intersection : list string,
       (forall x, In x intersection <-> In x labels /\ In x queryConcepts) /\
       (forall x, count_occ string_dec intersection x =
                  if arrayIncludes queryConcepts x
                  then count_occ string_dec labels x else 0%nat) /\
       (NoDup labels -> NoDup intersection) /\
       Heuristics.calculateConceptMatch labels queryConcepts =
         Num (inject_Z (Z.of_nat (List.length intersection)) /
              inject_Z (Z.of_nat (Nat.max (List.length labels)
                                          (List.length queryConcepts))))) /\
    Heuristics.calculateConceptMatch ["profitability"] ["profitability"]
      = Num 1.
Proof.
  intros labels queryConcepts. split; [|split]; [| |reflexivity].
  - unfold Heuristics.calculateConceptMatch.
    intros [-> | ->]; simpl; [reflexivity|].
    now rewrite orb_true_r.
  - intros Hl Hq.
    exists (filter (fun c => arrayIncludes queryConcepts c) labels).
    split; [|split; [|split]].
    + intros x. rewrite filter_In, arrayIncludes_In. tauto.
    + intros x. apply count_occ_filter.
    + apply NoDup_filter.
    + unfold Heuristics.calculateConceptMatch.
      destruct labels as [|l0 labels]; [congruence|].
      destruct queryConcepts as [|q0 queryConcepts]; [congruence|].
      cbn [List.length Nat.eqb orb].
      unfold ndiv, ofNat. rewrite ofNat_positive; [reflexivity|].
      simpl. lia.
Qed.

Lemma calculateConceptMatch_is_intersection_over_max_witness :
  Heuristics.calculateConceptMatch [] ["revenue"] = Num 0.
Proof.
  refine (proj1 (calculateConceptMatch_is_intersection_over_max
                   [] ["revenue"]) _).
  left. reflexivity.
Defined.

(* ================================================================== *)
(** * Properties of the concept detector *)
(* ================================================================== *)

Section ConceptDetectorFacts.
Import Model Heuristics Vocabulary.

(** The header part of the text blob holds every context value. *)
Lemma headerText_includes_context (cell : Cell) ctx (e : ContextEntry) :
  headers_context cell = Some ctx -> In e ctx ->
  includes (headerText cell) (toLowerCase (ctx_value e)) = true.
Proof.
  intros Hctx Hin. unfold headerText. rewrite Hctx.
  destruct (ctx_value e) as [|c v] eqn:Ev.
  - apply includes_iff. exists EmptyString. simpl. eauto.
  - apply includes_toLowerCase. apply join_includes.
    apply in_flat_map. exists (Some (ctx_value e)). split.
    + right. right. apply in_map_iff. now exists e.
    + rewrite Ev. simpl. now left.
Qed.

Lemma allText_includes_context (cell : Cell) ctx (e : ContextEntry) :
  headers_context cell = Some ctx -> In e ctx ->
  includes (allText cell) (toLowerCase (ctx_value e)) = true.
Proof.
  intros Hctx Hin. unfold allText.
  rewrite <- (append_empty_r (headerText cell)), <- append_assoc.
  apply includes_surrounded.
  now apply headerText_includes_context with ctx.
Qed.

Lemma textConceptGroups_lower :
  forallb (fun g => forallb (fun p => String.eqb (toLowerCase p) p) (fst g))
    textConceptGroups = true.
Proof. reflexivity. Qed.

Lemma matchesPattern_intro (text : string) patterns pattern :
  In pattern patterns -> toLowerCase pattern = pattern ->
  includes text pattern = true -> matchesPattern text patterns = true.
Proof.
  intros Hin Hlow Hinc. unfold matchesPattern. apply existsb_exists.
  exists pattern. now rewrite Hlow.
Qed.

(** A group that matches the blob contributes its concept. *)
Lemma detectBusinessConcepts_group (cell : Cell) patterns concept :
  In (patterns, concept) textConceptGroups ->
  matchesPattern (allText cell) patterns = true ->
  In concept (detectBusinessConcepts cell).
Proof.
  intros Hg Hm. unfold detectBusinessConcepts. apply In_unique.
  repeat rewrite In_pushIf.
  unfold textConceptGroups in Hg. simpl in Hg.
  repeat (destruct Hg as [Hg | Hg];
          [injection Hg as <- <-; rewrite Hm; tauto|]).
  destruct Hg.
Qed.

(** The detected concepts are a function of the value, the two headers,
    the context values and the formula. *)
Lemma detectBusinessConcepts_inputs (c1 c2 : Cell) :
  orElse (cell_formattedValue c1) (truthy (cell_rawValue c1)) =
    orElse (cell_formattedValue c2) (truthy (cell_rawValue c2)) ->
  headers_column c1 = headers_column c2 ->
  headers_row c1 = headers_row c2 ->
  contextValues c1 = contextValues c2 ->
  cell_formula c1 = cell_formula c2 ->
  detectBusinessConcepts c1 = detectBusinessConcepts c2.
Proof.
  intros Hv Hc Hr Hx Hf.
  assert (Ht : allText c1 = allText c2).
  { unfold allText, cellText, headerText. rewrite Hv, Hc, Hr.
    unfold contextValues in Hx.
    replace (map (fun c => Some (ctx_value c))
               match headers_context c1 with Some l => l | None => [] end)
      with (map (fun c => Some (ctx_value c))
               match headers_context c2 with Some l => l | None => [] end);
      [reflexivity|].
    destruct (headers_context c1) as [l1|], (headers_context c2) as [l2|];
      simpl in Hx; try discriminate; try reflexivity.
    injection Hx as Hx.
    rewrite <- (map_map ctx_value Some l1), <- (map_map ctx_value Some l2).
    now rewrite Hx. }
  unfold detectBusinessConcepts, formulaMatches. now rewrite Ht, Hf.
Qed.
End ConceptDetectorFacts.

(** C6, as stated, fails: two cells that differ only in a fourth context
    value, "Revenue", get different concept lists. *)
Lemma detectBusinessConcepts_fourth_context_value :
  firstn 3 Samples.fourEntries = firstn 3 Samples.threeEntries /\
  Heuristics.detectBusinessConcepts (Samples.noteCell Samples.threeEntries)
    = [] /\
  Heuristics.detectBusinessConcepts (Samples.noteCell Samples.fourEntries)
    = ["revenue"].
Proof. repeat split; reflexivity. Qed.

(** C6 (amended). The concept list is built only from the formatted or
    raw value, the column header, the row header, the context values and
    the formula; every context value, whatever its position, is part of
    the lowercase text blob, so that a context value containing a
    pattern of one of the eight text groups makes the group's concept
    detected. *)
Theorem detectBusinessConcepts_reads_every_context_value :
  (forall c1 c2 : Model.Cell,
     orElse (Model.cell_formattedValue c1) (truthy (Model.cell_rawValue c1)) =
       orElse (Model.cell_formattedValue c2)
              (truthy (Model.cell_rawValue c2)) ->
     Model.headers_column c1 = Model.headers_column c2 ->
     Model.headers_row c1 = Model.headers_row c2 ->
     Vocabulary.contextValues c1 = Vocabulary.contextValues c2 ->
     Model.cell_formula c1 = Model.cell_formula c2 ->
     Heuristics.detectBusinessConcepts c1 =
       Heuristics.detectBusinessConcepts c2) /\
  (forall (cell : Model.Cell) ctx (e : Model.ContextEntry),
     Model.headers_context cell = Some ctx -> In e ctx ->
     includes (Heuristics.allText cell)
       (toLowerCase (Model.ctx_value e)) = true) /\
  (forall (cell : Model.Cell) ctx (e : Model.ContextEntry)
          patterns concept pattern,
     Model.headers_context cell = Some ctx -> In e ctx ->
     In (patterns, concept) Vocabulary.textConceptGroups ->
     In pattern patterns ->
     includes (toLowerCase (Model.ctx_value e)) pattern = true ->
     In concept (Heuristics.detectBusinessConcepts cell)).
Proof.
  split; [exact detectBusinessConcepts_inputs|].
  split; [exact allText_includes_context|].
  intros cell ctx e patterns concept pattern Hctx Hin Hg Hp Hinc.
  apply detectBusinessConcepts_group with patterns; [exact Hg|].
  apply matchesPattern_intro with pattern; [exact Hp| |].
  - pose proof textConceptGroups_lower as L.
    rewrite forallb_forall in L. specialize (L _ Hg).
    rewrite forallb_forall in L. specialize (L _ Hp).
    now apply String.eqb_eq in L.
  - apply includes_trans with (toLowerCase (Model.ctx_value e));
      [|exact Hinc].
    now apply allText_includes_context with ctx.
Qed.

Lemma detectBusinessConcepts_reads_every_context_value_witness :
  In "revenue"
    (Heuristics.detectBusinessConcepts
       (Samples.noteCell Samples.fourEntries)).
Proof.
  refine (proj2 (proj2 detectBusinessConcepts_reads_every_context_value)
            (Samples.noteCell Samples.fourEntries) Samples.fourEntries
            (Model.mkContextEntry "Revenue" 3 3 2)
            ["revenue"; "sales"; "income"; "earnings"] "revenue" "revenue"
            eq_refl _ _ _ eq_refl).
  - simpl. tauto.
  - simpl. tauto.
  - simpl. tauto.
Defined.

(* ================================================================== *)
(** * Properties of ingestion *)
(* ================================================================== *)

Section IngestionFacts.
Import Model Heuristics LabelService SearchService Vocabulary.

Lemma forEach_app (A : Type) (body : A -> M unit) (xs ys : list A) :
  forall st,
    forEach body (xs ++ ys) st =
      match forEach body xs st with
      | (st', Ok _) => forEach body ys st'
      | (st', Throw e) => (st', Throw e)
      end.
Proof.
  induction xs as [|x xs IH]; intros st; simpl; [reflexivity|].
  unfold bind. destruct (body x st) as [st1 [[]|e]]; [apply IH | reflexivity].
Qed.

(** The text sent for a cell is the exported text of the cell deprived
    of row header, formula type and context. *)
Lemma generateEmbeddingText_reduced (cell : Cell) :
  SearchService.generateEmbeddingText cell =
    Heuristics.generateEmbeddingText (withoutRowTypeContext cell).
Proof.
  unfold SearchService.generateEmbeddingText,
    Heuristics.generateEmbeddingText, withoutRowTypeContext,
    headers_column, headers_row, headers_context.
  destruct cell as [id sid sheet r c ref raw fv f pf ty [[hr hc hx]|]];
    cbn [cell_sheetName cell_headers cell_formula cell_formattedValue
         cell_parsedFormula hdr_column hdr_row hdr_context];
    destruct (truthy f); reflexivity.
Qed.

Lemma addToIndex_forEach (svc : Services) (documents : list Cell) st :
  addToIndex svc documents st =
    forEach (ingestCell svc) documents (fst (initialize st)).
Proof.
  unfold addToIndex, bind at 1, initialize.
  destruct (initialized st); reflexivity.
Qed.

Lemma addRangesToIndex_forEach (svc : Services) (ranges : list Range) st :
  addRangesToIndex svc ranges st =
    forEach (ingestRange svc) ranges (fst (initialize st)).
Proof.
  unfold addRangesToIndex, bind at 1, initialize.
  destruct (initialized st); reflexivity.
Qed.

Lemma ingestCell_fails (svc : Services) (doc : Cell) (e : string) st :
  cellFails svc doc e -> ingestCell svc doc st = (st, Throw e).
Proof.
  unfold ingestCell, bind, lift.
  intros [H | [emb [H1 H2]]]; [now rewrite H | now rewrite H1, H2].
Qed.

Lemma ingestRange_fails (svc : Services) (range : Range) (e : string) st :
  rangeFails svc range e -> ingestRange svc range st = (st, Throw e).
Proof.
  unfold ingestRange, bind, lift.
  intros [H | [emb [H1 H2]]]; [now rewrite H | now rewrite H1, H2].
Qed.

(** A batch that fails at one item stops there. *)
Lemma addToIndex_stops (svc : Services) (pre post : list Cell) (d : Cell)
  (e : string) (st st' : ServiceState) :
  addToIndex svc pre st = (st', Ok tt) ->
  cellFails svc d e ->
  addToIndex svc (pre ++ d :: post) st = (st', Throw e).
Proof.
  rewrite !addToIndex_forEach. intros Hpre Hd.
  rewrite forEach_app, Hpre. simpl. unfold bind.
  now rewrite (ingestCell_fails svc d e st' Hd).
Qed.

Lemma addRangesToIndex_stops (svc : Services) (pre post : list Range)
  (r : Range) (e : string) (st st' : ServiceState) :
  addRangesToIndex svc pre st = (st', Ok tt) ->
  rangeFails svc r e ->
  addRangesToIndex svc (pre ++ r :: post) st = (st', Throw e).
Proof.
  rewrite !addRangesToIndex_forEach. intros Hpre Hr.
  rewrite forEach_app, Hpre. simpl. unfold bind.
  now rewrite (ingestRange_fails svc r e st' Hr).
Qed.
End IngestionFacts.

Section IndexFacts.
Import Model SearchService Vocabulary.

Lemma index_set_ids (d : IndexedDocument) (idx : Index) (x : string) :
  In x (map doc_id (index_set d idx)) <->
  x = doc_id d \/ In x (map doc_id idx).
Proof.
  induction idx as [|e idx IH]; simpl; [intuition|].
  destruct (String.eqb_spec (doc_id e) (doc_id d)) as [E|N]; simpl.
  - rewrite E. intuition.
  - rewrite IH. intuition.
Qed.

Lemma index_set_NoDup (d : IndexedDocument) (idx : Index) :
  NoDup (map doc_id idx) -> NoDup (map doc_id (index_set d idx)).
Proof.
  induction idx as [|e idx IH]; simpl; intros H.
  - constructor; [intros [] | constructor].
  - inversion H as [|? ? Hn Hd]; subst.
    destruct (String.eqb_spec (doc_id e) (doc_id d)) as [E|N]; simpl.
    + constructor; [now rewrite <- E | exact Hd].
    + constructor; [|now apply IH].
      rewrite index_set_ids. intros [E | Hin]; [congruence | tauto].
Qed.

Lemma ingestCell_succeeds (svc : Services) (doc : Cell) st :
  cellSucceeds svc doc ->
  exists st',
    ingestCell svc doc st = (st', Ok tt) /\
    initialized st' = initialized st /\
    (forall x, In x (map doc_id (index st')) <->
               x = cell_id doc \/ In x (map doc_id (index st))) /\
    (NoDup (map doc_id (index st)) -> NoDup (map doc_id (index st'))).
Proof.
  intros [emb [l [He Hl]]]. unfold ingestCell, bind, lift, getIndex, setIndex.
  rewrite He, Hl. eexists. split; [reflexivity|]. simpl.
  split; [reflexivity|]. split.
  - intros x. apply index_set_ids.
  - apply index_set_NoDup.
Qed.

Lemma forEach_ingestCell_keeps_ids (svc : Services) (documents : list Cell)
  (x : string) :
  forall st1 st2,
    forEach (ingestCell svc) documents st1 = (st2, Ok tt) ->
    In x (map doc_id (index st1)) -> In x (map doc_id (index st2)).
Proof.
  induction documents as [|c documents IH]; intros st1 st2 E G.
  - simpl in E. unfold ret in E. now injection E as <-.
  - simpl in E. unfold bind in E.
    destruct (ingestCell svc c st1) as [st1' [[]|e]] eqn:Ec; [|discriminate].
    apply (IH st1' st2 E).
    unfold ingestCell, bind, lift, getIndex, setIndex in Ec.
    destruct (generateEmbedding svc _ _); [|discriminate].
    destruct (generateLabels svc c); [|discriminate].
    injection Ec as <-. simpl. apply index_set_ids. now right.
Qed.

(** A batch without failure indexes every item. *)
Lemma addToIndex_succeeds (svc : Services) (documents : list Cell) st :
  (forall c, In c documents -> cellSucceeds svc c) ->
  exists st',
    addToIndex svc documents st = (st', Ok tt) /\
    (forall c, In c documents -> In (cell_id c) (map doc_id (index st'))) /\
    (NoDup (map doc_id (index st)) -> NoDup (map doc_id (index st'))).
Proof.
  rewrite addToIndex_forEach.
  assert (Hi : index (fst (initialize st)) = index st)
    by (unfold initialize; destruct (initialized st); reflexivity).
  rewrite <- Hi. generalize (fst (initialize st)). clear Hi st.
  induction documents as [|d documents IH]; intros st Hall.
  - exists st. simpl. split; [reflexivity|]. split; [intros c []|auto].
  - destruct (ingestCell_succeeds svc d st (Hall d (or_introl eq_refl)))
      as [st1 [E1 [_ [Hids Hnd]]]].
    destruct (IH st1 (fun c Hc => Hall c (or_intror Hc)))
      as [st2 [E2 [Hin2 Hnd2]]].
    exists st2. simpl. unfold bind. rewrite E1. split; [exact E2|]. split.
    + intros c [<- | Hc]; [|now apply Hin2].
      apply (forEach_ingestCell_keeps_ids svc documents (cell_id d) st1 st2 E2).
      apply Hids. now left.
    + intros H. apply Hnd2. now apply Hnd.
Qed.
(** Every cell of a batch that was ingested had both provider calls
    answered. *)
Lemma addToIndex_called (svc : Services) (documents : list Cell) st st' :
  addToIndex svc documents st = (st', Ok tt) ->
  forall c, In c documents -> cellSucceeds svc c.
Proof.
  rewrite addToIndex_forEach. generalize (fst (initialize st)). clear st.
  induction documents as [|d documents IH]; intros st E c Hc;
    [destruct Hc|].
  simpl in E. unfold bind in E.
  destruct (ingestCell svc d st) as [st1 [[]|e]] eqn:Ed; [|discriminate].
  destruct Hc as [<- | Hc]; [|now apply (IH st1)].
  unfold ingestCell, bind, lift, getIndex, setIndex in Ed.
  unfold cellSucceeds.
  destruct (generateEmbedding svc _ _) as [emb|]; [|discriminate].
  destruct (generateLabels svc d) as [l|]; [|discriminate].
  now exists emb, l.
Qed.
End IndexFacts.

(** C5, as stated, fails: for a value cell with a row header and
    context entries the service sends a text without the Row and Context
    parts, so that a provider answering the canonical text only rejects
    the ingestion. *)
Lemma ingestion_text_is_not_canonical :
  Heuristics.generateEmbeddingText Samples.revenueCell
    = Samples.canonicalText /\
  SearchService.generateEmbeddingText Samples.revenueCell
    = Samples.reducedText /\
  Samples.reducedText <> Samples.canonicalText /\
  SearchService.addToIndex Samples.canonicalOnly [Samples.revenueCell]
    Samples.emptyState
    = (SearchService.mkState [] true, Throw "unexpected text").
Proof.
  split; [reflexivity|]. split; [reflexivity|]. split; [|reflexivity].
  intros H. apply String.eqb_eq in H. vm_compute in H. discriminate H.
Qed.

(** C5 (amended). For every cell document ingested into the index, the
    text sent to the embedding provider is the canonical form of the
    cell deprived of its row header, formula type and context entries:
    Sheet, Column header if present, then Formula or Value, joined with
    " - ".  The provider's answer to that text decides the ingestion of
    the cell, and every cell of an ingested batch had that text
    answered. *)
Theorem ingestion_sends_reduced_text :
  forall (svc : SearchService.Services) (st : SearchService.ServiceState),
    let text := fun cell =>
      Heuristics.generateEmbeddingText
        (Vocabulary.withoutRowTypeContext cell) in
    (forall cell, SearchService.generateEmbeddingText cell = text cell) /\
    (forall cell e,
       SearchService.generateEmbedding svc (text cell) SearchService.KindCell
         = Throw e ->
       SearchService.addToIndex svc [cell] st
         = (fst (SearchService.initialize st), Throw e)) /\
    (forall cell emb l,
       SearchService.generateEmbedding svc (text cell) SearchService.KindCell
         = Ok emb ->
       SearchService.generateLabels svc cell = Ok l ->
       SearchService.addToIndex svc [cell] st
         = (SearchService.mkState
              (SearchService.index_set
                 (SearchService.enrich (SearchService.CellDoc cell) emb l)
                 (SearchService.index st)) true,
            Ok tt)) /\
    (forall documents st',
       SearchService.addToIndex svc documents st = (st', Ok tt) ->
       forall cell, In cell documents ->
         exists emb,
           SearchService.generateEmbedding svc (text cell)
             SearchService.KindCell = Ok emb).
Proof.
  intros svc st text.
  assert (Ht : forall cell,
             SearchService.generateEmbeddingText cell = text cell)
    by (intros cell; apply generateEmbeddingText_reduced).
  split; [exact Ht|].
  split; [|split].
  - intros cell e He. rewrite addToIndex_forEach.
    cbn [SearchService.forEach]. unfold Vocabulary.ingestCell. rewrite Ht.
    unfold SearchService.bind, SearchService.lift. now rewrite He.
  - intros cell emb l He Hl. rewrite addToIndex_forEach.
    cbn [SearchService.forEach]. unfold Vocabulary.ingestCell. rewrite Ht.
    unfold SearchService.bind, SearchService.lift, SearchService.getIndex,
      SearchService.setIndex, SearchService.ret.
    rewrite He, Hl. simpl. unfold SearchService.initialize.
    destruct st as [idx []]; reflexivity.
  - intros documents st' E cell Hc.
    destruct (addToIndex_called svc documents st st' E cell Hc)
      as [emb [l [He _]]].
    exists emb. now rewrite <- Ht.
Qed.

Lemma ingestion_sends_reduced_text_witness :
  SearchService.addToIndex Samples.canonicalOnly [Samples.revenueCell]
    Samples.emptyState
    = (SearchService.mkState [] true, Throw "unexpected text").
Proof.
  refine (proj1 (proj2 (ingestion_sends_reduced_text Samples.canonicalOnly
                          Samples.emptyState))
            Samples.revenueCell "unexpected text" _).
  reflexivity.
Defined.

(** C7, as stated, fails: when the provider fails on the second of three
    cells the call throws, and the third cell is not indexed. *)
Lemma ingestion_failure_is_not_isolated :
  SearchService.addToIndex
    (Samples.failingOn
       (SearchService.generateEmbeddingText (Samples.plainCell "b" "beta")))
    [Samples.plainCell "a" "alpha"; Samples.plainCell "b" "beta";
     Samples.plainCell "c" "gamma"]
    Samples.emptyState
  = (SearchService.mkState
       [SearchService.enrich
          (SearchService.CellDoc (Samples.plainCell "a" "alpha"))
          [1%float]
          (LabelService.mkLabelResult (Some ["data"])
             (LabelService.ConfNumber (1 # 2)) "basic"
             (Some "general data"))]
       true,
     Throw "provider unavailable").
Proof. reflexivity. Qed.

(** C7 (amended). During batch ingestion a failure of a provider call on
    one item stops the batch at that item: the items before it stay
    indexed, the failing item and the items after it are not processed,
    and the provider's error is thrown to the caller.  A batch without
    failure indexes every item. *)
Theorem ingestion_failure_stops_batch :
  forall svc : SearchService.Services,
    (forall (pre post : list Model.Cell) (d : Model.Cell) (e : string)
            (st st' : SearchService.ServiceState),
       SearchService.addToIndex svc pre st = (st', Ok tt) ->
       Vocabulary.cellFails svc d e ->
       SearchService.addToIndex svc (pre ++ d :: post) st
         = (st', Throw e)) /\
    (forall (pre post : list Model.Range) (r : Model.Range) (e : string)
            (st st' : SearchService.ServiceState),
       SearchService.addRangesToIndex svc pre st = (st', Ok tt) ->
       Vocabulary.rangeFails svc r e ->
       SearchService.addRangesToIndex svc (pre ++ r :: post) st
         = (st', Throw e)) /\
    (forall (documents : list Model.Cell) (st : SearchService.ServiceState),
       (forall c, In c documents -> Vocabulary.cellSucceeds svc c) ->
       exists st',
         SearchService.addToIndex svc documents st = (st', Ok tt) /\
         forall c, In c documents ->
           In (Model.cell_id c)
              (map SearchService.doc_id (SearchService.index st'))).
Proof.
  intros svc. split; [|split].
  - intros pre post d e st st'. apply addToIndex_stops.
  - intros pre post r e st st'. apply addRangesToIndex_stops.
  - intros documents st Hall.
    destruct (addToIndex_succeeds svc documents st Hall) as [st' [E [Hin _]]].
    exists st'. split; assumption.
Qed.

Lemma ingestion_failure_stops_batch_witness :
  SearchService.addToIndex
    (Samples.failingOn
       (SearchService.generateEmbeddingText (Samples.plainCell "b" "beta")))
    ([Samples.plainCell "a" "alpha"]
       ++ Samples.plainCell "b" "beta" :: [Samples.plainCell "c" "gamma"])
    Samples.emptyState
  = (SearchService.mkState
       [SearchService.enrich
          (SearchService.CellDoc (Samples.plainCell "a" "alpha"))
          [1%float]
          (LabelService.mkLabelResult (Some ["data"])
             (LabelService.ConfNumber (1 # 2)) "basic"
             (Some "general data"))]
       true,
     Throw "provider unavailable").
Proof.
  refine (proj1 (ingestion_failure_stops_batch _) _ _ _ _ _ _ _ _).
  - reflexivity.
  - left. reflexivity.
Defined.

(* ================================================================== *)
(** * Facts about the stable sort *)
(* ================================================================== *)

Section SortFacts.
Import Vocabulary.
Variable A : Type.

Lemma insert_Permutation (compareFn : A -> A -> number) (x : A) (l : list A) :
  Permutation (insert compareFn x l) (x :: l).
Proof.
  induction l as [|y l IH]; simpl; [reflexivity|].
  destruct (ngt (compareFn x y) (Num 0)); [|reflexivity].
  rewrite IH. apply perm_swap.
Qed.

Lemma sort_Permutation (compareFn : A -> A -> number) (l : list A) :
  Permutation (sort compareFn l) l.
Proof.
  induction l as [|x l IH]; simpl; [reflexivity|].
  rewrite insert_Permutation. now constructor.
Qed.

Lemma In_sort (compareFn : A -> A -> number) (l : list A) (x : A) :
  In x (sort compareFn l) <-> In x l.
Proof.
  split; apply Permutation_in;
    [|symmetry]; apply sort_Permutation.
Qed.

Lemma length_sort (compareFn : A -> A -> number) (l : list A) :
  List.length (sort compareFn l) = List.length l.
Proof. apply Permutation_length, sort_Permutation. Qed.

Lemma precedes_cons (l : list A) (x a b : A) :
  precedes l a b -> precedes (x :: l) a b.
Proof. intros [l1 [l2 [l3 ->]]]. now exists (x :: l1), l2, l3. Qed.

Lemma precedes_head (l : list A) (x b : A) :
  In b l -> precedes (x :: l) x b.
Proof.
  intros H. apply in_split in H. destruct H as [l2 [l3 ->]].
  now exists [], l2, l3.
Qed.

Lemma StronglySorted_impl (R R' : A -> A -> Prop) (l : list A) :
  (forall a b, In a l -> In b l -> R a b -> R' a b) ->
  StronglySorted R l -> StronglySorted R' l.
Proof.
  intros Himp H. induction H as [|a l Hs IH Hf]; constructor.
  - apply IH. intros x y Hx Hy. apply Himp; now right.
  - rewrite Forall_forall in *. intros b Hb.
    apply Himp; [now left | now right | now apply Hf].
Qed.

Lemma StronglySorted_firstn (R : A -> A -> Prop) (k : nat) (l : list A) :
  StronglySorted R l -> StronglySorted R (firstn k l).
Proof.
  intros H. revert k. induction H as [|a l Hs IH Hf]; intros [|k]; simpl;
    try constructor.
  - apply IH.
  - rewrite Forall_forall in *. intros b Hb. apply Hf.
    revert Hb. clear. revert k.
    induction l as [|c l IHl]; intros [|k]; simpl; try tauto.
    intros [-> | H]; [now left | right; now apply (IHl k)].
Qed.

(** The sort by a numeric key, in descending order. *)
Variable key : A -> number.
Variable score : A -> Q.

Let descending (a b : A) : number := nsub (key b) (key a).

Lemma descending_swaps (x y : A) :
  key x = Num (score x) -> key y = Num (score y) ->
  ngt (descending x y) (Num 0) = true <-> (score x < score y)%Q.
Proof.
  intros Hx Hy. unfold descending. rewrite Hx, Hy. simpl.
  rewrite negb_true_iff. split.
  - intros H. destruct (Qlt_le_dec (score x) (score y)) as [L|L]; [exact L|].
    assert (Hle : (score y - score x <= 0)%Q) by Lqa.lra.
    apply Qle_bool_iff in Hle. congruence.
  - intros H. destruct (Qle_bool (score y - score x) 0) eqn:E; [|reflexivity].
    apply Qle_bool_iff in E. Lqa.lra.
Qed.

Lemma rankedBefore_le (l : list A) (a b : A) :
  rankedBefore score l a b -> (score b <= score a)%Q.
Proof. intros [H | [H _]]; Lqa.lra. Qed.

Lemma insert_ranked (x : A) (l sorted : list A) :
  key x = Num (score x) ->
  (forall y, In y sorted -> In y l /\ key y = Num (score y)) ->
  StronglySorted (rankedBefore score (x :: l)) sorted ->
  StronglySorted (rankedBefore score (x :: l)) (insert descending x sorted).
Proof.
  intros Hx. induction sorted as [|y sorted IH]; intros Hin Hs; simpl.
  - constructor; constructor.
  - inversion Hs as [|? ? Hs' Hf]; subst.
    destruct (Hin y (or_introl eq_refl)) as [Hyl Hy].
    destruct (ngt (descending x y) (Num 0)) eqn:E.
    + apply (descending_swaps x y Hx Hy) in E.
      constructor.
      * apply IH; [|exact Hs']. intros z Hz. apply Hin. now right.
      * apply (Permutation_Forall
                 (Permutation_sym (insert_Permutation descending x sorted))).
        constructor; [now left | exact Hf].
    + assert (Hle : (score y <= score x)%Q).
      { destruct (Qlt_le_dec (score x) (score y)) as [L|L]; [|exact L].
        apply (descending_swaps x y Hx Hy) in L. congruence. }
      constructor; [exact Hs|].
      rewrite Forall_forall in *. intros z Hz.
      assert (Hzx : (score z <= score x)%Q).
      { destruct Hz as [<- | Hz]; [exact Hle|].
        pose proof (rankedBefore_le _ _ _ (Hf z Hz)). Lqa.lra. }
      destruct (Qlt_le_dec (score z) (score x)) as [L|L]; [now left|].
      right. split; [Lqa.lra|].
      apply precedes_head. now apply Hin.
Qed.

(** The sort is descending and stable when every key is a number. *)
Lemma sort_ranked (l : list A) :
  Forall (fun a => key a = Num (score a)) l ->
  StronglySorted (rankedBefore score l) (sort descending l).
Proof.
  induction 1 as [|x l Hx Hl IH]; simpl; [constructor|].
  apply insert_ranked; [exact Hx| |].
  - intros y Hy. apply In_sort in Hy. split; [exact Hy|].
    rewrite Forall_forall in Hl. now apply Hl.
  - apply StronglySorted_impl with (R := rankedBefore score l); [|exact IH].
    intros a b _ _ [H | [H1 H2]]; [now left | right].
    split; [exact H1 | now apply precedes_cons].
Qed.
End SortFacts.

(* ================================================================== *)
(** * Properties of the two searches *)
(* ================================================================== *)

Section SearchFacts.
Import FormulaParser Model Heuristics LabelService SearchService Vocabulary.
Variable env : Env.
Variable svc : Services.

Lemma search_unfold (query : string) (options : Options) st :
  search env svc query options st =
    (fst (initialize st),
     if Nat.eqb (List.length (index st)) 0 then Ok []
     else
       bindE (generateEmbedding svc query KindQuery) (fun qe =>
       bindE (scoreAll env svc (includeRangesOf options) qe
                (detectQueryConcepts query) (index st)) (fun sims =>
       mapE (fun r => formatSearchResult svc r query)
            (slice0 (topKOf env options) (sort byFinalScore sims))))).
Proof.
  unfold search, bind, initialize, getIndex, lift, ret.
  destruct st as [idx initd]. simpl.
  destruct initd; simpl; destruct (Nat.eqb (List.length idx) 0);
    try reflexivity;
    destruct (generateEmbedding svc query KindQuery); simpl;
    try reflexivity;
    destruct (scoreAll env svc _ _ _ idx); reflexivity.
Qed.

Lemma keywordSearch_unfold (query : string) (options : Options) st :
  keywordSearch env query options st =
    (fst (initialize st),
     if Nat.eqb (List.length (index st)) 0 then Ok []
     else
       Ok (map (fun r => formatKeywordResult r query)
             (slice0 (topKOf env options)
                (sort byScore
                   (keywordScan (includeRangesOf options)
                      (split_whitespace (toLowerCase query)) (index st)))))).
Proof.
  unfold keywordSearch, bind, initialize, getIndex, lift, ret.
  destruct st as [idx initd]. simpl.
  destruct initd; simpl; destruct (Nat.eqb (List.length idx) 0); reflexivity.
Qed.

Lemma In_firstn (A : Type) (k : nat) (l : list A) (x : A) :
  In x (firstn k l) -> In x l.
Proof.
  revert k. induction l as [|y l IH]; intros [|k]; simpl; try tauto.
  intros [-> | H]; [now left | right; now apply (IH k)].
Qed.

Lemma NoDup_doc_id (idx : Index) (d1 d2 : IndexedDocument) :
  NoDup (map doc_id idx) -> In d1 idx -> In d2 idx ->
  doc_id d1 = doc_id d2 -> d1 = d2.
Proof.
  induction idx as [|e idx IH]; simpl; [tauto|].
  intros Hnd H1 H2 E. inversion Hnd as [|? ? Hn Hd]; subst.
  destruct H1 as [<- | H1], H2 as [<- | H2]; try reflexivity.
  - exfalso. apply Hn. rewrite E. now apply in_map.
  - exfalso. apply Hn. rewrite <- E. now apply in_map.
  - now apply IH.
Qed.

(** The keyword scan keeps the documents with a positive score. *)
Lemma keywordScan_In (includeRanges : bool) (queryTerms : list string)
  (idx : Index) (km : KeywordMatch) :
  In km (keywordScan includeRanges queryTerms idx) ->
  In (km_doc km) idx /\
  km_score km = keywordScore queryTerms (km_doc km) /\
  (0 < km_score km)%Q.
Proof.
  induction idx as [|d idx IH]; [simpl; tauto|].
  cbn [keywordScan].
  assert (Hrec : In km (keywordScan includeRanges queryTerms idx) ->
                 In (km_doc km) (d :: idx) /\
                 km_score km = keywordScore queryTerms (km_doc km) /\
                 (0 < km_score km)%Q).
  { intros H. destruct (IH H) as [H1 [H2 H3]].
    split; [now right | now split]. }
  destruct (skipped includeRanges d); [exact Hrec|].
  destruct (keywordMatches queryTerms d) as [score matches] eqn:E.
  destruct (ngt (Num score) (Num 0)) eqn:G; [|exact Hrec].
  intros [<- | H]; [|now apply Hrec].
  unfold keywordScore. cbn [km_doc km_score]. rewrite E.
  split; [now left|]. split; [reflexivity|].
  simpl in G. apply negb_true_iff in G.
  destruct (Qlt_le_dec 0 score) as [L|L]; [exact L|].
  apply Qle_bool_iff in L. simpl fst. congruence.
Qed.

Lemma termHits_cons (text term : string) (queryTerms : list string) :
  (termHits text (term :: queryTerms) ==
   (if includes text term then 1 else 0) + termHits text queryTerms)%Q.
Proof.
  unfold termHits. cbn [filter]. destruct (includes text term); [|Lqa.lra].
  cbn [List.length]. rewrite Nat2Z.inj_succ. unfold Z.succ.
  rewrite inject_Z_plus. change (inject_Z 1) with 1%Q. Lqa.lra.
Qed.

Lemma matchTerms_score (text : string) (weight : Q) (what : string)
  (queryTerms : list string) :
  forall acc,
    (fst (matchTerms text weight what queryTerms acc) ==
     fst acc + weight * termHits text queryTerms)%Q.
Proof.
  unfold matchTerms.
  induction queryTerms as [|term queryTerms IH]; intros acc.
  - cbn [fold_left]. unfold termHits. cbn [filter List.length].
    change (inject_Z (Z.of_nat 0)) with 0%Q. ring.
  - cbn [fold_left]. rewrite IH, termHits_cons.
    destruct (includes text term); cbn [fst]; ring.
Qed.

Lemma matchField_score (field : option string) (weight : Q) (what : string)
  (queryTerms : list string) acc :
  (fst (matchField field weight what queryTerms acc) ==
   fst acc + weight * fieldHits field queryTerms)%Q.
Proof.
  unfold matchField, fieldHits. destruct (truthy field).
  - apply matchTerms_score.
  - ring.
Qed.

Lemma matchLabels_score (labels queryTerms : list string) :
  forall acc,
    (fst (fold_left
            (fun acc label =>
               matchTerms (toLowerCase label) (3 # 2) "label matches "
                 queryTerms acc) labels acc) ==
     fst acc + (3 # 2) * labelHits labels queryTerms)%Q.
Proof.
  induction labels as [|label labels IH]; intros acc.
  - cbn [fold_left labelHits]. ring.
  - cbn [fold_left labelHits]. rewrite IH, matchTerms_score. ring.
Qed.

(** The score accumulated by the keyword scan is the weighted sum of
    the per-term field matches. *)
Lemma keywordScore_weighted_sum (queryTerms : list string)
  (d : IndexedDocument) :
  (keywordScore queryTerms d == weightedMatchSum queryTerms d)%Q.
Proof.
  unfold keywordScore, keywordMatches, weightedMatchSum, labelsOf.
  destruct (doc_labels d) as [labels|].
  - rewrite matchLabels_score, !matchField_score. cbn [fst]. ring.
  - rewrite !matchField_score. cbn [fst labelHits]. ring.
Qed.
End SearchFacts.

(** C2. On an empty index both searches return the empty list, for every
    query, every option and every behaviour of the collaborators; no
    exception is thrown and the index stays empty. *)
Theorem search_on_empty_index :
  forall (env : SearchService.Env) (svc : SearchService.Services)
         (query : string) (options : SearchService.Options)
         (initialized : bool),
    SearchService.search env svc query options
      (SearchService.mkState [] initialized)
      = (SearchService.mkState [] true, Ok []) /\
    SearchService.keywordSearch env query options
      (SearchService.mkState [] initialized)
      = (SearchService.mkState [] true, Ok []).
Proof.
  intros env svc query options [|]; split; reflexivity.
Qed.

(** C3. A document of the index whose keyword score for the query terms,
    the sum of the weighted per-term field matches, is 0 does not appear
    in the result list of the keyword search (which always returns a
    list). *)
Theorem keywordSearch_omits_zero_scores :
  forall (env : SearchService.Env) (query : string)
         (options : SearchService.Options)
         (st : SearchService.ServiceState)
         (d : SearchService.IndexedDocument),
    NoDup (map SearchService.doc_id (SearchService.index st)) ->
    In d (SearchService.index st) ->
    (Vocabulary.weightedMatchSum (split_whitespace (toLowerCase query)) d
     == 0)%Q ->
    (SearchService.keywordScore (split_whitespace (toLowerCase query)) d
     == 0)%Q /\
    exists results,
      snd (SearchService.keywordSearch env query options st) = Ok results /\
      ~ In (SearchService.doc_id d) (map SearchService.res_id results).
Proof.
  intros env query options st d Hnd Hd Hsum.
  assert (Hzero : (SearchService.keywordScore
                     (split_whitespace (toLowerCase query)) d == 0)%Q)
    by (rewrite keywordScore_weighted_sum; exact Hsum).
  split; [exact Hzero|].
  rewrite keywordSearch_unfold. simpl snd.
  destruct (Nat.eqb (List.length (SearchService.index st)) 0) eqn:El.
  { apply Nat.eqb_eq in El.
    destruct (SearchService.index st); [destruct Hd | discriminate El]. }
  eexists. split; [reflexivity|].
  intros Hin. apply in_map_iff in Hin. destruct Hin as [r [Hid Hr]].
  apply in_map_iff in Hr. destruct Hr as [km [<- Hkm]].
  apply In_firstn in Hkm. apply In_sort in Hkm.
  apply keywordScan_In in Hkm. destruct Hkm as [Hdoc [Hscore Hpos]].
  simpl in Hid.
  assert (E : SearchService.km_doc km = d)
    by (apply (NoDup_doc_id _ _ _ Hnd); assumption).
  rewrite E in Hscore. rewrite Hscore in Hpos. Lqa.lra.
Qed.

Section RankingFacts.
Import FormulaParser Model Heuristics LabelService SearchService Vocabulary.
Variable env : Env.
Variable svc : Services.

Lemma calculateConceptMatch_numeric (l q : list string) :
  exists r, calculateConceptMatch l q = Num r.
Proof.
  unfold calculateConceptMatch.
  destruct l as [|x l]; [now exists 0%Q|].
  destruct q as [|y q]; [now exists 0%Q|].
  cbn [List.length Nat.eqb orb]. unfold ndiv, ofNat.
  rewrite ofNat_positive; [eexists; reflexivity|]. simpl. lia.
Qed.

Lemma calculateSheetImportance_numeric (sheetName : string) :
  exists r, calculateSheetImportance sheetName = Num r.
Proof.
  unfold calculateSheetImportance.
  repeat match goal with
         | |- context [if ?b then _ else _] => destruct b
         end; eexists; reflexivity.
Qed.

Lemma detectFormulaComplexity_numeric (pf : ParsedFormula) :
  pf_functions pf = None \/ pf_complexity pf <> None ->
  exists r, detectFormulaComplexity (Some pf) = Num r.
Proof.
  intros H. unfold detectFormulaComplexity.
  destruct (pf_functions pf) as [functions|]; [|now exists 0%Q].
  destruct H as [H | H]; [discriminate|].
  destruct (pf_complexity pf) as [c|]; [|congruence].
  simpl. destruct (existsb _ functions); eexists; reflexivity.
Qed.

Lemma calculateFinalScore_numeric (a b c d : Q) :
  exists r, calculateFinalScore env (Num a) (Num b) (Num c) (Num d) = Num r.
Proof. unfold calculateFinalScore. simpl. eexists; reflexivity. Qed.

Lemma scoreDocument_fields qe qc (d : IndexedDocument) (s : Similarity) :
  scoreDocument env svc qe qc d = Ok s ->
  exists x,
    calculateCosineSimilarity svc qe (embedding d) = Ok x /\
    sim_doc s = d /\
    finalScore s =
      calculateFinalScore env x (calculateConceptMatch (labelsOf d) qc)
        (complexityOf d) (calculateSheetImportance (doc_sheetName d)).
Proof.
  unfold scoreDocument.
  destruct (calculateCosineSimilarity svc qe (embedding d)) as [x|e];
    [|discriminate].
  intros E. exists x. split; [reflexivity|].
  injection E as <-. split; reflexivity.
Qed.

(** A document whose similarity and complexity are numbers gets a
    numeric final score. *)
Lemma scoreDocument_numeric qe qc (d : IndexedDocument) (s : Similarity) :
  formulaScored d ->
  calculateCosineSimilarity svc qe (embedding d) <> Ok NaN ->
  scoreDocument env svc qe qc d = Ok s ->
  sim_doc s = d /\ finalScore s = Num (valueOf (finalScore s)).
Proof.
  intros Hf Hc E. apply scoreDocument_fields in E.
  destruct E as [x [Ex [Hd Hs]]]. split; [exact Hd|].
  destruct x as [x|]; [|congruence].
  destruct (calculateConceptMatch_numeric (labelsOf d) qc) as [b Hb].
  destruct (calculateSheetImportance_numeric (doc_sheetName d)) as [i Hi].
  assert (Hn : exists c, complexityOf d = Num c).
  { unfold complexityOf.
    destruct (doc_parsedFormula d) as [pf|] eqn:Ep; [|now exists 0%Q].
    apply detectFormulaComplexity_numeric. now apply Hf. }
  destruct Hn as [c Hn]. rewrite Hs, Hb, Hi, Hn.
  destruct (calculateFinalScore_numeric x b c i) as [r Hr].
  rewrite Hr. reflexivity.
Qed.

Lemma scoreAll_In includeRanges qe qc (idx : Index) sims (s : Similarity) :
  scoreAll env svc includeRanges qe qc idx = Ok sims -> In s sims ->
  In (sim_doc s) idx /\ scoreDocument env svc qe qc (sim_doc s) = Ok s.
Proof.
  revert sims. induction idx as [|d idx IH]; intros sims; simpl.
  - intros E. injection E as <-. intros [].
  - destruct (skipped includeRanges d).
    + intros E Hs. destruct (IH sims E Hs). split; [now right | assumption].
    + destruct (scoreDocument env svc qe qc d) as [s0|e] eqn:E0;
        simpl; [|discriminate].
      destruct (scoreAll env svc includeRanges qe qc idx) as [rest|e];
        simpl; [|discriminate].
      intros E. injection E as <-. intros [<- | Hs].
      * assert (Hd : sim_doc s0 = d).
        { unfold scoreDocument in E0.
          destruct (calculateCosineSimilarity svc qe (embedding d));
            simpl in E0; [|discriminate].
          now injection E0 as <-. }
        rewrite Hd. split; [now left | exact E0].
      * destruct (IH rest eq_refl Hs). split; [now right | assumption].
Qed.

Lemma scoreAll_length includeRanges qe qc (idx : Index) sims :
  scoreAll env svc includeRanges qe qc idx = Ok sims ->
  (List.length sims <= List.length idx)%nat.
Proof.
  revert sims. induction idx as [|d idx IH]; intros sims; simpl.
  - intros E. now injection E as <-.
  - destruct (skipped includeRanges d).
    + intros E. specialize (IH sims E). lia.
    + destruct (scoreDocument env svc qe qc d) as [s0|e]; simpl;
        [|discriminate].
      destruct (scoreAll env svc includeRanges qe qc idx) as [rest|e];
        simpl; [|discriminate].
      intros E. injection E as <-. specialize (IH rest eq_refl). simpl. lia.
Qed.

(** The scoring loop keeps the order of the index. *)
Lemma scoreAll_precedes includeRanges qe qc (idx : Index) sims s1 s2 :
  scoreAll env svc includeRanges qe qc idx = Ok sims ->
  precedes sims s1 s2 -> precedes idx (sim_doc s1) (sim_doc s2).
Proof.
  revert sims. induction idx as [|d idx IH]; intros sims; simpl.
  - intros E. injection E as <-. intros [[|? ?] [l2 [l3 H]]]; discriminate.
  - destruct (skipped includeRanges d).
    + intros E Hp. apply precedes_cons. now apply (IH sims).
    + destruct (scoreDocument env svc qe qc d) as [s0|e] eqn:E0;
        simpl; [|discriminate].
      destruct (scoreAll env svc includeRanges qe qc idx) as [rest|e] eqn:Er;
        simpl; [|discriminate].
      intros E. injection E as <-. intros [l1 [l2 [l3 H]]].
      destruct l1 as [|x l1]; simpl in H; injection H as -> H.
      * assert (Hd : sim_doc s1 = d).
        { unfold scoreDocument in E0.
          destruct (calculateCosineSimilarity svc qe (embedding d));
            simpl in E0; [|discriminate].
          now injection E0 as <-. }
        rewrite Hd. apply precedes_head.
        apply (scoreAll_In includeRanges qe qc idx rest s2 Er).
        rewrite H. apply in_or_app. right. now left.
      * apply precedes_cons. apply (IH rest eq_refl).
        now exists l1, l2, l3.
Qed.

Lemma mapE_Forall2 (A B : Type) (f : A -> Exc B) (l : list A) l' :
  mapE f l = Ok l' -> Forall2 (fun a b => f a = Ok b) l l'.
Proof.
  revert l'. induction l as [|x l IH]; intros l'; simpl.
  - intros E. injection E as <-. constructor.
  - destruct (f x) as [y|e] eqn:Ex; simpl; [|discriminate].
    destruct (mapE f l) as [ys|e]; simpl; [|discriminate].
    intros E. injection E as <-. constructor; [exact Ex | now apply IH].
Qed.

Lemma Forall2_StronglySorted (A B : Type) (P : A -> B -> Prop)
  (R : A -> A -> Prop) (R' : B -> B -> Prop) (l : list A) (l' : list B) :
  (forall a b a' b', P a a' -> P b b' -> R a b -> R' a' b') ->
  Forall2 P l l' -> StronglySorted R l -> StronglySorted R' l'.
Proof.
  intros Himp H. induction H as [|a a' l l' Ha Hl IH]; intros Hs.
  - constructor.
  - inversion Hs as [|? ? Hs' Hf]; subst. constructor; [now apply IH|].
    clear IH Hs Hs'. induction Hl as [|b b' l l' Hb Hl IH]; constructor.
    + inversion Hf; subst. now apply (Himp a b).
    + apply IH. now inversion Hf.
Qed.

Lemma formatSearchResult_fields (s : Similarity) (query : string) r :
  formatSearchResult svc s query = Ok r ->
  res_id r = doc_id (sim_doc s) /\ res_relevance r = finalScore s.
Proof.
  unfold formatSearchResult.
  destruct (generateSearchExplanation svc _ query); simpl; [|discriminate].
  intros E. now injection E as <-.
Qed.

(** Whatever the scores, a search that returns gives at most
    [min(topK, indexSize)] results. *)
Lemma search_length_bound (query : string) (options : Options)
  (st : ServiceState) (results : list SearchResult) :
  snd (search env svc query options st) = Ok results ->
  (List.length results
   <= Nat.min (topKOf env options) (List.length (index st)))%nat.
Proof.
  rewrite search_unfold. simpl snd.
  destruct (Nat.eqb (List.length (index st)) 0).
  { intros E. injection E as <-. simpl. lia. }
  destruct (generateEmbedding svc query KindQuery) as [qe|e]; simpl;
    [|discriminate].
  destruct (scoreAll env svc (includeRangesOf options) qe
              (detectQueryConcepts query) (index st)) as [sims|e] eqn:Es;
    simpl; [|discriminate].
  intros Em. apply mapE_Forall2 in Em. apply Forall2_length in Em.
  rewrite <- Em. unfold slice0. rewrite length_firstn, length_sort.
  pose proof (scoreAll_length _ _ _ _ _ Es). lia.
Qed.

(** On an index whose documents all get a numeric final score, a search
    that returns lists its results by descending relevance, documents of
    equal relevance in the order of their insertion, and returns at most
    [min(topK, indexSize)] of them. *)
Lemma search_ranked_on_numeric_scores (query : string) (options : Options)
  (st : ServiceState) (results : list SearchResult) :
  (forall d, In d (index st) -> formulaScored d) ->
  (forall qe d, In d (index st) ->
                calculateCosineSimilarity svc qe (embedding d) <> Ok NaN) ->
  snd (search env svc query options st) = Ok results ->
  StronglySorted (resultBefore (index st)) results /\
  (List.length results
   <= Nat.min (topKOf env options) (List.length (index st)))%nat.
Proof.
  intros Hf Hc. rewrite search_unfold. simpl snd.
  destruct (Nat.eqb (List.length (index st)) 0).
  { intros E. injection E as <-. split; [constructor | simpl; lia]. }
  destruct (generateEmbedding svc query KindQuery) as [qe|e]; simpl;
    [|discriminate].
  destruct (scoreAll env svc (includeRangesOf options) qe
              (detectQueryConcepts query) (index st)) as [sims|e] eqn:Es;
    simpl; [|discriminate].
  intros Em. apply mapE_Forall2 in Em.
  assert (Hnum : Forall (fun s => finalScore s
                                  = Num (valueOf (finalScore s))) sims).
  { apply Forall_forall. intros s Hs.
    destruct (scoreAll_In _ _ _ _ _ _ Es Hs) as [Hin Hsd].
    apply (scoreDocument_numeric qe (detectQueryConcepts query)
             (sim_doc s) s); auto. }
  set (score := fun s : Similarity => valueOf (finalScore s)).
  set (top := slice0 (topKOf env options) (sort byFinalScore sims)) in *.
  assert (Htop : forall s, In s top -> In s sims).
  { intros s Hs. apply In_firstn in Hs. now apply In_sort in Hs. }
  assert (Hsorted : StronglySorted (rankedBefore score sims) top).
  { apply StronglySorted_firstn. apply (sort_ranked _ finalScore score).
    exact Hnum. }
  split.
  - apply (Forall2_StronglySorted _ _ _
             (fun a b => In a sims /\ In b sims /\ rankedBefore score sims a b)
             (resultBefore (index st)) _ _) with (2 := Em).
    + intros a b a' b' Ha Hb [Hia [Hib Hr]].
      apply formatSearchResult_fields in Ha, Hb.
      destruct Ha as [Ia Ra], Hb as [Ib Rb].
      rewrite Forall_forall in Hnum.
      exists (score a), (score b). rewrite Ra, Rb.
      split; [now apply Hnum|]. split; [now apply Hnum|].
      destruct Hr as [Hr | [Heq Hp]]; [now left | right].
      split; [exact Heq|].
      exists (sim_doc a), (sim_doc b). split; [|now split].
      now apply (scoreAll_precedes _ _ _ _ _ _ _ Es).
    + apply StronglySorted_impl with (R := rankedBefore score sims);
        [|exact Hsorted].
      intros a b Ha Hb Hr. split; [now apply Htop|].
      split; [now apply Htop | exact Hr].
  - apply Forall2_length in Em. rewrite <- Em. unfold top, slice0.
    rewrite length_firstn, length_sort.
    pose proof (scoreAll_length _ _ _ _ _ Es). lia.
Qed.
End RankingFacts.

(** The ranking lemma at work: without the cell whose formula failed to
    parse, the sheet of higher importance comes first. *)
Example search_ranked_example :
  Samples.ranking_of_two_cells = Ok [("budget_1_1", Num (800000 # 2000000));
                             ("notes_1_1", Num (1500000 # 4000000))] /\
  forall results,
    snd (SearchService.search Samples.defaultEnv Samples.constantServices
           "total" Samples.top10 Samples.twoCellState) = Ok results ->
    StronglySorted
      (Vocabulary.resultBefore (SearchService.index Samples.twoCellState))
      results /\
    (List.length results <= 2)%nat.
Proof.
  split; [reflexivity|]. intros results H.
  apply (search_ranked_on_numeric_scores Samples.defaultEnv
           Samples.constantServices "total" Samples.top10
           Samples.twoCellState results); [| |exact H].
  - intros d Hd pf Hpf. vm_compute in Hd.
    destruct Hd as [<- | [<- | []]]; discriminate Hpf.
  - intros qe d _. discriminate.
Qed.

(** A list of two or more results in ranking order has numeric
    relevances only. *)
Lemma resultBefore_numeric (idx : SearchService.Index)
  (l : list SearchService.SearchResult) :
  StronglySorted (Vocabulary.resultBefore idx) l ->
  (2 <= List.length l)%nat ->
  Forall (fun r => SearchService.res_relevance r <> NaN) l.
Proof.
  induction 1 as [|a l Hs IH Hf]; intros Hlen; [constructor|].
  destruct l as [|b l]; [simpl in Hlen; lia|].
  assert (Hl : Forall (fun r => SearchService.res_relevance r <> NaN)
                 (b :: l)).
  { rewrite Forall_forall in *. intros r Hr.
    destruct (Hf r Hr) as [q1 [q2 [_ [E _]]]]. congruence. }
  constructor; [|exact Hl].
  inversion Hf as [|? ? [q1 [q2 [E _]]] _]; subst. congruence.
Qed.

(** C1 (evaluation at the failing input). Three cells are ingested, the
    second with a formula that failed to parse; its final score is NaN.
    The semantic search then lists the cell of relevance 3/8 before the
    cell of relevance 2/5: the list is not in descending order, and no
    rearrangement of the three results is. *)
Theorem search_with_unparsed_formula_is_unordered :
  exists low broken high : SearchService.SearchResult,
    snd (SearchService.search Samples.defaultEnv Samples.constantServices
           "total" Samples.top10 Samples.threeCellState)
      = Ok [low; broken; high] /\
    SearchService.res_id low = "notes_1_1" /\
    SearchService.res_id broken = "notes_2_1" /\
    SearchService.res_id high = "budget_1_1" /\
    (exists q, SearchService.res_relevance low = Num q /\ (q == 3 # 8)%Q) /\
    SearchService.res_relevance broken = NaN /\
    (exists q, SearchService.res_relevance high = Num q /\ (q == 2 # 5)%Q) /\
    forall l, Permutation l [low; broken; high] ->
      ~ StronglySorted
          (Vocabulary.resultBefore
             (SearchService.index Samples.threeCellState)) l.
Proof.
  do 3 eexists. split; [vm_compute; reflexivity|].
  repeat (split; [reflexivity|]).
  split; [eexists; split; [reflexivity | reflexivity]|].
  split; [reflexivity|].
  split; [eexists; split; [reflexivity | reflexivity]|].
  intros l Hp Hs.
  apply resultBefore_numeric in Hs;
    [|rewrite (Permutation_length Hp); simpl; lia].
  rewrite Forall_forall in Hs.
  apply (Hs _ (Permutation_in _ (Permutation_sym Hp)
                 (or_intror (or_introl eq_refl)))).
  reflexivity.
Qed.

Lemma keywordSearch_omits_zero_scores_witness :
  exists results,
    snd (SearchService.keywordSearch Samples.defaultEnv "alpha sum"
           Samples.top10 Samples.threeCellState) = Ok results /\
    ~ In "budget_1_1" (map SearchService.res_id results).
Proof.
  refine (proj2 (keywordSearch_omits_zero_scores Samples.defaultEnv
                   "alpha sum" Samples.top10 Samples.threeCellState
                   Samples.highDoc _ _ _)).
  - change (NoDup ["notes_1_1"; "notes_2_1"; "budget_1_1"]).
    repeat constructor; simpl; intuition discriminate.
  - right. right. left. reflexivity.
  - reflexivity.
Defined.

(* ================================================================== *)
(** * The index as a keyed store *)
(* ================================================================== *)

Section StoreFacts.
Import Model SearchService Vocabulary.

Lemma index_set_keys (d : IndexedDocument) (idx : Index) :
  keys (index_set d idx) =
    if in_dec string_dec (doc_id d) (keys idx) then keys idx
    else keys idx ++ [doc_id d].
Proof.
  unfold keys. induction idx as [|e idx IH].
  - simpl. destruct (in_dec string_dec (doc_id d) []) as [[]|]; reflexivity.
  - cbn [index_set map].
    destruct (String.eqb_spec (doc_id e) (doc_id d)) as [E|N]; cbn [map].
    + destruct (in_dec string_dec (doc_id d) (doc_id e :: map doc_id idx))
        as [H|H]; [now rewrite E|].
      exfalso. apply H. now left.
    + rewrite IH.
      destruct (in_dec string_dec (doc_id d) (map doc_id idx)) as [H|H];
        destruct (in_dec string_dec (doc_id d) (doc_id e :: map doc_id idx))
          as [H'|H']; try reflexivity.
      * exfalso. apply H'. now right.
      * destruct H' as [H'|H']; [congruence | tauto].
Qed.

Lemma lookup_index_set_same (d : IndexedDocument) (idx : Index) :
  lookup (index_set d idx) (doc_id d) = Some d.
Proof.
  unfold lookup. induction idx as [|e idx IH]; simpl.
  - now rewrite String.eqb_refl.
  - destruct (String.eqb_spec (doc_id e) (doc_id d)) as [E|N]; simpl.
    + now rewrite String.eqb_refl.
    + destruct (String.eqb_spec (doc_id e) (doc_id d)); [tauto | exact IH].
Qed.

Lemma lookup_index_set_other (d : IndexedDocument) (idx : Index)
  (id : string) :
  id <> doc_id d -> lookup (index_set d idx) id = lookup idx id.
Proof.
  intros Hne. unfold lookup. induction idx as [|e idx IH]; simpl.
  - destruct (String.eqb_spec (doc_id d) id); [congruence | reflexivity].
  - destruct (String.eqb_spec (doc_id e) (doc_id d)) as [E|N]; simpl.
    + destruct (String.eqb_spec (doc_id d) id); [congruence|].
      destruct (String.eqb_spec (doc_id e) id); [congruence | reflexivity].
    + destruct (String.eqb_spec (doc_id e) id); [reflexivity | exact IH].
Qed.

Lemma lookup_In (idx : Index) (id : string) (d : IndexedDocument) :
  lookup idx id = Some d -> In d idx /\ doc_id d = id.
Proof.
  unfold lookup. intros H. apply find_some in H.
  destruct H as [H1 H2]. apply String.eqb_eq in H2. now split.
Qed.

Lemma lookup_None (idx : Index) (id : string) :
  lookup idx id = None <-> ~ In id (keys idx).
Proof.
  unfold lookup, keys. induction idx as [|e idx IH]; simpl; [tauto|].
  destruct (String.eqb_spec (doc_id e) id) as [E|N].
  - split; [discriminate | intros H; exfalso; apply H; now left].
  - rewrite IH. tauto.
Qed.

(** A loop whose body stores one document under the key of its item. *)
Section Upserts.
Variable A : Type.
Variable key : A -> string.
Variable body : A -> M unit.
Hypothesis body_stores :
  forall x st st',
    body x st = (st', Ok tt) ->
    initialized st' = initialized st /\
    exists d, doc_id d = key x /\ index st' = index_set d (index st).

Lemma forEach_stores_keys (xs : list A) :
  forall st st',
    forEach body xs st = (st', Ok tt) ->
    initialized st' = initialized st /\
    exists added,
      keys (index st') = keys (index st) ++ added /\
      NoDup added /\
      forall k, In k added <->
                In k (map key xs) /\ ~ In k (keys (index st)).
Proof.
  induction xs as [|x xs IH]; intros st st' E.
  - simpl in E. injection E as <-. split; [reflexivity|].
    exists []. rewrite app_nil_r. split; [reflexivity|].
    split; [constructor|]. simpl. tauto.
  - simpl in E. unfold bind in E.
    destruct (body x st) as [st1 [[]|e]] eqn:Ex; [|discriminate].
    destruct (body_stores x st st1 Ex) as [Hi [d [Hk Hd]]].
    destruct (IH st1 st' E) as [Hi' [added [Hkeys [Hnd Hin]]]].
    split; [congruence|].
    rewrite Hd, index_set_keys, Hk in Hkeys.
    assert (Hk1 : forall k, In k (keys (index st1)) <->
                            k = key x \/ In k (keys (index st))).
    { intros k. rewrite Hd. unfold keys. rewrite index_set_ids, Hk.
      tauto. }
    destruct (in_dec string_dec (key x) (keys (index st))) as [Hx|Hx].
    + exists added. split; [exact Hkeys|]. split; [exact Hnd|].
      intros k. rewrite Hin, Hk1. simpl. split.
      * intros [H1 H2]. split; [now right | tauto].
      * intros [[<- | H1] H2]; [tauto|]. split; [exact H1|].
        intros [-> | H3]; tauto.
    + exists (key x :: added). rewrite <- app_assoc in Hkeys.
      split; [exact Hkeys|]. split.
      * constructor; [|exact Hnd]. rewrite Hin, Hk1. tauto.
      * intros k. simpl. rewrite Hin, Hk1. split.
        -- intros [<- | [H1 H2]]; [tauto|]. split; [now right | tauto].
        -- intros [[<- | H1] H2]; [now left|].
           destruct (string_dec (key x) k) as [E1|N1]; [now left|].
           right. split; [exact H1|]. intros [-> | H3]; tauto.
Qed.

Lemma forEach_stores_untouched (xs : list A) (id : string) :
  ~ In id (map key xs) ->
  forall st st',
    forEach body xs st = (st', Ok tt) ->
    lookup (index st') id = lookup (index st) id.
Proof.
  induction xs as [|x xs IH]; intros Hid st st' E.
  - simpl in E. now injection E as <-.
  - simpl in E. unfold bind in E.
    destruct (body x st) as [st1 [[]|e]] eqn:Ex; [|discriminate].
    destruct (body_stores x st st1 Ex) as [_ [d [Hk Hd]]].
    rewrite (IH (fun H => Hid (or_intror H)) st1 st' E), Hd.
    apply lookup_index_set_other. rewrite Hk. intros ->.
    apply Hid. now left.
Qed.
End Upserts.

Lemma ingestCell_stores (svc : Services) (c : Cell) st st' :
  ingestCell svc c st = (st', Ok tt) ->
  initialized st' = initialized st /\
  exists emb l,
    generateEmbedding svc (SearchService.generateEmbeddingText c) KindCell
      = Ok emb /\
    generateLabels svc c = Ok l /\
    index st' = index_set (enrich (CellDoc c) emb l) (index st).
Proof.
  unfold ingestCell, bind, lift, getIndex, setIndex.
  destruct (generateEmbedding svc _ _) as [emb|]; [|discriminate].
  destruct (generateLabels svc c) as [l|]; [|discriminate].
  intros E. injection E as <-. split; [reflexivity|].
  now exists emb, l.
Qed.

Lemma ingestRange_stores (svc : Services) (r : Range) st st' :
  ingestRange svc r st = (st', Ok tt) ->
  initialized st' = initialized st /\
  exists emb l,
    generateEmbedding svc (SearchService.generateRangeEmbeddingText r)
      KindRange = Ok emb /\
    generateRangeLabels svc r = Ok l /\
    index st' = index_set (enrich (RangeDoc r) emb l) (index st).
Proof.
  unfold ingestRange, bind, lift, getIndex, setIndex.
  destruct (generateEmbedding svc _ _) as [emb|]; [|discriminate].
  destruct (generateRangeLabels svc r) as [l|]; [|discriminate].
  intros E. injection E as <-. split; [reflexivity|].
  now exists emb, l.
Qed.

Lemma ingestCell_body (svc : Services) (c : Cell) st st' :
  ingestCell svc c st = (st', Ok tt) ->
  initialized st' = initialized st /\
  exists d, doc_id d = cell_id c /\ index st' = index_set d (index st).
Proof.
  intros E. destruct (ingestCell_stores svc c st st' E)
    as [Hi [emb [l [_ [_ Hd]]]]].
  split; [exact Hi|]. now exists (enrich (CellDoc c) emb l).
Qed.

Lemma ingestRange_body (svc : Services) (r : Range) st st' :
  ingestRange svc r st = (st', Ok tt) ->
  initialized st' = initialized st /\
  exists d, doc_id d = range_id r /\ index st' = index_set d (index st).
Proof.
  intros E. destruct (ingestRange_stores svc r st st' E)
    as [Hi [emb [l [_ [_ Hd]]]]].
  split; [exact Hi|]. now exists (enrich (RangeDoc r) emb l).
Qed.

Lemma initialize_index st : index (fst (initialize st)) = index st.
Proof. unfold initialize. destruct (initialized st); reflexivity. Qed.

Lemma initialize_flag st : initialized (fst (initialize st)) = true.
Proof.
  unfold initialize. destruct (initialized st) eqn:E; [exact E | reflexivity].
Qed.

Lemma NoDup_keys_app (old added : list string) :
  NoDup old -> NoDup added -> (forall k, In k added -> ~ In k old) ->
  NoDup (old ++ added).
Proof.
  intros Ho Ha Hd. induction old as [|x old IH]; simpl; [exact Ha|].
  inversion Ho as [|? ? Hn Ho']; subst. constructor.
  - rewrite in_app_iff. intros [H | H]; [tauto|].
    apply (Hd x H). now left.
  - apply IH; [exact Ho'|]. intros k Hk H. apply (Hd k Hk). now right.
Qed.
End StoreFacts.

(** X1. A batch ingestion that succeeds extends the index as a map keyed
    by document id: the keys already present keep their positions (the
    old key list is a prefix of the new one), the keys appended are
    exactly the ids of the batch that were not present, each once, so
    that pairwise distinct keys stay pairwise distinct; the service is
    initialized afterwards.  The same holds for ranges. *)
Theorem ingestion_extends_index :
  forall (svc : SearchService.Services) (st st' : SearchService.ServiceState),
    (forall documents : list Model.Cell,
       SearchService.addToIndex svc documents st = (st', Ok tt) ->
       SearchService.initialized st' = true /\
       exists added,
         Vocabulary.keys (SearchService.index st')
           = Vocabulary.keys (SearchService.index st) ++ added /\
         NoDup added /\
         (forall k, In k added <->
                    In k (map Model.cell_id documents) /\
                    ~ In k (Vocabulary.keys (SearchService.index st))) /\
         (NoDup (Vocabulary.keys (SearchService.index st)) ->
          NoDup (Vocabulary.keys (SearchService.index st')))) /\
    (forall ranges : list Model.Range,
       SearchService.addRangesToIndex svc ranges st = (st', Ok tt) ->
       SearchService.initialized st' = true /\
       exists added,
         Vocabulary.keys (SearchService.index st')
           = Vocabulary.keys (SearchService.index st) ++ added /\
         NoDup added /\
         (forall k, In k added <->
                    In k (map Model.range_id ranges) /\
                    ~ In k (Vocabulary.keys (SearchService.index st))) /\
         (NoDup (Vocabulary.keys (SearchService.index st)) ->
          NoDup (Vocabulary.keys (SearchService.index st')))).
Proof.
  intros svc st st'. split.
  - intros documents E. rewrite addToIndex_forEach in E.
    destruct (forEach_stores_keys Model.Cell Model.cell_id
                (Vocabulary.ingestCell svc) (ingestCell_body svc)
                documents _ _ E) as [Hi [added [Hk [Hnd Hin]]]].
    rewrite initialize_flag in Hi. rewrite initialize_index in Hk, Hin.
    split; [exact Hi|]. exists added.
    split; [exact Hk|]. split; [exact Hnd|]. split; [exact Hin|].
    intros Ho. rewrite Hk. apply NoDup_keys_app; auto.
    intros k Hk'. now apply Hin.
  - intros ranges E. rewrite addRangesToIndex_forEach in E.
    destruct (forEach_stores_keys Model.Range Model.range_id
                (Vocabulary.ingestRange svc) (ingestRange_body svc)
                ranges _ _ E) as [Hi [added [Hk [Hnd Hin]]]].
    rewrite initialize_flag in Hi. rewrite initialize_index in Hk, Hin.
    split; [exact Hi|]. exists added.
    split; [exact Hk|]. split; [exact Hnd|]. split; [exact Hin|].
    intros Ho. rewrite Hk. apply NoDup_keys_app; auto.
    intros k Hk'. now apply Hin.
Qed.

Lemma ingestion_extends_index_witness :
  SearchService.initialized Samples.twoCellState = true /\
  exists added,
    Vocabulary.keys (SearchService.index Samples.twoCellState)
      = Vocabulary.keys (SearchService.index Samples.emptyState) ++ added /\
    NoDup added /\
    (forall k, In k added <->
               In k (map Model.cell_id [Samples.lowCell; Samples.highCell]) /\
               ~ In k (Vocabulary.keys
                         (SearchService.index Samples.emptyState))) /\
    (NoDup (Vocabulary.keys (SearchService.index Samples.emptyState)) ->
     NoDup (Vocabulary.keys (SearchService.index Samples.twoCellState))).
Proof.
  apply (proj1 (ingestion_extends_index Samples.constantServices
                  Samples.emptyState Samples.twoCellState)
           [Samples.lowCell; Samples.highCell]).
  reflexivity.
Defined.

(** X2. What a successful batch stored can be read back: the document
    kept under the id of a cell is the cell itself with the embedding and
    the labels the providers returned for it, for the last cell of the
    batch with that id (an earlier one is replaced), and the documents
    under ids the batch does not mention are the ones stored before. *)
Theorem addToIndex_then_lookup :
  forall (svc : SearchService.Services) (st st' : SearchService.ServiceState)
         (documents : list Model.Cell),
    SearchService.addToIndex svc documents st = (st', Ok tt) ->
    (forall pre c post,
       documents = pre ++ c :: post ->
       ~ In (Model.cell_id c) (map Model.cell_id post) ->
       exists emb l,
         SearchService.generateEmbedding svc
           (SearchService.generateEmbeddingText c) SearchService.KindCell
           = Ok emb /\
         SearchService.generateLabels svc c = Ok l /\
         Vocabulary.lookup (SearchService.index st') (Model.cell_id c)
           = Some (SearchService.enrich (SearchService.CellDoc c) emb l)) /\
    (forall id,
       ~ In id (map Model.cell_id documents) ->
       Vocabulary.lookup (SearchService.index st') id
         = Vocabulary.lookup (SearchService.index st) id).
Proof.
  intros svc st st' documents E. rewrite addToIndex_forEach in E. split.
  - intros pre c post -> Hlast. rewrite forEach_app in E.
    destruct (SearchService.forEach (Vocabulary.ingestCell svc) pre
                (fst (SearchService.initialize st)))
      as [st0 [[]|e]]; [|discriminate].
    cbn [SearchService.forEach] in E. unfold SearchService.bind at 1 in E.
    destruct (Vocabulary.ingestCell svc c st0) as [st1 [[]|e]] eqn:Ec;
      [|discriminate].
    destruct (ingestCell_stores svc c st0 st1 Ec)
      as [_ [emb [l [He [Hl Hd]]]]].
    exists emb, l. split; [exact He|]. split; [exact Hl|].
    rewrite (forEach_stores_untouched Model.Cell Model.cell_id
               (Vocabulary.ingestCell svc) (ingestCell_body svc)
               post (Model.cell_id c) Hlast st1 st' E).
    rewrite Hd.
    apply (lookup_index_set_same
             (SearchService.enrich (SearchService.CellDoc c) emb l)).
  - intros id Hid.
    rewrite (forEach_stores_untouched Model.Cell Model.cell_id
               (Vocabulary.ingestCell svc) (ingestCell_body svc)
               documents id Hid _ st' E).
    now rewrite initialize_index.
Qed.

Lemma addToIndex_then_lookup_witness :
  Vocabulary.lookup (SearchService.index Samples.twoCellState) "absent"
    = Vocabulary.lookup (SearchService.index Samples.emptyState) "absent".
Proof.
  refine (proj2 (addToIndex_then_lookup Samples.constantServices
                   Samples.emptyState Samples.twoCellState
                   [Samples.lowCell; Samples.highCell] _) "absent" _).
  - reflexivity.
  - simpl. intros [H | [H | []]]; discriminate H.
Defined.

(* ================================================================== *)
(** * More on the keyword search *)
(* ================================================================== *)

Section ListFacts.
Import Vocabulary.

Lemma NoDup_firstn (A : Type) (k : nat) (l : list A) :
  NoDup l -> NoDup (firstn k l).
Proof.
  intros H. revert k.
  induction H as [|x l Hn Hd IH]; intros [|k]; simpl; try constructor.
  - intros Hx. apply Hn. now apply (In_firstn A k l x).
  - apply IH.
Qed.

Lemma precedes_distinct (A B : Type) (g : A -> B) (l : list A) (a b : A) :
  NoDup (map g l) -> precedes l a b -> g a <> g b.
Proof.
  intros Hnd [l1 [l2 [l3 ->]]] E.
  rewrite map_app in Hnd. simpl in Hnd. apply NoDup_remove_2 in Hnd.
  apply Hnd. rewrite in_app_iff. right. rewrite map_app, in_app_iff.
  right. left. now symmetry.
Qed.

Lemma NoDup_of_precedes (A B : Type) (g : A -> B) (l : list A) :
  (forall a b, precedes l a b -> g a <> g b) -> NoDup (map g l).
Proof.
  induction l as [|x l IH]; intros H; simpl; constructor.
  - intros Hin. apply in_map_iff in Hin. destruct Hin as [y [E Hy]].
    apply (H x y); [now apply precedes_head | now symmetry].
  - apply IH. intros a b Hp. apply H. now apply precedes_cons.
Qed.

Lemma Forall2_map_eq (A B C : Type) (P : A -> B -> Prop) (f : A -> C)
  (g : B -> C) (l : list A) (l' : list B) :
  (forall a b, P a b -> f a = g b) ->
  Forall2 P l l' -> map f l = map g l'.
Proof.
  intros H. induction 1 as [|a b l l' Hab _ IH]; simpl; [reflexivity|].
  now rewrite (H a b Hab), IH.
Qed.

Lemma Forall2_In_r (A B : Type) (P : A -> B -> Prop) (l : list A)
  (l' : list B) (b : B) :
  Forall2 P l l' -> In b l' -> exists a, In a l /\ P a b.
Proof.
  induction 1 as [|a b' l l' Hab _ IH]; simpl; [tauto|].
  intros [<- | H].
  - exists a. split; [now left | exact Hab].
  - destruct (IH H) as [a' [Ha' Hp]]. exists a'. split; [now right | exact Hp].
Qed.

Lemma firstn_all_of (A : Type) (k : nat) (l : list A) :
  (List.length l <= k)%nat -> firstn k l = l.
Proof.
  revert k. induction l as [|x l IH]; intros [|k]; simpl; intros H;
    try reflexivity; try lia.
  rewrite IH; [reflexivity | lia].
Qed.
End ListFacts.

Section KeywordFacts.
Import Model SearchService Vocabulary.

Lemma keywordScan_length (includeRanges : bool) (queryTerms : list string)
  (idx : Index) :
  (List.length (keywordScan includeRanges queryTerms idx)
   <= List.length idx)%nat.
Proof.
  induction idx as [|d idx IH]; cbn [keywordScan List.length]; [lia|].
  destruct (skipped includeRanges d); [lia|].
  destruct (keywordMatches queryTerms d) as [score matches].
  destruct (ngt (Num score) (Num 0)); cbn [List.length]; lia.
Qed.

Lemma keywordScan_skips (includeRanges : bool) (queryTerms : list string)
  (idx : Index) (km : KeywordMatch) :
  In km (keywordScan includeRanges queryTerms idx) ->
  skipped includeRanges (km_doc km) = false.
Proof.
  induction idx as [|d idx IH]; cbn [keywordScan]; [intros []|].
  destruct (skipped includeRanges d) eqn:Es; [exact IH|].
  destruct (keywordMatches queryTerms d) as [score matches].
  destruct (ngt (Num score) (Num 0)); [|exact IH].
  intros [<- | H]; [exact Es | now apply IH].
Qed.

Lemma keywordScan_finds (includeRanges : bool) (queryTerms : list string)
  (idx : Index) (d : IndexedDocument) :
  In d idx -> skipped includeRanges d = false ->
  (0 < keywordScore queryTerms d)%Q ->
  exists km, In km (keywordScan includeRanges queryTerms idx) /\
             km_doc km = d.
Proof.
  intros Hd Hs Hpos. induction idx as [|e idx IH]; [destruct Hd|].
  cbn [keywordScan].
  assert (Hrec : In d idx ->
                 exists km,
                   In km (keywordScan includeRanges queryTerms idx) /\
                   km_doc km = d) by exact IH.
  destruct Hd as [-> | Hd].
  - rewrite Hs. unfold keywordScore in Hpos.
    destruct (keywordMatches queryTerms d) as [score matches].
    cbn [fst] in Hpos.
    assert (G : ngt (Num score) (Num 0) = true).
    { simpl. apply negb_true_iff.
      destruct (Qle_bool score 0) eqn:E; [|reflexivity].
      apply Qle_bool_iff in E. Lqa.lra. }
    rewrite G. eexists. split; [now left | reflexivity].
  - destruct (Hrec Hd) as [km [Hkm Ekm]].
    destruct (skipped includeRanges e); [now exists km|].
    destruct (keywordMatches queryTerms e) as [score matches].
    destruct (ngt (Num score) (Num 0)); exists km;
      (split; [|exact Ekm]); [now right | exact Hkm].
Qed.

(** The scan keeps the order of the index. *)
Lemma keywordScan_precedes (includeRanges : bool) (queryTerms : list string)
  (idx : Index) (k1 k2 : KeywordMatch) :
  precedes (keywordScan includeRanges queryTerms idx) k1 k2 ->
  precedes idx (km_doc k1) (km_doc k2).
Proof.
  induction idx as [|d idx IH]; cbn [keywordScan].
  - intros [[|? ?] [l2 [l3 H]]]; discriminate.
  - destruct (skipped includeRanges d).
    { intros H. apply precedes_cons. now apply IH. }
    destruct (keywordMatches queryTerms d) as [score matches].
    destruct (ngt (Num score) (Num 0)).
    2:{ intros H. apply precedes_cons. now apply IH. }
    intros [l1 [l2 [l3 H]]].
    destruct l1 as [|x l1]; simpl in H; injection H as E H.
    + subst k1. cbn [km_doc]. apply precedes_head.
      apply (keywordScan_In includeRanges queryTerms idx k2).
      rewrite H. apply in_or_app. right. now left.
    + apply precedes_cons. apply IH. now exists l1, l2, l3.
Qed.

Lemma Qdiv_10 (x : Q) : (x / 10 == x * (1 # 10))%Q.
Proof. reflexivity. Qed.

Lemma formatKeywordResult_relevance (km : KeywordMatch) (query : string) :
  res_relevance (formatKeywordResult km query) = Num (km_score km / 10).
Proof. reflexivity. Qed.

Lemma termHits_app (text : string) (terms1 terms2 : list string) :
  (termHits text (terms1 ++ terms2) ==
   termHits text terms1 + termHits text terms2)%Q.
Proof.
  unfold termHits. rewrite filter_app, length_app, Nat2Z.inj_add.
  now rewrite inject_Z_plus.
Qed.

Lemma termHits_bounds (text : string) (terms : list string) :
  (0 <= termHits text terms)%Q /\
  (termHits text terms <= inject_Z (Z.of_nat (List.length terms)))%Q.
Proof.
  unfold termHits. split.
  - change 0%Q with (inject_Z 0). rewrite <- Zle_Qle. lia.
  - rewrite <- Zle_Qle. apply inj_le. apply filter_length_le.
Qed.

Lemma fieldHits_app (field : option string) (terms1 terms2 : list string) :
  (fieldHits field (terms1 ++ terms2) ==
   fieldHits field terms1 + fieldHits field terms2)%Q.
Proof.
  unfold fieldHits. destruct (truthy field); [apply termHits_app | ring].
Qed.

Lemma fieldHits_bounds (field : option string) (terms : list string) :
  (0 <= fieldHits field terms)%Q /\
  (fieldHits field terms <= inject_Z (Z.of_nat (List.length terms)))%Q.
Proof.
  unfold fieldHits. destruct (truthy field); [apply termHits_bounds|].
  split; [Lqa.lra|]. change 0%Q with (inject_Z 0).
  rewrite <- Zle_Qle. lia.
Qed.

Lemma labelHits_app (labels terms1 terms2 : list string) :
  (labelHits labels (terms1 ++ terms2) ==
   labelHits labels terms1 + labelHits labels terms2)%Q.
Proof.
  induction labels as [|l labels IH]; cbn [labelHits]; [ring|].
  rewrite IH, termHits_app. ring.
Qed.

Lemma labelHits_bounds (labels terms : list string) :
  (0 <= labelHits labels terms)%Q /\
  (labelHits labels terms <=
   inject_Z (Z.of_nat (List.length labels))
   * inject_Z (Z.of_nat (List.length terms)))%Q.
Proof.
  induction labels as [|l labels IH]; cbn [labelHits List.length].
  - change (inject_Z (Z.of_nat 0)) with 0%Q. split; Lqa.lra.
  - destruct IH as [IH1 IH2].
    destruct (termHits_bounds (toLowerCase l) terms) as [H1 H2].
    rewrite Nat2Z.inj_succ. unfold Z.succ. rewrite inject_Z_plus.
    change (inject_Z 1) with 1%Q. split; [Lqa.lra|].
    set (n := inject_Z (Z.of_nat (List.length labels))) in *.
    set (m := inject_Z (Z.of_nat (List.length terms))) in *.
    assert (E : ((n + 1) * m == m + n * m)%Q) by ring.
    rewrite E. Lqa.lra.
Qed.

(** A term the query has in front of its first white space, the empty
    one, occurs in every text. *)
Lemma split_whitespace_leading (c : ascii) (rest : string) :
  isSpace c = true ->
  In EmptyString (split_whitespace (toLowerCase (String c rest))).
Proof.
  intros Hc. unfold split_whitespace. cbn [toLowerCase splitWs].
  assert (E : lowerAscii c = c).
  { unfold lowerAscii, isSpace in *.
    destruct (andb (65 <=? nat_of_ascii c)%nat (nat_of_ascii c <=? 90)%nat)
      eqn:E; [|reflexivity].
    apply andb_true_iff in E. destruct E as [E1 E2].
    apply Nat.leb_le in E1, E2.
    apply orb_true_iff in Hc. destruct Hc as [Hc | Hc].
    - apply andb_true_iff in Hc. destruct Hc as [_ Hc].
      apply Nat.leb_le in Hc. lia.
    - apply Nat.eqb_eq in Hc. lia. }
  rewrite E, Hc. now left.
Qed.

Lemma includes_empty (s : string) : includes s EmptyString = true.
Proof. destruct s; reflexivity. Qed.

Lemma termHits_empty_term (text : string) (terms : list string) :
  In EmptyString terms -> (1 <= termHits text terms)%Q.
Proof.
  intros H. apply in_split in H. destruct H as [l1 [l2 ->]].
  rewrite termHits_app.
  change (EmptyString :: l2) with ([EmptyString] ++ l2).
  rewrite termHits_app.
  destruct (termHits_bounds text l1) as [H1 _].
  destruct (termHits_bounds text l2) as [H2 _].
  assert (E : (termHits text [EmptyString] == 1)%Q).
  { unfold termHits. cbn [filter]. rewrite includes_empty. reflexivity. }
  rewrite E. Lqa.lra.
Qed.
End KeywordFacts.

(** X3. The keyword search always returns a list, never throws and
    leaves the index as it is.  The list is in descending order of
    relevance, documents of equal relevance in the order of their
    insertion; it holds at most min(topK, index size) results; every
    relevance is the keyword score divided by 10, a positive number. *)
Theorem keywordSearch_is_ranked :
  forall (env : SearchService.Env) (query : string)
         (options : SearchService.Options)
         (st : SearchService.ServiceState),
  exists results,
    SearchService.keywordSearch env query options st
      = (fst (SearchService.initialize st), Ok results) /\
    StronglySorted (Vocabulary.resultBefore (SearchService.index st))
      results /\
    (List.length results
     <= Nat.min (SearchService.topKOf env options)
                (List.length (SearchService.index st)))%nat /\
    Forall Vocabulary.positiveRelevance results.
Proof.
  intros env query options st. rewrite keywordSearch_unfold.
  destruct (Nat.eqb (List.length (SearchService.index st)) 0).
  { exists []. split; [reflexivity|]. split; [constructor|].
    split; [simpl; lia | constructor]. }
  set (terms := split_whitespace (toLowerCase query)).
  set (scan := SearchService.keywordScan
                 (SearchService.includeRangesOf options) terms
                 (SearchService.index st)).
  set (top := slice0 (SearchService.topKOf env options)
                (sort SearchService.byScore scan)).
  exists (map (fun r => SearchService.formatKeywordResult r query) top).
  split; [reflexivity|].
  assert (Htop : forall km, In km top -> In km scan).
  { intros km H. apply In_firstn in H. now apply In_sort in H. }
  assert (Hsorted : StronglySorted
                      (Vocabulary.rankedBefore SearchService.km_score scan)
                      top).
  { apply StronglySorted_firstn.
    apply (sort_ranked SearchService.KeywordMatch
             (fun km => Num (SearchService.km_score km))
             SearchService.km_score scan).
    apply Forall_forall. reflexivity. }
  split; [|split].
  - apply (Forall2_StronglySorted _ _
             (fun km r => r = SearchService.formatKeywordResult km query)
             (fun a b => In a scan /\ In b scan /\
                         Vocabulary.rankedBefore SearchService.km_score
                           scan a b)
             (Vocabulary.resultBefore (SearchService.index st)) top).
    + intros a b a' b' -> -> [Ha [Hb Hr]].
      exists (SearchService.km_score a / 10)%Q,
             (SearchService.km_score b / 10)%Q.
      split; [reflexivity|]. split; [reflexivity|].
      destruct Hr as [Hr | [Heq Hp]].
      * left. rewrite !Qdiv_10. Lqa.lra.
      * right. split; [now rewrite Heq|].
        exists (SearchService.km_doc a), (SearchService.km_doc b).
        split; [|now split].
        now apply (keywordScan_precedes
                     (SearchService.includeRangesOf options) terms).
    + clear. induction top as [|x top IH]; simpl; constructor; auto.
    + apply StronglySorted_impl
        with (R := Vocabulary.rankedBefore SearchService.km_score scan);
        [|exact Hsorted].
      intros a b Ha Hb Hr. split; [now apply Htop|].
      split; [now apply Htop | exact Hr].
  - rewrite length_map. unfold top, slice0.
    rewrite length_firstn, length_sort.
    pose proof (keywordScan_length (SearchService.includeRangesOf options)
                  terms (SearchService.index st)).
    fold scan in H. lia.
  - apply Forall_forall. intros r Hr. apply in_map_iff in Hr.
    destruct Hr as [km [<- Hkm]].
    exists (SearchService.km_score km / 10)%Q. split; [reflexivity|].
    apply Htop in Hkm.
    apply keywordScan_In in Hkm. destruct Hkm as [_ [_ Hpos]].
    rewrite Qdiv_10. Lqa.lra.
Qed.

(** X4. The keyword score of a document adds over the query terms: the
    score for two lists of terms put together is the sum of the two
    scores, so that a word written twice in the query counts twice.  It
    is never negative and at most (6 + 1.5 per label) per query term. *)
Theorem keywordScore_adds_over_terms :
  forall (terms1 terms2 : list string) (d : SearchService.IndexedDocument),
    (SearchService.keywordScore (terms1 ++ terms2) d ==
     SearchService.keywordScore terms1 d
     + SearchService.keywordScore terms2 d)%Q /\
    (0 <= SearchService.keywordScore terms1 d)%Q /\
    (SearchService.keywordScore terms1 d <=
     (6 + (3 # 2) * inject_Z (Z.of_nat
                      (List.length (SearchService.labelsOf d))))
     * inject_Z (Z.of_nat (List.length terms1)))%Q.
Proof.
  intros terms1 terms2 d. rewrite !keywordScore_weighted_sum.
  unfold Vocabulary.weightedMatchSum. split; [|split].
  - rewrite !fieldHits_app, labelHits_app. ring.
  - pose proof (fieldHits_bounds (SearchService.doc_headers_column d) terms1).
    pose proof (fieldHits_bounds (SearchService.doc_headers_row d) terms1).
    pose proof (fieldHits_bounds (SearchService.doc_formattedValue d) terms1).
    pose proof (fieldHits_bounds (SearchService.doc_formula d) terms1).
    pose proof (labelHits_bounds (SearchService.labelsOf d) terms1).
    Lqa.lra.
  - pose proof (fieldHits_bounds (SearchService.doc_headers_column d) terms1).
    pose proof (fieldHits_bounds (SearchService.doc_headers_row d) terms1).
    pose proof (fieldHits_bounds (SearchService.doc_formattedValue d) terms1).
    pose proof (fieldHits_bounds (SearchService.doc_formula d) terms1).
    pose proof (labelHits_bounds (SearchService.labelsOf d) terms1).
    set (n := inject_Z (Z.of_nat
                 (List.length (SearchService.labelsOf d)))) in *.
    set (m := inject_Z (Z.of_nat (List.length terms1))) in *.
    assert (E : ((6 + (3 # 2) * n) * m == 6 * m + (3 # 2) * (n * m))%Q)
      by ring.
    rewrite E. Lqa.lra.
Qed.

(** X5. A query that begins with white space has an empty first term,
    and the empty term occurs in every text: every document with a
    non-empty value then has a positive keyword score, whatever the
    words of the query, and is returned when topK allows for the whole
    index. *)
Theorem keywordSearch_leading_space_matches_all :
  forall (env : SearchService.Env) (c : ascii) (rest : string)
         (options : SearchService.Options)
         (st : SearchService.ServiceState)
         (d : SearchService.IndexedDocument),
    isSpace c = true ->
    In d (SearchService.index st) ->
    truthy (SearchService.doc_formattedValue d) <> None ->
    SearchService.skipped (SearchService.includeRangesOf options) d
      = false ->
    (List.length (SearchService.index st)
     <= SearchService.topKOf env options)%nat ->
    (1 <= SearchService.keywordScore
            (split_whitespace (toLowerCase (String c rest))) d)%Q /\
    exists results,
      snd (SearchService.keywordSearch env (String c rest) options st)
        = Ok results /\
      In (SearchService.doc_id d) (map SearchService.res_id results).
Proof.
  intros env c rest options st d Hc Hd Hv Hs Hk.
  set (query := String c rest).
  set (terms := split_whitespace (toLowerCase query)).
  assert (Hscore : (1 <= SearchService.keywordScore terms d)%Q).
  { rewrite keywordScore_weighted_sum. unfold Vocabulary.weightedMatchSum.
    pose proof (fieldHits_bounds (SearchService.doc_headers_column d) terms).
    pose proof (fieldHits_bounds (SearchService.doc_headers_row d) terms).
    pose proof (fieldHits_bounds (SearchService.doc_formula d) terms).
    pose proof (labelHits_bounds (SearchService.labelsOf d) terms).
    assert (Hf : (1 <= Vocabulary.fieldHits
                         (SearchService.doc_formattedValue d) terms)%Q).
    { unfold Vocabulary.fieldHits.
      destruct (truthy (SearchService.doc_formattedValue d)) as [text|];
        [|congruence].
      apply termHits_empty_term. now apply split_whitespace_leading. }
    Lqa.lra. }
  split; [exact Hscore|].
  rewrite keywordSearch_unfold. simpl snd.
  destruct (Nat.eqb (List.length (SearchService.index st)) 0) eqn:El.
  { apply Nat.eqb_eq in El.
    destruct (SearchService.index st); [destruct Hd | discriminate El]. }
  eexists. split; [reflexivity|].
  destruct (keywordScan_finds (SearchService.includeRangesOf options) terms
              (SearchService.index st) d Hd Hs) as [km [Hkm Ekm]];
    [Lqa.lra|].
  apply in_map_iff.
  exists (SearchService.formatKeywordResult km query).
  split; [simpl; now rewrite Ekm|].
  apply (in_map (fun r => SearchService.formatKeywordResult r query)).
  unfold slice0. rewrite firstn_all_of.
  - apply In_sort. exact Hkm.
  - rewrite length_sort.
    pose proof (keywordScan_length (SearchService.includeRangesOf options)
                  terms (SearchService.index st)).
    change (split_whitespace (String (lowerAscii c) (toLowerCase rest)))
      with terms.
    lia.
Qed.

Lemma keywordSearch_leading_space_matches_all_witness :
  (1 <= SearchService.keywordScore
          (split_whitespace (toLowerCase " zzz")) Samples.highDoc)%Q /\
  exists results,
    snd (SearchService.keywordSearch Samples.defaultEnv " zzz"
           Samples.top10 Samples.threeCellState) = Ok results /\
    In (SearchService.doc_id Samples.highDoc)
       (map SearchService.res_id results).
Proof.
  apply (keywordSearch_leading_space_matches_all Samples.defaultEnv
           " "%char "zzz" Samples.top10 Samples.threeCellState
           Samples.highDoc).
  - reflexivity.
  - right. right. left. reflexivity.
  - discriminate.
  - reflexivity.
  - vm_compute. lia.
Defined.

(* ================================================================== *)
(** * More on the semantic search *)
(* ================================================================== *)

Section SemanticFacts.
Import FormulaParser Model Heuristics LabelService SearchService Vocabulary.
Variable env : Env.
Variable svc : Services.

Lemma scoreDocument_doc qe qc (d : IndexedDocument) (s : Similarity) :
  scoreDocument env svc qe qc d = Ok s -> sim_doc s = d.
Proof.
  intros E. apply scoreDocument_fields in E.
  now destruct E as [x [_ [H _]]].
Qed.

Lemma scoreAll_skips includeRanges qe qc (idx : Index) sims
  (s : Similarity) :
  scoreAll env svc includeRanges qe qc idx = Ok sims -> In s sims ->
  skipped includeRanges (sim_doc s) = false.
Proof.
  revert sims. induction idx as [|d idx IH]; intros sims; simpl.
  - intros E. injection E as <-. intros [].
  - destruct (skipped includeRanges d) eqn:Es; [apply IH|].
    destruct (scoreDocument env svc qe qc d) as [s0|e] eqn:E0;
      simpl; [|discriminate].
    destruct (scoreAll env svc includeRanges qe qc idx) as [rest|e];
      simpl; [|discriminate].
    intros E. injection E as <-. intros [<- | Hs].
    + now rewrite (scoreDocument_doc _ _ _ _ E0).
    + now apply (IH rest).
Qed.

(** One document whose similarity cannot be computed makes the scoring
    loop throw. *)
Lemma scoreAll_throws includeRanges qe qc (idx : Index)
  (d : IndexedDocument) (e : string) :
  In d idx -> skipped includeRanges d = false ->
  calculateCosineSimilarity svc qe (embedding d) = Throw e ->
  exists e', scoreAll env svc includeRanges qe qc idx = Throw e'.
Proof.
  intros Hd Hs Hc. induction idx as [|x idx IH]; [destruct Hd|].
  cbn [scoreAll]. destruct Hd as [-> | Hd].
  - rewrite Hs. unfold scoreDocument. rewrite Hc. now exists e.
  - destruct (IH Hd) as [e' He'].
    destruct (skipped includeRanges x); [now exists e'|].
    destruct (scoreDocument env svc qe qc x) as [s|e0]; simpl;
      [|now exists e0].
    rewrite He'. now exists e'.
Qed.

Lemma formatSearchResult_describes (s : Similarity) (query : string) r :
  formatSearchResult svc s query = Ok r -> describes r (sim_doc s).
Proof.
  unfold formatSearchResult.
  destruct (generateSearchExplanation svc _ query); simpl; [|discriminate].
  intros E. injection E as <-. repeat split.
Qed.

Lemma formatKeywordResult_describes (km : KeywordMatch) (query : string) :
  describes (formatKeywordResult km query) (km_doc km).
Proof. repeat split. Qed.


(** What a search that returns is made of: the scored documents, sorted
    and cut, then formatted one by one. *)
Lemma search_returns (query : string) (options : Options)
  (st : ServiceState) (results : list SearchResult) :
  snd (search env svc query options st) = Ok results ->
  (results = [] /\ index st = []) \/
  exists qe sims,
    generateEmbedding svc query KindQuery = Ok qe /\
    scoreAll env svc (includeRangesOf options) qe
      (detectQueryConcepts query) (index st) = Ok sims /\
    Forall2 (fun s r => formatSearchResult svc s query = Ok r)
      (slice0 (topKOf env options) (sort byFinalScore sims)) results.
Proof.
  rewrite search_unfold. simpl snd.
  destruct (Nat.eqb_spec (List.length (index st)) 0) as [Hz|_].
  { intros E. injection E as <-. left. split; [reflexivity|].
    now destruct (index st). }
  destruct (generateEmbedding svc query KindQuery) as [qe|e]; simpl;
    [|discriminate].
  destruct (scoreAll env svc (includeRangesOf options) qe
              (detectQueryConcepts query) (index st)) as [sims|e] eqn:Es;
    simpl; [|discriminate].
  intros Em. right. exists qe, sims. split; [reflexivity|].
  split; [exact Es|]. now apply mapE_Forall2.
Qed.

(** Every result of a semantic search comes from a scored document of
    the index that the loop did not skip. *)
Lemma search_result_origin (query : string) (options : Options)
  (st : ServiceState) (results : list SearchResult) (r : SearchResult) :
  snd (search env svc query options st) = Ok results -> In r results ->
  exists qe s,
    In (sim_doc s) (index st) /\
    skipped (includeRangesOf options) (sim_doc s) = false /\
    scoreDocument env svc qe (detectQueryConcepts query) (sim_doc s)
      = Ok s /\
    formatSearchResult svc s query = Ok r.
Proof.
  intros E Hr. apply search_returns in E.
  destruct E as [[-> _] | [qe [sims [_ [Es Hf]]]]]; [destruct Hr|].
  destruct (Forall2_In_r _ _ _ _ _ r Hf Hr) as [s [Hs Hfmt]].
  apply In_firstn in Hs. apply In_sort in Hs.
  destruct (scoreAll_In env svc _ _ _ _ _ s Es Hs) as [Hin Hsd].
  exists qe, s. split; [exact Hin|]. split; [|now split].
  now apply (scoreAll_skips _ _ _ _ _ s Es).
Qed.

Lemma search_result_keys (query : string) (options : Options)
  (st : ServiceState) (results : list SearchResult) :
  NoDup (keys (index st)) ->
  snd (search env svc query options st) = Ok results ->
  NoDup (map res_id results).
Proof.
  intros Hnd E. apply search_returns in E.
  destruct E as [[-> _] | [qe [sims [_ [Es Hf]]]]]; [constructor|].
  rewrite <- (Forall2_map_eq _ _ _ _ (fun s => doc_id (sim_doc s)) res_id
                _ _ (fun a b H => eq_sym
                       (proj1 (formatSearchResult_describes a query b H)))
                Hf).
  unfold slice0. rewrite <- firstn_map. apply NoDup_firstn.
  apply (Permutation_NoDup
           (Permutation_sym
              (Permutation_map (fun s => doc_id (sim_doc s))
                 (sort_Permutation Similarity byFinalScore sims)))).
  apply NoDup_of_precedes. intros a b Hp.
  apply (precedes_distinct _ _ doc_id (index st)); [exact Hnd|].
  now apply (scoreAll_precedes env svc _ _ _ _ _ _ _ Es).
Qed.

Lemma keywordSearch_result_origin (query : string) (options : Options)
  (st : ServiceState) (results : list SearchResult) (r : SearchResult) :
  snd (keywordSearch env query options st) = Ok results -> In r results ->
  exists km,
    In (km_doc km) (index st) /\
    skipped (includeRangesOf options) (km_doc km) = false /\
    r = formatKeywordResult km query.
Proof.
  rewrite keywordSearch_unfold. simpl snd.
  destruct (Nat.eqb (List.length (index st)) 0).
  { intros E. injection E as <-. intros []. }
  intros E. injection E as <-. intros Hr.
  apply in_map_iff in Hr. destruct Hr as [km [<- Hkm]].
  apply In_firstn in Hkm. apply In_sort in Hkm.
  exists km. split; [|split; [|reflexivity]].
  - now apply keywordScan_In in Hkm.
  - now apply keywordScan_skips in Hkm.
Qed.

Lemma keywordSearch_result_keys (query : string) (options : Options)
  (st : ServiceState) (results : list SearchResult) :
  NoDup (keys (index st)) ->
  snd (keywordSearch env query options st) = Ok results ->
  NoDup (map res_id results).
Proof.
  intros Hnd. rewrite keywordSearch_unfold. simpl snd.
  destruct (Nat.eqb (List.length (index st)) 0).
  { intros E. injection E as <-. constructor. }
  intros E. injection E as <-. rewrite map_map. cbn [res_id formatKeywordResult].
  unfold slice0. rewrite <- firstn_map. apply NoDup_firstn.
  apply (Permutation_NoDup
           (Permutation_sym
              (Permutation_map (fun km => doc_id (km_doc km))
                 (sort_Permutation KeywordMatch byScore _)))).
  apply NoDup_of_precedes. intros a b Hp.
  apply (precedes_distinct _ _ doc_id (index st)); [exact Hnd|].
  now apply (keywordScan_precedes (includeRangesOf options)
               (split_whitespace (toLowerCase query))).
Qed.
End SemanticFacts.

(** X6. The semantic search fails as a whole: on a non-empty index, when
    the provider cannot embed the query the search throws that error;
    when the similarity of one indexed document that is not skipped
    cannot be computed the search throws as well, whatever the other
    documents are.  In both cases no result is returned and the index is
    left as it was. *)
Theorem search_fails_as_a_whole :
  forall (env : SearchService.Env) (svc : SearchService.Services)
         (query : string) (options : SearchService.Options)
         (st : SearchService.ServiceState),
    SearchService.index st <> [] ->
    (forall e,
       SearchService.generateEmbedding svc query SearchService.KindQuery
         = Throw e ->
       SearchService.search env svc query options st
         = (fst (SearchService.initialize st), Throw e)) /\
    (forall qe d e,
       SearchService.generateEmbedding svc query SearchService.KindQuery
         = Ok qe ->
       In d (SearchService.index st) ->
       SearchService.skipped (SearchService.includeRangesOf options) d
         = false ->
       SearchService.calculateCosineSimilarity svc qe
         (SearchService.embedding d) = Throw e ->
       exists e',
         SearchService.search env svc query options st
           = (fst (SearchService.initialize st), Throw e')) /\
    SearchService.index (fst (SearchService.initialize st))
      = SearchService.index st.
Proof.
  intros env svc query options st Hne.
  assert (El : Nat.eqb (List.length (SearchService.index st)) 0 = false).
  { destruct (SearchService.index st); [congruence | reflexivity]. }
  split; [|split].
  - intros e He. rewrite search_unfold, El, He. reflexivity.
  - intros qe d e He Hd Hs Hc. rewrite search_unfold, El, He. simpl.
    destruct (scoreAll_throws env svc
                (SearchService.includeRangesOf options) qe
                (SearchService.detectQueryConcepts query)
                (SearchService.index st) d e Hd Hs Hc) as [e' He'].
    rewrite He'. now exists e'.
  - apply initialize_index.
Qed.

Lemma search_fails_as_a_whole_witness :
  SearchService.search Samples.defaultEnv (Samples.failingOn "total")
    "total" Samples.top10 Samples.twoCellState
  = (fst (SearchService.initialize Samples.twoCellState),
     Throw "provider unavailable").
Proof.
  refine (proj1 (search_fails_as_a_whole Samples.defaultEnv
                   (Samples.failingOn "total") "total" Samples.top10
                   Samples.twoCellState _) "provider unavailable" _).
  - discriminate.
  - reflexivity.
Defined.

(** X7. With [includeRanges] set to false neither search returns a range:
    every result has type "cell". *)
Theorem search_without_ranges_returns_cells :
  forall (env : SearchService.Env) (svc : SearchService.Services)
         (query : string) (options : SearchService.Options)
         (st : SearchService.ServiceState)
         (results : list SearchService.SearchResult),
    SearchService.includeRanges options = Some false ->
    snd (SearchService.search env svc query options st) = Ok results \/
    snd (SearchService.keywordSearch env query options st) = Ok results ->
    Forall (fun r => SearchService.res_type r = "cell") results.
Proof.
  intros env svc query options st results Hopt H.
  assert (Hir : SearchService.includeRangesOf options = false)
    by (unfold SearchService.includeRangesOf; now rewrite Hopt).
  apply Forall_forall. intros r Hr. destruct H as [H | H].
  - destruct (search_result_origin env svc query options st results r H Hr)
      as [qe [s [_ [Hs [_ Hf]]]]].
    apply formatSearchResult_describes in Hf.
    destruct Hf as [_ [_ [_ Ht]]]. rewrite Ht.
    rewrite Hir in Hs. unfold SearchService.skipped in Hs. simpl in Hs.
    now rewrite Hs.
  - destruct (keywordSearch_result_origin env query options st results r
                H Hr) as [km [_ [Hs ->]]].
    rewrite Hir in Hs. unfold SearchService.skipped in Hs. simpl in Hs.
    cbn [SearchService.res_type SearchService.formatKeywordResult].
    unfold SearchService.typeOf. now rewrite Hs.
Qed.

Lemma search_without_ranges_returns_cells_witness :
  Forall (fun r => SearchService.res_type r = "cell")
    (Samples.resultsOf
       (SearchService.keywordSearch Samples.defaultEnv "alpha"
          Samples.cellsOnly Samples.mixedState)).
Proof.
  apply (search_without_ranges_returns_cells Samples.defaultEnv
           Samples.constantServices "alpha" Samples.cellsOnly
           Samples.mixedState).
  - reflexivity.
  - right. reflexivity.
Defined.

(** X8. On an index with pairwise distinct keys, the results of either
    search have pairwise distinct ids, and each result describes a
    document of the index: its id, sheet, labels and type are those of
    the document. *)
Theorem search_results_describe_indexed_documents :
  forall (env : SearchService.Env) (svc : SearchService.Services)
         (query : string) (options : SearchService.Options)
         (st : SearchService.ServiceState)
         (results : list SearchService.SearchResult),
    NoDup (Vocabulary.keys (SearchService.index st)) ->
    snd (SearchService.search env svc query options st) = Ok results \/
    snd (SearchService.keywordSearch env query options st) = Ok results ->
    NoDup (map SearchService.res_id results) /\
    forall r, In r results ->
      exists d, In d (SearchService.index st) /\ Vocabulary.describes r d.
Proof.
  intros env svc query options st results Hnd [H | H]; split.
  - now apply (search_result_keys env svc query options st).
  - intros r Hr.
    destruct (search_result_origin env svc query options st results r H Hr)
      as [qe [s [Hin [_ [_ Hf]]]]].
    exists (SearchService.sim_doc s). split; [exact Hin|].
    now apply (formatSearchResult_describes svc s query).
  - now apply (keywordSearch_result_keys env query options st).
  - intros r Hr.
    destruct (keywordSearch_result_origin env query options st results r
                H Hr) as [km [Hin [_ ->]]].
    exists (SearchService.km_doc km). split; [exact Hin|].
    apply formatKeywordResult_describes.
Qed.

Lemma search_results_describe_indexed_documents_witness :
  NoDup (map SearchService.res_id
           (Samples.resultsOf
              (SearchService.search Samples.defaultEnv
                 Samples.constantServices "total" Samples.top10
                 Samples.mixedState))).
Proof.
  refine (proj1 (search_results_describe_indexed_documents
                   Samples.defaultEnv Samples.constantServices "total"
                   Samples.top10 Samples.mixedState _ _ _)).
  - change (NoDup ["notes_1_1"; "budget_1_1"; "range_Notes_unknown"]).
    repeat constructor; simpl; intuition discriminate.
  - left. reflexivity.
Defined.



(* ================================================================== *)
(** * More on the formula analysis *)
(* ================================================================== *)

Section TreeFacts.
Import FormulaParser Vocabulary.

(** The traversal visits the nodes in pre-order. *)
Lemma traverse_nodes (S : Type) (visit : Node -> S -> S) (n : Node) :
  forall acc,
    traverse visit n acc = fold_left (fun a m => visit m a) (nodes n) acc.
Proof.
  induction n as [t name value sheet absolute args IH]
    using Node_forall_ind.
  intros acc. cbn [traverse nodes fold_left].
  generalize (visit (mkNode t name value sheet absolute args) acc).
  induction IH as [|c l Hc _ IHl]; intros s; [reflexivity|].
  rewrite fold_left_app, <- Hc. apply IHl.
Qed.

Lemma nodes_root (n : Node) : In n (nodes n).
Proof. destruct n. now left. Qed.

Lemma collect_fold (A : Type) (test : Node -> bool) (field : Node -> A)
  (visit : Node -> list A -> list A) (l : list Node) :
  (forall m a, visit m a = if test m then a ++ [field m] else a) ->
  forall acc,
    fold_left (fun a m => visit m a) l acc
    = acc ++ map field (filter test l).
Proof.
  intros Hv. induction l as [|m l IH]; intros acc; cbn [fold_left filter].
  - now rewrite app_nil_r.
  - rewrite IH, Hv. destruct (test m); [|reflexivity].
    cbn [map]. now rewrite <- app_assoc.
Qed.

Lemma extractFunctions_nodes (ast : Node) :
  extractFunctions ast
  = unique (map node_name (filter isFunction (nodes ast))).
Proof.
  unfold extractFunctions. rewrite traverse_nodes.
  rewrite (collect_fold string isFunction node_name); [reflexivity|].
  intros m a. unfold isFunction. now destruct (node_type m).
Qed.

Lemma extractOperators_nodes (ast : Node) :
  extractOperators ast
  = unique (map node_value (filter isOperator (nodes ast))).
Proof.
  unfold extractOperators. rewrite traverse_nodes.
  rewrite (collect_fold string isOperator node_value); [reflexivity|].
  intros m a. unfold isOperator. now destruct (node_type m).
Qed.

Lemma extractReferences_length (ast : Node) :
  List.length (extractReferences ast)
  = List.length (filter isReference (nodes ast)).
Proof.
  unfold extractReferences. rewrite traverse_nodes.
  assert (G : forall l acc,
             List.length
               (fold_left
                  (fun a m =>
                     match node_type m with
                     | CELL_REFERENCE =>
                         a ++ [mkReference RefCell (node_value m)
                                 (truthy (node_sheet m)) (node_absolute m)]
                     | CELL_RANGE =>
                         a ++ [mkReference RefRange (node_value m)
                                 (truthy (node_sheet m)) (node_absolute m)]
                     | _ => a
                     end) l acc)
             = (List.length acc
                + List.length (filter isReference l))%nat).
  { induction l as [|m l IH]; intros acc; cbn [fold_left filter].
    - simpl. lia.
    - rewrite IH. unfold isReference.
      destruct (node_type m); cbn [List.length];
        rewrite ?length_app; simpl; lia. }
  now rewrite G.
Qed.

Lemma complexity_fold (l : list Node) :
  forall acc : Q,
    (fold_left (fun a m => complexityStep m a) l acc ==
     acc
     + 2 * inject_Z (Z.of_nat (List.length (filter isFunction l)))
     + inject_Z (Z.of_nat (List.length (filter isOperator l)))
     + (1 # 2) * inject_Z (Z.of_nat (List.length (filter isReference l))))%Q.
Proof.
  induction l as [|m l IH]; intros acc; cbn [fold_left filter].
  - simpl. change (inject_Z 0) with 0%Q. ring.
  - rewrite IH. unfold complexityStep, isFunction, isOperator, isReference.
    destruct (node_type m); cbn [List.length];
      rewrite ?Nat2Z.inj_succ; unfold Z.succ; rewrite ?inject_Z_plus;
      change (inject_Z 1) with 1%Q; ring.
Qed.

Lemma NoDup_unique (l : list string) : NoDup (unique l).
Proof.
  unfold unique.
  assert (G : forall seen,
             NoDup (dedupe l seen) /\
             forall x, In x (dedupe l seen) -> ~ In x seen).
  { induction l as [|y l IH]; intros seen; cbn [dedupe].
    - split; [constructor | intros x []].
    - destruct (existsb (String.eqb y) seen) eqn:E; [apply IH|].
      destruct (IH (y :: seen)) as [Hnd Hnot]. split.
      + constructor; [|exact Hnd]. intros Hy. apply (Hnot y Hy). now left.
      + intros x [<- | Hx].
        * intros Hin.
          assert (T : existsb (String.eqb y) seen = true).
          { apply existsb_exists. exists y. split; [exact Hin|].
            apply String.eqb_refl. }
          congruence.
        * intros Hin. apply (Hnot x Hx). now right. }
  apply G.
Qed.

Lemma unique_length (l : list string) :
  (List.length (unique l) <= List.length l)%nat.
Proof.
  unfold unique. generalize (@nil string) as seen.
  induction l as [|y l IH]; intros seen; cbn [dedupe List.length]; [lia|].
  destruct (existsb (String.eqb y) seen); cbn [List.length].
  - specialize (IH seen). lia.
  - specialize (IH (y :: seen)). lia.
Qed.

Lemma unique_NoDup_id (l : list string) : NoDup l -> unique l = l.
Proof.
  unfold unique.
  assert (G : forall seen,
             NoDup l -> (forall x, In x l -> ~ In x seen) ->
             dedupe l seen = l).
  { induction l as [|y l IH]; intros seen Hnd Hs; cbn [dedupe];
      [reflexivity|].
    inversion Hnd as [|? ? Hn Hd]; subst.
    destruct (existsb (String.eqb y) seen) eqn:E.
    - exfalso. apply existsb_exists in E. destruct E as [z [Hz Ez]].
      apply String.eqb_eq in Ez. subst z.
      apply (Hs y); [now left | exact Hz].
    - f_equal. apply IH; [exact Hd|].
      intros x Hx [<- | Hin]; [tauto|].
      apply (Hs x); [now right | exact Hin]. }
  intros H. apply G; [exact H | intros x _ []].
Qed.

Lemma extract_membership (ast : Node) :
  (forall name,
     In name (extractFunctions ast) <->
     exists n, In n (nodes ast) /\ node_type n = FUNCTION /\
               node_name n = name) /\
  (forall op,
     In op (extractOperators ast) <->
     exists n, In n (nodes ast) /\ node_type n = OPERATOR /\
               node_value n = op).
Proof.
  rewrite extractFunctions_nodes, extractOperators_nodes. split.
  - intros name. rewrite In_unique, in_map_iff. split.
    + intros [n [E Hn]]. apply filter_In in Hn. destruct Hn as [Hn Hf].
      exists n. split; [exact Hn|]. split; [|exact E].
      unfold isFunction in Hf. destruct (node_type n); congruence.
    + intros [n [Hn [Ht E]]]. exists n. split; [exact E|].
      apply filter_In. split; [exact Hn|].
      unfold isFunction. now rewrite Ht.
  - intros op. rewrite In_unique, in_map_iff. split.
    + intros [n [E Hn]]. apply filter_In in Hn. destruct Hn as [Hn Hf].
      exists n. split; [exact Hn|]. split; [|exact E].
      unfold isOperator in Hf. destruct (node_type n); congruence.
    + intros [n [Hn [Ht E]]]. exists n. split; [exact E|].
      apply filter_In. split; [exact Hn|].
      unfold isOperator. now rewrite Ht.
Qed.
End TreeFacts.

(** X11. The complexity of an expression tree counts its nodes: 2 for
    every function node, 1 for every operator node and 0.5 for every
    cell or range reference, whatever the depth.  The record of a parsed
    formula lists each function and each operator once and each reference
    as often as it occurs, so its complexity is at least
    2 x functions + operators + 0.5 x references. *)
Theorem calculateComplexity_counts_nodes :
  forall ast : FormulaParser.Node,
    (FormulaParser.calculateComplexity ast ==
     2 * Vocabulary.count Vocabulary.isFunction ast
     + Vocabulary.count Vocabulary.isOperator ast
     + (1 # 2) * Vocabulary.count Vocabulary.isReference ast)%Q /\
    Vocabulary.size (FormulaParser.extractReferences ast)
      = Vocabulary.count Vocabulary.isReference ast /\
    (Vocabulary.size (FormulaParser.extractFunctions ast)
     <= Vocabulary.count Vocabulary.isFunction ast)%Q /\
    (Vocabulary.size (FormulaParser.extractOperators ast)
     <= Vocabulary.count Vocabulary.isOperator ast)%Q /\
    (2 * Vocabulary.size (FormulaParser.extractFunctions ast)
     + Vocabulary.size (FormulaParser.extractOperators ast)
     + (1 # 2) * Vocabulary.size (FormulaParser.extractReferences ast)
     <= FormulaParser.calculateComplexity ast)%Q.
Proof.
  intros ast.
  assert (H1 : (FormulaParser.calculateComplexity ast ==
                2 * Vocabulary.count Vocabulary.isFunction ast
                + Vocabulary.count Vocabulary.isOperator ast
                + (1 # 2) * Vocabulary.count Vocabulary.isReference ast)%Q).
  { unfold FormulaParser.calculateComplexity. rewrite traverse_nodes.
    rewrite complexity_fold. unfold Vocabulary.count. ring. }
  assert (H2 : Vocabulary.size (FormulaParser.extractReferences ast)
               = Vocabulary.count Vocabulary.isReference ast).
  { unfold Vocabulary.size, Vocabulary.count.
    now rewrite extractReferences_length. }
  assert (H3 : (Vocabulary.size (FormulaParser.extractFunctions ast)
                <= Vocabulary.count Vocabulary.isFunction ast)%Q).
  { unfold Vocabulary.size, Vocabulary.count.
    rewrite extractFunctions_nodes, <- Zle_Qle. apply inj_le.
    etransitivity; [apply unique_length|]. now rewrite length_map. }
  assert (H4 : (Vocabulary.size (FormulaParser.extractOperators ast)
                <= Vocabulary.count Vocabulary.isOperator ast)%Q).
  { unfold Vocabulary.size, Vocabulary.count.
    rewrite extractOperators_nodes, <- Zle_Qle. apply inj_le.
    etransitivity; [apply unique_length|]. now rewrite length_map. }
  split; [exact H1|]. split; [exact H2|]. split; [exact H3|].
  split; [exact H4|]. rewrite H1, H2. Lqa.lra.
Qed.

(** X12. The functions of a parsed formula are the names of the function
    nodes of its tree, at any depth, each listed once; likewise the
    operators are the values of its operator nodes. *)
Theorem extractFunctions_lists_function_nodes :
  forall ast : FormulaParser.Node,
    NoDup (FormulaParser.extractFunctions ast) /\
    NoDup (FormulaParser.extractOperators ast) /\
    (forall name,
       In name (FormulaParser.extractFunctions ast) <->
       exists n, In n (Vocabulary.nodes ast) /\
                 FormulaParser.node_type n = FormulaParser.FUNCTION /\
                 FormulaParser.node_name n = name) /\
    (forall op,
       In op (FormulaParser.extractOperators ast) <->
       exists n, In n (Vocabulary.nodes ast) /\
                 FormulaParser.node_type n = FormulaParser.OPERATOR /\
                 FormulaParser.node_value n = op).
Proof.
  intros ast.
  split; [rewrite extractFunctions_nodes; apply NoDup_unique|].
  split; [rewrite extractOperators_nodes; apply NoDup_unique|].
  apply extract_membership.
Qed.

(** X13. Aggregation comes first in the classification of a formula: a
    tree with a function node named SUM, AVERAGE, COUNT, MAX or MIN
    anywhere in it has type "aggregation", whatever else it holds; and a
    tree without any function node whose operators include "/" has type
    "percentage", also when it multiplies or adds. *)
Theorem determineFormulaType_aggregation_first :
  forall ast : FormulaParser.Node,
    (forall n,
       In n (Vocabulary.nodes ast) ->
       FormulaParser.node_type n = FormulaParser.FUNCTION ->
       In (FormulaParser.node_name n) Vocabulary.aggregationFunctions ->
       FormulaParser.determineFormulaType ast = "aggregation") /\
    (forall n,
       (forall m, In m (Vocabulary.nodes ast) ->
                  FormulaParser.node_type m <> FormulaParser.FUNCTION) ->
       In n (Vocabulary.nodes ast) ->
       FormulaParser.node_type n = FormulaParser.OPERATOR ->
       FormulaParser.node_value n = "/" ->
       FormulaParser.determineFormulaType ast = "percentage").
Proof.
  intros ast.
  destruct (extract_membership ast) as [Hf Ho].
  split.
  - intros n Hn Ht Hagg.
    assert (Hin : In (FormulaParser.node_name n)
                     (FormulaParser.extractFunctions ast))
      by (apply Hf; now exists n).
    apply arrayIncludes_In in Hin.
    unfold FormulaParser.determineFormulaType.
    cbv zeta.
    destruct Hagg as [E | [E | [E | [E | [E | []]]]]];
      rewrite <- E in Hin; rewrite Hin; rewrite ?orb_true_r; cbn [orb];
      repeat first
        [ reflexivity
        | match goal with
          | |- (if ?b then _ else _) = _ =>
              lazymatch b with
              | true => cbv iota
              | _ => destruct b
              end
          end ].
  - intros n Hnone Hn Ht Hv.
    assert (He : FormulaParser.extractFunctions ast = []).
    { destruct (FormulaParser.extractFunctions ast) as [|x l] eqn:E;
        [reflexivity|].
      exfalso.
      destruct (proj1 (Hf x) (or_introl eq_refl)) as [m [Hm [Htm _]]].
      now apply (Hnone m Hm). }
    assert (Hin : In "/" (FormulaParser.extractOperators ast))
      by (apply Ho; now exists n).
    apply arrayIncludes_In in Hin.
    unfold FormulaParser.determineFormulaType. cbv zeta.
    rewrite He, Hin. reflexivity.
Qed.

Lemma determineFormulaType_aggregation_first_witness :
  FormulaParser.determineFormulaType Samples.ratioOfSum = "aggregation" /\
  FormulaParser.determineFormulaType Samples.ratioPlus = "percentage".
Proof.
  split.
  - refine (proj1 (determineFormulaType_aggregation_first Samples.ratioOfSum)
              (nth 0 (FormulaParser.node_args Samples.ratioOfSum)
                 Samples.ratioOfSum) _ _ _).
    + right. left. reflexivity.
    + reflexivity.
    + left. reflexivity.
  - refine (proj2 (determineFormulaType_aggregation_first Samples.ratioPlus)
              (nth 0 (FormulaParser.node_args Samples.ratioPlus)
                 Samples.ratioPlus) _ _ _ _).
    + intros m Hm. simpl in Hm.
      repeat (destruct Hm as [<- | Hm]; [discriminate|]). destruct Hm.
    + right. left. reflexivity.
    + reflexivity.
    + reflexivity.
Defined.

(** X14. The record [parseFormula] returns.  The result is [null]
    exactly for a missing or empty formula and for one that does not
    begin with "="; otherwise it is a record for that formula, and an
    exception of the parser never reaches the caller.  A record either
    has no error and carries a complexity that is not negative, or has an
    error (the parser's message) and carries no complexity at all, with
    empty lists of functions, references and operators. *)
Theorem parseFormula_returns_records :
  forall (parser_parse : string -> Exc FormulaParser.ParserOutput)
         (formula : option string),
    (FormulaParser.parseFormula parser_parse formula = None <->
     forall f, truthy formula = Some f -> prefix "=" f = false) /\
    (forall pf,
       FormulaParser.parseFormula parser_parse formula = Some pf ->
       formula = Some (FormulaParser.pf_original pf) /\
       FormulaParser.pf_functions pf <> None /\
       ((FormulaParser.pf_error pf = None /\
         exists c, FormulaParser.pf_complexity pf = Some c /\ (0 <= c)%Q) \/
        (FormulaParser.pf_error pf <> None /\
         FormulaParser.pf_complexity pf = None /\
         FormulaParser.pf_functions pf = Some [] /\
         FormulaParser.pf_references pf = [] /\
         FormulaParser.pf_operators pf = [] /\
         (parser_parse (FormulaParser.pf_original pf)
            = Ok (FormulaParser.ParsedError
                    (match FormulaParser.pf_error pf with
                     | Some e => e
                     | None => EmptyString
                     end)) \/
          parser_parse (FormulaParser.pf_original pf)
            = Throw (match FormulaParser.pf_error pf with
                     | Some e => e
                     | None => EmptyString
                     end))))).
Proof.
  intros parser_parse formula. unfold FormulaParser.parseFormula.
  assert (Ht : forall f, truthy formula = Some f -> formula = Some f).
  { intros f. destruct formula as [[|c s]|]; simpl; congruence. }
  destruct (truthy formula) as [f|] eqn:Ef.
  - destruct (prefix "=" f) eqn:Ep; cbn [negb].
    + split.
      * split; [|intros H; specialize (H f eq_refl); congruence].
        destruct (parser_parse f) as [[tree|e]|e]; discriminate.
      * intros pf.
        destruct (parser_parse f) as [[tree|e]|e] eqn:Epar;
          intros E; injection E as <-; cbn.
        -- split; [now apply Ht|]. split; [discriminate|]. left.
           split; [reflexivity|]. eexists. split; [reflexivity|].
           apply calculateComplexity_nonneg.
        -- split; [now apply Ht|]. split; [discriminate|]. right.
           repeat (split; [first [reflexivity | discriminate]|]).
           now left.
        -- split; [now apply Ht|]. split; [discriminate|]. right.
           repeat (split; [first [reflexivity | discriminate]|]).
           now right.
    + split; [|discriminate]. split; [|reflexivity].
      intros _ f' E. now injection E as <-.
  - split; [|discriminate]. split; [|reflexivity]. intros _ f' E.
    discriminate E.
Qed.

Lemma parseFormula_returns_records_witness :
  FormulaParser.parseFormula Samples.throwingParser (Some "SUM(A1)") = None.
Proof.
  apply (proj1 (parseFormula_returns_records Samples.throwingParser
                  (Some "SUM(A1)"))).
  intros f E. injection E as <-. reflexivity.
Defined.

(* ================================================================== *)
(** * More on the heuristics and on the labels *)
(* ================================================================== *)

Section ConceptFacts.
Import FormulaParser Model Heuristics LabelService SearchService Vocabulary.

Lemma lowerAscii_idempotent (c : ascii) :
  lowerAscii (lowerAscii c) = lowerAscii c.
Proof. destruct c as [[] [] [] [] [] [] [] []]; reflexivity. Qed.

Lemma toLowerCase_idempotent (s : string) :
  toLowerCase (toLowerCase s) = toLowerCase s.
Proof.
  induction s as [|c s IH]; [reflexivity|].
  cbn [toLowerCase]. now rewrite lowerAscii_idempotent, IH.
Qed.

Lemma unique_nil (l : list string) : unique l = [] -> l = [].
Proof. destruct l as [|x l]; [reflexivity | discriminate]. Qed.

Lemma pushIf_nil (cond : bool) (c : string) (l : list string) :
  pushIf cond c l = [] -> cond = false /\ l = [].
Proof.
  unfold pushIf. destruct cond; [|now split].
  destruct l; discriminate.
Qed.

Lemma matchesPattern_false (text : string) (patterns : list string)
  (pattern : string) :
  matchesPattern text patterns = false -> In pattern patterns ->
  includes text (toLowerCase pattern) = false.
Proof.
  unfold matchesPattern. intros H Hin.
  destruct (includes text (toLowerCase pattern)) eqn:E; [|reflexivity].
  assert (T : existsb (fun p => includes text (toLowerCase p)) patterns
              = true)
    by (apply existsb_exists; now exists pattern).
  congruence.
Qed.

(** The conditions of the concept detector, named. *)
Ltac name_conditions :=
  repeat match goal with
         | |- context [pushIf ?b _ _] =>
             tryif is_var b then fail
             else (let x := fresh "b" in set (x := b); clearbody x)
         end.

Lemma restrictedTo_NoDup (kept l : list string) :
  NoDup l -> NoDup (restrictedTo kept l).
Proof. intros H. now apply NoDup_filter. Qed.

Lemma conceptNames_NoDup : NoDup conceptNames.
Proof.
  unfold conceptNames.
  repeat (constructor; [simpl; intuition discriminate|]). constructor.
Qed.

(** One more test of the detector, for a concept not tested before. *)
Lemma pushIf_restricted (tested : list string) (c : string)
  (l : list string) (b : bool) :
  ~ In c (rev tested) ->
  (forall x, In x l -> In x (rev tested)) /\
  l = restrictedTo l (rev tested) ->
  (forall x, In x (pushIf b c l) -> In x (rev (c :: tested))) /\
  pushIf b c l = restrictedTo (pushIf b c l) (rev (c :: tested)).
Proof.
  intros Hc [Hin Heq]. cbn [rev]. split.
  - intros x Hx. apply In_pushIf in Hx. apply in_app_iff.
    destruct Hx as [Hx | [_ ->]]; [left; now apply Hin | right; now left].
  - unfold restrictedTo in *. rewrite filter_app.
    assert (E1 : filter (fun x => arrayIncludes (pushIf b c l) x)
                   (rev tested)
                 = filter (fun x => arrayIncludes l x) (rev tested)).
    { apply filter_ext_in. intros x Hx. apply eq_true_iff_eq.
      rewrite !arrayIncludes_In, In_pushIf. split; [|now left].
      intros [H | [_ ->]]; [exact H | tauto]. }
    rewrite E1, <- Heq. cbn [filter].
    assert (E2 : arrayIncludes (pushIf b c l) c = b).
    { apply eq_true_iff_eq. rewrite arrayIncludes_In, In_pushIf. split.
      - intros [H | [H _]]; [|exact H]. exfalso. apply Hc. now apply Hin.
      - intros H. right. now split. }
    rewrite E2. unfold pushIf. destruct b; [reflexivity|].
    now rewrite app_nil_r.
Qed.

Lemma detectBusinessConcepts_restricted (cell : Cell) :
  detectBusinessConcepts cell
  = restrictedTo (detectBusinessConcepts cell) conceptNames.
Proof.
  unfold detectBusinessConcepts. cbv zeta. name_conditions.
  match goal with
  | |- unique ?chain = _ => set (L := chain)
  end.
  assert (H : (forall x, In x L -> In x conceptNames) /\
              L = restrictedTo L conceptNames).
  { unfold L.
    change conceptNames
      with (rev ["conditional"; "aggregation"; "lookup"; "financial_ratio";
                 "time_series"; "budget"; "growth"; "percentage";
                 "profitability"; "cost"; "revenue"]).
    repeat (apply pushIf_restricted; [simpl; intuition discriminate|]).
    split; [intros x [] | reflexivity]. }
  destruct H as [_ H].
  assert (Hn : NoDup L)
    by (rewrite H; apply restrictedTo_NoDup, conceptNames_NoDup).
  rewrite (unique_NoDup_id L Hn). exact H.
Qed.

(** The formula of the synthetic cell of a range matches none of the
    formula patterns. *)
Lemma syntheticCell_formula (initialized : bool) (range : Range)
  (patterns : list string) :
  In patterns [["vlookup"; "hlookup"; "xlookup"; "index"; "match"];
               ["sum"; "average"; "count"; "max"; "min"];
               ["if"; "ifs"; "switch"; "choose"]] ->
  formulaMatches (syntheticCell range) patterns = false.
Proof.
  unfold formulaMatches, syntheticCell. cbn [cell_formula].
  intros [<- | [<- | [<- | []]]];
    destruct (range_hasFormulas range); reflexivity.
Qed.

Lemma conceptMap_fold (lowerQuery : string)
  (entries : list (string * list string)) :
  forall acc c,
    In c (fold_left
            (fun concepts entry =>
               if includes lowerQuery (fst entry)
               then concepts ++ snd entry else concepts)
            entries acc) <->
    In c acc \/
    exists term concepts,
      In (term, concepts) entries /\ In c concepts /\
      includes lowerQuery term = true.
Proof.
  induction entries as [|[term concepts] entries IH]; intros acc c;
    cbn [fold_left fst snd].
  - split; [now left | intros [H | [t [cs [[] _]]]]; exact H].
  - rewrite IH. split.
    + intros [H | [t [cs [Hin [Hc Hi]]]]].
      * destruct (includes lowerQuery term) eqn:E; [|now left].
        apply in_app_iff in H. destruct H as [H | H]; [now left|].
        right. exists term, concepts. split; [now left | now split].
      * right. exists t, cs. split; [now right | now split].
    + intros [H | [t [cs [[Heq | Hin] [Hc Hi]]]]].
      * left. destruct (includes lowerQuery term); [|exact H].
        apply in_app_iff. now left.
      * injection Heq as <- <-. left. rewrite Hi. apply in_app_iff.
        now right.
      * right. exists t, cs. split; [exact Hin | now split].
Qed.
End ConceptFacts.

(** X15. The concepts detected for a cell come in the fixed order of the
    detector's tests and without repetition: the result is the list of
    the eleven concept names restricted to the detected ones. *)
Theorem detectBusinessConcepts_canonical_order :
  forall cell : Model.Cell,
    Heuristics.detectBusinessConcepts cell
    = Vocabulary.restrictedTo (Heuristics.detectBusinessConcepts cell)
        Vocabulary.conceptNames /\
    NoDup (Heuristics.detectBusinessConcepts cell) /\
    (forall c, In c (Heuristics.detectBusinessConcepts cell) ->
               In c Vocabulary.conceptNames).
Proof.
  intros cell.
  pose proof (detectBusinessConcepts_restricted cell) as H.
  split; [exact H|]. split.
  - rewrite H. apply restrictedTo_NoDup, conceptNames_NoDup.
  - intros c Hc. rewrite H in Hc. unfold Vocabulary.restrictedTo in Hc.
    apply filter_In in Hc. exact (proj1 Hc).
Qed.

(** X16. The exported embedding text of a cell reads at most the first
    three context values: two cells with the same sheet name, headers,
    formula, formula type and formatted value whose context values agree
    on the first three get the same text. *)
Theorem generateEmbeddingText_reads_three_context_values :
  forall c1 c2 : Model.Cell,
    Model.cell_sheetName c1 = Model.cell_sheetName c2 ->
    Model.headers_column c1 = Model.headers_column c2 ->
    Model.headers_row c1 = Model.headers_row c2 ->
    Model.cell_formula c1 = Model.cell_formula c2 ->
    Vocabulary.formulaType c1 = Vocabulary.formulaType c2 ->
    Model.cell_formattedValue c1 = Model.cell_formattedValue c2 ->
    option_map (firstn 3) (Vocabulary.contextValues c1)
      = option_map (firstn 3) (Vocabulary.contextValues c2) ->
    Heuristics.generateEmbeddingText c1 = Heuristics.generateEmbeddingText c2.
Proof.
  intros c1 c2 Hs Hc Hr Hf Ht Hv Hx.
  unfold Heuristics.generateEmbeddingText. cbv zeta.
  unfold Vocabulary.formulaType in Ht. rewrite Hs, Hc, Hr, Hf, Ht, Hv.
  f_equal.
  match goal with
  | |- match _ with Some _ => _ | None => _ end
       = match _ with Some _ => _ | None => _ end => idtac
  end.
  generalize (Heuristics.pushPart "Row: " (Model.headers_row c2)
                (Heuristics.pushPart "Column: " (Model.headers_column c2)
                   [("Sheet: " ++ Model.cell_sheetName c2)%string])) as p0.
  intros p0.
  set (parts := match truthy (Model.cell_formula c2) with
                | Some f => _
                | None => _
                end).
  clearbody parts.
  unfold Vocabulary.contextValues in Hx.
  destruct (Model.headers_context c1) as [[|e1 l1]|];
    destruct (Model.headers_context c2) as [[|e2 l2]|];
    cbn [option_map map firstn] in Hx; try reflexivity;
    try discriminate Hx.
  injection Hx as Hx1 Hx2. unfold slice0.
  rewrite <- !firstn_map. cbn [map firstn]. now rewrite Hx1, Hx2.
Qed.

Lemma generateEmbeddingText_reads_three_context_values_witness :
  Heuristics.generateEmbeddingText (Samples.noteCell Samples.threeEntries)
  = Heuristics.generateEmbeddingText (Samples.noteCell Samples.fourEntries).
Proof.
  apply (generateEmbeddingText_reads_three_context_values
           (Samples.noteCell Samples.threeEntries)
           (Samples.noteCell Samples.fourEntries)); reflexivity.
Defined.

(** X17. The basic path of the labeller.  When the concept detector
    finds nothing for a cell and no language model answers (none is
    configured, or its call fails), the result has method "basic" and
    confidence 0.5, and its labels are ["formula"] for a cell with a
    formula and ["data"] otherwise: the text tests of the basic labels
    repeat tests of the detector, so none of them can succeed there.  A
    failure of the language model never reaches the caller. *)
Theorem generateLabels_without_model :
  forall (initialized : bool)
         (generateLLMLabels : Model.Cell -> Exc LabelService.LabelResult)
         (cell : Model.Cell),
    Heuristics.detectBusinessConcepts cell = [] ->
    initialized = false \/ (exists e, generateLLMLabels cell = Throw e) ->
    LabelService.generateLabels initialized generateLLMLabels cell
      = Vocabulary.basicResult (Vocabulary.hasFormula cell).
Proof.
  intros initialized llm cell Hd Hllm.
  unfold LabelService.generateLabels. rewrite Hd. cbn [List.length Nat.ltb
    Nat.leb].
  assert (Hbasic :
            LabelService.mkLabelResult
              (Some (LabelService.generateBasicLabels cell))
              (LabelService.ConfNumber (1 # 2)) "basic"
              (Some (LabelService.generateExplanation cell
                       (LabelService.generateBasicLabels cell)))
            = Vocabulary.basicResult (Vocabulary.hasFormula cell)).
  { unfold Heuristics.detectBusinessConcepts in Hd. cbv zeta in Hd.
    apply unique_nil in Hd.
    repeat match type of Hd with
           | Heuristics.pushIf _ _ _ = [] =>
               apply pushIf_nil in Hd;
               let H := fresh "C" in destruct Hd as [H Hd]
           end.
    clear Hd.
    assert (R : forall p,
               In p ["revenue"; "sales"; "cost"; "expense"; "profit";
                     "margin"; "%"; "percent"; "budget"; "actual"] ->
               includes (Heuristics.allText cell) p = false).
    { intros p Hp. simpl in Hp.
      repeat (destruct Hp as [<- | Hp];
              [match goal with
               | H : Heuristics.matchesPattern _ ?ps = false
                 |- includes _ ?q = false =>
                   lazymatch ps with
                   | context [q] =>
                       exact (matchesPattern_false _ ps q H
                                ltac:(simpl; tauto))
                   end
               end|]).
      destruct Hp. }
    unfold LabelService.generateBasicLabels. cbv zeta.
    rewrite !R by (simpl; tauto).
    unfold Vocabulary.hasFormula.
    destruct (truthy (Model.cell_formula cell)); reflexivity. }
  destruct Hllm as [-> | [e He]]; [exact Hbasic|].
  rewrite He. destruct initialized; exact Hbasic.
Qed.

Lemma generateLabels_without_model_witness :
  LabelService.generateLabels true (fun _ => Throw "rate limited")
    (Samples.formulaCell "notes_3_1" "Notes" "7" "=A1+B1")
  = Vocabulary.basicResult true.
Proof.
  apply (generateLabels_without_model true (fun _ => Throw "rate limited")
           (Samples.formulaCell "notes_3_1" "Notes" "7" "=A1+B1")).
  - reflexivity.
  - right. exists "rate limited". reflexivity.
Defined.

(** X18. The labeller reads no formula of a range: the concepts detected
    for the synthetic cell of a range are text concepts only, never
    lookup, aggregation or conditional, whatever formulas the cells of
    the range hold; and two ranges with the same header, sample values
    and formula flag get the same concepts. *)
Theorem generateRangeLabels_reads_no_formula :
  forall range : Model.Range,
    (forall c,
       In c (Heuristics.detectBusinessConcepts
               (LabelService.syntheticCell range)) ->
       In c (firstn 8 Vocabulary.conceptNames)) /\
    (forall range' : Model.Range,
       Model.range_header range' = Model.range_header range ->
       Model.range_sampleValues range' = Model.range_sampleValues range ->
       Model.range_hasFormulas range' = Model.range_hasFormulas range ->
       Heuristics.detectBusinessConcepts (LabelService.syntheticCell range')
       = Heuristics.detectBusinessConcepts
           (LabelService.syntheticCell range)).
Proof.
  intros range. split.
  - intros c. unfold Heuristics.detectBusinessConcepts. cbv zeta.
    rewrite (syntheticCell_formula true range
               ["vlookup"; "hlookup"; "xlookup"; "index"; "match"])
      by (left; reflexivity).
    rewrite (syntheticCell_formula true range
               ["sum"; "average"; "count"; "max"; "min"])
      by (right; left; reflexivity).
    rewrite (syntheticCell_formula true range
               ["if"; "ifs"; "switch"; "choose"])
      by (right; right; left; reflexivity).
    rewrite In_unique. cbn [Heuristics.pushIf].
    rewrite !In_pushIf. simpl. intuition.
  - intros range' Hh Hv Hf. apply detectBusinessConcepts_inputs.
    + unfold LabelService.syntheticCell.
      cbn [Model.cell_formattedValue Model.cell_rawValue]. now rewrite Hv.
    + unfold LabelService.syntheticCell, Model.headers_column.
      cbn [Model.cell_headers Model.hdr_column]. now rewrite Hh.
    + reflexivity.
    + reflexivity.
    + unfold LabelService.syntheticCell. cbn [Model.cell_formula].
      now rewrite Hf.
Qed.

(** X19. The concepts of a query are read from the dictionary: a concept
    is detected exactly when a term of the dictionary that leads to it
    occurs in the query put in lower case; the result has no repetition;
    and the case of the query does not matter. *)
Theorem detectQueryConcepts_reads_dictionary :
  forall query : string,
    NoDup (SearchService.detectQueryConcepts query) /\
    (forall c,
       In c (SearchService.detectQueryConcepts query) <->
       exists term concepts,
         In (term, concepts) SearchService.conceptMap /\
         In c concepts /\
         includes (toLowerCase query) term = true) /\
    SearchService.detectQueryConcepts (toLowerCase query)
      = SearchService.detectQueryConcepts query.
Proof.
  intros query. unfold SearchService.detectQueryConcepts. cbv zeta.
  split; [apply NoDup_unique|]. split.
  - intros c. rewrite In_unique, conceptMap_fold. split.
    + intros [[] | H]. exact H.
    + intros H. now right.
  - now rewrite toLowerCase_idempotent.
Qed.

(* ================================================================== *)
(** * The spreadsheet parser: references and identifiers *)
(* ================================================================== *)

Section ReferenceFacts.
Import ExcelParser Vocabulary.
Open Scope Z_scope.

Lemma columnValue_app (s t : string) :
  forall acc,
    columnValue acc (s ++ t) = columnValue (columnValue acc s) t.
Proof.
  induction s as [|c s IH]; intros acc; [reflexivity|].
  cbn [String.append columnValue]. apply IH.
Qed.

Lemma allChars_app (test : ascii -> bool) (s t : string) :
  allChars test (s ++ t) = andb (allChars test s) (allChars test t).
Proof.
  induction s as [|c s IH]; [reflexivity|].
  cbn [String.append allChars]. rewrite IH. now rewrite andb_assoc.
Qed.

(** The loop adds letters in front of what it has. *)
Lemma columnLoop_result (fuel : nat) :
  forall col result,
    columnLoop fuel col result
    = (columnLoop fuel col EmptyString ++ result)%string.
Proof.
  induction fuel as [|fuel IH]; intros col result; [reflexivity|].
  cbn [columnLoop]. destruct (0 <=? col); [|reflexivity].
  rewrite IH. rewrite (IH _ (String _ EmptyString)).
  now rewrite append_assoc.
Qed.

Lemma letter_code (m : Z) :
  0 <= m < 26 -> charCode (fromCharCode (65 + m)) = 65 + m.
Proof.
  intros H. unfold charCode, fromCharCode.
  rewrite nat_ascii_embedding; lia.
Qed.

Lemma letter_capital (m : Z) :
  0 <= m < 26 -> isCapital (fromCharCode (65 + m)) = true.
Proof.
  intros H. unfold isCapital, fromCharCode.
  rewrite nat_ascii_embedding by lia.
  apply andb_true_iff. split; apply Nat.leb_le; lia.
Qed.

(** With fuel beyond the counter, the loop ends by its own test, and
    the letters it wrote spell the counter plus one. *)
Lemma columnLoop_value (fuel : nat) :
  forall col,
    -1 <= col < Z.of_nat fuel ->
    columnValue 0 (columnLoop fuel col EmptyString) = col + 1 /\
    allChars isCapital (columnLoop fuel col EmptyString) = true /\
    (0 <= col -> columnLoop fuel col EmptyString <> EmptyString).
Proof.
  induction fuel as [|fuel IH]; intros col Hc.
  { assert (col = -1) by lia. subst col.
    split; [reflexivity|]. split; [reflexivity | lia]. }
  cbn [columnLoop]. destruct (0 <=? col) eqn:E.
  - apply Z.leb_le in E. rewrite columnLoop_result.
    assert (Hm : 0 <= col mod 26 < 26) by (apply Z.mod_pos_bound; lia).
    assert (Hq : -1 <= col / 26 - 1 < Z.of_nat fuel).
    { pose proof (Z.div_pos col 26 E ltac:(lia)).
      assert (col / 26 <= col) by (apply Z.div_le_upper_bound; lia).
      lia. }
    destruct (IH (col / 26 - 1) Hq) as [Hv [Ha _]].
    rewrite columnValue_app, Hv, allChars_app, Ha.
    cbn [columnValue allChars]. rewrite letter_code, letter_capital by lia.
    split; [|split; [reflexivity|]].
    + pose proof (Z.div_mod col 26 ltac:(lia)). lia.
    + intros _. destruct (columnLoop fuel (col / 26 - 1) EmptyString);
        discriminate.
  - apply Z.leb_gt in E. assert (col = -1) by lia. subst col.
    split; [reflexivity|]. split; [reflexivity | lia].
Qed.

Lemma getColumnLetter_value (col : Z) :
  0 <= col ->
  columnValue 0 (getColumnLetter col) = col + 1 /\
  allChars isCapital (getColumnLetter col) = true /\
  getColumnLetter col <> EmptyString.
Proof.
  intros H. unfold getColumnLetter.
  destruct (columnLoop_value (S (Z.to_nat col)) col ltac:(lia))
    as [H1 [H2 H3]].
  split; [exact H1|]. split; [exact H2 | now apply H3].
Qed.

(** ** Decimal numerals *)

Lemma uint_chars (d : Decimal.uint) :
  allChars isDigit (NilEmpty.string_of_uint d) = true.
Proof. induction d; cbn; auto. Qed.

Lemma string_of_Z_chars (z : Z) :
  0 <= z -> allChars isDigit (string_of_Z z) = true.
Proof.
  intros H. unfold string_of_Z.
  destruct z as [|p|p]; [reflexivity| |lia].
  cbn [Z.to_int NilZero.string_of_int NilZero.string_of_uint].
  destruct (Pos.to_uint p) eqn:E; try apply uint_chars. reflexivity.
Qed.

Lemma string_of_Z_nonempty (z : Z) : string_of_Z z <> EmptyString.
Proof.
  unfold string_of_Z.
  destruct (Z.to_int z) as [d|d]; cbn [NilZero.string_of_int];
    [|discriminate].
  unfold NilZero.string_of_uint. destruct d; cbn; discriminate.
Qed.

Lemma string_of_Z_injective (a b : Z) :
  string_of_Z a = string_of_Z b -> a = b.
Proof.
  unfold string_of_Z. intros H. apply DecimalZ.to_int_inj.
  assert (G : forall z, Z.to_int z <> Decimal.Pos Decimal.Nil /\
                        Z.to_int z <> Decimal.Neg Decimal.Nil).
  { intros [|p|p]; cbn [Z.to_int]; split; try discriminate;
      intros E; injection E as E;
      pose proof (DecimalPos.Unsigned.to_uint_nonnil p); congruence. }
  pose proof (NilZero.isi (Z.to_int a) (proj1 (G a)) (proj2 (G a))) as Ha.
  pose proof (NilZero.isi (Z.to_int b) (proj1 (G b)) (proj2 (G b))) as Hb.
  rewrite H in Ha. congruence.
Qed.

(** Two strings of digits that agree once each is followed by a
    character that is not a digit are equal. *)
Lemma digits_split (s1 s2 t1 t2 : string) (c : ascii) :
  isDigit c = false ->
  allChars isDigit s1 = true -> allChars isDigit s2 = true ->
  (s1 ++ String c t1)%string = (s2 ++ String c t2)%string ->
  s1 = s2 /\ t1 = t2.
Proof.
  intros Hc. revert s2.
  induction s1 as [|a s1 IH]; intros [|b s2] H1 H2 E;
    cbn [String.append allChars] in *.
  - injection E as E. now split.
  - injection E as E1 E2. subst b.
    apply andb_true_iff in H2. destruct H2. congruence.
  - injection E as E1 E2. subst a.
    apply andb_true_iff in H1. destruct H1. congruence.
  - injection E as E1 E2. subst b.
    apply andb_true_iff in H1. apply andb_true_iff in H2.
    destruct (IH s2) as [Hs Ht]; try tauto. now subst.
Qed.

Lemma append_cancel_l (p s t : string) :
  (p ++ s)%string = (p ++ t)%string -> s = t.
Proof.
  induction p as [|c p IH]; cbn [String.append]; [tauto|].
  intros E. injection E as E. now apply IH.
Qed.

(** ** Identifiers *)

Lemma idChar_of (c : ascii) :
  let c' := lowerAscii c in
  isIdChar (if notLowerAlnum c' then "_"%char else c') = true.
Proof. destruct c as [[] [] [] [] [] [] [] []]; reflexivity. Qed.

Lemma idChar_fixed (c : ascii) :
  isIdChar c = true ->
  (if notLowerAlnum (lowerAscii c) then "_"%char else lowerAscii c) = c.
Proof.
  destruct c as [[] [] [] [] [] [] [] []]; vm_compute; intros H;
    first [reflexivity | discriminate H].
Qed.

Lemma generateId_chars (name : string) :
  allChars isIdChar (generateId name) = true.
Proof.
  unfold generateId. induction name as [|c name IH]; [reflexivity|].
  cbn [toLowerCase replaceAll allChars]. rewrite IH, (idChar_of c).
  reflexivity.
Qed.

Lemma generateId_fixed (s : string) :
  allChars isIdChar s = true -> generateId s = s.
Proof.
  unfold generateId. induction s as [|c s IH]; [reflexivity|].
  cbn [toLowerCase replaceAll allChars]. intros H.
  apply andb_true_iff in H. destruct H as [Hc Hs].
  now rewrite (idChar_fixed c Hc), IH.
Qed.

Lemma generateId_length (name : string) :
  String.length (generateId name) = String.length name.
Proof.
  unfold generateId. induction name as [|c name IH]; [reflexivity|].
  cbn [toLowerCase replaceAll String.length]. now rewrite IH.
Qed.
End ReferenceFacts.

(** X20. Column names are a bijective numeral in base 26: for a column
    index from 0 on, the loop ends and gives a non-empty name made of
    the letters A to Z only, and the name read back as a numeral gives
    the index; so different columns have different names, and different
    cells have different references.  A negative index gives the empty
    name. *)
Theorem getColumnLetter_round_trip :
  forall col : Z,
    (0 <= col)%Z ->
    Vocabulary.columnIndex (ExcelParser.getColumnLetter col) = col /\
    ExcelParser.getColumnLetter col <> EmptyString /\
    Vocabulary.allChars Vocabulary.isCapital
      (ExcelParser.getColumnLetter col) = true /\
    (forall col' : Z,
       (0 <= col')%Z ->
       ExcelParser.getColumnLetter col' = ExcelParser.getColumnLetter col ->
       col' = col) /\
    (forall row row' col' : Z,
       (0 <= row)%Z -> (0 <= row')%Z -> (0 <= col')%Z ->
       ExcelParser.getCellReference row' col'
         = ExcelParser.getCellReference row col ->
       row' = row /\ col' = col) /\
    (forall negative : Z,
       (negative < 0)%Z ->
       ExcelParser.getColumnLetter negative = EmptyString).
Proof.
  intros col Hcol.
  destruct (getColumnLetter_value col Hcol) as [Hv [Ha Hn]].
  assert (Hinj : forall a b : Z,
             (0 <= a)%Z -> (0 <= b)%Z ->
             ExcelParser.getColumnLetter a = ExcelParser.getColumnLetter b ->
             a = b).
  { intros a b Ha' Hb' E.
    pose proof (proj1 (getColumnLetter_value a Ha')) as Va.
    pose proof (proj1 (getColumnLetter_value b Hb')) as Vb.
    rewrite E in Va. lia. }
  split; [unfold Vocabulary.columnIndex; lia|].
  split; [exact Hn|]. split; [exact Ha|].
  split; [intros col' H' E; now apply Hinj|]. split.
  - intros row row' col' Hr Hr' Hc' E.
    unfold ExcelParser.getCellReference in E. cbv zeta in E.
    assert (G : forall c r : Z,
               (0 <= c)%Z -> (0 <= r)%Z ->
               exists d rest,
                 string_of_Z (r + 1) = String d rest /\
                 ExcelParser.isDigit d = true /\
                 Vocabulary.isCapital d = false).
    { intros c r Hc Hr0.
      pose proof (string_of_Z_chars (r + 1) ltac:(lia)) as Hd.
      pose proof (string_of_Z_nonempty (r + 1)) as Hne.
      destruct (string_of_Z (r + 1)) as [|d rest]; [congruence|].
      exists d, rest. split; [reflexivity|].
      cbn [Vocabulary.allChars] in Hd. apply andb_true_iff in Hd.
      destruct Hd as [Hd _]. split; [exact Hd|].
      revert Hd. clear.
      destruct d as [[] [] [] [] [] [] [] []]; vm_compute; intros H;
        first [reflexivity | discriminate H]. }
    destruct (G col row Hcol Hr) as [d [rest [E1 [_ Hd]]]].
    destruct (G col' row' Hc' Hr') as [d' [rest' [E1' [_ Hd']]]].
    rewrite E1, E1' in E.
    pose proof (proj1 (proj2 (getColumnLetter_value col' Hc'))) as Ha'.
    assert (S : forall s1 s2 t1 t2 c1 c2,
               Vocabulary.allChars Vocabulary.isCapital s1 = true ->
               Vocabulary.allChars Vocabulary.isCapital s2 = true ->
               Vocabulary.isCapital c1 = false ->
               Vocabulary.isCapital c2 = false ->
               (s1 ++ String c1 t1)%string = (s2 ++ String c2 t2)%string ->
               s1 = s2 /\ String c1 t1 = String c2 t2).
    { clear. induction s1 as [|a s1 IH]; intros [|b s2] t1 t2 c1 c2 H1 H2
        Hc1 Hc2 E; cbn [String.append Vocabulary.allChars] in *.
      - now split.
      - injection E as E1 E2. subst c1.
        apply andb_true_iff in H2. destruct H2. congruence.
      - injection E as E1 E2. subst c2.
        apply andb_true_iff in H1. destruct H1. congruence.
      - injection E as E1 E2. subst b.
        apply andb_true_iff in H1. apply andb_true_iff in H2.
        destruct (IH s2 t1 t2 c1 c2) as [Hs Ht]; try tauto.
        now subst. }
    destruct (S _ _ _ _ _ _ Ha' Ha Hd' Hd E) as [Hl Hr2].
    split.
    + rewrite <- E1, <- E1' in Hr2. apply string_of_Z_injective in Hr2.
      lia.
    + now apply Hinj.
  - intros negative Hneg. unfold ExcelParser.getColumnLetter.
    cbn [ExcelParser.columnLoop].
    destruct (0 <=? negative)%Z eqn:E; [|reflexivity].
    apply Z.leb_le in E. lia.
Qed.

Lemma getColumnLetter_round_trip_witness :
  Vocabulary.columnIndex (ExcelParser.getColumnLetter 26) = 26%Z.
Proof.
  refine (proj1 (getColumnLetter_round_trip 26 _)). lia.
Defined.

(** X21. Identifiers of ASCII names are normal forms.  For a name made
    of ASCII characters only (on these [toLowerCase] folds A-Z and
    nothing else), the identifier has the length of the name and holds
    only the characters a-z, 0-9 and the underscore; a string of such
    characters is its own identifier, so making the identifier of an
    identifier changes nothing; and the case of the name is lost, so
    that two names that differ in case only get the same identifier. *)
Theorem generateId_normalises :
  forall name : string,
    Vocabulary.allChars Vocabulary.isAscii name = true ->
    String.length (ExcelParser.generateId name) = String.length name /\
    Vocabulary.allChars Vocabulary.isIdChar (ExcelParser.generateId name)
      = true /\
    ExcelParser.generateId (ExcelParser.generateId name)
      = ExcelParser.generateId name /\
    ExcelParser.generateId (toLowerCase name) = ExcelParser.generateId name /\
    (forall s, Vocabulary.allChars Vocabulary.isIdChar s = true ->
               Vocabulary.allChars Vocabulary.isAscii s = true /\
               ExcelParser.generateId s = s).
Proof.
  intros name _. split; [apply generateId_length|].
  split; [apply generateId_chars|].
  split; [apply generateId_fixed, generateId_chars|].
  split.
  - unfold ExcelParser.generateId. now rewrite toLowerCase_idempotent.
  - intros s Hs. split; [|now apply generateId_fixed].
    induction s as [|c s IH]; [reflexivity|].
    cbn [Vocabulary.allChars] in Hs |- *.
    apply andb_true_iff in Hs. destruct Hs as [Hc Hs].
    rewrite (IH Hs), andb_true_r. revert Hc.
    destruct c as [[] [] [] [] [] [] [] []]; vm_compute; intros H;
      first [reflexivity | discriminate H].
Qed.

Lemma generateId_normalises_witness :
  ExcelParser.generateId "Test Sheet (2) P&L" = "test_sheet__2__p_l"%string.
Proof.
  assert (H := proj1 (proj2 (proj2 (proj2
                 (generateId_normalises "Test Sheet (2) P&L" eq_refl))))).
  rewrite <- H. reflexivity.
Defined.

(* ================================================================== *)
(** * The spreadsheet parser: headers, cells and ranges *)
(* ================================================================== *)

Section ArrayFacts.
Open Scope Z_scope.

Lemma In_upto (lo hi x : Z) : In x (upto lo hi) <-> lo <= x < hi.
Proof.
  unfold upto. rewrite in_map_iff. split.
  - intros [k [<- Hk]]. apply in_seq in Hk. lia.
  - intros H. exists (Z.to_nat (x - lo)). split; [lia|].
    apply in_seq. lia.
Qed.

Lemma NoDup_upto (lo hi : Z) : NoDup (upto lo hi).
Proof.
  unfold upto. apply NoDup_map_NoDup_ForallPairs; [|apply seq_NoDup].
  intros a b _ _ E. lia.
Qed.

Lemma length_upto (lo hi : Z) : List.length (upto lo hi) = Z.to_nat (hi - lo).
Proof. unfold upto. now rewrite length_map, length_seq. Qed.

Lemma item_Some (A : Type) (l : list A) (i : Z) (x : A) :
  item l i = Some x -> 0 <= i < Z.of_nat (List.length l).
Proof.
  unfold item. destruct (i <? 0) eqn:E; [discriminate|].
  apply Z.ltb_ge in E. intros H.
  assert (Hn : nth_error l (Z.to_nat i) <> None) by congruence.
  apply nth_error_Some in Hn. lia.
Qed.

Lemma item_In (A : Type) (l : list A) (i : Z) (x : A) :
  item l i = Some x -> In x l.
Proof.
  unfold item. destruct (i <? 0); [discriminate|]. apply nth_error_In.
Qed.

Lemma upto_cons (n : nat) :
  upto 0 (Z.of_nat (S n)) = 0 :: map Z.succ (upto 0 (Z.of_nat n)).
Proof.
  unfold upto. rewrite !Z.sub_0_r, !Nat2Z.id. cbn [seq map].
  f_equal. rewrite <- seq_shift, !map_map. apply map_ext. intros k. lia.
Qed.

Lemma entries_cons (A : Type) (x : A) (l : list A) :
  entries (x :: l)
  = (0, x) :: map (fun e => (Z.succ (fst e), snd e)) (entries l).
Proof.
  unfold entries. cbn [List.length]. rewrite upto_cons. cbn [combine].
  f_equal. generalize (upto 0 (Z.of_nat (List.length l))) as idx.
  clear. induction l as [|y l IH]; intros [|i idx]; cbn; try reflexivity.
  now rewrite IH.
Qed.

Lemma item_succ (A : Type) (x : A) (l : list A) (i : Z) :
  0 <= i -> item (x :: l) (Z.succ i) = item l i.
Proof.
  intros H. unfold item.
  destruct (Z.succ i <? 0) eqn:E1; [apply Z.ltb_lt in E1; lia|].
  destruct (i <? 0) eqn:E2; [apply Z.ltb_lt in E2; lia|].
  rewrite Z2Nat.inj_succ by lia. reflexivity.
Qed.

(** The entries of an array are its items with their indices. *)
Lemma In_entries (A : Type) (l : list A) (i : Z) (x : A) :
  In (i, x) (entries l) <-> item l i = Some x.
Proof.
  revert i. induction l as [|y l IH]; intros i.
  - unfold entries, item. cbn. split; [tauto|].
    destruct (i <? 0); [discriminate|].
    destruct (Z.to_nat i); discriminate.
  - rewrite entries_cons. cbn [In]. rewrite in_map_iff. split.
    + intros [E | [[j z] [E Hin]]].
      * injection E as <- <-. reflexivity.
      * cbn [fst snd] in E. injection E as <- <-.
        apply IH in Hin. pose proof (item_Some _ _ _ _ Hin).
        rewrite item_succ by lia. exact Hin.
    + intros H. destruct (Z.eq_dec i 0) as [-> | Hne].
      * left. unfold item in H. cbn in H. now injection H as <-.
      * right. pose proof (item_Some _ _ _ _ H) as Hb.
        exists (Z.pred i, x). cbn [fst snd].
        split; [f_equal; lia|]. apply IH.
        replace i with (Z.succ (Z.pred i)) in H by lia.
        rewrite item_succ in H by lia. exact H.
Qed.

Lemma NoDup_entries (A : Type) (l : list A) : NoDup (entries l).
Proof.
  induction l as [|y l IH]; [constructor|].
  rewrite entries_cons. constructor.
  - rewrite in_map_iff. intros [[j z] [E Hin]]. cbn [fst snd] in E.
    injection E as E _. apply In_entries, item_Some in Hin. lia.
  - apply NoDup_map_NoDup_ForallPairs; [|exact IH].
    intros [a u] [b v] _ _ E. cbn [fst snd] in E. injection E as E ->.
    f_equal. lia.
Qed.

Lemma NoDup_flat_map (A B : Type) (f : A -> list B) (l : list A) :
  NoDup l ->
  (forall a, In a l -> NoDup (f a)) ->
  (forall a a' b, In a l -> In a' l -> In b (f a) -> In b (f a') ->
                  a = a') ->
  NoDup (flat_map f l).
Proof.
  induction 1 as [|x l Hx Hl IH]; intros Hf Hd; cbn [flat_map];
    [constructor|].
  assert (Hrest : NoDup (flat_map f l)).
  { apply IH.
    - intros a Ha. apply Hf. now right.
    - intros a a' b Ha Ha'. apply Hd; now right. }
  assert (Hhead : NoDup (f x)) by (apply Hf; now left).
  revert Hhead.
  assert (Hsep : forall b, In b (f x) -> ~ In b (flat_map f l)).
  { intros b Hb Hin. apply in_flat_map in Hin.
    destruct Hin as [a [Ha Hba]].
    assert (x = a) by (apply (Hd x a b); auto; [now left | now right]).
    subst a. contradiction. }
  revert Hsep. generalize (f x) as fx.
  induction fx as [|b fx IHf]; intros Hsep Hnd; [exact Hrest|].
  inversion Hnd as [|? ? Hb Hfx]; subst. cbn [app]. constructor.
  - rewrite in_app_iff. intros [H | H]; [contradiction|].
    apply (Hsep b); [now left | exact H].
  - apply IHf; [|exact Hfx]. intros b' Hb'. apply Hsep. now right.
Qed.

Lemma map_flat_map (A B C : Type) (g : B -> C) (f : A -> list B)
  (l : list A) :
  map g (flat_map f l) = flat_map (fun a => map g (f a)) l.
Proof.
  induction l as [|x l IH]; [reflexivity|].
  cbn [flat_map]. now rewrite map_app, IH.
Qed.

Lemma fold_min_le (l : list Z) :
  forall x, fold_left Z.min l x <= x /\
            forall y, In y l -> fold_left Z.min l x <= y.
Proof.
  induction l as [|z l IH]; intros x; cbn [fold_left].
  - split; [lia | intros y []].
  - destruct (IH (Z.min x z)) as [H1 H2]. split; [lia|].
    intros y [<- | Hy]; [lia | now apply H2].
Qed.

Lemma fold_max_ge (l : list Z) :
  forall x, x <= fold_left Z.max l x /\
            forall y, In y l -> y <= fold_left Z.max l x.
Proof.
  induction l as [|z l IH]; intros x; cbn [fold_left].
  - split; [lia | intros y []].
  - destruct (IH (Z.max x z)) as [H1 H2]. split; [lia|].
    intros y [<- | Hy]; [lia | now apply H2].
Qed.

Lemma Math_minOf_le (l : list Z) (y : Z) : In y l -> Math_minOf l <= y.
Proof.
  destruct l as [|x l]; [intros []|]. cbn [Math_minOf].
  destruct (fold_min_le l x) as [H1 H2].
  intros [<- | Hy]; [exact H1 | now apply H2].
Qed.

Lemma Math_maxOf_ge (l : list Z) (y : Z) : In y l -> y <= Math_maxOf l.
Proof.
  destruct l as [|x l]; [intros []|]. cbn [Math_maxOf].
  destruct (fold_max_ge l x) as [H1 H2].
  intros [<- | Hy]; [exact H1 | now apply H2].
Qed.
End ArrayFacts.

Section HeaderFacts.
Import Model Heuristics ExcelParser Vocabulary.
Open Scope Z_scope.

Lemma valueAt_bounds (values : Grid) (r c : Z) (v : string) :
  valueAt values r c = Some v ->
  0 <= r < Z.of_nat (List.length values) /\ 0 <= c < rowLength values r.
Proof.
  unfold valueAt, rowLength. destruct (item values r) as [row|] eqn:E;
    [|discriminate].
  intros H. split; [now apply item_Some in E | now apply item_Some in H].
Qed.

Lemma getCellHeaders_context_In (cell : Cell) (headerInfo : HeaderInfo)
  (values : Grid) (context : list ContextEntry) (e : ContextEntry) :
  hdr_context (getCellHeaders cell headerInfo values) = Some context ->
  In e context <->
  inWindow cell (ctx_row e - 1) (ctx_column e - 1) /\
  valueAt values (ctx_row e - 1) (ctx_column e - 1) = Some (ctx_value e) /\
  isText (ctx_value e) = true /\
  ctx_distance e = Z.abs (ctx_row e - cell_row cell)
                   + Z.abs (ctx_column e - cell_column cell).
Proof.
  unfold getCellHeaders. cbv zeta. cbn [hdr_context].
  intros E. injection E as <-. unfold inWindow, contextRange.
  rewrite in_flat_map. split.
  - intros [r [Hr Hin]]. apply in_flat_map in Hin.
    destruct Hin as [c [Hc Hin]]. apply In_upto in Hr, Hc.
    destruct (negb ((r =? cell_row cell - 1) && (c =? cell_column cell - 1)))
      eqn:Hself; [|destruct Hin].
    destruct (valueAt values r c) as [v|] eqn:Hv; [|destruct Hin].
    destruct (isText v) eqn:Ht; [|destruct Hin].
    destruct Hin as [<- | []]. cbn [ctx_row ctx_column ctx_value ctx_distance].
    replace (r + 1 - 1) with r by lia. replace (c + 1 - 1) with c by lia.
    apply negb_true_iff, andb_false_iff in Hself.
    split; [|split; [exact Hv | split; [exact Ht | lia]]].
    split; [lia|]. split; [lia|].
    destruct Hself as [H | H]; apply Z.eqb_neq in H; [now left | now right].
  - intros [[Hwr [Hwc Hself]] [Hv [Ht Hd]]].
    destruct (valueAt_bounds _ _ _ _ Hv) as [Hr Hc].
    exists (ctx_row e - 1). split; [apply In_upto; lia|].
    apply in_flat_map. exists (ctx_column e - 1).
    split; [apply In_upto; lia|].
    assert (Hs : negb ((ctx_row e - 1 =? cell_row cell - 1)
                       && (ctx_column e - 1 =? cell_column cell - 1))
                 = true).
    { apply negb_true_iff, andb_false_iff.
      destruct Hself as [H | H]; [left | right]; now apply Z.eqb_neq. }
    rewrite Hs, Hv, Ht. left. destruct e as [v r c d].
    cbn [ctx_row ctx_column ctx_value ctx_distance] in *.
    f_equal; lia.
Qed.

(** The column headers are the texts of the first row, blank entries
    left out. *)
Lemma detectHeaders_columns (values : Grid) (options : DetectOptions) :
  columnHeaders (detectHeaders values options)
  = map trim (filter isText (hd [] values)).
Proof.
  unfold detectHeaders. cbv zeta.
  destruct values as [|row values]; [reflexivity|].
  cbn [List.length Nat.eqb columnHeaders hd].
  induction row as [|cell row IH]; [reflexivity|].
  cbn [flat_map filter]. destruct (isText cell); cbn [map app];
    now rewrite IH.
Qed.

(** With the defaults, the row headers are the text of the top-left
    entry, if it has one. *)
Lemma detectHeaders_rows (values : Grid) :
  rowHeaders (detectHeaders values (mkDetectOptions None None))
  = match values with
    | (cell :: _) :: _ => if isText cell then [trim cell] else []
    | _ => []
    end.
Proof.
  unfold detectHeaders. cbv zeta. cbn [opt_headerRows opt_minTextCells].
  destruct values as [|row values]; [reflexivity|].
  cbn [List.length Nat.eqb rowHeaders Nat.min firstn flat_map].
  rewrite app_nil_r. destruct row; reflexivity.
Qed.

Lemma filter_all (A : Type) (f : A -> bool) (l : list A) :
  forallb f l = true -> filter f l = l.
Proof.
  induction l as [|x l IH]; [reflexivity|]. cbn [forallb filter].
  intros H. apply andb_true_iff in H. destruct H as [Hx Hl].
  now rewrite Hx, IH.
Qed.

Lemma item_map (A B : Type) (f : A -> B) (l : list A) (i : Z) :
  item (map f l) i = option_map f (item l i).
Proof.
  unfold item. destruct (i <? 0); [reflexivity|]. apply nth_error_map.
Qed.

Lemma item_firstn (A : Type) (l : list A) (k : nat) (i : Z) :
  i < Z.of_nat k -> item (firstn k l) i = item l i.
Proof.
  intros H. unfold item. destruct (i <? 0) eqn:E; [reflexivity|].
  apply Z.ltb_ge in E. rewrite nth_error_firstn.
  destruct (Nat.ltb_spec (Z.to_nat i) k); [reflexivity | lia].
Qed.
End HeaderFacts.

(** X22. The context of a cell is its window of the sheet: an entry is
    listed exactly when it stands for a position at most two rows and
    two columns away from the cell, other than the cell itself, that
    holds a value which is not blank; it carries that value, the row and
    column counted from 1, and the Manhattan distance to the cell, which
    lies between 1 and 4. *)
Theorem getCellHeaders_context_window :
  forall (cell : Model.Cell) (headerInfo : Heuristics.HeaderInfo)
         (values : Heuristics.Grid),
    exists context,
      Model.hdr_context (ExcelParser.getCellHeaders cell headerInfo values)
        = Some context /\
      forall e : Model.ContextEntry,
        (In e context <->
         Vocabulary.inWindow cell (Model.ctx_row e - 1)
           (Model.ctx_column e - 1) /\
         ExcelParser.valueAt values (Model.ctx_row e - 1)
           (Model.ctx_column e - 1) = Some (Model.ctx_value e) /\
         Heuristics.isText (Model.ctx_value e) = true /\
         Model.ctx_distance e
         = (Z.abs (Model.ctx_row e - Model.cell_row cell)
            + Z.abs (Model.ctx_column e - Model.cell_column cell))%Z) /\
        (In e context -> (1 <= Model.ctx_distance e <= 4)%Z).
Proof.
  intros cell headerInfo values. eexists. split; [reflexivity|].
  intros e.
  pose proof (getCellHeaders_context_In cell headerInfo values _ e eq_refl)
    as H.
  split; [exact H|]. intros Hin. apply H in Hin.
  destruct Hin as [[H1 [H2 H3]] [_ [_ Hd]]]. lia.
Qed.

(* ================================================================== *)
(** * The spreadsheet parser: range documents *)
(* ================================================================== *)

Section GroupFacts.
Import Model Heuristics ExcelParser Vocabulary.

Lemma hasKey_true (key : string) (c : Cell) :
  hasKey key c = true <-> groupKey c = Ok key.
Proof.
  unfold hasKey. destruct (groupKey c) as [k|e].
  - rewrite String.eqb_eq. split; congruence.
  - split; discriminate.
Qed.

Lemma groupKey_headers (c : Cell) :
  (exists k, groupKey c = Ok k) <-> cell_headers c <> None.
Proof.
  unfold groupKey, headerOf. destruct (cell_headers c); cbn [bindE].
  - split; [discriminate | intros _; eexists; reflexivity].
  - split; [intros [k H]; discriminate | congruence].
Qed.

Lemma groupPush_keys (key : string) (c : Cell) (groups : Groups) :
  map fst (groupPush key c groups)
  = if in_dec string_dec key (map fst groups) then map fst groups
    else map fst groups ++ [key].
Proof.
  induction groups as [|[k cs] groups IH].
  - cbn. destruct (in_dec string_dec key []) as [[]|]; reflexivity.
  - cbn [groupPush map fst].
    destruct (String.eqb_spec k key) as [E|N]; cbn [map fst].
    + destruct (in_dec string_dec key (k :: map fst groups)) as [H|H];
        [reflexivity|]. exfalso. apply H. now left.
    + rewrite IH.
      destruct (in_dec string_dec key (map fst groups)) as [H|H];
        destruct (in_dec string_dec key (k :: map fst groups)) as [H'|H'];
        try reflexivity.
      * exfalso. apply H'. now right.
      * destruct H' as [H'|H']; [congruence | tauto].
Qed.

Lemma groupPush_In (key : string) (c : Cell) (groups : Groups)
  (k : string) (cs : list Cell) :
  NoDup (map fst groups) ->
  In (k, cs) (groupPush key c groups) <->
  (k <> key /\ In (k, cs) groups) \/
  (k = key /\
   ((exists cs0, In (key, cs0) groups /\ cs = cs0 ++ [c]) \/
    (~ In key (map fst groups) /\ cs = [c]))).
Proof.
  induction groups as [|[k0 cs0] groups IH]; intros Hnd.
  - cbn. split.
    + intros [E | []]. injection E as <- <-. right. split; [reflexivity|].
      right. split; [tauto | reflexivity].
    + intros [[_ []] | [-> [[x [[] _]] | [_ ->]]]]. now left.
  - inversion Hnd as [|? ? Hn Hd]; subst. cbn [groupPush].
    destruct (String.eqb_spec k0 key) as [E|N].
    + subst k0. cbn [In map fst]. split.
      * intros [E | Hin].
        -- injection E as <- <-. right. split; [reflexivity|]. left.
           exists cs0. split; [now left | reflexivity].
        -- assert (k <> key).
           { intros ->. apply Hn. apply in_map_iff.
             exists (key, cs). now split. }
           left. split; [assumption | now right].
      * intros [[Hne [E | Hin]] | [-> [[x [[E | Hin] ->]] | [Hno _]]]].
        -- congruence.
        -- now right.
        -- injection E as <-. now left.
        -- exfalso. apply Hn. apply in_map_iff. exists (key, x). now split.
        -- exfalso. apply Hno. now left.
    + cbn [In map fst]. rewrite (IH Hd). split.
      * intros [E | [[Hne Hin] | [-> [[x [Hin ->]] | [Hno ->]]]]].
        -- injection E as <- <-. left. split; [congruence | now left].
        -- left. split; [exact Hne | now right].
        -- right. split; [reflexivity|]. left. exists x.
           split; [now right | reflexivity].
        -- right. split; [reflexivity|]. right.
           split; [|reflexivity]. intros [H | H]; [congruence | tauto].
      * intros [[Hne [E | Hin]] | [-> [[x [[E | Hin] ->]] | [Hno ->]]]].
        -- now left.
        -- right. left. now split.
        -- congruence.
        -- right. right. split; [reflexivity|]. left. now exists x.
        -- right. right. split; [reflexivity|]. right.
           split; [|reflexivity]. intros H. apply Hno. now right.
Qed.

Lemma grouped_nil : grouped [] [].
Proof.
  split; [constructor|]. intros k cs. cbn. split; [tauto|].
  intros [-> H]. now apply H.
Qed.

Lemma grouped_push (done : list Cell) (groups : Groups) (c : Cell)
  (key : string) :
  grouped done groups -> groupKey c = Ok key ->
  grouped (done ++ [c]) (groupPush key c groups).
Proof.
  intros [Hnd Hg] Hk. split.
  - rewrite groupPush_keys.
    destruct (in_dec string_dec key (map fst groups)) as [H|H];
      [exact Hnd|].
    apply NoDup_keys_app; [exact Hnd | repeat constructor; intros [] |].
    intros k [<- | []]. exact H.
  - intros k cs. rewrite (groupPush_In key c groups k cs Hnd).
    rewrite filter_app. cbn [filter].
    assert (Hkey : forall k', hasKey k' c = true <-> k' = key).
    { intros k'. rewrite hasKey_true, Hk. split; congruence. }
    split.
    + intros [[Hne Hin] | [-> [[cs0 [Hin ->]] | [Hno ->]]]].
      * apply Hg in Hin. destruct Hin as [-> Hcs].
        destruct (hasKey k c) eqn:E;
          [apply Hkey in E; congruence|].
        rewrite app_nil_r. now split.
      * apply Hg in Hin. destruct Hin as [-> Hcs].
        rewrite (proj2 (Hkey key) eq_refl).
        split; [reflexivity|]. intros H. apply app_eq_nil in H.
        destruct H; discriminate.
      * rewrite (proj2 (Hkey key) eq_refl).
        destruct (filter (hasKey key) done) as [|x l] eqn:E.
        -- split; [reflexivity | discriminate].
        -- exfalso. apply Hno. apply in_map_iff.
           exists (key, x :: l). split; [reflexivity|].
           apply Hg. split; [now rewrite E | discriminate].
    + intros [-> Hne]. destruct (string_dec k key) as [-> | Hk'].
      * right. split; [reflexivity|].
        rewrite (proj2 (Hkey key) eq_refl).
        destruct (filter (hasKey key) done) as [|x l] eqn:E.
        -- right. split; [|reflexivity]. intros Hin.
           apply in_map_iff in Hin. destruct Hin as [[k' cs'] [E' Hin]].
           cbn [fst] in E'. subst k'. apply Hg in Hin.
           destruct Hin as [-> Hcs]. now apply Hcs.
        -- left. exists (x :: l). split; [|reflexivity].
           apply Hg. split; [now rewrite E | discriminate].
      * left. split; [exact Hk'|].
        destruct (hasKey k c) eqn:E; [apply Hkey in E; congruence|].
        rewrite app_nil_r in *. apply Hg. now split.
Qed.

Lemma groupCells_grouped (cells : list Cell) :
  forall done groups result,
    grouped done groups ->
    groupCells [] cells groups = Ok result ->
    grouped (done ++ cells) result.
Proof.
  induction cells as [|c cells IH]; intros done groups result Hg E.
  - cbn in E. injection E as <-. now rewrite app_nil_r.
  - cbn [groupCells arrayIncludes existsb] in E.
    destruct (groupKey c) as [key|e] eqn:Hk; [|discriminate].
    cbn [bindE] in E.
    change (c :: cells) with ([c] ++ cells). rewrite app_assoc.
    apply (IH _ _ _ (grouped_push done groups c key Hg Hk) E).
Qed.

Lemma groupCells_returns (cells : list Cell) :
  forall groups,
    Forall (fun c => cell_headers c <> None) cells ->
    exists result, groupCells [] cells groups = Ok result.
Proof.
  induction cells as [|c cells IH]; intros groups H.
  - now exists groups.
  - inversion H as [|? ? Hc Hcs]; subst.
    cbn [groupCells arrayIncludes existsb].
    apply groupKey_headers in Hc. destruct Hc as [k Hk].
    rewrite Hk. cbn [bindE]. now apply IH.
Qed.

Lemma groupCells_throws (cells : list Cell) :
  forall groups,
    (exists c, In c cells /\ cell_headers c = None) ->
    exists e, groupCells [] cells groups = Throw e.
Proof.
  induction cells as [|c cells IH]; intros groups [x [Hx Hn]];
    [destruct Hx|].
  cbn [groupCells arrayIncludes existsb].
  destruct (groupKey c) as [key|e] eqn:Hk; [|now exists e].
  cbn [bindE]. apply IH. destruct Hx as [-> | Hx]; [|now exists x].
  exfalso.
  assert (H : cell_headers x <> None)
    by (apply groupKey_headers; now exists key).
  contradiction.
Qed.

Lemma rangeOf_fields (key : string) (first : Cell) (others : list Cell)
  (r : Range) :
  rangeOf key first others = Ok r ->
  range_id r = ("range_" ++ key)%string /\
  range_cells r = first :: others /\
  range_startRow r = Math_minOf (map cell_row (first :: others)) /\
  range_endRow r = Math_maxOf (map cell_row (first :: others)) /\
  range_startColumn r = Math_minOf (map cell_column (first :: others)) /\
  range_endColumn r = Math_maxOf (map cell_column (first :: others)) /\
  exists v, range_sampleValues r = Some v /\ (List.length v <= 5)%nat.
Proof.
  unfold rangeOf. cbv zeta. destruct (headerOf first) as [h|e];
    cbn [bindE]; [|discriminate].
  intros E. injection E as <-.
  cbn [range_id range_cells range_startRow range_endRow range_startColumn
       range_endColumn range_sampleValues].
  repeat (split; [reflexivity|]).
  exists (map (fun c => match cell_formattedValue c with
                        | Some v => v
                        | None => EmptyString
                        end)
              (slice0 5 (first :: others))).
  split; [reflexivity|].
  rewrite length_map. unfold slice0. rewrite length_firstn. lia.
Qed.

Lemma rangesOf_spec (groups : Groups) :
  (forall k cs c, In (k, cs) groups -> In c cs ->
                  cell_headers c <> None) ->
  exists ranges,
    rangesOf groups = Ok ranges /\
    (forall r, In r ranges ->
       exists k first second others,
         In (k, first :: second :: others) groups /\
         rangeOf k first (second :: others) = Ok r) /\
    (forall k first second others,
       In (k, first :: second :: others) groups ->
       exists r, In r ranges /\
                 rangeOf k first (second :: others) = Ok r).
Proof.
  induction groups as [|[k cs] groups IH]; intros Hh.
  - exists []. split; [reflexivity|]. split; [intros r [] | intros ? ? ? ? []].
  - destruct IH as [ranges [E [H1 H2]]].
    { intros k' cs' c Hin. apply (Hh k' cs' c). now right. }
    assert (Hskip : forall cs',
               cs = cs' -> (List.length cs' < 2)%nat ->
               exists ranges',
                 rangesOf ((k, cs) :: groups) = Ok ranges' /\
                 ranges' = ranges).
    { intros cs' -> Hl. exists ranges. split; [|reflexivity].
      destruct cs' as [|a [|b l]]; cbn [rangesOf]; try exact E.
      cbn in Hl. lia. }
    destruct cs as [|first [|second others]].
    + destruct (Hskip [] eq_refl) as [r' [E' ->]]; [cbn; lia|].
      exists ranges. split; [exact E'|]. split.
      * intros r Hr. destruct (H1 r Hr) as [k' [f [s [o [Hin Hr']]]]].
        exists k', f, s, o. split; [now right | exact Hr'].
      * intros k' f s o [Heq | Hin]; [discriminate|]. now apply H2.
    + destruct (Hskip [first] eq_refl) as [r' [E' ->]]; [cbn; lia|].
      exists ranges. split; [exact E'|]. split.
      * intros r Hr. destruct (H1 r Hr) as [k' [f [s [o [Hin Hr']]]]].
        exists k', f, s, o. split; [now right | exact Hr'].
      * intros k' f s o [Heq | Hin]; [discriminate|]. now apply H2.
    + cbn [rangesOf].
      assert (Hf : cell_headers first <> None).
      { apply (Hh k (first :: second :: others) first); now left. }
      destruct (rangeOf k first (second :: others)) as [r0|e] eqn:Er.
      2:{ exfalso. unfold rangeOf, headerOf in Er.
          destruct (cell_headers first); [discriminate Er | congruence]. }
      cbn [bindE]. rewrite E. cbn [bindE].
      exists (r0 :: ranges). split; [reflexivity|]. split.
      * intros r [<- | Hr].
        -- exists k, first, second, others. split; [now left | exact Er].
        -- destruct (H1 r Hr) as [k' [f [s [o [Hin Hr']]]]].
           exists k', f, s, o. split; [now right | exact Hr'].
      * intros k' f s o [Heq | Hin].
        -- injection Heq as <- <- <- <-. exists r0.
           split; [now left | exact Er].
        -- destruct (H2 k' f s o Hin) as [r [Hr Hr']].
           exists r. split; [now right | exact Hr'].
Qed.

Lemma rangesOf_ids (groups : Groups) :
  forall ranges,
    NoDup (map fst groups) -> rangesOf groups = Ok ranges ->
    NoDup (map range_id ranges) /\
    forall r, In r ranges ->
      exists k, In k (map fst groups) /\ range_id r = ("range_" ++ k)%string.
Proof.
  induction groups as [|[k cs] groups IH]; intros ranges Hnd E.
  - cbn in E. injection E as <-. split; [constructor | intros r []].
  - inversion Hnd as [|? ? Hn Hd]; subst.
    assert (Hskip : rangesOf groups = Ok ranges ->
                    NoDup (map range_id ranges) /\
                    forall r, In r ranges ->
                      exists k', In k' (map fst ((k, cs) :: groups)) /\
                                 range_id r = ("range_" ++ k')%string).
    { intros E'. destruct (IH ranges Hd E') as [H1 H2].
      split; [exact H1|]. intros r Hr. destruct (H2 r Hr) as [k' [Hk' Hid]].
      exists k'. split; [now right | exact Hid]. }
    destruct cs as [|first [|second others]]; cbn [rangesOf] in E;
      try (now apply Hskip).
    destruct (rangeOf k first (second :: others)) as [r0|e] eqn:Er;
      cbn [bindE] in E; [|discriminate].
    destruct (rangesOf groups) as [rest|e] eqn:Erest; cbn [bindE] in E;
      [|discriminate].
    injection E as <-. destruct (IH rest Hd eq_refl) as [H1 H2].
    apply rangeOf_fields in Er. destruct Er as [Hid _].
    split.
    + cbn [map]. constructor; [|exact H1].
      intros Hin. apply in_map_iff in Hin. destruct Hin as [r [E' Hr]].
      destruct (H2 r Hr) as [k' [Hk' Hid']].
      rewrite Hid, Hid' in E'. apply append_cancel_l in E'.
      subst k'. contradiction.
    + intros r [<- | Hr].
      * exists k. split; [now left | exact Hid].
      * destruct (H2 r Hr) as [k' [Hk' Hid']].
        exists k'. split; [now right | exact Hid'].
Qed.

Lemma grouped_headers (cells : list Cell) (groups : Groups) :
  groupCells [] cells [] = Ok groups ->
  forall k cs c, In (k, cs) groups -> In c cs -> cell_headers c <> None.
Proof.
  intros E k cs c Hin Hc.
  destruct (groupCells_grouped cells [] [] groups grouped_nil E) as [_ Hg].
  apply Hg in Hin. destruct Hin as [-> _].
  apply filter_In in Hc. destruct Hc as [_ Hc].
  apply hasKey_true in Hc. apply groupKey_headers. now exists k.
Qed.

Lemma createRangeDocuments_returns (cells : list Cell)
  (headerInfo : HeaderInfo) :
  Forall (fun c => cell_headers c <> None) cells ->
  exists ranges,
    createRangeDocuments cells headerInfo = Ok ranges /\
    NoDup (map range_id ranges).
Proof.
  intros Hall. unfold createRangeDocuments.
  destruct (groupCells_returns cells [] Hall) as [groups E].
  rewrite E. cbn [bindE].
  destruct (rangesOf_spec groups (grouped_headers cells groups E))
    as [ranges [Er _]].
  exists ranges. split; [exact Er|].
  destruct (groupCells_grouped cells [] [] groups grouped_nil E) as [Hnd _].
  apply (rangesOf_ids groups ranges Hnd Er).
Qed.
End GroupFacts.

(** X23. The range documents of a list of cells.  The cells are grouped
    by sheet name and column header, and every group of two cells at
    least gives one range: the range named after a key holds exactly the
    cells with that key, in their order; it spans their rows and
    columns; it samples five values at most; the ranges have pairwise
    distinct ids; and a key shared by two cells or more has its range.
    The function returns when every cell has headers and throws when one
    has none. *)
Theorem createRangeDocuments_groups_cells :
  forall (cells : list Model.Cell) (headerInfo : Heuristics.HeaderInfo),
    (Forall (fun c => Model.cell_headers c <> None) cells ->
     exists ranges,
       ExcelParser.createRangeDocuments cells headerInfo = Ok ranges) /\
    ((exists c, In c cells /\ Model.cell_headers c = None) ->
     exists e, ExcelParser.createRangeDocuments cells headerInfo = Throw e) /\
    (forall ranges,
       ExcelParser.createRangeDocuments cells headerInfo = Ok ranges ->
       NoDup (map Model.range_id ranges) /\
       (forall r, In r ranges ->
          exists key,
            Model.range_id r = ("range_" ++ key)%string /\
            Model.range_cells r = filter (Vocabulary.hasKey key) cells /\
            (2 <= List.length (Model.range_cells r))%nat /\
            (forall c, In c (Model.range_cells r) ->
               (Model.range_startRow r <= Model.cell_row c
                <= Model.range_endRow r)%Z /\
               (Model.range_startColumn r <= Model.cell_column c
                <= Model.range_endColumn r)%Z) /\
            (exists v, Model.range_sampleValues r = Some v /\
                       (List.length v <= 5)%nat)) /\
       (forall key,
          (2 <= List.length (filter (Vocabulary.hasKey key) cells))%nat ->
          exists r, In r ranges /\
                    Model.range_id r = ("range_" ++ key)%string)).
Proof.
  intros cells headerInfo. unfold ExcelParser.createRangeDocuments.
  assert (Hgr : forall groups,
             ExcelParser.groupCells [] cells [] = Ok groups ->
             Vocabulary.grouped cells groups).
  { intros groups E.
    apply (groupCells_grouped cells [] [] groups grouped_nil E). }
  assert (Hhd : forall groups,
             ExcelParser.groupCells [] cells [] = Ok groups ->
             forall k cs c, In (k, cs) groups -> In c cs ->
                            Model.cell_headers c <> None).
  { intros groups E k cs c Hin Hc.
    destruct (Hgr groups E) as [_ Hg]. apply Hg in Hin.
    destruct Hin as [-> _]. apply filter_In in Hc. destruct Hc as [_ Hc].
    apply hasKey_true in Hc. apply groupKey_headers. now exists k. }
  split; [|split].
  - intros Hall.
    destruct (groupCells_returns cells [] Hall) as [groups E].
    rewrite E. cbn [bindE].
    destruct (rangesOf_spec groups (Hhd groups E)) as [ranges [Er _]].
    now exists ranges.
  - intros Hex. destruct (groupCells_throws cells [] Hex) as [e E].
    rewrite E. now exists e.
  - intros ranges E.
    destruct (ExcelParser.groupCells [] cells []) as [groups|e] eqn:Eg;
      cbn [bindE] in E; [|discriminate].
    destruct (Hgr groups eq_refl) as [Hnd Hg].
    destruct (rangesOf_spec groups (Hhd groups eq_refl))
      as [ranges' [Er [H1 H2]]].
    rewrite E in Er. injection Er as <-.
    split; [apply (rangesOf_ids groups ranges Hnd E)|]. split.
    + intros r Hr. destruct (H1 r Hr) as [k [f [s [o [Hin Hrange]]]]].
      apply rangeOf_fields in Hrange.
      destruct Hrange as [Hid [Hc [Hsr [Her [Hsc [Hec Hv]]]]]].
      apply Hg in Hin. destruct Hin as [Hcs _].
      exists k. split; [exact Hid|]. rewrite Hc.
      split; [exact Hcs|]. split; [simpl; lia|].
      split; [|exact Hv]. intros c Hin.
      rewrite Hsr, Her, Hsc, Hec. split; split.
      * apply Math_minOf_le. now apply in_map.
      * apply Math_maxOf_ge. now apply in_map.
      * apply Math_minOf_le. now apply in_map.
      * apply Math_maxOf_ge. now apply in_map.
    + intros key Hlen.
      destruct (filter (Vocabulary.hasKey key) cells)
        as [|f [|s o]] eqn:Ef; cbn in Hlen; try lia.
      assert (Hin : In (key, f :: s :: o) groups).
      { apply Hg. split; [now rewrite Ef | discriminate]. }
      destruct (H2 key f s o Hin) as [r [Hr Hrange]].
      exists r. split; [exact Hr|].
      now apply rangeOf_fields in Hrange.
Qed.

(** Two cells with headers give range documents. *)
Lemma createRangeDocuments_groups_cells_witness :
  exists ranges,
    ExcelParser.createRangeDocuments
      [Samples.revenueCell; Samples.noteCell []]
      (Heuristics.mkHeaderInfo [] [] []) = Ok ranges.
Proof.
  refine (proj1 (createRangeDocuments_groups_cells
                   [Samples.revenueCell; Samples.noteCell []]
                   (Heuristics.mkHeaderInfo [] [] [])) _).
  repeat constructor; discriminate.
Defined.

(* ================================================================== *)
(** * The spreadsheet parser: the cells of a sheet *)
(* ================================================================== *)

Section CellFacts.
Import FormulaParser Model Heuristics ExcelParser Vocabulary.
Open Scope Z_scope.
Variable parser_parse : string -> Exc ParserOutput.
Variable isNaN : string -> bool.
Variable worksheet : string -> option string.

(** The identifier of the cell at a position tells the position. *)
Lemma cell_id_injective (prefix : string) (r c r' c' : Z) :
  0 <= r -> 0 <= c -> 0 <= r' -> 0 <= c' ->
  (prefix ++ "_" ++ string_of_Z (r + 1) ++ "_" ++ string_of_Z (c + 1))%string
  = (prefix ++ "_" ++ string_of_Z (r' + 1) ++ "_"
     ++ string_of_Z (c' + 1))%string ->
  r = r' /\ c = c'.
Proof.
  intros Hr Hc Hr' Hc' E.
  apply append_cancel_l in E. cbn [String.append] in E.
  injection E as E.
  apply (digits_split _ _ _ _ "_"%char) in E;
    [|reflexivity | apply string_of_Z_chars; lia
     | apply string_of_Z_chars; lia].
  destruct E as [E1 E2].
  apply string_of_Z_injective in E1, E2. lia.
Qed.

Lemma nonEmpty_true (v : string) : nonEmpty v = true <-> v <> EmptyString.
Proof. destruct v; cbn; split; congruence. Qed.

Lemma In_parseCells (sheetName : string) (headerInfo : HeaderInfo)
  (jsonData : Grid) (cell : Cell) :
  In cell (parseCells parser_parse isNaN worksheet sheetName headerInfo
             jsonData) <->
  exists r c v,
    valueAt jsonData r c = Some v /\ v <> EmptyString /\
    cell = parseCell parser_parse isNaN worksheet sheetName headerInfo
             jsonData r c v.
Proof.
  unfold parseCells. rewrite in_flat_map. split.
  - intros [[r row] [Hr Hin]]. apply in_flat_map in Hin.
    destruct Hin as [[c v] [Hc Hin]]. cbn [fst snd] in Hin.
    destruct (nonEmpty v) eqn:Hv; [|destruct Hin].
    destruct Hin as [<- | []]. exists r, c, v.
    apply In_entries in Hr, Hc. unfold valueAt. rewrite Hr.
    split; [exact Hc|]. split; [now apply nonEmpty_true | reflexivity].
  - intros [r [c [v [Hv [Hne ->]]]]]. unfold valueAt in Hv.
    destruct (item jsonData r) as [row|] eqn:Hr; [|discriminate].
    exists (r, row). split; [now apply In_entries|].
    apply in_flat_map. exists (c, v). split; [now apply In_entries|].
    cbn [fst snd]. apply nonEmpty_true in Hne. rewrite Hne. now left.
Qed.

Lemma parseCells_ids (sheetName : string) (headerInfo : HeaderInfo)
  (jsonData : Grid) :
  map cell_id (parseCells parser_parse isNaN worksheet sheetName headerInfo
                 jsonData)
  = flat_map
      (fun rowEntry =>
         flat_map
           (fun colEntry =>
              if nonEmpty (snd colEntry)
              then [(generateId sheetName ++ "_"
                     ++ string_of_Z (fst rowEntry + 1) ++ "_"
                     ++ string_of_Z (fst colEntry + 1))%string]
              else [])
           (entries (snd rowEntry)))
      (entries jsonData).
Proof.
  unfold parseCells. rewrite map_flat_map. apply flat_map_ext.
  intros rowEntry. rewrite map_flat_map. apply flat_map_ext.
  intros colEntry. destruct (nonEmpty (snd colEntry)); reflexivity.
Qed.

Lemma parseCells_NoDup (sheetName : string) (headerInfo : HeaderInfo)
  (jsonData : Grid) :
  NoDup (map cell_id (parseCells parser_parse isNaN worksheet sheetName
                        headerInfo jsonData)).
Proof.
  rewrite parseCells_ids.
  apply NoDup_flat_map; [apply NoDup_entries| |].
  - intros [r row] Hr. apply NoDup_flat_map; [apply NoDup_entries| |].
    + intros [c v] _. cbn [fst snd]. destruct (nonEmpty v);
        [repeat constructor; intros [] | constructor].
    + intros [c v] [c' v'] id Hc Hc'. cbn [fst snd].
      destruct (nonEmpty v); [|intros []].
      destruct (nonEmpty v'); [|intros _ []].
      intros [<- | []] [E | []].
      apply In_entries in Hc, Hc', Hr.
      pose proof (item_Some _ _ _ _ Hc). pose proof (item_Some _ _ _ _ Hc').
      pose proof (item_Some _ _ _ _ Hr).
      apply cell_id_injective in E; try lia.
      destruct E as [_ <-]. congruence.
  - intros [r row] [r' row'] id Hr Hr' Hin Hin'.
    apply in_flat_map in Hin, Hin'.
    destruct Hin as [[c v] [Hc Hid]], Hin' as [[c' v'] [Hc' Hid']].
    cbn [fst snd] in Hid, Hid'.
    destruct (nonEmpty v); [|destruct Hid].
    destruct (nonEmpty v'); [|destruct Hid'].
    destruct Hid as [<- | []]. destruct Hid' as [E | []].
    apply In_entries in Hc, Hc', Hr, Hr'.
    pose proof (item_Some _ _ _ _ Hc). pose proof (item_Some _ _ _ _ Hc').
    pose proof (item_Some _ _ _ _ Hr). pose proof (item_Some _ _ _ _ Hr').
    apply cell_id_injective in E; try lia.
    destruct E as [<- _]. congruence.
Qed.

Lemma item_filter_prefix (A : Type) (f : A -> bool) (l : list A) (i : Z) :
  forallb f (firstn (Z.to_nat (i + 1)) l) = true ->
  item (filter f l) i = item l i.
Proof.
  intros H. unfold item. destruct (i <? 0) eqn:E; [reflexivity|].
  apply Z.ltb_ge in E.
  rewrite <- (firstn_skipn (Z.to_nat (i + 1)) l) at 1.
  rewrite filter_app, (filter_all _ f _ H).
  destruct (Nat.lt_ge_cases (Z.to_nat i)
              (List.length (firstn (Z.to_nat (i + 1)) l))) as [Hlt | Hge].
  - rewrite nth_error_app1 by exact Hlt. rewrite nth_error_firstn.
    destruct (Nat.ltb_spec (Z.to_nat i) (Z.to_nat (i + 1)));
      [reflexivity | lia].
  - rewrite length_firstn in Hge.
    assert (Hl : (List.length l <= Z.to_nat i)%nat) by lia.
    rewrite skipn_all2 by lia. cbn [filter]. rewrite app_nil_r.
    rewrite nth_error_firstn.
    destruct (Nat.ltb_spec (Z.to_nat i) (Z.to_nat (i + 1)));
      [reflexivity | lia].
Qed.

Lemma parseCell_headers (sheetName : string) (jsonData : Grid)
  (r c : Z) (v : string) :
  0 <= r -> 0 <= c ->
  let headerInfo := detectHeaders jsonData (mkDetectOptions None None) in
  let cell := parseCell parser_parse isNaN worksheet sheetName headerInfo
                jsonData r c v in
  headers_column cell
  = item (map trim (filter isText (hd [] jsonData))) c /\
  headers_row cell
  = (if r =? 0
     then match jsonData with
          | (top :: _) :: _ => if isText top then Some (trim top) else None
          | _ => None
          end
     else None).
Proof.
  intros Hr Hc headerInfo cell. unfold cell, parseCell, headers_column,
    headers_row. cbv zeta. cbn [cell_headers].
  unfold getCellHeaders. cbv zeta.
  cbn [hdr_column hdr_row cell_column cell_row].
  replace (c + 1 - 1) with c by lia. replace (r + 1 - 1) with r by lia.
  unfold headerInfo. rewrite detectHeaders_columns, detectHeaders_rows.
  split.
  - destruct (c + 1 <=? _) eqn:E; [reflexivity|].
    apply Z.leb_gt in E. unfold item.
    destruct (c <? 0); [reflexivity|]. symmetry.
    apply nth_error_None. lia.
  - set (rows := match jsonData with
                 | (top :: _) :: _ =>
                     if isText top then [trim top] else []
                 | _ => []
                 end).
    assert (Hrows : rows = [] \/ exists x, rows = [x]).
    { unfold rows. destruct jsonData as [|[|top row] rest];
        try (now left). destruct (isText top); [right; eauto | now left]. }
    destruct (Z.eqb_spec r 0) as [-> | Hne].
    + unfold rows. destruct jsonData as [|[|top row] rest]; try reflexivity.
      destruct (isText top); reflexivity.
    + destruct Hrows as [-> | [x ->]]; cbn [List.length].
      * destruct (r + 1 <=? Z.of_nat 0); [|reflexivity].
        unfold item. destruct (r <? 0); [reflexivity|].
        now destruct (Z.to_nat r).
      * destruct (r + 1 <=? Z.of_nat 1) eqn:E; [|reflexivity].
        apply Z.leb_le in E. lia.
Qed.
End CellFacts.

(** X24. The cells of a sheet.  Parsing the rows of a sheet never
    throws.  There is one cell for every entry of the rows that is not
    empty and no other cell; a cell carries its position counted from 1,
    its reference, an identifier made of the identifier of the sheet
    name, the row and the column, and headers.  The identifiers of the
    cells of a sheet are pairwise distinct, as are those of its ranges;
    and a sheet whose name has the same identifier (it differs in case
    or in special characters only) gets the same cell identifiers. *)
Theorem parseSheet_builds_identified_cells :
  forall (parser_parse : string -> Exc FormulaParser.ParserOutput)
         (isNaN : string -> bool) (worksheet : string -> option string)
         (sheetName : string) (jsonData : Heuristics.Grid),
    exists data,
      ExcelParser.parseSheet parser_parse isNaN worksheet sheetName jsonData
        = Ok data /\
      NoDup (map Model.cell_id (ExcelParser.sheet_cells data)) /\
      NoDup (map Model.range_id (ExcelParser.sheet_ranges data)) /\
      (forall cell,
         In cell (ExcelParser.sheet_cells data) <->
         exists r c v,
           ExcelParser.valueAt jsonData r c = Some v /\
           v <> EmptyString /\
           cell = ExcelParser.parseCell parser_parse isNaN worksheet
                    sheetName (ExcelParser.sheet_headerInfo data)
                    jsonData r c v) /\
      (forall cell,
         In cell (ExcelParser.sheet_cells data) ->
         Model.cell_id cell
         = (ExcelParser.generateId sheetName ++ "_"
            ++ string_of_Z (Model.cell_row cell) ++ "_"
            ++ string_of_Z (Model.cell_column cell))%string /\
         Model.cell_cellRef cell
         = ExcelParser.getCellReference (Model.cell_row cell - 1)
             (Model.cell_column cell - 1) /\
         ExcelParser.valueAt jsonData (Model.cell_row cell - 1)
           (Model.cell_column cell - 1) = Model.cell_formattedValue cell /\
         Model.cell_headers cell <> None) /\
      (forall sheetName' data',
         ExcelParser.generateId sheetName'
           = ExcelParser.generateId sheetName ->
         ExcelParser.parseSheet parser_parse isNaN worksheet sheetName'
           jsonData = Ok data' ->
         map Model.cell_id (ExcelParser.sheet_cells data')
         = map Model.cell_id (ExcelParser.sheet_cells data)).
Proof.
  intros parser_parse isNaN worksheet sheetName jsonData.
  unfold ExcelParser.parseSheet. cbv zeta.
  set (headerInfo := Heuristics.detectHeaders jsonData
                       (Heuristics.mkDetectOptions None None)).
  set (cells := ExcelParser.parseCells parser_parse isNaN worksheet
                  sheetName headerInfo jsonData).
  assert (Hin : forall cell, In cell cells ->
            exists r c v,
              ExcelParser.valueAt jsonData r c = Some v /\
              v <> EmptyString /\
              cell = ExcelParser.parseCell parser_parse isNaN worksheet
                       sheetName headerInfo jsonData r c v)
    by (intros cell H; now apply In_parseCells).
  assert (Hhd : Forall (fun c => Model.cell_headers c <> None) cells).
  { apply Forall_forall. intros cell H.
    destruct (Hin cell H) as [r [c [v [_ [_ ->]]]]]. discriminate. }
  destruct (createRangeDocuments_returns cells headerInfo Hhd)
    as [ranges [Er Hnd]].
  rewrite Er. cbn [bindE]. eexists. split; [reflexivity|].
  cbn [ExcelParser.sheet_cells ExcelParser.sheet_ranges
       ExcelParser.sheet_headerInfo].
  split; [apply parseCells_NoDup|]. split; [exact Hnd|].
  split; [intros cell; apply In_parseCells|]. split.
  - intros cell H. destruct (Hin cell H) as [r [c [v [Hv [_ ->]]]]].
    unfold ExcelParser.parseCell. cbv zeta.
    cbn [Model.cell_id Model.cell_row Model.cell_column Model.cell_cellRef
         Model.cell_formattedValue Model.cell_headers].
    replace (r + 1 - 1)%Z with r by lia.
    replace (c + 1 - 1)%Z with c by lia.
    split; [reflexivity|]. split; [reflexivity|].
    split; [exact Hv | discriminate].
  - intros sheetName' data' Hid E.
    destruct (ExcelParser.createRangeDocuments _ headerInfo)
      as [ranges'|e] in E; cbn [bindE] in E; [|discriminate].
    injection E as <-. cbn [ExcelParser.sheet_cells].
    unfold cells. rewrite !parseCells_ids. now rewrite Hid.
Qed.

(** X25. The headers the parser assigns.  The column header of a cell
    is the entry of the list of non-blank first-row texts at the column
    of the cell; it is the text above the cell when no first-row entry
    up to that column is blank, and the text of a column further right
    otherwise.  A row header is given to the cells of the first row
    only, and it is the text of the top-left entry. *)
Theorem parseSheet_assigns_headers :
  forall (parser_parse : string -> Exc FormulaParser.ParserOutput)
         (isNaN : string -> bool) (worksheet : string -> option string)
         (sheetName : string) (jsonData : Heuristics.Grid)
         (data : ExcelParser.SheetData) (cell : Model.Cell),
    ExcelParser.parseSheet parser_parse isNaN worksheet sheetName jsonData
      = Ok data ->
    In cell (ExcelParser.sheet_cells data) ->
    Model.headers_column cell
    = item (map trim (filter Heuristics.isText (hd [] jsonData)))
        (Model.cell_column cell - 1) /\
    (forallb Heuristics.isText
       (firstn (Z.to_nat (Model.cell_column cell)) (hd [] jsonData)) = true ->
     Model.headers_column cell
     = option_map trim
         (ExcelParser.valueAt jsonData 0 (Model.cell_column cell - 1))) /\
    Model.headers_row cell
    = (if (Model.cell_row cell =? 1)%Z
       then match jsonData with
            | (top :: _) :: _ =>
                if Heuristics.isText top then Some (trim top) else None
            | _ => None
            end
       else None).
Proof.
  intros parser_parse isNaN worksheet sheetName jsonData data cell E Hin.
  unfold ExcelParser.parseSheet in E. cbv zeta in E.
  destruct (ExcelParser.createRangeDocuments _ _) as [ranges|e] in E;
    cbn [bindE] in E; [|discriminate].
  injection E as <-. cbn [ExcelParser.sheet_cells] in Hin.
  apply In_parseCells in Hin. destruct Hin as [r [c [v [Hv [_ ->]]]]].
  destruct (valueAt_bounds _ _ _ _ Hv) as [Hr Hc].
  destruct (parseCell_headers parser_parse isNaN worksheet sheetName
              jsonData r c v ltac:(lia) ltac:(lia)) as [H1 H2].
  assert (Hcol : Model.cell_column
                   (ExcelParser.parseCell parser_parse isNaN worksheet
                      sheetName
                      (Heuristics.detectHeaders jsonData
                         (Heuristics.mkDetectOptions None None))
                      jsonData r c v) = (c + 1)%Z) by reflexivity.
  assert (Hrow : Model.cell_row
                   (ExcelParser.parseCell parser_parse isNaN worksheet
                      sheetName
                      (Heuristics.detectHeaders jsonData
                         (Heuristics.mkDetectOptions None None))
                      jsonData r c v) = (r + 1)%Z) by reflexivity.
  rewrite Hcol, Hrow, H1, H2.
  replace (c + 1 - 1)%Z with c by lia.
  split; [reflexivity|]. split.
  - intros Hall. rewrite item_map.
    rewrite item_filter_prefix by exact Hall.
    unfold ExcelParser.valueAt.
    destruct jsonData as [|row rest]; [cbn in Hr; lia | reflexivity].
  - destruct (Z.eqb_spec r 0) as [-> | Hne].
    + reflexivity.
    + destruct (Z.eqb_spec (r + 1) 1) as [E | _]; [lia | reflexivity].
Qed.

(** In the sheet with a blank second entry in its first row, the cell
    B2 gets the header of column C and no row header. *)
Lemma parseSheet_assigns_headers_witness :
  Model.headers_column Samples.shiftedCell = Some "Revenue" /\
  Model.headers_row Samples.shiftedCell = None.
Proof.
  assert (E : exists data,
             Samples.gappedSheet = Ok data /\
             In Samples.shiftedCell (ExcelParser.sheet_cells data)).
  { eexists. split; [vm_compute; reflexivity|].
    right; right; right; left. vm_compute. reflexivity. }
  destruct E as [data [E Hin]].
  destruct (parseSheet_assigns_headers Samples.rejectingParser
              (fun _ => true) (fun _ => None) "Sales" Samples.gappedGrid
              data Samples.shiftedCell E Hin) as [H1 [_ H3]].
  split; [rewrite H1 | rewrite H3]; reflexivity.
Defined.

(* ================================================================== *)
(** * The embedding service: nearest vectors and the cache *)
(* ================================================================== *)

Section VectorFacts.
Import EmbeddingService.

Lemma insertBy_Permutation (A : Type) (positive : A -> A -> bool) (x : A)
  (l : list A) :
  Permutation (insertBy positive x l) (x :: l).
Proof.
  induction l as [|y l IH]; cbn [insertBy]; [apply Permutation_refl|].
  destruct (positive x y); [|apply Permutation_refl].
  eapply Permutation_trans; [apply perm_skip, IH | apply perm_swap].
Qed.

Lemma sortBy_Permutation (A : Type) (positive : A -> A -> bool)
  (l : list A) :
  Permutation (sortBy positive l) l.
Proof.
  induction l as [|x l IH]; cbn; [apply Permutation_refl|].
  eapply Permutation_trans; [apply insertBy_Permutation|].
  apply perm_skip, IH.
Qed.

(** Vectors of one length have a similarity. *)
Lemma cosine_returns (a b : list float) :
  List.length b = List.length a ->
  exists x, calculateCosineSimilarity binary64 a b = Ok x.
Proof.
  intros E. unfold calculateCosineSimilarity.
  destruct (Nat.eqb _ _) eqn:T.
  2:{ apply Nat.eqb_neq in T. exfalso. apply T. symmetry. exact E. }
  cbn [negb].
  destruct (accumulate binary64 a b _ _ _) as [[d na] nb].
  destruct (orb _ _); eexists; reflexivity.
Qed.

Lemma cosine_throws (a b : list float) :
  List.length b <> List.length a ->
  calculateCosineSimilarity binary64 a b
  = Throw "Vectors must have the same length".
Proof.
  intros E. unfold calculateCosineSimilarity.
  destruct (Nat.eqb _ _) eqn:T; [|reflexivity].
  apply Nat.eqb_eq in T. exfalso. apply E. symmetry. exact T.
Qed.

Lemma similarities_returns (queryVector : list float)
  (vectors : list (list float)) (n : nat) :
  Forall (fun v => List.length v = List.length queryVector) vectors ->
  exists similarities,
    mapE (Vocabulary.scored queryVector)
      (combine (seq n (List.length vectors)) vectors) = Ok similarities /\
    map sc_index similarities = seq n (List.length vectors) /\
    forall s, In s similarities ->
      (n <= sc_index s)%nat /\
      exists v, nth_error vectors (sc_index s - n) = Some v /\
                calculateCosineSimilarity binary64 queryVector v
                = Ok (sc_similarity s).
Proof.
  intros H. revert n.
  induction H as [|v vectors Hv _ IH]; intros n.
  - exists []. split; [reflexivity|]. split; [reflexivity|]. intros s [].
  - destruct (cosine_returns queryVector v Hv) as [x Ex].
    destruct (IH (S n)) as [rest [Er [Ei Hs]]].
    exists (mkScored n x :: rest).
    cbn [List.length seq combine mapE]. unfold Vocabulary.scored at 1.
    cbn [fst snd]. rewrite Ex. cbn [bindE]. rewrite Er. cbn [bindE].
    split; [reflexivity|]. split; [cbn [map sc_index]; now rewrite Ei|].
    intros s [<- | Hin].
    + cbn [sc_index sc_similarity]. split; [lia|].
      exists v. rewrite Nat.sub_diag. now split.
    + destruct (Hs s Hin) as [Hle [w [Hw Ew]]]. split; [lia|].
      exists w. split; [|exact Ew].
      replace (sc_index s - n)%nat with (S (sc_index s - S n)) by lia.
      exact Hw.
Qed.

Lemma similarities_throws (queryVector : list float)
  (vectors : list (list float)) (n : nat) :
  ~ Forall (fun v => List.length v = List.length queryVector) vectors ->
  mapE (Vocabulary.scored queryVector)
    (combine (seq n (List.length vectors)) vectors)
  = Throw "Vectors must have the same length".
Proof.
  revert n. induction vectors as [|v vectors IH]; intros n H.
  - exfalso. apply H. constructor.
  - cbn [List.length seq combine mapE]. unfold Vocabulary.scored at 1.
    cbn [fst snd].
    destruct (Nat.eq_dec (List.length v) (List.length queryVector))
      as [Ev | Ev].
    + destruct (cosine_returns queryVector v Ev) as [x Ex].
      rewrite Ex. cbn [bindE]. rewrite IH; [reflexivity|].
      intros Hall. apply H. now constructor.
    + now rewrite (cosine_throws queryVector v Ev).
Qed.

End VectorFacts.

Section CacheFacts.
Import EmbeddingService.

Lemma cacheGet_cacheSet (key : string) (e : list float)
  (cache : list (string * list float)) :
  cacheGet key (cacheSet key e cache) = Some e.
Proof.
  unfold cacheGet. induction cache as [|[k v] cache IH].
  - cbn. now rewrite String.eqb_refl.
  - cbn [cacheSet]. destruct (String.eqb k key) eqn:E; cbn [find fst].
    + now rewrite E.
    + rewrite E. exact IH.
Qed.

Lemma hashLoop_app (s t : string) (hash : Z) :
  hashLoop (s ++ t) hash = hashLoop t (hashLoop s hash).
Proof.
  revert hash. induction s as [|c s IH]; intros hash; cbn; [reflexivity|].
  apply IH.
Qed.

Lemma toInt32_mod (z : Z) :
  (toInt32 z mod 4294967296 = z mod 4294967296)%Z.
Proof.
  unfold toInt32.
  rewrite Zminus_mod, Z.mod_mod, <- Zminus_mod by lia.
  f_equal. lia.
Qed.

Lemma toInt32_eq (x y : Z) :
  (x mod 4294967296 = y mod 4294967296)%Z -> toInt32 x = toInt32 y.
Proof.
  intros E. unfold toInt32.
  rewrite (Zplus_mod x), (Zplus_mod y), E. reflexivity.
Qed.

(** One turn of the loop is [31 * hash + char], wrapped. *)
Lemma hashStep_value (hash : Z) (c : ascii) :
  hashStep hash c = toInt32 (31 * hash + charCode c).
Proof.
  unfold hashStep. apply toInt32_eq.
  rewrite <- Z.add_sub_swap, Zminus_mod, Zplus_mod, toInt32_mod.
  rewrite <- Zplus_mod, <- Zminus_mod. f_equal. lia.
Qed.

(** The hash does not tell "Aa" from "BB", wherever they stand. *)
Lemma hashText_collision (prefix suffix : string) :
  hashText (prefix ++ "Aa" ++ suffix) = hashText (prefix ++ "BB" ++ suffix).
Proof.
  unfold hashText. rewrite !hashLoop_app. do 2 f_equal.
  generalize (hashLoop prefix 0). intros hash.
  cbn [hashLoop String.append]. rewrite !hashStep_value. f_equal.
  apply toInt32_eq.
  change (charCode "A") with 65%Z. change (charCode "a") with 97%Z.
  change (charCode "B") with 66%Z.
  rewrite (Zplus_mod (31 * toInt32 (31 * hash + 65))).
  rewrite (Zplus_mod (31 * toInt32 (31 * hash + 66))).
  rewrite (Zmult_mod 31 (toInt32 (31 * hash + 65))).
  rewrite (Zmult_mod 31 (toInt32 (31 * hash + 66))).
  rewrite !toInt32_mod.
  rewrite <- !Zmult_mod, <- !Zplus_mod. f_equal. lia.
Qed.

Lemma initialize_ready (apiKey : option string) (st st' : CacheState) :
  initialize apiKey st = (st', Ok tt) ->
  ready st' = true /\ embeddingCache st' = embeddingCache st.
Proof.
  unfold initialize. destruct (ready st) eqn:R.
  - intros E. injection E as <-. now split.
  - destruct (truthy apiKey); [|discriminate].
    intros E. injection E as <-. now split.
Qed.

End CacheFacts.

(** X26. The nearest vectors.  When every vector has the length of the
    query vector, the result has one entry for each of the first
    positions of the ranking, as many as [topK] (10 when it is not
    given) and the number of vectors allow; the entries stand for
    different positions of the input, and each holds the similarity of
    the query vector and the vector at its position.  One vector of
    another length makes the whole call throw. *)
Theorem findSimilarVectors_returns_positions :
  forall (queryVector : list float) (vectors : list (list float))
         (topK : option nat),
    (Forall (fun v => List.length v = List.length queryVector) vectors ->
     exists found,
       EmbeddingService.findSimilarVectors queryVector vectors topK
       = Ok found /\
       List.length found
       = Nat.min (match topK with Some k => k | None => 10%nat end)
           (List.length vectors) /\
       NoDup (map EmbeddingService.sc_index found) /\
       forall s, In s found ->
         exists v,
           nth_error vectors (EmbeddingService.sc_index s) = Some v /\
           EmbeddingService.calculateCosineSimilarity
             EmbeddingService.binary64 queryVector v
           = Ok (EmbeddingService.sc_similarity s)) /\
    (~ Forall (fun v => List.length v = List.length queryVector) vectors ->
     EmbeddingService.findSimilarVectors queryVector vectors topK
     = Throw "Vectors must have the same length").
Proof.
  intros queryVector vectors topK. split; intros H.
  - destruct (similarities_returns queryVector vectors 0 H)
      as [sims [Es [Ei Hs]]].
    unfold EmbeddingService.findSimilarVectors.
    change (fun entry : nat * list float =>
              bindE (EmbeddingService.calculateCosineSimilarity
                       EmbeddingService.binary64 queryVector (snd entry))
                (fun similarity =>
                   Ok (EmbeddingService.mkScored (fst entry) similarity)))
      with (Vocabulary.scored queryVector).
    rewrite Es. cbn [bindE]. eexists. split; [reflexivity|].
    pose proof (sortBy_Permutation _ EmbeddingService.bySimilarity sims)
      as P.
    split; [|split].
    + unfold slice0. rewrite length_firstn.
      rewrite (Permutation_length P).
      rewrite <- (length_map EmbeddingService.sc_index sims), Ei.
      now rewrite length_seq.
    + unfold slice0. rewrite <- firstn_map. apply NoDup_firstn.
      apply (Permutation_NoDup
               (Permutation_sym
                  (Permutation_map EmbeddingService.sc_index P))).
      rewrite Ei. apply seq_NoDup.
    + intros s Hin. unfold slice0 in Hin. apply In_firstn in Hin.
      apply (Permutation_in _ P) in Hin.
      destruct (Hs s Hin) as [_ [v [Hv Ev]]]. exists v.
      rewrite Nat.sub_0_r in Hv. now split.
  - unfold EmbeddingService.findSimilarVectors.
    change (fun entry : nat * list float =>
              bindE (EmbeddingService.calculateCosineSimilarity
                       EmbeddingService.binary64 queryVector (snd entry))
                (fun similarity =>
                   Ok (EmbeddingService.mkScored (fst entry) similarity)))
      with (Vocabulary.scored queryVector).
    now rewrite (similarities_throws queryVector vectors 0 H).
Qed.

(** Two vectors of the length of the query, of which one is asked for. *)
Lemma findSimilarVectors_returns_positions_witness :
  exists found,
    EmbeddingService.findSimilarVectors [1%float; 0%float]
      [[0%float; 1%float]; [1%float; 0%float]] (Some 1%nat) = Ok found /\
    List.length found = 1%nat.
Proof.
  destruct (proj1 (findSimilarVectors_returns_positions
                     [1%float; 0%float]
                     [[0%float; 1%float]; [1%float; 0%float]]
                     (Some 1%nat)))
    as [found [E [L _]]].
  - repeat constructor.
  - exists found. split; [exact E | exact L].
Defined.

(** X27. The cache is keyed by a 32-bit hash of the text, so it cannot
    tell two texts of equal hash apart: once a text has an embedding, a
    request for any text of the same hash and type is answered with
    that embedding, whatever the provider would have returned for it,
    and the cache is left as it was. *)
Theorem generateEmbedding_shares_colliding_texts :
  forall (apiKey : option string)
         (create create' : string -> Exc (list float))
         (text1 text2 type : string)
         (st st1 : EmbeddingService.CacheState) (e : list float),
    EmbeddingService.hashText text1 = EmbeddingService.hashText text2 ->
    EmbeddingService.generateEmbedding apiKey create text1 type st
    = (st1, Ok e) ->
    EmbeddingService.generateEmbedding apiKey create' text2 type st1
    = (st1, Ok e).
Proof.
  intros apiKey create create' text1 text2 type st st1 e Eh E1.
  assert (G : EmbeddingService.ready st1 = true /\
              EmbeddingService.cacheGet
                (EmbeddingService.cacheKey type text1)
                (EmbeddingService.embeddingCache st1) = Some e).
  { unfold EmbeddingService.generateEmbedding in E1.
    destruct (EmbeddingService.initialize apiKey st) as [st' [[]|msg]]
      eqn:Ei; [|discriminate].
    destruct (initialize_ready apiKey st st' Ei) as [R _].
    destruct (EmbeddingService.cacheGet _ _) as [cached|] eqn:Ec.
    - injection E1 as <- <-. now split.
    - destruct (create text1) as [embedding|msg]; [|discriminate].
      injection E1 as <- <-.
      cbn [EmbeddingService.ready EmbeddingService.embeddingCache].
      split; [exact R | apply cacheGet_cacheSet]. }
  destruct G as [R Ec].
  unfold EmbeddingService.generateEmbedding, EmbeddingService.initialize.
  rewrite R.
  replace (EmbeddingService.cacheKey type text2)
    with (EmbeddingService.cacheKey type text1)
    by (unfold EmbeddingService.cacheKey; now rewrite Eh).
  now rewrite Ec.
Qed.

(** The texts "Aa" and "BB": the embedding of the first answers the
    request for the second. *)
Lemma generateEmbedding_shares_colliding_texts_witness :
  EmbeddingService.generateEmbedding (Some "key")
    (fun _ => Ok [2%float]) "BB" "cell"
    (EmbeddingService.mkCacheState true
       [("embedding_cell_1mo"%string, [1%float])])
  = (EmbeddingService.mkCacheState true
       [("embedding_cell_1mo"%string, [1%float])],
     Ok [1%float]).
Proof.
  refine (generateEmbedding_shares_colliding_texts (Some "key")
            (fun _ => Ok [1%float]) (fun _ => Ok [2%float]) "Aa" "BB" "cell"
            (EmbeddingService.mkCacheState false []) _ _ _ _).
  - exact (hashText_collision EmptyString EmptyString).
  - vm_compute. reflexivity.
Defined.

(* ================================================================== *)
(** * Comparing and grading result lists *)
(* ================================================================== *)

Section SetFacts.

Lemma dedupe_length (l seen : list string) :
  (List.length (dedupe l seen) <= List.length l)%nat.
Proof.
  revert seen. induction l as [|y l IH]; intros seen;
    cbn [dedupe List.length]; [lia|].
  destruct (existsb (String.eqb y) seen); cbn [List.length].
  - specialize (IH seen). lia.
  - specialize (IH (y :: seen)). lia.
Qed.

Lemma dedupe_full (l seen : list string) :
  List.length (dedupe l seen) = List.length l -> dedupe l seen = l.
Proof.
  revert seen. induction l as [|y l IH]; intros seen;
    cbn [dedupe List.length]; [reflexivity|].
  destruct (existsb (String.eqb y) seen); cbn [List.length].
  - intros E. pose proof (dedupe_length l seen). lia.
  - intros E. f_equal. apply IH. lia.
Qed.

(** A list that loses nothing when it is made a set had no duplicates. *)
Lemma unique_full (l : list string) :
  List.length (unique l) = List.length l -> NoDup l.
Proof.
  intros E. rewrite <- (dedupe_full l [] E). apply NoDup_unique.
Qed.

Lemma filter_swap_length (l1 l2 : list string) :
  NoDup l1 -> NoDup l2 ->
  List.length (filter (fun x => arrayIncludes l2 x) l1)
  = List.length (filter (fun x => arrayIncludes l1 x) l2).
Proof.
  intros H1 H2. apply Permutation_length.
  apply NoDup_Permutation; [now apply NoDup_filter..|].
  intros x. rewrite !filter_In, !arrayIncludes_In. tauto.
Qed.

(** The size of a union of two sets. *)
Lemma union_length (l1 l2 : list string) :
  NoDup l1 -> NoDup l2 ->
  (List.length (unique (l1 ++ l2))
   + List.length (filter (fun x => arrayIncludes l2 x) l1)
   = List.length l1 + List.length l2)%nat.
Proof.
  intros H1 H2.
  assert (P : Permutation (unique (l1 ++ l2))
                (l1 ++ filter (fun x => negb (arrayIncludes l1 x)) l2)).
  { apply NoDup_Permutation.
    - apply NoDup_unique.
    - apply NoDup_app; [exact H1 | now apply NoDup_filter|].
      intros x Hx Hf. apply filter_In in Hf. destruct Hf as [_ Hf].
      apply arrayIncludes_In in Hx. rewrite Hx in Hf. discriminate.
    - intros x. rewrite In_unique, !in_app_iff, filter_In.
      destruct (arrayIncludes l1 x) eqn:E.
      + apply arrayIncludes_In in E. tauto.
      + cbn [negb]. tauto. }
  rewrite (Permutation_length P), length_app.
  rewrite (filter_swap_length l1 l2 H1 H2).
  pose proof (filter_length (fun x => arrayIncludes l1 x) l2). lia.
Qed.

Lemma filter_full (A : Type) (f : A -> bool) (l : list A) :
  List.length (filter f l) = List.length l <->
  forall x, In x l -> f x = true.
Proof.
  induction l as [|y l IH]; cbn [filter List.length In].
  - split; [intros _ x [] | reflexivity].
  - destruct (f y) eqn:E; cbn [List.length]; split.
    + intros H x [<- | Hx]; [exact E|]. apply IH; [lia | exact Hx].
    + intros H. f_equal. apply IH. intros x Hx. apply H. now right.
    + intros H. pose proof (filter_length_le f l). lia.
    + intros H. rewrite (H y (or_introl eq_refl)) in E. discriminate.
Qed.

End SetFacts.

Section RatioFacts.
Import Vocabulary.

Lemma ofNat_pos (m : nat) :
  (0 < m)%nat -> (0 < inject_Z (Z.of_nat m))%Q.
Proof.
  intros H. change 0%Q with (inject_Z 0). rewrite <- Zlt_Qlt. lia.
Qed.

Lemma ofNat_le (n m : nat) :
  (n <= m)%nat -> (inject_Z (Z.of_nat n) <= inject_Z (Z.of_nat m))%Q.
Proof. intros H. rewrite <- Zle_Qle. lia. Qed.

(** The quotient of two counts: NaN for 0/0. *)
Lemma ratio_NaN (n : nat) : ndiv (ofNat n) (ofNat 0) = NaN.
Proof. reflexivity. Qed.

Lemma ratio_value (n m : nat) :
  (0 < m)%nat ->
  ndiv (ofNat n) (ofNat m)
  = Num (inject_Z (Z.of_nat n) / inject_Z (Z.of_nat m)).
Proof.
  intros H. unfold ndiv, ofNat. now rewrite (ofNat_positive m H).
Qed.

Lemma ratio_unit (n m : nat) :
  (n <= m)%nat -> (0 < m)%nat ->
  exists q, ndiv (ofNat n) (ofNat m) = Num q /\ (0 <= q <= 1)%Q /\
            ((q == 1)%Q <-> n = m).
Proof.
  intros Hle Hm. rewrite (ratio_value n m Hm). eexists.
  split; [reflexivity|].
  pose proof (ofNat_pos m Hm) as Pm.
  pose proof (ofNat_le n m Hle) as Pn.
  assert (P0 : (0 <= inject_Z (Z.of_nat n))%Q).
  { change 0%Q with (inject_Z 0). rewrite <- Zle_Qle. lia. }
  split; [split|].
  - apply Qle_shift_div_l; [exact Pm | Lqa.lra].
  - apply Qle_shift_div_r; [exact Pm | Lqa.lra].
  - split.
    + intros E.
      assert (Em : (inject_Z (Z.of_nat n) == inject_Z (Z.of_nat m))%Q).
      { rewrite <- (Qmult_div_r (inject_Z (Z.of_nat n))
                      (inject_Z (Z.of_nat m))) by Lqa.lra.
        rewrite E. ring. }
      unfold Qeq in Em. cbn [inject_Z Qnum Qden] in Em. lia.
    + intros ->. unfold Qdiv. apply Qmult_inv_r. Lqa.lra.
Qed.

Lemma ratio_le (n n' m : nat) :
  (n <= n')%nat -> (0 < m)%nat ->
  exists q q', ndiv (ofNat n) (ofNat m) = Num q /\
               ndiv (ofNat n') (ofNat m) = Num q' /\ (q <= q')%Q.
Proof.
  intros Hle Hm. rewrite !(ratio_value _ m Hm). do 2 eexists.
  split; [reflexivity|]. split; [reflexivity|].
  pose proof (ofNat_pos m Hm) as Pm.
  pose proof (ofNat_le n n' Hle) as Pn.
  unfold Qdiv. apply Qmult_le_compat_r; [exact Pn|].
  apply Qlt_le_weak, Qinv_lt_0_compat, Pm.
Qed.

End RatioFacts.

Section GradeFacts.
Import Model SearchService SearchRoute Evaluate Vocabulary.

(** The empty string is found in every result. *)
Lemma matches_empty (result : SearchResult) :
  matches (precisionConcepts result) EmptyString = true.
Proof.
  unfold matches, precisionConcepts. apply existsb_exists.
  exists (toLowerCase (toLowerCase (res_concept result))).
  split; [|apply includes_empty].
  apply in_map, in_or_app. right. now left.
Qed.

Lemma relevant_le (results : list SearchResult)
  (expectedConcepts : list string) (k : nat) :
  (List.length
     (filter (fun result =>
                existsb (matches (precisionConcepts result))
                  expectedConcepts)
             (slice0 k results))
   <= Nat.min k (List.length results))%nat.
Proof.
  unfold slice0. rewrite <- length_firstn. apply filter_length_le.
Qed.

Lemma foundConcepts_expected (results : list SearchResult)
  (expectedConcepts : list string) (k : nat) (c : string) :
  In c (foundConcepts results expectedConcepts k) <->
  exists result,
    In result (firstn k results) /\ In c expectedConcepts /\
    matches (recallConcepts result) c = true.
Proof.
  unfold foundConcepts, slice0. rewrite In_unique, in_flat_map.
  split; intros [result [Hr H]]; exists result.
  - apply filter_In in H. tauto.
  - split; [exact Hr|]. apply filter_In. tauto.
Qed.

Lemma firstn_le_In (A : Type) (k k' : nat) (l : list A) (x : A) :
  (k <= k')%nat -> In x (firstn k l) -> In x (firstn k' l).
Proof.
  intros Hle. replace k with (Nat.min k k') by lia.
  rewrite <- firstn_firstn. apply In_firstn.
Qed.

Lemma foundConcepts_grows (results : list SearchResult)
  (expectedConcepts : list string) (k k' : nat) :
  (k <= k')%nat ->
  (List.length (foundConcepts results expectedConcepts k)
   <= List.length (foundConcepts results expectedConcepts k'))%nat.
Proof.
  intros Hle. apply NoDup_incl_length; [apply NoDup_unique|].
  intros c Hc. apply foundConcepts_expected in Hc.
  destruct Hc as [result [Hr H]]. apply foundConcepts_expected.
  exists result. split; [|exact H].
  exact (firstn_le_In _ k k' results result Hle Hr).
Qed.

Lemma foundConcepts_bound (results : list SearchResult)
  (expectedConcepts : list string) (k : nat) :
  (List.length (foundConcepts results expectedConcepts k)
   <= List.length (unique expectedConcepts))%nat.
Proof.
  apply NoDup_incl_length; [apply NoDup_unique|].
  intros c Hc. apply foundConcepts_expected in Hc.
  destruct Hc as [result [_ [H _]]]. now apply In_unique.
Qed.

End GradeFacts.

(** X28. The overlap of two result lists.  The sizes are those of sets
    of identifiers: the union has as many members as the two lists have
    different identifiers, less the shared ones, and neither difference
    is negative.  The Jaccard index is NaN when both lists are empty;
    in every other case it is a number from 0 to 1, and it is 1 exactly
    when the two lists hold the same identifiers. *)
Theorem calculateOverlap_counts :
  forall results1 results2 : list SearchService.SearchResult,
    (Z.of_nat (SearchRoute.union
                 (SearchRoute.calculateOverlap results1 results2))
     = SearchRoute.semanticOnly
         (SearchRoute.calculateOverlap results1 results2)
       + SearchRoute.keywordOnly
           (SearchRoute.calculateOverlap results1 results2)
       + Z.of_nat (SearchRoute.intersection
                     (SearchRoute.calculateOverlap results1 results2)))%Z /\
    (0 <= SearchRoute.semanticOnly
            (SearchRoute.calculateOverlap results1 results2))%Z /\
    (0 <= SearchRoute.keywordOnly
            (SearchRoute.calculateOverlap results1 results2))%Z /\
    (results1 = [] /\ results2 = [] ->
     SearchRoute.jaccard (SearchRoute.calculateOverlap results1 results2)
     = NaN) /\
    (results1 <> [] \/ results2 <> [] ->
     exists q,
       SearchRoute.jaccard (SearchRoute.calculateOverlap results1 results2)
       = Num q /\ (0 <= q <= 1)%Q /\
       ((q == 1)%Q <->
        forall id, In id (map SearchService.res_id results1) <->
                   In id (map SearchService.res_id results2))).
Proof.
  intros results1 results2.
  unfold SearchRoute.calculateOverlap. cbv zeta.
  cbn [SearchRoute.union SearchRoute.semanticOnly SearchRoute.keywordOnly
       SearchRoute.intersection SearchRoute.jaccard].
  set (ids1 := unique (map SearchService.res_id results1)).
  set (ids2 := unique (map SearchService.res_id results2)).
  assert (N1 : NoDup ids1) by apply NoDup_unique.
  assert (N2 : NoDup ids2) by apply NoDup_unique.
  rewrite (unique_NoDup_id (filter (fun id => arrayIncludes ids2 id) ids1))
    by now apply NoDup_filter.
  pose proof (union_length ids1 ids2 N1 N2) as U.
  pose proof (filter_length_le (fun id => arrayIncludes ids2 id) ids1) as L1.
  pose proof (filter_length_le (fun id => arrayIncludes ids1 id) ids2) as L2.
  pose proof (filter_swap_length ids1 ids2 N1 N2) as S.
  split; [lia|]. split; [lia|]. split; [lia|]. split.
  - intros [-> ->]. reflexivity.
  - intros Hne.
    assert (Hu : (0 < List.length (unique (ids1 ++ ids2)))%nat).
    { destruct Hne as [Hne | Hne].
      - destruct ids1 as [|i ids1'] eqn:E.
        + apply unique_nil in E. destruct results1; [tauto | discriminate].
        + cbn [List.length] in U. lia.
      - destruct ids2 as [|i ids2'] eqn:E.
        + apply unique_nil in E. destruct results2; [tauto | discriminate].
        + cbn [List.length] in U. lia. }
    destruct (ratio_unit
                (List.length
                   (filter (fun id => arrayIncludes ids2 id) ids1))
                (List.length (unique (ids1 ++ ids2))) ltac:(lia) Hu)
      as [q [Eq [Hq H1]]].
    exists q. split; [exact Eq|]. split; [exact Hq|].
    rewrite H1. split.
    + intros E id.
      assert (F1 : List.length
                     (filter (fun id => arrayIncludes ids2 id) ids1)
                   = List.length ids1) by lia.
      assert (F2 : List.length
                     (filter (fun id => arrayIncludes ids1 id) ids2)
                   = List.length ids2) by lia.
      rewrite filter_full in F1, F2.
      rewrite <- (In_unique (map SearchService.res_id results1)).
      rewrite <- (In_unique (map SearchService.res_id results2)).
      fold ids1 ids2. split; intros Hin.
      * apply arrayIncludes_In. now apply F1.
      * apply arrayIncludes_In. now apply F2.
    + intros Hsame.
      assert (F1 : List.length
                     (filter (fun id => arrayIncludes ids2 id) ids1)
                   = List.length ids1).
      { apply filter_full. intros x Hx. apply arrayIncludes_In.
        unfold ids1, ids2 in *. rewrite In_unique in *. now apply Hsame. }
      assert (F2 : List.length
                     (filter (fun id => arrayIncludes ids1 id) ids2)
                   = List.length ids2).
      { apply filter_full. intros x Hx. apply arrayIncludes_In.
        unfold ids1, ids2 in *. rewrite In_unique in *. now apply Hsame. }
      lia.
Qed.

(** Two lists with one shared result out of three. *)
Lemma calculateOverlap_counts_witness :
  exists q,
    SearchRoute.jaccard
      (SearchRoute.calculateOverlap
         [Samples.revenueResult; Samples.costResult]
         [Samples.costResult]) = Num q /\
    (0 <= q <= 1)%Q.
Proof.
  destruct (proj2 (proj2 (proj2 (proj2
              (calculateOverlap_counts
                 [Samples.revenueResult; Samples.costResult]
                 [Samples.costResult])))))
    as [q [E [Hq _]]].
  - left. discriminate.
  - exists q. split; [exact E | exact Hq].
Defined.

(** X29. Precision at k.  The quotient is that of two counts, the
    relevant results among the first [k] and the smaller of [k] and the
    number of results: it is NaN (0/0) when [k] is 0 or there is no
    result, and in every other case a number from 0 to 1, which is 1
    exactly when every result read is relevant.  An expected concept
    that is the empty string is found in every result, which makes the
    precision 1. *)
Theorem calculatePrecisionAtK_range :
  forall (results : list SearchService.SearchResult)
         (expectedConcepts : list string) (k : nat),
    (k = 0%nat \/ results = [] ->
     Evaluate.calculatePrecisionAtK results expectedConcepts k = NaN) /\
    (k <> 0%nat /\ results <> [] ->
     exists q,
       Evaluate.calculatePrecisionAtK results expectedConcepts k = Num q /\
       (0 <= q <= 1)%Q /\
       ((q == 1)%Q <->
        forall result,
          In result (firstn k results) ->
          existsb (Evaluate.matches (Evaluate.precisionConcepts result))
            expectedConcepts = true) /\
       (In EmptyString expectedConcepts -> (q == 1)%Q)).
Proof.
  intros results expectedConcepts k. split.
  - intros H. unfold Evaluate.calculatePrecisionAtK. cbv zeta.
    destruct H as [-> | ->].
    + cbn [Nat.min]. apply ratio_NaN.
    + rewrite Nat.min_0_r. apply ratio_NaN.
  - intros [Hk Hr].
    assert (Hm : (0 < Nat.min k (List.length results))%nat).
    { destruct results; [tauto|]. cbn [List.length]. lia. }
    unfold Evaluate.calculatePrecisionAtK. cbv zeta.
    destruct (ratio_unit _ _ (relevant_le results expectedConcepts k) Hm)
      as [q [Eq [Hq H1]]].
    exists q. split; [exact Eq|]. split; [exact Hq|].
    assert (Hall : (q == 1)%Q <->
                   forall result,
                     In result (firstn k results) ->
                     existsb (Evaluate.matches
                                (Evaluate.precisionConcepts result))
                       expectedConcepts = true).
    { rewrite H1. unfold slice0. rewrite <- length_firstn.
      apply filter_full. }
    split; [exact Hall|].
    intros Hin. apply Hall. intros result _. apply existsb_exists.
    exists EmptyString. split; [exact Hin | apply matches_empty].
Qed.

(** Two results graded at k = 3 against one expected concept. *)
Lemma calculatePrecisionAtK_range_witness :
  exists q,
    Evaluate.calculatePrecisionAtK
      [Samples.revenueResult; Samples.costResult] ["Revenue"] 3 = Num q /\
    (0 <= q <= 1)%Q.
Proof.
  destruct (proj2 (calculatePrecisionAtK_range
                     [Samples.revenueResult; Samples.costResult]
                     ["Revenue"] 3))
    as [q [E [Hq _]]].
  - split; discriminate.
  - exists q. split; [exact E | exact Hq].
Defined.

(** X30. Recall at k.  The recall is NaN when no concept is expected;
    otherwise it is a number from 0 to 1 that does not decrease when
    more results are read.  The concepts found are counted as a set and
    divided by the length of the list of expected concepts, so a recall
    of 1 is reached only if no expected concept is listed twice. *)
Theorem calculateRecallAtK_range :
  forall (results : list SearchService.SearchResult)
         (expectedConcepts : list string) (k : nat),
    (expectedConcepts = [] ->
     Evaluate.calculateRecallAtK results expectedConcepts k = NaN) /\
    (expectedConcepts <> [] ->
     exists q,
       Evaluate.calculateRecallAtK results expectedConcepts k = Num q /\
       (0 <= q <= 1)%Q /\
       ((q == 1)%Q -> NoDup expectedConcepts) /\
       forall k', (k <= k')%nat ->
         exists q',
           Evaluate.calculateRecallAtK results expectedConcepts k' = Num q' /\
           (q <= q')%Q).
Proof.
  intros results expectedConcepts k. split.
  - intros ->. apply ratio_NaN.
  - intros Hne.
    assert (Hm : (0 < List.length expectedConcepts)%nat).
    { destruct expectedConcepts; [tauto|]. cbn [List.length]. lia. }
    pose proof (foundConcepts_bound results expectedConcepts k) as B.
    pose proof (unique_length expectedConcepts) as L.
    unfold Evaluate.calculateRecallAtK.
    destruct (ratio_unit
                (List.length
                   (Evaluate.foundConcepts results expectedConcepts k))
                (List.length expectedConcepts) ltac:(lia) Hm)
      as [q [Eq [Hq H1]]].
    exists q. split; [exact Eq|]. split; [exact Hq|]. split.
    + intros E. apply H1 in E. apply unique_full. lia.
    + intros k' Hle.
      destruct (ratio_le _ _ (List.length expectedConcepts)
                  (foundConcepts_grows results expectedConcepts k k' Hle)
                  Hm) as [q0 [q' [E0 [E' Hqq]]]].
      exists q'. split; [exact E'|].
      rewrite Eq in E0. injection E0 as <-. exact Hqq.
Qed.

(** Two results graded at k = 1 against two expected concepts. *)
Lemma calculateRecallAtK_range_witness :
  exists q,
    Evaluate.calculateRecallAtK
      [Samples.revenueResult; Samples.costResult] ["Revenue"; "Cost"] 1
    = Num q /\
    (0 <= q <= 1)%Q.
Proof.
  destruct (proj2 (calculateRecallAtK_range
                     [Samples.revenueResult; Samples.costResult]
                     ["Revenue"; "Cost"] 1))
    as [q [E [Hq _]]].
  - discriminate.
  - exists q. split; [exact E | exact Hq].
Defined.
